(** * CryptoBreaker: a shallow embedding of the cryptanalysis core

    The C++ sources embedded here are [Utils] (unnamed/part_002),
    [FrequencyAnalyzer] (src/FrequencyAnalyzer.cpp), [CipherBreaker]
    (src/main.cpp, last part), [CaesarBreaker] (unnamed/part_003),
    [SubstitutionBreaker] (src/SubstitutionBreaker.cpp, unnamed/part_005),
    [VigenereBreaker] (src/VigenereBreaker.cpp), [LanguageDetector]
    (src/LanguageDetector.cpp) and [AutoCipherDetector]
    (src/AutoCipherDetector.cpp).

    Conventions of the embedding.
    - [char] is a byte, [std::string] is [string]; [int] and [size_t] are [Z],
      and every place where the source lets a [size_t] difference wrap around
      is written out at the function concerned; so are the [int] sums and
      products that a shift or a long text takes past [INT_MAX], with the
      two's complement value the compiled program gets ([int32]).
    - [double] is modelled by the exact rationals [Q]: rounding is not
      modelled.  The one place where the source can compute a value that is
      not a number, [AutoCipherDetector::calculateSubstitutionScore], returns
      an [option Q].
    - A call can fail by a C++ exception, by an undefined operation or by
      reaching the end of the tape of pseudo-random draws: see [result].
    - [std::map] is an association list kept in key order, so that iterating
      it visits the keys in the order the source does.
    - [std::sort] is a stable insertion sort; the standard leaves the order of
      equivalent elements unspecified.
    - Objects are records; a method that writes a member takes the object and
      returns the new one.  Wall-clock time ([analysisTimeMs]) and verbose
      printing are left out. *)

From Stdlib Require Import ZArith QArith Qminmax Qabs List String Ascii Bool Lia.
From Stdlib Require Import Permutation Sorted FinFun.
Import ListNotations.

Local Open Scope string_scope.
Local Open Scope Z_scope.

(* ================================================================= *)
(** ** The C++ substrate *)

Module Cxx.

(** How a call can end without a value. *)
Inductive failure : Type :=
| out_of_range          (* std::out_of_range, thrown by std::string::substr *)
| length_error          (* std::length_error, thrown by a vector constructor *)
| undefined_behaviour   (* integer division by zero *)
| no_return             (* a loop of 2^64 passes or so, or without end *)
| rng_exhausted.        (* the finite tape of random draws ran out *)

Inductive result (A : Type) : Type :=
| Ok (a : A)
| Fail (f : failure).
Arguments Ok {A} a.
Arguments Fail {A} f.

Definition bind {A B} (r : result A) (k : A -> result B) : result B :=
  match r with
  | Ok a => k a
  | Fail f => Fail f
  end.

(** A loop body run over the successive values of the loop variable, the
    first failure ending the loop. *)
Fixpoint mapM {A B} (f : A -> result B) (l : list A) : result (list B) :=
  match l with
  | [] => Ok []
  | x :: l' =>
      match f x with
      | Ok y => match mapM f l' with
                | Ok ys => Ok (y :: ys)
                | Fail e => Fail e
                end
      | Fail e => Fail e
      end
  end.

Fixpoint foldM {A S} (f : S -> A -> result S) (l : list A) (s : S)
  : result S :=
  match l with
  | [] => Ok s
  | x :: l' =>
      match f s x with
      | Ok s' => foldM f l' s'
      | Fail e => Fail e
      end
  end.

(** [static_cast<int>(c)] for the byte values the program works on, and
    [static_cast<char>(z)], which keeps the low eight bits. *)
Definition int_of_char (c : ascii) : Z := Z.of_N (N_of_ascii c).
Definition char_of_int (z : Z) : ascii := ascii_of_N (Z.to_N (z mod 256)).

(** [int] has 32 bits.  [int32 z] is what an [int] holds after a sum or a
    product whose exact value is [z]: past [INT_MAX] the value wraps around
    in two's complement, which is what the compilers of the project's
    platforms produce (the standard leaves signed overflow undefined).  The
    exact values that arise in the program, a sum of an [int] and a number
    from 0 to 26 or a product of two counts, are never below the least
    [int]. *)
Definition INT_MAX : Z := 2 ^ 31 - 1.
Definition int32 (z : Z) : Z :=
  if INT_MAX <? z then (z + 2 ^ 31) mod 2 ^ 32 - 2 ^ 31 else z.

(** <cctype> in the "C" locale (the program never calls setlocale): only the
    52 ASCII letters are alphabetic. *)
Definition isupper (c : ascii) : bool :=
  (65 <=? int_of_char c) && (int_of_char c <=? 90).
Definition islower (c : ascii) : bool :=
  (97 <=? int_of_char c) && (int_of_char c <=? 122).
Definition isalpha (c : ascii) : bool := isupper c || islower c.
Definition toupper (c : ascii) : ascii :=
  if islower c then char_of_int (int_of_char c - 32) else c.
Definition tolower (c : ascii) : ascii :=
  if isupper c then char_of_int (int_of_char c + 32) else c.

(** [std::string] helpers. *)
Fixpoint string_map (f : ascii -> ascii) (s : string) : string :=
  match s with
  | EmptyString => EmptyString
  | String c s' => String (f c) (string_map f s')
  end.

Fixpoint string_filter (p : ascii -> bool) (s : string) : string :=
  match s with
  | EmptyString => EmptyString
  | String c s' => if p c then String c (string_filter p s')
                   else string_filter p s'
  end.

Definition size (s : string) : Z := Z.of_nat (String.length s).

(** [s.substr(pos, len)]: throws when [pos > s.size()], otherwise the at
    most [len] characters from [pos] on. *)
Definition substr (s : string) (pos len : nat) : result string :=
  if (String.length s <? pos)%nat then Fail out_of_range
  else Ok (String.substring pos len s).

(** [s.find(w) != std::string::npos]. *)
Definition contains (s w : string) : bool :=
  match String.index 0 w s with Some _ => true | None => false end.

(** [std::sort(first, last, comp)], as a stable insertion sort.
    [std::sort] promises the order of [comp] and nothing on the elements
    that [comp] holds equivalent, which the library may exchange (libstdc++
    does beyond 16 entries).  The statements on a sorted vector therefore
    hold of every ordering by [comp] of the same elements: the order of
    the keys, the elements as a permutation, the length. *)
Section Sort.
Context {A : Type} (comp : A -> A -> bool).

Fixpoint insert (x : A) (l : list A) : list A :=
  match l with
  | [] => [x]
  | y :: l' => if comp x y then x :: y :: l' else y :: insert x l'
  end.

Definition std_sort (l : list A) : list A :=
  fold_left (fun acc x => insert x acc) l [].
End Sort.

(** [std::map<K,V>] as an association list in key order. *)
Section Map.
Context {K V : Type} (cmp : K -> K -> comparison).

(** [m.find(k)] *)
Fixpoint find (k : K) (m : list (K * V)) : option V :=
  match m with
  | [] => None
  | (k', v) :: m' =>
      match cmp k k' with
      | Eq => Some v
      | _ => find k m'
      end
  end.

(** [m[k] = f(m[k])], where [m[k]] value-initialises a missing entry to
    [d]. *)
Fixpoint update (k : K) (d : V) (f : V -> V) (m : list (K * V))
  : list (K * V) :=
  match m with
  | [] => [(k, f d)]
  | (k', v) :: m' =>
      match cmp k k' with
      | Eq => (k', f v) :: m'
      | Lt => (k, f d) :: (k', v) :: m'
      | Gt => (k', v) :: update k d f m'
      end
  end.

(** [m[k] = v] *)
Definition assign (k : K) (v : V) (m : list (K * V)) : list (K * V) :=
  update k v (fun _ => v) m.
End Map.

(** [for (int i = lo; i <= hi; i++)] as the list of the values of [i]. *)
Definition range_incl (lo hi : Z) : list Z :=
  map (fun k => lo + Z.of_nat k) (seq 0 (Z.to_nat (hi - lo + 1))).

(** The 26 values of [for (char c = 'A'; c <= 'Z'; c++)]. *)
Definition alphabet : list ascii :=
  map char_of_int (range_incl 65 90).

(** Comparisons on [double]. *)
Definition Qltb (x y : Q) : bool := negb (Qle_bool y x).

End Cxx.

Import Cxx.

Declare Scope cxx_scope.
Notation "x <- e ;; k" := (bind e (fun x => k))
  (at level 61, e at next level, right associativity) : cxx_scope.
Notation "' p <- e ;; k" := (bind e (fun p => k))
  (at level 61, p pattern, e at next level, right associativity) : cxx_scope.
Local Open Scope cxx_scope.

(* ================================================================= *)
(** ** namespace Utils (unnamed/part_002) *)

Module Utils.

Definition toUpperCase (text : string) : string := string_map toupper text.
Definition toLowerCase (text : string) : string := string_map tolower text.
Definition removeNonAlpha (text : string) : string :=
  string_filter isalpha text.

Definition normalizeText (text : string) : string :=
  toUpperCase (removeNonAlpha text).

(** The number of alphabetic characters, [alphaCount] in [isValidInput]. *)
Fixpoint alphaCount (text : string) : Z :=
  match text with
  | EmptyString => 0
  | String c s => (if isalpha c then 1 else 0) + alphaCount s
  end.

(** [alphaCount >= text.length() * 0.5], compared in [double]; both sides
    are exact there, so the test is [2 * alphaCount >= length]. *)
Definition isValidInput (text : string) : bool :=
  match text with
  | EmptyString => false
  | _ => size text <=? 2 * alphaCount text
  end.

(** [Utils::split]: the non-empty pieces between delimiters. *)
Fixpoint split_aux (delimiter : ascii) (text : string) (token : string)
  : list string :=
  match text with
  | EmptyString => match token with EmptyString => [] | _ => [token] end
  | String c s =>
      if Ascii.eqb c delimiter
      then match token with
           | EmptyString => split_aux delimiter s EmptyString
           | _ => token :: split_aux delimiter s EmptyString
           end
      else split_aux delimiter s (token ++ String c EmptyString)
  end.

Definition split (text : string) (delimiter : ascii) : list string :=
  split_aux delimiter text EmptyString.

(** [" \t\n\r\f\v"], the characters [trim] strips. *)
Definition whitespace : list ascii :=
  [" "%char; "009"%char; "010"%char; "013"%char; "012"%char; "011"%char].

(** [s.find_first_not_of(set)] and [s.find_last_not_of(set)]; [None] is
    [std::string::npos]. *)
Fixpoint find_first_not_of (set : list ascii) (s : string) : option nat :=
  match s with
  | EmptyString => None
  | String c s' =>
      if existsb (Ascii.eqb c) set
      then option_map S (find_first_not_of set s')
      else Some O
  end.

Fixpoint find_last_not_of (set : list ascii) (s : string) : option nat :=
  match s with
  | EmptyString => None
  | String c s' =>
      match find_last_not_of set s' with
      | Some i => Some (S i)
      | None => if existsb (Ascii.eqb c) set then None else Some O
      end
  end.

(** [std::string::npos], and the arithmetic of a [size_t] of 64 bits. *)
Definition npos : Z := 2 ^ 64 - 1.
Definition size_t (z : Z) : Z := z mod 2 ^ 64.

(** [Utils::trim].  [start] is an index of [text], so [substr] does not
    throw; it returns at most [len] characters. *)
Definition trim (text : string) : string :=
  match find_first_not_of whitespace text with
  | None => EmptyString
  | Some start =>
      let end_ := match find_last_not_of whitespace text with
                  | Some e => Z.of_nat e
                  | None => npos
                  end in
      let len := size_t (end_ - Z.of_nat start + 1) in
      String.substring start
        (Z.to_nat (Z.min len (size text - Z.of_nat start))) text
  end.

End Utils.

(* ================================================================= *)
(** ** class FrequencyAnalyzer (src/FrequencyAnalyzer.cpp) *)

Module FrequencyAnalyzer.

Local Open Scope Q_scope.

(** [languageFrequencies], as [initializeDefaultFrequencies] fills it.
    Loading further tables from files is outside the embedding. *)
Definition english : list (ascii * Q) :=
  [("A"%char, 8.12); ("B"%char, 1.49); ("C"%char, 2.78); ("D"%char, 4.25);
   ("E"%char, 12.02); ("F"%char, 2.23); ("G"%char, 2.02); ("H"%char, 6.09);
   ("I"%char, 6.97); ("J"%char, 0.15); ("K"%char, 0.77); ("L"%char, 4.03);
   ("M"%char, 2.41); ("N"%char, 6.75); ("O"%char, 7.51); ("P"%char, 1.93);
   ("Q"%char, 0.10); ("R"%char, 5.99); ("S"%char, 6.33); ("T"%char, 9.06);
   ("U"%char, 2.76); ("V"%char, 0.98); ("W"%char, 2.36); ("X"%char, 0.15);
   ("Y"%char, 1.97); ("Z"%char, 0.07)].

Definition turkish : list (ascii * Q) :=
  [("A"%char, 11.92); ("B"%char, 2.65); ("C"%char, 0.96); ("D"%char, 4.87);
   ("E"%char, 8.91); ("F"%char, 0.41); ("G"%char, 1.24); ("H"%char, 1.16);
   ("I"%char, 8.60); ("J"%char, 0.00); ("K"%char, 4.68); ("L"%char, 5.92);
   ("M"%char, 3.75); ("N"%char, 7.23); ("O"%char, 2.72); ("P"%char, 0.84);
   ("Q"%char, 0.00); ("R"%char, 6.92); ("S"%char, 3.01); ("T"%char, 5.71);
   ("U"%char, 3.39); ("V"%char, 0.95); ("W"%char, 0.00); ("X"%char, 0.00);
   ("Y"%char, 3.34); ("Z"%char, 1.52)].

Definition getLanguageFrequencies (language : string) : list (ascii * Q) :=
  if String.eqb language "english" then english
  else if String.eqb language "turkish" then turkish
  else [].

(** The counting loop shared by [calculateFrequency] and
    [calculateIndexOfCoincidence]: [counts[toupper(c)]++] and
    [totalAlphaChars++] for every alphabetic [c]. *)
Fixpoint countLetters (text : string) (counts : list (ascii * Z))
  (totalAlphaChars : Z) : list (ascii * Z) * Z :=
  match text with
  | EmptyString => (counts, totalAlphaChars)
  | String c s =>
      if isalpha c
      then countLetters s
             (update Ascii.compare (toupper c) 0%Z Z.succ counts)
             (totalAlphaChars + 1)%Z
      else countLetters s counts totalAlphaChars
  end.

(** [normalized[pair.first] = pair.second / totalChars * 100.0] for every
    pair of [frequencies], visited in key order.  The value is the exact
    quotient, where the [double] is the nearest one to it: a statement on
    the sum of the values, as that they make 100, holds of the quotients
    and not of the [double]s, which on ["ABC"] add up to a little less. *)
Definition normalizeFrequencies (frequencies : list (ascii * Z))
  (totalChars : Z) : list (ascii * Q) :=
  if (totalChars =? 0)%Z then []
  else map (fun p => (fst p, (inject_Z (snd p) / inject_Z totalChars) * 100))
         frequencies.

Definition calculateFrequency (text : string) : list (ascii * Q) :=
  let '(counts, totalAlphaChars) := countLetters text [] 0%Z in
  normalizeFrequencies counts totalAlphaChars.

(** A missing letter reads as [0.0]. *)
Definition lookup0 (c : ascii) (m : list (ascii * Q)) : Q :=
  match find Ascii.compare c m with
  | Some v => v
  | None => 0
  end.

Definition chiSquaredTest (observed expected : list (ascii * Q)) : Q :=
  fold_left
    (fun chiSquared c =>
       let obs := lookup0 c observed in
       let exp := lookup0 c expected in
       if Qltb 0 exp
       then let diff := obs - exp in chiSquared + (diff * diff) / exp
       else chiSquared)
    alphabet 0.

(** [calculateIndexOfCoincidence].  The products [ni * (ni - 1)] and
    [totalAlphaChars * (totalAlphaChars - 1)] are products of [int]s: from
    46342 letters on they pass [INT_MAX]. *)
Definition calculateIndexOfCoincidence (text : string) : Q :=
  let '(counts, totalAlphaChars) := countLetters text [] 0%Z in
  if (totalAlphaChars <=? 1)%Z then 0
  else
    let ic := fold_left
                (fun ic p => let ni := snd p in
                             ic + inject_Z (int32 (ni * (ni - 1))))
                counts 0 in
    ic / inject_Z (int32 (totalAlphaChars * (totalAlphaChars - 1))).

(** The windows [text.substr(i, n)] for [i = 0 .. text.length() - n]. *)
Definition windows (n : nat) (text : string) : list string :=
  map (fun i => String.substring i n text)
    (seq 0 (String.length text + 1 - n)).

(** [findCommonBigrams].  The loop bound [normalizedText.length() - 1] is a
    [size_t]: on an empty text it wraps around, [substr(0,2)] still
    succeeds and [substr(1,2)] throws.  [count] is compared as a [size_t],
    so a negative one cuts nothing.  [totalBigrams] is an [int]; so are the
    counts, which stay below it as long as it has not wrapped. *)
Definition findCommonBigrams (text : string) (count : Z)
  : result (list (string * Q)) :=
  let normalizedText := Utils.normalizeText text in
  if (String.length normalizedText =? 0)%nat then Fail out_of_range
  else
    let bigramCounts :=
      fold_left
        (fun counts bigram => update String.compare bigram 0%Z Z.succ counts)
        (windows 2 normalizedText) [] in
    let totalBigrams := int32 (size normalizedText - 1) in
    let bigrams :=
      map (fun p => (fst p,
                      (inject_Z (snd p) / inject_Z totalBigrams) * 100))
        bigramCounts in
    let sorted := std_sort (fun a b => Qltb (snd b) (snd a)) bigrams in
    Ok (if (0 <=? count)%Z && (count <? Z.of_nat (List.length sorted))%Z
        then firstn (Z.to_nat count) sorted
        else sorted).

Definition scoreEnglishness (text : string) : Q :=
  let textFreq := calculateFrequency text in
  let englishFreq := getLanguageFrequencies "english" in
  match englishFreq with
  | [] => 0
  | _ => let chiSq := chiSquaredTest textFreq englishFreq in
         1 / (1 + chiSq)
  end.

(** [findCommonTrigrams].  The loop bound [normalizedText.length() - 2] is a
    [size_t]: on a text of fewer than two letters it wraps around and
    [substr] throws at the first index past the end.  With exactly two
    letters the loop does not run and no frequency is computed. *)
Definition findCommonTrigrams (text : string) (count : Z)
  : result (list (string * Q)) :=
  let normalizedText := Utils.normalizeText text in
  if (String.length normalizedText <? 2)%nat then Fail out_of_range
  else
    let trigramCounts :=
      fold_left
        (fun counts trigram => update String.compare trigram 0%Z Z.succ counts)
        (windows 3 normalizedText) [] in
    let totalTrigrams := int32 (size normalizedText - 2) in
    let trigrams :=
      map (fun p => (fst p,
                      (inject_Z (snd p) / inject_Z totalTrigrams) * 100))
        trigramCounts in
    let sorted := std_sort (fun a b => Qltb (snd b) (snd a)) trigrams in
    Ok (if (0 <=? count)%Z && (count <? Z.of_nat (List.length sorted))%Z
        then firstn (Z.to_nat count) sorted
        else sorted).

(** The member [languageFrequencies] as the map it is, in key order. *)
Definition languageFrequencies : list (string * list (ascii * Q)) :=
  [("english", english); ("turkish", turkish)].

Definition getSupportedLanguages : list string :=
  map fst languageFrequencies.

(** [std::numeric_limits<double>::max()] *)
Definition DBL_MAX : Q := inject_Z (2 ^ 1024 - 2 ^ 971).

(** The loop of [detectLanguage] over the tables [profiles]:
    [(bestScore, bestLanguage)] at its end. *)
Definition bestMatch (textFreq : list (ascii * Q))
  (profiles : list (string * list (ascii * Q))) : Q * string :=
  fold_left
    (fun best langPair =>
       let score := chiSquaredTest textFreq (snd langPair) in
       if Qltb score (fst best) then (score, fst langPair) else best)
    profiles (DBL_MAX, "unknown").

Definition detectLanguage (text : string) : string :=
  let textFreq := calculateFrequency text in
  snd (bestMatch textFreq languageFrequencies).

End FrequencyAnalyzer.

(* ================================================================= *)
(** ** class LanguageDetector (src/LanguageDetector.cpp) *)

Module LanguageDetector.

Local Open Scope Q_scope.

(** [languageProfiles], as [initializeLanguageProfiles] fills it. *)
Definition languageProfiles : list (string * list (ascii * Q)) :=
  [("english", FrequencyAnalyzer.getLanguageFrequencies "english");
   ("turkish", FrequencyAnalyzer.getLanguageFrequencies "turkish")].

Definition detectLanguage (text : string) : string * Q :=
  let textFreq := FrequencyAnalyzer.calculateFrequency text in
  let '(bestScore, bestLanguage) :=
    FrequencyAnalyzer.bestMatch textFreq languageProfiles in
  let confidence := 1 / (1 + bestScore / 100) in
  (bestLanguage, confidence).

Definition getSupportedLanguages : list string := map fst languageProfiles.

End LanguageDetector.

(* ================================================================= *)
(** ** class CipherBreaker (CipherBreaker.h, src/main.cpp) *)

Module CipherBreaker.

Local Open Scope Q_scope.

Definition validateInput (ciphertext : string) : bool :=
  match ciphertext with
  | EmptyString => false
  | _ => Utils.isValidInput ciphertext
  end.

(** The new value of [confidence] after [updateConfidence(score, maxScore)]. *)
Definition updateConfidence (score maxScore : Q) : Q :=
  if Qltb 0 maxScore
  then let confidence := (score / maxScore) * 100 in
       let confidence := if Qltb 100 confidence then 100 else confidence in
       if Qltb confidence 0 then 0 else confidence
  else 0.

End CipherBreaker.

(* ================================================================= *)
(** ** class CaesarBreaker (unnamed/part_003, CaesarBreaker.h) *)

Module CaesarBreaker.

Local Open Scope Q_scope.

(** The members the analysis reads or writes; [confidence] and
    [targetLanguage] are inherited from [CipherBreaker]. *)
Record t : Type := mk {
  confidence : Q;
  targetLanguage : string;
  minTextLength : Z;
  lastAnalysis : list (Z * Q)
}.

(** [CaesarBreaker::CaesarBreaker()] *)
Definition new : t :=
  {| confidence := 0; targetLanguage := "english";
     minTextLength := 20; lastAnalysis := [] |}.

(** [(c - base + shift) % 26 + base], computed on [int]. *)
Definition caesarShiftChar (c : ascii) (shift : Z) : ascii :=
  if negb (isalpha c) then c
  else
    let base := if isupper c then "A"%char else "a"%char in
    char_of_int
      (Z.rem (int32 (int_of_char c - int_of_char base + shift)) 26
       + int_of_char base)%Z.

Definition caesarShift (text : string) (shift : Z) : string :=
  string_map (fun c => caesarShiftChar c shift) text.

Definition decrypt (ciphertext : string) (key : Z) : string :=
  caesarShift ciphertext key.

Definition encrypt (plaintext : string) (key : Z) : string :=
  caesarShift plaintext (int32 (26 - key))%Z.

Definition calculateChiSquared (self : t) (text : string) : Q :=
  let textFreq := FrequencyAnalyzer.calculateFrequency text in
  let englishFreq :=
    FrequencyAnalyzer.getLanguageFrequencies (targetLanguage self) in
  match englishFreq with
  | [] => 1000
  | _ => FrequencyAnalyzer.chiSquaredTest textFreq englishFreq
  end.

Definition calculateICScore (text : string) : Q :=
  let ic := FrequencyAnalyzer.calculateIndexOfCoincidence text in
  let englishIC := 0.067 in
  let diff := Qabs (ic - englishIC) in
  Qmax 0 (1 - diff * 10).

Definition commonWords : list string :=
  ["THE"; "AND"; "FOR"; "ARE"; "BUT"; "NOT"; "YOU"; "ALL"; "CAN"; "HER";
   "WAS"; "ONE"; "OUR"; "OUT"; "DAY"; "GET"; "HAS"; "HIM"; "HIS"; "HOW";
   "ITS"; "MAY"; "NEW"; "NOW"; "OLD"; "SEE"; "TWO"; "WHO"; "BOY"; "DID";
   "MAN"; "OWN"; "SAY"; "SHE"; "TOO"; "USE"; "THAT"; "WITH"; "FROM";
   "HAVE"; "THIS"; "WILL"; "WHAT"; "WHEN"; "WHERE"; "WHICH"; "THERE"].

Definition commonBigrams : list string :=
  ["TH"; "HE"; "IN"; "ER"; "AN"; "RE"; "ED"; "ND"; "ON"; "EN"].

Definition count_if {A} (p : A -> bool) (l : list A) : Z :=
  Z.of_nat (List.length (filter p l)).

Definition checkCommonPatterns (text : string) : result Q :=
  let normalizedText := Utils.normalizeText text in
  let foundWords := count_if (contains normalizedText) commonWords in
  let score :=
    inject_Z foundWords / inject_Z (Z.of_nat (List.length commonWords)) in
  bigrams <- FrequencyAnalyzer.findCommonBigrams text 10 ;;
  let foundBigrams :=
    count_if (fun bigram => existsb (String.eqb (fst bigram)) commonBigrams)
      bigrams in
  let score :=
    score + inject_Z foundBigrams
            / inject_Z (Z.of_nat (List.length commonBigrams)) * 0.5 in
  Ok (Qmin 1 score).

Definition normalizeScore (score minVal maxVal : Q) : Q :=
  if Qle_bool maxVal minVal then 0
  else Qmax 0 (Qmin 1 ((score - minVal) / (maxVal - minVal))).

Definition scoreText (self : t) (text : string) : result Q :=
  if (size text <? minTextLength self)%Z then Ok 0
  else
    let chiScore := calculateChiSquared self text in
    let icScore := calculateICScore text in
    patternScore <- checkCommonPatterns text ;;
    let combinedScore := 0 in
    let combinedScore :=
      combinedScore + normalizeScore (1 / (1 + chiScore)) 0 1 * 0.5 in
    let combinedScore := combinedScore + icScore * 0.3 in
    let combinedScore := combinedScore + patternScore * 0.2 in
    Ok combinedScore.

Definition scorePlaintext (self : t) (plaintext : string) : result Q :=
  scoreText self plaintext.

(** The launch loop of [findPossibleKeys]: the [(startKey, endKey)] of the
    tasks started, for [threadId] counting up while [remaining] tasks are
    left to start. *)
Fixpoint launch (remaining : nat) (threadId keysPerThread : Z)
  : list (Z * Z) :=
  match remaining with
  | O => []
  | S remaining' =>
      let startKey := (threadId * keysPerThread)%Z in
      let endKey := Z.min (startKey + keysPerThread) 26 in
      if (26 <=? startKey)%Z then []
      else (startKey, endKey) :: launch remaining' (threadId + 1)%Z keysPerThread
  end.

(** The body of one task: [threadResults]. *)
Definition threadTask (self : t) (normalizedText : string)
  (range : Z * Z) : result (list (Z * Q)) :=
  mapM (fun key =>
          let decrypted := caesarShift normalizedText key in
          score <- scoreText self decrypted ;;
          Ok (key, score))
    (range_incl (fst range) (snd range - 1)).

(** Lines 140-146: the confidence after the ranking [keyScores], given the
    one before. *)
Definition rankedConfidence (keyScores : list (Z * Q)) (prior : Q) : Q :=
  match keyScores with
  | (_, bestScore) :: (_, secondBest) :: _ =>
      let scoreDiff := bestScore - secondBest in
      Qmin 100 (scoreDiff * 10 + 50)
  | _ => prior
  end.

(** [findPossibleKeys].  [hardware_concurrency] is the value of
    [std::thread::hardware_concurrency()], which may be 0: the division
    that computes [keysPerThread] is then undefined.  The tasks do not
    write to the object, and their results are collected in launch order,
    so they are run here one after the other. *)
Definition findPossibleKeys (hardware_concurrency : Z) (self : t)
  (ciphertext : string) : result (list (Z * Q) * t) :=
  let normalizedText := Utils.normalizeText ciphertext in
  let numThreads := Z.min 26 hardware_concurrency in
  if (numThreads =? 0)%Z then Fail undefined_behaviour
  else
    let keysPerThread := Z.quot (26 + numThreads - 1) numThreads in
    let futures := launch (Z.to_nat numThreads) 0 keysPerThread in
    collected <- mapM (threadTask self normalizedText) futures ;;
    let keyScores := List.concat collected in
    let lastAnalysis' :=
      fold_left (fun m r => assign Z.compare (fst r) (snd r) m)
        keyScores (lastAnalysis self) in
    let keyScores := std_sort (fun a b => (fst a <? fst b)%Z) keyScores in
    let keyScores := std_sort (fun a b => Qltb (snd b) (snd a)) keyScores in
    let confidence' := rankedConfidence keyScores (confidence self) in
    Ok (keyScores,
        {| confidence := confidence';
           targetLanguage := targetLanguage self;
           minTextLength := minTextLength self;
           lastAnalysis := lastAnalysis' |}).

Definition findBestKey (hardware_concurrency : Z) (self : t)
  (ciphertext : string) : result (Z * t) :=
  '(keyScores, self) <- findPossibleKeys hardware_concurrency self ciphertext ;;
  match keyScores with
  | [] => Ok (0%Z, self)
  | (key, _) :: _ => Ok (key, self)
  end.

Definition breakCipher (hardware_concurrency : Z) (self : t)
  (ciphertext : string) : result (string * t) :=
  if negb (CipherBreaker.validateInput ciphertext) then Ok ("", self)
  else
    '(bestKey, self) <- findBestKey hardware_concurrency self ciphertext ;;
    let result := decrypt ciphertext bestKey in
    Ok (result, self).

(** [getPossibleSolutions]: the decryptions with the five best keys. *)
Definition getPossibleSolutions (hardware_concurrency : Z) (self : t)
  (ciphertext : string) : result (list string * t) :=
  if negb (CipherBreaker.validateInput ciphertext) then Ok ([], self)
  else
    '(keyScores, self) <- findPossibleKeys hardware_concurrency self ciphertext ;;
    let maxSolutions := Z.min 5 (Z.of_nat (List.length keyScores)) in
    let solutions :=
      map (fun keyScore => decrypt ciphertext (fst keyScore))
        (firstn (Z.to_nat maxSolutions) keyScores) in
    Ok (solutions, self).

Definition getDetailedAnalysis (hardware_concurrency : Z) (self : t)
  (ciphertext : string) : result (list (Z * Q) * t) :=
  '(_, self) <- findPossibleKeys hardware_concurrency self ciphertext ;;
  Ok (lastAnalysis self, self).

Definition getConfidence (self : t) : Q := confidence self.

End CaesarBreaker.

(* ================================================================= *)
(** ** class SubstitutionBreaker (src/SubstitutionBreaker.cpp) *)

Module SubstitutionBreaker.

Local Open Scope Q_scope.

(** [std::map<char, char>], cipher letter to plain letter. *)
Definition Mapping : Type := list (ascii * ascii).

(** [rng] is the tape of the raw values the generator will return. *)
Record t : Type := mk {
  confidence : Q;
  targetLanguage : string;
  optimizationMethod : string;
  maxIterations : Z;
  rng : list nat;
  optimizationHistory : list (Z * Q)
}.

(** [SubstitutionBreaker::SubstitutionBreaker()], the generator seeded so
    that it yields [tape]. *)
Definition new (tape : list nat) : t :=
  {| confidence := 0; targetLanguage := "english";
     optimizationMethod := "hybrid"; maxIterations := 1000;
     rng := tape; optimizationHistory := [] |}.

Definition set_rng (self : t) (tape : list nat) : t :=
  {| confidence := confidence self; targetLanguage := targetLanguage self;
     optimizationMethod := optimizationMethod self;
     maxIterations := maxIterations self;
     rng := tape; optimizationHistory := optimizationHistory self |}.

Definition set_confidence (self : t) (c : Q) : t :=
  {| confidence := c; targetLanguage := targetLanguage self;
     optimizationMethod := optimizationMethod self;
     maxIterations := maxIterations self;
     rng := rng self; optimizationHistory := optimizationHistory self |}.

Definition set_optimizationHistory (self : t) (h : list (Z * Q)) : t :=
  {| confidence := confidence self; targetLanguage := targetLanguage self;
     optimizationMethod := optimizationMethod self;
     maxIterations := maxIterations self;
     rng := rng self; optimizationHistory := h |}.

(** The tables are only searched, never iterated: they are kept in the
    order of the initialiser lists. *)
Definition bigramFreq : list (string * Q) :=
  [("TH", 0.0271); ("HE", 0.0233); ("IN", 0.0203); ("ER", 0.0178);
   ("AN", 0.0161); ("RE", 0.0141); ("ED", 0.0117); ("ND", 0.0107);
   ("ON", 0.0106); ("EN", 0.0105); ("AT", 0.0103); ("OU", 0.0102);
   ("IT", 0.0100); ("IS", 0.0098); ("OR", 0.0091); ("TI", 0.0089);
   ("AS", 0.0087); ("TE", 0.0087); ("ET", 0.0076); ("NG", 0.0076);
   ("OF", 0.0075); ("AL", 0.0074); ("DE", 0.0070); ("SE", 0.0068);
   ("LE", 0.0066); ("SA", 0.0063); ("SI", 0.0062); ("AR", 0.0062);
   ("VE", 0.0058); ("RA", 0.0057); ("LD", 0.0057); ("UR", 0.0056);
   ("TA", 0.0056); ("RI", 0.0055); ("NE", 0.0055)].

Definition trigramFreq : list (string * Q) :=
  [("THE", 0.0181); ("AND", 0.0073); ("ING", 0.0072); ("HER", 0.0036);
   ("HAT", 0.0031); ("HIS", 0.0031); ("THA", 0.0031); ("ERE", 0.0031);
   ("FOR", 0.0028); ("ENT", 0.0028); ("ION", 0.0027); ("TER", 0.0024);
   ("HAS", 0.0024); ("YOU", 0.0024); ("ITH", 0.0023); ("VER", 0.0022);
   ("ALL", 0.0022); ("WIT", 0.0021); ("THI", 0.0021); ("TIO", 0.0021);
   ("EST", 0.0020); ("ARE", 0.0019); ("HEN", 0.0019); ("RST", 0.0019);
   ("OUR", 0.0018); ("OUT", 0.0018); ("HAV", 0.0018); ("ATE", 0.0017);
   ("STH", 0.0017); ("VED", 0.0017)].

Definition commonWords : list string :=
  ["THE"; "AND"; "FOR"; "ARE"; "BUT"; "NOT"; "YOU"; "ALL"; "CAN"; "HER";
   "WAS"; "ONE"; "OUR"; "OUT"; "DAY"; "GET"; "HAS"; "HIM"; "HIS"; "HOW";
   "ITS"; "MAY"; "NEW"; "NOW"; "OLD"; "SEE"; "TWO"; "WHO"; "BOY"; "DID";
   "MAN"; "OWN"; "SAY"; "SHE"; "TOO"; "USE"; "THAT"; "WITH"; "FROM"; "THIS";
   "HAVE"; "WILL"; "WHAT"; "WHEN"; "WHERE"; "WHICH"; "THERE"; "WOULD";
   "ABOUT"; "AFTER"; "FIRST"; "NEVER"; "THESE"; "THINK"; "WHERE"; "BEING";
   "EVERY"; "GREAT"; "MIGHT"; "SHALL"; "STILL"; "THOSE"; "UNDER"; "WHILE";
   "COULD"].

(** The loop of [calculateBigramScore] and [calculateTrigramScore] over the
    windows of the normalized text, and the final average. *)
Definition ngramAverage (table : list (string * Q)) (grams : list string)
  : Q :=
  let '(score, total) :=
    fold_left
      (fun acc gram =>
         let '(score, total) := acc in
         match find String.compare gram table with
         | Some f => (score + f, (total + 1)%Z)
         | None => (score, (total + 1)%Z)
         end)
      grams (0, 0%Z) in
  if (0 <? total)%Z then score / inject_Z total else 0.

(** The bound [normalizedText.length() - 1] is a [size_t]: on an empty
    text it wraps around and [substr(1, 2)] throws. *)
Definition calculateBigramScore (text : string) : result Q :=
  let normalizedText := Utils.normalizeText text in
  if (String.length normalizedText <? 1)%nat then Fail out_of_range
  else Ok (ngramAverage bigramFreq
             (FrequencyAnalyzer.windows 2 normalizedText)).

(** Likewise [normalizedText.length() - 2] wraps around on a text of fewer
    than two letters, and [substr] throws at the first index past the
    end. *)
Definition calculateTrigramScore (text : string) : result Q :=
  let normalizedText := Utils.normalizeText text in
  if (String.length normalizedText <? 2)%nat then Fail out_of_range
  else Ok (ngramAverage trigramFreq
             (FrequencyAnalyzer.windows 3 normalizedText)).

Definition calculateWordScore (text : string) : Q :=
  let words := Utils.split text " "%char in
  let '(foundWords, totalWords) :=
    fold_left
      (fun acc word =>
         let '(foundWords, totalWords) := acc in
         let normalizedWord := Utils.normalizeText word in
         if (3 <=? String.length normalizedWord)%nat
         then if existsb (String.eqb normalizedWord) commonWords
              then ((foundWords + 1)%Z, (totalWords + 1)%Z)
              else (foundWords, (totalWords + 1)%Z)
         else (foundWords, totalWords))
      words (0%Z, 0%Z) in
  if (0 <? totalWords)%Z
  then inject_Z foundWords / inject_Z totalWords else 0.

Definition calculateCombinedScore
  (freqScore bigramScore trigramScore wordScore : Q) : Q :=
  freqScore * 0.3 + bigramScore * 0.3 + trigramScore * 0.2 + wordScore * 0.2.

Definition scorePlaintext (plaintext : string) : result Q :=
  let freqScore := FrequencyAnalyzer.scoreEnglishness plaintext in
  bigramScore <- calculateBigramScore plaintext ;;
  trigramScore <- calculateTrigramScore plaintext ;;
  let wordScore := calculateWordScore plaintext in
  Ok (calculateCombinedScore freqScore bigramScore trigramScore wordScore).

Definition applyMapping (text : string) (mapping : Mapping) : string :=
  string_map
    (fun c =>
       if isalpha c
       then let upperC := toupper c in
            match find Ascii.compare upperC mapping with
            | Some mapped => if isupper c then mapped else tolower mapped
            | None => c
            end
       else c)
    text.

Definition scoreMapping (mapping : Mapping) (ciphertext : string)
  : result Q :=
  let decrypted := applyMapping ciphertext mapping in
  scorePlaintext decrypted.

Definition mem (c : ascii) (l : list ascii) : bool :=
  existsb (Ascii.eqb c) l.

Definition completeMapping (mapping : Mapping) : Mapping :=
  let usedPlainChars := map snd mapping in
  let unusedCipherChars :=
    filter (fun c => match find Ascii.compare c mapping with
                     | None => true
                     | Some _ => false
                     end) alphabet in
  let unusedPlainChars :=
    filter (fun c => negb (mem c usedPlainChars)) alphabet in
  fold_left (fun result p => assign Ascii.compare (fst p) (snd p) result)
    (combine unusedCipherChars unusedPlainChars) mapping.

Definition byFrequencyDescending (a b : ascii * Q) : bool :=
  Qltb (snd b) (snd a).

Definition generateMapping (self : t) (ciphertext : string) : Mapping :=
  let normalizedText := Utils.normalizeText ciphertext in
  let cipherFreq := FrequencyAnalyzer.calculateFrequency normalizedText in
  let englishFreq :=
    FrequencyAnalyzer.getLanguageFrequencies (targetLanguage self) in
  let cipherSorted := std_sort byFrequencyDescending cipherFreq in
  let englishSorted := std_sort byFrequencyDescending englishFreq in
  let mapping :=
    fold_left
      (fun m p => assign Ascii.compare (fst (fst p)) (fst (snd p)) m)
      (combine cipherSorted englishSorted) [] in
  completeMapping mapping.

Definition commonEnglishBigrams : list string :=
  ["TH"; "HE"; "IN"; "ER"; "AN"; "RE"; "ED"; "ND"; "ON"; "EN"].

(** One round of the loop of [improveMappingWithBigrams]. *)
Definition improveStep (ciphertext : string) (mapping : Mapping)
  (pair : (string * Q) * string) : result Mapping :=
  let cipherBigram := fst (fst pair) in
  let englishBigram := snd pair in
  match cipherBigram, englishBigram with
  | String cipher1 (String cipher2 EmptyString),
    String english1 (String english2 EmptyString) =>
      let testMapping := mapping in
      let testMapping := assign Ascii.compare cipher1 english1 testMapping in
      let testMapping := assign Ascii.compare cipher2 english2 testMapping in
      testScore <- scoreMapping testMapping ciphertext ;;
      score <- scoreMapping mapping ciphertext ;;
      if Qltb score testScore
      then
        let mapping := assign Ascii.compare cipher1 english1 mapping in
        let mapping := assign Ascii.compare cipher2 english2 mapping in
        Ok mapping
      else Ok mapping
  | _, _ => Ok mapping
  end.

Definition improveMappingWithBigrams (initialMapping : Mapping)
  (ciphertext : string) : result Mapping :=
  let mapping := initialMapping in
  let normalizedText := Utils.normalizeText ciphertext in
  cipherBigrams <- FrequencyAnalyzer.findCommonBigrams normalizedText 10 ;;
  foldM (improveStep ciphertext)
    (combine cipherBigrams commonEnglishBigrams) mapping.

(** [dist(rng)] for [std::uniform_int_distribution<size_t> dist(0, n - 1)]:
    the next raw value of the tape, brought into range. *)
Definition dist (n : nat) (tape : list nat) : result (nat * list nat) :=
  match tape with
  | [] => Fail rng_exhausted
  | r :: tape' => Ok ((r mod n)%nat, tape')
  end.

(** [idx2 = dist(rng); while (idx1 == idx2 && size > 1) idx2 = dist(rng);]
    where [size > 1] holds on this path. *)
Fixpoint distOtherThan (idx1 n : nat) (tape : list nat)
  : result (nat * list nat) :=
  match tape with
  | [] => Fail rng_exhausted
  | r :: tape' =>
      if ((r mod n) =? idx1)%nat then distOtherThan idx1 n tape'
      else Ok ((r mod n)%nat, tape')
  end.

(** [neighbor[c]] for reading. *)
Definition at_ (m : Mapping) (c : ascii) : ascii :=
  match find Ascii.compare c m with
  | Some p => p
  | None => zero
  end.

Definition generateNeighborMapping (self : t) (mapping : Mapping)
  : result (Mapping * t) :=
  let neighbor := mapping in
  let cipherChars := map fst mapping in
  if (List.length cipherChars <? 2)%nat then Ok (neighbor, self)
  else
    '(idx1, tape) <- dist (List.length cipherChars) (rng self) ;;
    '(idx2, tape) <- distOtherThan idx1 (List.length cipherChars) tape ;;
    let char1 := nth idx1 cipherChars zero in
    let char2 := nth idx2 cipherChars zero in
    let temp := at_ neighbor char1 in
    let neighbor := assign Ascii.compare char1 (at_ neighbor char2) neighbor in
    let neighbor := assign Ascii.compare char2 temp neighbor in
    Ok (neighbor, set_rng self tape).

(** The variables of the loop of [hillClimbOptimization]. *)
Record climb : Type := mkClimb {
  currentMapping : Mapping;
  currentScore : Q;
  iteration : Z;
  improvementCount : Z;
  this : t
}.

(** [updateOptimizationProgress(iteration, score)] *)
Definition updateOptimizationProgress (self : t) (iteration : Z) (score : Q)
  : t :=
  set_optimizationHistory self (optimizationHistory self ++ [(iteration, score)]).

(** One pass through the body of the [while] loop. *)
Definition hillClimbStep (ciphertext : string) (s : climb) : result climb :=
  '(neighborMapping, self) <- generateNeighborMapping (this s) (currentMapping s) ;;
  neighborScore <- scoreMapping neighborMapping ciphertext ;;
  if Qltb (currentScore s) neighborScore
  then Ok {| currentMapping := neighborMapping;
             currentScore := neighborScore;
             iteration := (iteration s + 1)%Z;
             improvementCount := (improvementCount s + 1)%Z;
             this := updateOptimizationProgress self (iteration s) neighborScore |}
  else Ok {| currentMapping := currentMapping s;
             currentScore := currentScore s;
             iteration := (iteration s + 1)%Z;
             improvementCount := improvementCount s;
             this := self |}.

(** The loop state after [n] passes. *)
Fixpoint hillClimbLoop (ciphertext : string) (n : nat) (s : climb)
  : result climb :=
  match n with
  | O => Ok s
  | S n' => s' <- hillClimbStep ciphertext s ;; hillClimbLoop ciphertext n' s'
  end.

Definition hillClimbStart (self : t) (initialMapping : Mapping)
  (ciphertext : string) : result climb :=
  currentScore <- scoreMapping initialMapping ciphertext ;;
  Ok {| currentMapping := initialMapping; currentScore := currentScore;
        iteration := 0; improvementCount := 0; this := self |}.

(** [while (iteration < maxIterations)] runs [maxIterations] times, and not
    at all when [maxIterations <= 0]. *)
Definition hillClimbOptimization (self : t) (initialMapping : Mapping)
  (ciphertext : string) (maxIterations : Z) : result (Mapping * t) :=
  s <- hillClimbStart self initialMapping ciphertext ;;
  s <- hillClimbLoop ciphertext (Z.to_nat maxIterations) s ;;
  Ok (currentMapping s, this s).

Section Annealing.

(** [std::exp] and [std::pow] of <cmath>, and [dist(rng)] for
    [std::uniform_real_distribution<double> dist(0.0, 1.0)], are taken as
    given. *)
Variable std_exp : Q -> Q.
Variable std_pow : Q -> Q -> Q.
Variable uniform_real : list nat -> result (Q * list nat).

(** The variables of the loop of [simulatedAnnealing]. *)
Record anneal : Type := mkAnneal {
  a_currentMapping : Mapping;
  a_bestMapping : Mapping;
  a_currentScore : Q;
  a_bestScore : Q;
  a_temperature : Q;
  a_acceptedMoves : Z;
  a_rejectedMoves : Z;
  a_this : t
}.

Definition annealStep (ciphertext : string) (coolingRate : Q)
  (s : anneal) (iteration : Z) : result anneal :=
  '(neighborMapping, self) <-
    generateNeighborMapping (a_this s) (a_currentMapping s) ;;
  neighborScore <- scoreMapping neighborMapping ciphertext ;;
  let deltaScore := neighborScore - a_currentScore s in
  '(accept, self) <-
    (if Qltb 0 deltaScore then Ok (true, self)
     else
       let probability := std_exp (deltaScore / a_temperature s) in
       '(u, tape) <- uniform_real (rng self) ;;
       Ok (Qltb u probability, set_rng self tape)) ;;
  if accept : bool
  then
    let improved := Qltb (a_bestScore s) neighborScore in
    Ok {| a_currentMapping := neighborMapping;
          a_bestMapping :=
            if improved then neighborMapping else a_bestMapping s;
          a_currentScore := neighborScore;
          a_bestScore :=
            if improved then neighborScore else a_bestScore s;
          a_temperature := a_temperature s * coolingRate;
          a_acceptedMoves := (a_acceptedMoves s + 1)%Z;
          a_rejectedMoves := a_rejectedMoves s;
          a_this :=
            if improved
            then updateOptimizationProgress self iteration neighborScore
            else self |}
  else
    Ok {| a_currentMapping := a_currentMapping s;
          a_bestMapping := a_bestMapping s;
          a_currentScore := a_currentScore s;
          a_bestScore := a_bestScore s;
          a_temperature := a_temperature s * coolingRate;
          a_acceptedMoves := a_acceptedMoves s;
          a_rejectedMoves := (a_rejectedMoves s + 1)%Z;
          a_this := self |}.

Definition simulatedAnnealing (self : t) (initialMapping : Mapping)
  (ciphertext : string) (maxIterations : Z) (initialTemperature : Q)
  : result (Mapping * t) :=
  currentScore <- scoreMapping initialMapping ciphertext ;;
  let coolingRate :=
    std_pow (0.001 / initialTemperature) (1 / inject_Z maxIterations) in
  s <- foldM (annealStep ciphertext coolingRate)
         (range_incl 0 (maxIterations - 1))
         {| a_currentMapping := initialMapping;
            a_bestMapping := initialMapping;
            a_currentScore := currentScore;
            a_bestScore := currentScore;
            a_temperature := initialTemperature;
            a_acceptedMoves := 0;
            a_rejectedMoves := 0;
            a_this := self |} ;;
  Ok (a_bestMapping s, a_this s).

(** [breakCipher].  The calls that leave [maxIterations] out get the
    default arguments of the header: 1000 for hill climbing, 2000 and
    100.0 for simulated annealing. *)
Definition breakCipher (self : t) (ciphertext : string)
  : result (string * t) :=
  if negb (CipherBreaker.validateInput ciphertext) then Ok ("", self)
  else
    let self := set_optimizationHistory self [] in
    '(bestMapping, self) <-
      (if String.eqb (optimizationMethod self) "frequency"
       then Ok (generateMapping self ciphertext, self)
       else if String.eqb (optimizationMethod self) "hill_climbing"
       then
         let initialMapping := generateMapping self ciphertext in
         hillClimbOptimization self initialMapping ciphertext 1000
       else if String.eqb (optimizationMethod self) "simulated_annealing"
       then
         let initialMapping := generateMapping self ciphertext in
         simulatedAnnealing self initialMapping ciphertext 2000 100
       else
         let initialMapping := generateMapping self ciphertext in
         bigramMapping <-
           improveMappingWithBigrams initialMapping ciphertext ;;
         hillClimbOptimization self bigramMapping ciphertext
           (Z.quot (maxIterations self) 2)) ;;
    let result := applyMapping ciphertext bestMapping in
    finalScore <- scoreMapping bestMapping ciphertext ;;
    Ok (result,
        set_confidence self (CipherBreaker.updateConfidence finalScore 1)).

End Annealing.

(** [setOptimizationMethod] and [setMaxIterations] of the header. *)
Definition setOptimizationMethod (self : t) (method : string) : t :=
  {| confidence := confidence self; targetLanguage := targetLanguage self;
     optimizationMethod := method;
     maxIterations := maxIterations self;
     rng := rng self; optimizationHistory := optimizationHistory self |}.

Definition setMaxIterations (self : t) (maxIter : Z) : t :=
  {| confidence := confidence self; targetLanguage := targetLanguage self;
     optimizationMethod := optimizationMethod self;
     maxIterations := maxIter;
     rng := rng self; optimizationHistory := optimizationHistory self |}.

Definition breakByFrequency (self : t) (ciphertext : string) : string :=
  let mapping := generateMapping self ciphertext in
  applyMapping ciphertext mapping.

(** [swapCharacters]: the two iterators are written through one after the
    other. *)
Definition swapCharacters (mapping : Mapping) (char1 char2 : ascii)
  : Mapping :=
  let result := mapping in
  match find Ascii.compare char1 result, find Ascii.compare char2 result with
  | Some second1, Some second2 =>
      let temp := second1 in
      let result := assign Ascii.compare char1 second2 result in
      assign Ascii.compare char2 temp result
  | _, _ => result
  end.

(** [v.erase(std::unique(v.begin(), v.end()), v.end())]: of every run of
    equal neighbours the first is kept. *)
Fixpoint unique (v : list string) : list string :=
  match v with
  | [] => []
  | x :: rest =>
      match rest with
      | [] => [x]
      | y :: _ => if String.eqb x y then unique rest else x :: unique rest
      end
  end.

(** [getPossibleSolutions]; hill climbing is asked for 500 iterations. *)
Definition getPossibleSolutions (self : t) (ciphertext : string)
  : result (list string * t) :=
  if negb (CipherBreaker.validateInput ciphertext) then Ok ([], self)
  else
    let initialMapping := generateMapping self ciphertext in
    let solutions := [applyMapping ciphertext initialMapping] in
    bigramMapping <- improveMappingWithBigrams initialMapping ciphertext ;;
    let solutions :=
      (solutions ++ [applyMapping ciphertext bigramMapping])%list in
    '(hillClimbMapping, self) <-
      hillClimbOptimization self initialMapping ciphertext 500 ;;
    let solutions :=
      (solutions ++ [applyMapping ciphertext hillClimbMapping])%list in
    let solutions := std_sort String.ltb solutions in
    Ok (unique solutions, self).

Definition getConfidence (self : t) : Q := confidence self.

End SubstitutionBreaker.

(* ================================================================= *)
(** ** class VigenereBreaker (src/VigenereBreaker.cpp) *)

Module VigenereBreaker.

Local Open Scope Q_scope.

Record t : Type := mk {
  confidence : Q;
  targetLanguage : string;
  minKeyLength : Z;
  maxKeyLength : Z;
  minSubstringLength : Z;
  analysisResults : list (string * list (Z * Q));
  caesarBreaker : CaesarBreaker.t
}.

(** [VigenereBreaker::VigenereBreaker()] *)
Definition new : t :=
  {| confidence := 0; targetLanguage := "english";
     minKeyLength := 2; maxKeyLength := 20; minSubstringLength := 3;
     analysisResults := []; caesarBreaker := CaesarBreaker.new |}.

Definition set_confidence (self : t) (c : Q) : t :=
  {| confidence := c; targetLanguage := targetLanguage self;
     minKeyLength := minKeyLength self; maxKeyLength := maxKeyLength self;
     minSubstringLength := minSubstringLength self;
     analysisResults := analysisResults self;
     caesarBreaker := caesarBreaker self |}.

Definition set_analysisResults (self : t)
  (r : list (string * list (Z * Q))) : t :=
  {| confidence := confidence self; targetLanguage := targetLanguage self;
     minKeyLength := minKeyLength self; maxKeyLength := maxKeyLength self;
     minSubstringLength := minSubstringLength self;
     analysisResults := r;
     caesarBreaker := caesarBreaker self |}.

Definition set_caesarBreaker (self : t) (b : CaesarBreaker.t) : t :=
  {| confidence := confidence self; targetLanguage := targetLanguage self;
     minKeyLength := minKeyLength self; maxKeyLength := maxKeyLength self;
     minSubstringLength := minSubstringLength self;
     analysisResults := analysisResults self;
     caesarBreaker := b |}.

Definition setKeyLengthRange (self : t) (minLen maxLen : Z) : t :=
  {| confidence := confidence self; targetLanguage := targetLanguage self;
     minKeyLength := minLen; maxKeyLength := maxLen;
     minSubstringLength := minSubstringLength self;
     analysisResults := analysisResults self;
     caesarBreaker := caesarBreaker self |}.

(** [(c - base + shift) % 26 + base], computed on [int]. *)
Definition vigenereShift (c : ascii) (shift : Z) : ascii :=
  if negb (isalpha c) then c
  else
    let base := if isupper c then "A"%char else "a"%char in
    char_of_int
      (Z.rem (int32 (int_of_char c - int_of_char base + shift)) 26
       + int_of_char base)%Z.

Definition charToShift (c : ascii) : Z :=
  if isalpha c then (int_of_char (toupper c) - int_of_char "A"%char)%Z
  else 0%Z.

Definition shiftToChar (shift : Z) : ascii :=
  char_of_int (int_of_char "A"%char + Z.rem shift 26)%Z.

(** [key[i % key.length()]], for a non-empty [key]. *)
Definition keyCharAt (key : string) (i : nat) : ascii :=
  match String.get (i mod String.length key) key with
  | Some c => c
  | None => zero
  end.

(** The loop of [encrypt] from index [i] on, [rest] being the characters of
    the text from there. *)
Fixpoint encryptFrom (key : string) (i : nat) (rest : string) : string :=
  match rest with
  | EmptyString => EmptyString
  | String c rest' =>
      String
        (if isalpha c
         then let keyChar := keyCharAt key i in
              let shift := charToShift (toupper keyChar) in
              vigenereShift c shift
         else c)
        (encryptFrom key (S i) rest')
  end.

Definition encrypt (plaintext key : string) : string :=
  match key with
  | EmptyString => plaintext
  | _ => encryptFrom key 0 plaintext
  end.

Fixpoint decryptFrom (key : string) (i : nat) (rest : string) : string :=
  match rest with
  | EmptyString => EmptyString
  | String c rest' =>
      String
        (if isalpha c
         then let keyChar := keyCharAt key i in
              let shift := charToShift (toupper keyChar) in
              vigenereShift c (26 - shift)%Z
         else c)
        (decryptFrom key (S i) rest')
  end.

Definition decrypt (ciphertext key : string) : string :=
  match key with
  | EmptyString => ciphertext
  | _ => decryptFrom key 0 ciphertext
  end.

Definition scorePlaintext (plaintext : string) : Q :=
  FrequencyAnalyzer.scoreEnglishness plaintext.

(** [substrings[position] += c] *)
Fixpoint appendAt (position : nat) (c : ascii) (substrings : list string)
  : list string :=
  match substrings, position with
  | [], _ => []
  | s :: rest, O => (s ++ String c EmptyString)%string :: rest
  | s :: rest, S p => s :: appendAt p c rest
  end.

Fixpoint splitLoop (keyLength i : nat) (rest : string)
  (substrings : list string) : list string :=
  match rest with
  | EmptyString => substrings
  | String c rest' =>
      splitLoop keyLength (S i) rest'
        (appendAt (i mod keyLength) c substrings)
  end.

(** [splitByKeyPosition].  A negative [keyLength] makes the vector
    constructor throw; with [keyLength = 0] the first [i % keyLength]
    divides by zero. *)
Definition splitByKeyPosition (text : string) (keyLength : Z)
  : result (list string) :=
  if (keyLength <? 0)%Z then Fail length_error
  else if (keyLength =? 0)%Z
  then match text with
       | EmptyString => Ok []
       | _ => Fail undefined_behaviour
       end
  else Ok (splitLoop (Z.to_nat keyLength) 0 text
             (repeat EmptyString (Z.to_nat keyLength))).

Definition calculateICForKeyLength (text : string) (keyLength : Z)
  : result Q :=
  substrings <- splitByKeyPosition text keyLength ;;
  let '(totalIC, validSubstrings) :=
    fold_left
      (fun acc substring =>
         let '(totalIC, validSubstrings) := acc in
         if (2 <=? String.length substring)%nat
         then (totalIC
               + FrequencyAnalyzer.calculateIndexOfCoincidence substring,
               (validSubstrings + 1)%Z)
         else (totalIC, validSubstrings))
      substrings (0, 0%Z) in
  Ok (if (0 <? validSubstrings)%Z
      then totalIC / inject_Z validSubstrings else 0).

Definition byScoreDescending (a b : Z * Q) : bool := Qltb (snd b) (snd a).

Definition indexOfCoincidenceMethod (self : t) (ciphertext : string)
  : result (list (Z * Q)) :=
  results <-
    mapM (fun keyLength =>
            ic <- calculateICForKeyLength ciphertext keyLength ;;
            Ok (keyLength, ic))
      (range_incl (minKeyLength self) (maxKeyLength self)) ;;
  Ok (std_sort byScoreDescending results).

(** [findRepeatingSubstrings].  The outer bound [text.length() - minLength]
    is a [size_t].  With [minLength < 0] the loop runs one index past the
    end of the text and [substr] throws.  With [text.length() < minLength]
    the bound wraps around: for [minLength <= 10],
    [static_cast<int>(text.length() - i)] is negative until [i] has passed
    the end by more than 2^31, and [substr] throws then; for
    [minLength > 10] the inner loop never runs and the outer one makes
    [2^64 - (minLength - text.length()) + 1] empty passes, without end when
    [minLength = text.length() + 1]: the call does not return.  With
    [10 < minLength <= text.length()] the inner loop never runs and the map
    stays empty. *)
Definition findRepeatingSubstrings (text : string) (minLength : Z)
  : result (list (string * list Z)) :=
  let n := size text in
  if (minLength <? 0)%Z then Fail out_of_range
  else if (n <? minLength)%Z
  then (if (10 <? minLength)%Z then Fail no_return else Fail out_of_range)
  else if (10 <? minLength)%Z then Ok []
  else
    let patterns :=
      fold_left
        (fun patterns i =>
           fold_left
             (fun patterns len =>
                let substring :=
                  String.substring (Z.to_nat i) (Z.to_nat len) text in
                update String.compare substring [] (fun l => (l ++ [i])%list)
                  patterns)
             (range_incl minLength (Z.min (n - i) 10)) patterns)
        (range_incl 0 (n - minLength)) [] in
    Ok (filter (fun pattern => (2 <=? List.length (snd pattern))%nat)
          patterns).

(** The inner loop of [analyzeDistancePatterns]; [distance % 0] is
    undefined. *)
Definition countFactors (self : t) (factorCounts : list (Z * Z))
  (distance : Z) : result (list (Z * Z)) :=
  foldM
    (fun factorCounts factor =>
       if (factor =? 0)%Z then Fail undefined_behaviour
       else if (Z.rem distance factor =? 0)%Z
       then Ok (update Z.compare factor 0%Z Z.succ factorCounts)
       else Ok factorCounts)
    (range_incl (minKeyLength self) (Z.min (maxKeyLength self) distance))
    factorCounts.

Definition analyzeDistancePatterns (self : t) (distances : list Z)
  : result (list (Z * Q)) :=
  factorCounts <- foldM (countFactors self) distances [] ;;
  let maxCount :=
    fold_left (fun maxCount pair => Z.max maxCount (snd pair))
      factorCounts 0%Z in
  Ok (if (0 <? maxCount)%Z
      then map (fun pair =>
                  (fst pair, inject_Z (snd pair) / inject_Z maxCount))
             factorCounts
      else []).

(** The distances [pattern.second[i] - pattern.second[0]], [i >= 1], that
    are at least [minKeyLength]. *)
Definition patternDistances (self : t) (pattern : string * list Z)
  : list Z :=
  match snd pattern with
  | first :: (_ :: _) as others =>
      filter (fun distance => (minKeyLength self <=? distance)%Z)
        (map (fun position => (position - first)%Z) others)
  | _ => []
  end.

Definition kasiskiExamination (self : t) (ciphertext : string)
  : result (list (Z * Q)) :=
  repeatingPatterns <-
    findRepeatingSubstrings ciphertext (minSubstringLength self) ;;
  let allDistances := flat_map (patternDistances self) repeatingPatterns in
  match allDistances with
  | [] => Ok []
  | _ =>
      keyLengthScores <- analyzeDistancePatterns self allDistances ;;
      let results :=
        filter (fun pair => (minKeyLength self <=? fst pair)%Z
                            && (fst pair <=? maxKeyLength self)%Z)
          keyLengthScores in
      Ok (std_sort byScoreDescending results)
  end.

Definition combineKeyLengthResults (kasiskiResults icResults : list (Z * Q))
  : list Z :=
  let combinedScores :=
    fold_left
      (fun m r => update Z.compare (fst r) 0 (fun v => v + snd r * 0.6) m)
      kasiskiResults [] in
  let combinedScores :=
    fold_left
      (fun m r => update Z.compare (fst r) 0 (fun v => v + snd r * 0.4) m)
      icResults combinedScores in
  let sortedResults := std_sort byScoreDescending combinedScores in
  map fst sortedResults.

Definition findKeyLength (self : t) (ciphertext : string)
  : result (list Z * t) :=
  let normalizedText := Utils.normalizeText ciphertext in
  kasiskiResults <- kasiskiExamination self normalizedText ;;
  let self :=
    set_analysisResults self
      (assign String.compare "kasiski" kasiskiResults (analysisResults self)) in
  icResults <- indexOfCoincidenceMethod self normalizedText ;;
  let self :=
    set_analysisResults self
      (assign String.compare "ic" icResults (analysisResults self)) in
  Ok (combineKeyLengthResults kasiskiResults icResults, self).

Section Threads.

(** The value of [std::thread::hardware_concurrency()], which the member
    [caesarBreaker] reads too. *)
Variable hardware_concurrency : Z.

Definition findSubkey (self : t) (subtextCipher : string)
  : result (ascii * t) :=
  match subtextCipher with
  | EmptyString => Ok ("A"%char, self)
  | _ =>
      '(bestShift, breaker) <-
        CaesarBreaker.findBestKey hardware_concurrency
          (caesarBreaker self) subtextCipher ;;
      Ok (shiftToChar bestShift, set_caesarBreaker self breaker)
  end.

Definition findKey (self : t) (ciphertext : string) (keyLength : Z)
  : result (string * t) :=
  let normalizedText := Utils.normalizeText ciphertext in
  substrings <- splitByKeyPosition normalizedText keyLength ;;
  foldM
    (fun acc position =>
       let '(key, self) := acc in
       match nth_error substrings (Z.to_nat position) with
       | Some (String _ _ as substring) =>
           '(keyChar, self) <- findSubkey self substring ;;
           Ok ((key ++ String keyChar EmptyString)%string, self)
       | _ => Ok ((key ++ "A")%string, self)
       end)
    (range_incl 0 (keyLength - 1)) (EmptyString, self).

(** One candidate key length tried: [(key, decrypted, score)]. *)
Definition tryKeyLength (self : t) (ciphertext : string) (keyLength : Z)
  : result ((string * string * Q) * t) :=
  '(key, self) <- findKey self ciphertext keyLength ;;
  let decrypted := decrypt ciphertext key in
  let score := scorePlaintext decrypted in
  Ok ((key, decrypted, score), self).

(** [breakCipher].  With several candidate lengths the source starts one
    task per length, all of them working on the one [caesarBreaker]
    member; the embedding runs them in launch order and does not model
    their interleaving. *)
Definition breakCipher (self : t) (ciphertext : string)
  : result (string * t) :=
  if negb (CipherBreaker.validateInput ciphertext) then Ok ("", self)
  else
    let self := set_analysisResults self [] in
    '(candidateKeyLengths, self) <- findKeyLength self ciphertext ;;
    match candidateKeyLengths with
    | [] => Ok ("", self)
    | [keyLength] =>
        '(r, self) <- tryKeyLength self ciphertext keyLength ;;
        let '(key, decrypted, score) := r in
        Ok (decrypted,
            set_confidence self (CipherBreaker.updateConfidence score 1))
    | _ =>
        '(best, self) <-
          foldM
            (fun acc keyLength =>
               let '(best, self) := acc in
               let '(bestKey, bestResult, bestScore) := best in
               '(r, self) <- tryKeyLength self ciphertext keyLength ;;
               let '(key, decrypted, score) := r in
               if Qltb bestScore score
               then Ok ((key, decrypted, score), self)
               else Ok (best, self))
            candidateKeyLengths
            ((EmptyString, EmptyString, 0), self) ;;
        let '(bestKey, bestResult, bestScore) := best in
        Ok (bestResult,
            set_confidence self
              (CipherBreaker.updateConfidence bestScore 1))
    end.

(** [getPossibleSolutions]: the decryptions for the five best key
    lengths. *)
Definition getPossibleSolutions (self : t) (ciphertext : string)
  : result (list string * t) :=
  if negb (CipherBreaker.validateInput ciphertext) then Ok ([], self)
  else
    '(candidateKeyLengths, self) <- findKeyLength self ciphertext ;;
    let maxTries := Z.min 5 (Z.of_nat (List.length candidateKeyLengths)) in
    foldM
      (fun acc keyLength =>
         let '(solutions, self) := acc in
         '(key, self) <- findKey self ciphertext keyLength ;;
         let solution := decrypt ciphertext key in
         Ok ((solutions ++ [solution])%list, self))
      (firstn (Z.to_nat maxTries) candidateKeyLengths) ([], self).

End Threads.

Definition getConfidence (self : t) : Q := confidence self.

End VigenereBreaker.

(* ================================================================= *)
(** ** class AutoCipherDetector (src/AutoCipherDetector.cpp) *)

Module AutoCipherDetector.

Local Open Scope Q_scope.

Record t : Type := mk { minTextLength : Z }.

(** [AutoCipherDetector::AutoCipherDetector()] *)
Definition new : t := {| minTextLength := 50 |}.

Definition setMinimumTextLength (self : t) (minLength : Z) : t :=
  {| minTextLength := minLength |}.

Definition calculatePlaintextScore (text : string) : result Q :=
  let englishnessScore := FrequencyAnalyzer.scoreEnglishness text in
  let ic := FrequencyAnalyzer.calculateIndexOfCoincidence text in
  let icScore := 1 - Qabs (ic - 0.067) * 10 in
  let icScore := Qmax 0 icScore in
  bigrams <- FrequencyAnalyzer.findCommonBigrams text 5 ;;
  let commonBigrams := ["TH"; "HE"; "IN"; "ER"; "AN"] in
  let bigramScore :=
    fold_left
      (fun bigramScore bigram =>
         if existsb (String.eqb (fst bigram)) commonBigrams
         then bigramScore + 0.2 else bigramScore)
      bigrams 0 in
  let bigramScore := Qmin 1 bigramScore in
  Ok (englishnessScore * 0.5 + icScore * 0.3 + bigramScore * 0.2).

(** [maxFreq] and [minFreq] after the loop over the table. *)
Definition freqRange (frequencies : list (ascii * Q)) : Q * Q :=
  fold_left
    (fun acc pair => (Qmax (fst acc) (snd pair), Qmin (snd acc) (snd pair)))
    frequencies (0, 100).

(** [englishnessScore < limit ? 1.0 : (limit - englishnessScore) / limit],
    then [std::max(0.0, cipherScore)]. *)
Definition notPlaintext (englishnessScore limit : Q) : Q :=
  let cipherScore :=
    if Qltb englishnessScore limit then 1
    else (limit - englishnessScore) / limit in
  Qmax 0 cipherScore.

Definition calculateCaesarScore (text : string) : Q :=
  let ic := FrequencyAnalyzer.calculateIndexOfCoincidence text in
  let icScore := if Qltb 0.060 ic then 1 else ic / 0.060 in
  let frequencies := FrequencyAnalyzer.calculateFrequency text in
  let '(maxFreq, minFreq) := freqRange frequencies in
  let freqVariation := maxFreq - minFreq in
  let variationScore :=
    if Qltb 5 freqVariation then 1 else freqVariation / 5 in
  let englishnessScore := FrequencyAnalyzer.scoreEnglishness text in
  let cipherScore := notPlaintext englishnessScore 0.3 in
  icScore * 0.4 + variationScore * 0.3 + cipherScore * 0.3.

(** [calculateSubstitutionScore].  On a text without letters
    [freqValues] is empty and [mean /= freqValues.size()] divides zero by
    zero: the score is then not a number, [None] here. *)
Definition calculateSubstitutionScore (text : string) : option Q :=
  let ic := FrequencyAnalyzer.calculateIndexOfCoincidence text in
  let icScore := if Qltb 0.060 ic then 1 else ic / 0.060 in
  let frequencies := FrequencyAnalyzer.calculateFrequency text in
  let freqValues := map snd frequencies in
  match freqValues with
  | [] => None
  | _ =>
      let mean := fold_left (fun mean freq => mean + freq) freqValues 0 in
      let mean := mean / inject_Z (Z.of_nat (List.length freqValues)) in
      let variance :=
        fold_left
          (fun variance freq => variance + (freq - mean) * (freq - mean))
          freqValues 0 in
      let variance :=
        variance / inject_Z (Z.of_nat (List.length freqValues)) in
      let varianceScore := if Qltb 10 variance then 1 else variance / 10 in
      let englishnessScore := FrequencyAnalyzer.scoreEnglishness text in
      let cipherScore := notPlaintext englishnessScore 0.4 in
      Some (icScore * 0.4 + varianceScore * 0.3 + cipherScore * 0.3)
  end.

(** The two loops of [calculateVigenereScore] that count the patterns
    found again further on.  [len < text.length() / 3] keeps
    [text.length() - len] from wrapping around. *)
Definition countRepeats (text : string) : Z :=
  let n := size text in
  fold_left
    (fun repeatCount len =>
       fold_left
         (fun repeatCount i =>
            let pattern :=
              String.substring (Z.to_nat i) (Z.to_nat len) text in
            match String.index (Z.to_nat (i + len)) pattern text with
            | Some _ => (repeatCount + 1)%Z
            | None => repeatCount
            end)
         (range_incl 0 (n - len)) repeatCount)
    (range_incl 3 (Z.min 6 (Z.quot n 3 - 1))) 0%Z.

Definition calculateVigenereScore (text : string) : Q :=
  let ic := FrequencyAnalyzer.calculateIndexOfCoincidence text in
  let icScore :=
    if Qle_bool 0.038 ic && Qle_bool ic 0.055 then 1
    else if Qltb ic 0.038 then ic / 0.038
    else Qmax 0 (1 - (ic - 0.055) / 0.020) in
  let repeatCount := countRepeats text in
  let patternScore :=
    if (2 <? repeatCount)%Z then 1 else inject_Z repeatCount / 2 in
  let englishnessScore := FrequencyAnalyzer.scoreEnglishness text in
  let cipherScore := notPlaintext englishnessScore 0.3 in
  icScore * 0.5 + patternScore * 0.2 + cipherScore * 0.3.

(** [getAllCipherScores]: the four scores are computed in the order of the
    source and stored in a map ordered by name. *)
Definition getAllCipherScores (ciphertext : string)
  : result (list (string * option Q)) :=
  let normalizedText := Utils.normalizeText ciphertext in
  let scores := [] in
  plaintext <- calculatePlaintextScore normalizedText ;;
  let scores := assign String.compare "plaintext" (Some plaintext) scores in
  let scores :=
    assign String.compare "caesar"
      (Some (calculateCaesarScore normalizedText)) scores in
  let scores :=
    assign String.compare "substitution"
      (calculateSubstitutionScore normalizedText) scores in
  let scores :=
    assign String.compare "vigenere"
      (Some (calculateVigenereScore normalizedText)) scores in
  Ok scores.

(** The loop of [detectCipherType] over the scores; a comparison with a
    score that is not a number is false. *)
Definition bestCipher (allScores : list (string * option Q)) : string * Q :=
  fold_left
    (fun best pair =>
       match snd pair with
       | Some score => if Qltb (snd best) score then (fst pair, score)
                       else best
       | None => best
       end)
    allScores ("unknown", 0).

(** [detectCipherType]: the fields [cipherType], [confidence] and [scores]
    of the result.  [minTextLength] is compared as a [size_t], so a
    negative one is larger than every length.  The field [reasoning], a
    formatted text, is left out; computing it does not throw once the
    scores are there. *)
Definition detectCipherType (self : t) (ciphertext : string)
  : result (string * Q * list (string * option Q)) :=
  if (minTextLength self <? 0)%Z || (size ciphertext <? minTextLength self)%Z
  then Ok ("unknown", 0, [])
  else
    allScores <- getAllCipherScores ciphertext ;;
    let '(bestCipher, bestScore) := bestCipher allScores in
    Ok (bestCipher, bestScore, allScores).

End AutoCipherDetector.

(* ================================================================= *)
(** ** What the specification says, in its own terms *)

Module Spec.

Local Open Scope Q_scope.

(** The position of a letter in the alphabet, 0 for A or a. *)
Definition letterIndex (c : ascii) : Z :=
  if isupper c then (int_of_char c - 65)%Z
  else if islower c then (int_of_char c - 97)%Z
  else (-1)%Z.

(** [out] is [text] with every letter moved [s] places forward in the
    alphabet, cyclically and within its case, and every other character
    left as it is. *)
Definition rotatesEachLetterBy (s : Z) (text out : string) : Prop :=
  String.length out = String.length text /\
  forall i c, String.get i text = Some c ->
    exists r, String.get i out = Some r /\
      (isalpha c = false -> r = c) /\
      (isalpha c = true ->
         isupper r = isupper c /\ islower r = islower c /\
         letterIndex r = ((letterIndex c + s) mod 26)%Z).


(** "clamp(x, lo, hi)" *)
Definition clamp (x lo hi : Q) : Q := Qmax lo (Qmin hi x).

(** A full permutation of the 26 letters: the cipher letters are A to Z, each
    once, and so are the plain letters they map to. *)
Definition isPermutation (mapping : SubstitutionBreaker.Mapping) : Prop :=
  map fst mapping = alphabet /\ Permutation (map snd mapping) alphabet.

(** The distances Kasiski examination collects on a normalized text: for
    every substring that occurs more than once, from its first occurrence to
    each later one. *)
Definition kasiskiDistances (self : VigenereBreaker.t) (normalizedText : string)
  : list Z :=
  match VigenereBreaker.findRepeatingSubstrings normalizedText
          (VigenereBreaker.minSubstringLength self) with
  | Ok patterns => flat_map (VigenereBreaker.patternDistances self) patterns
  | Fail _ => []
  end.

(** "the count of distances divisible by L" *)
Definition divisibleCount (L : Z) (distances : list Z) : Z :=
  Z.of_nat (List.length (filter (fun d => (d mod L =? 0)%Z) distances)).

(** "normalized by the maximum such count", the maximum being taken over
    the candidate lengths [lo .. hi]; 0 when no distance has a candidate
    factor. *)
Definition normalizedCount (lo hi : Z) (distances : list Z) (L : Z) : Q :=
  let maxCount :=
    fold_right Z.max 0%Z
      (map (fun L' => divisibleCount L' distances) (range_incl lo hi)) in
  if (0 <? maxCount)%Z
  then inject_Z (divisibleCount L distances) / inject_Z maxCount
  else 0.

Definition kasiskiScore (self : VigenereBreaker.t) (normalizedText : string)
  (L : Z) : Q :=
  normalizedCount (VigenereBreaker.minKeyLength self)
    (VigenereBreaker.maxKeyLength self)
    (kasiskiDistances self normalizedText) L.

(** The number of letters of [text] that are [c] up to case. *)
Fixpoint occurrences (c : ascii) (text : string) : Z :=
  match text with
  | EmptyString => 0%Z
  | String x s =>
      ((if isalpha x && Ascii.eqb (toupper x) c then 1 else 0)
       + occurrences c s)%Z
  end.

(** "frequency(text)": each alphabetic character counted case-insensitively,
    divided by the total alphabetic count, as a percentage; the all-zero
    table on a text with zero alphabetic characters. *)
Definition frequency (text : string) (c : ascii) : Q :=
  let N := fold_right (fun c acc => (occurrences c text + acc)%Z) 0%Z
             alphabet in
  if (N =? 0)%Z then 0
  else inject_Z (occurrences c text) / inject_Z N * 100.


(** "chiSquared(observed, expected)": the sum over the 26 letters of
    (observed - expected)^2 / expected, skipping the letters where expected
    is 0. *)
Definition chiSquared (observed expected : ascii -> Q) : Q :=
  fold_right
    (fun c acc =>
       (if Qeq_bool (expected c) 0 then 0
        else (observed c - expected c) * (observed c - expected c)
             / expected c) + acc)
    0 alphabet.







(** The pieces of a text between its delimiters, the empty ones included,
    and its tokens, the pieces that are not empty. *)
Fixpoint pieces (isDelimiter : ascii -> bool) (text : string)
  : list string :=
  match text with
  | EmptyString => [EmptyString]
  | String c s =>
      if isDelimiter c then EmptyString :: pieces isDelimiter s
      else match pieces isDelimiter s with
           | piece :: rest => String c piece :: rest
           | [] => [String c EmptyString]
           end
  end.








(** "indexOfCoincidence(text): the sum of ni (ni - 1) over N (N - 1), over
    the letter counts ni and the total alphabetic count N; returns 0 if
    N <= 1" *)
Definition indexOfCoincidence (text : string) : Q :=
  let N := fold_right (fun c acc => (occurrences c text + acc)%Z) 0%Z
             alphabet in
  if (N <=? 1)%Z then 0
  else
    inject_Z
      (fold_right
         (fun c acc => (occurrences c text * (occurrences c text - 1) + acc)%Z)
         0%Z alphabet)
    / inject_Z (N * (N - 1)).

(** The [L] columns of the text, character [i] going to column [i mod L]. *)
Definition columns (normalizedText : string) (L : Z) : list string :=
  match VigenereBreaker.splitByKeyPosition normalizedText L with
  | Ok substrings => substrings
  | Fail _ => []
  end.

Definition sumIC (substrings : list string) : Q :=
  fold_right
    (fun substring acc => indexOfCoincidence substring + acc)
    0 substrings.

(** "the average Index of Coincidence of the L columns" *)
Definition icScore (normalizedText : string) (L : Z) : Q :=
  sumIC (columns normalizedText L) / inject_Z L.


(** "combinedScore(L) = 0.6 kasiskiScore(L) + 0.4 icScore(L)" *)
Definition combinedScore (kasiski ic : Q) : Q := 0.6 * kasiski + 0.4 * ic.

(** The sum of the 26 values of a frequency table. *)
Definition total (table : list (ascii * Q)) : Q :=
  fold_right (fun c acc => FrequencyAnalyzer.lookup0 c table + acc) 0
    alphabet.

End Spec.

(* ================================================================= *)
(** * Definitions of the proofs *)

(** Enumerations, invariants of the maps and of the sorted vectors, and the
    values the statements read off a result. *)

Definition all_chars : list ascii := map ascii_of_nat (seq 0 256).

(** What [caesarShiftChar] does to one character, for a shift from 0 to 26. *)
Definition shiftChar_ok (c : ascii) (s : Z) : bool :=
  let r := CaesarBreaker.caesarShiftChar c s in
  if isalpha c
  then Bool.eqb (isupper r) (isupper c) && Bool.eqb (islower r) (islower c)
       && (Spec.letterIndex r =? (Spec.letterIndex c + s) mod 26)
  else Ascii.eqb r c.

(** A map is kept in the order of its keys, which [code] numbers. *)
Definition sorted {K V : Type} (code : K -> Z) (m : list (K * V)) : Prop :=
  StronglySorted (fun p q => code (fst p) < code (fst q)) m.

Definition count_of (c : ascii) (counts : list (ascii * Z)) : Z :=
  match find Ascii.compare c counts with
  | Some v => v
  | None => 0
  end.

(** Every count is positive and belongs to an upper-case letter. *)
Definition counts_ok (counts : list (ascii * Z)) : Prop :=
  forall c v, find Ascii.compare c counts = Some v ->
              0 < v /\ isupper c = true.

(** A vector is in descending order of the rational [key]. *)
Definition descending {A : Type} (key : A -> Q) (l : list A) : Prop :=
  StronglySorted (fun a b => (key b <= key a)%Q) l.

Fixpoint string_forall (p : ascii -> bool) (s : string) : bool :=
  match s with
  | EmptyString => true
  | String c s' => p c && string_forall p s'
  end.

Definition same_list (a b : list Z) : bool :=
  if list_eq_dec Z.eq_dec a b then true else false.

Definition isPermutationb (mapping : SubstitutionBreaker.Mapping) : bool :=
  (if list_eq_dec ascii_dec (map fst mapping) alphabet then true else false)
  && forallb
       (fun x => Nat.eqb (count_occ ascii_dec (map snd mapping) x)
                   (count_occ ascii_dec alphabet x))
       all_chars.

Definition countZ (L : Z) (factorCounts : list (Z * Z)) : Z :=
  match find Z.compare L factorCounts with
  | Some v => v
  | None => 0
  end.

(** Every count is positive and belongs to a factor between [lo] and [hi]. *)
Definition factors_ok (lo hi : Z) (factorCounts : list (Z * Z)) : Prop :=
  forall L v, find Z.compare L factorCounts = Some v ->
              0 < v /\ lo <= L <= hi.

(** One round of the inner loop of [analyzeDistancePatterns], for a factor
    that is not zero. *)
Definition countFactorStep (distance : Z) (factorCounts : list (Z * Z))
  (factor : Z) : list (Z * Z) :=
  if Z.rem distance factor =? 0
  then update Z.compare factor 0 Z.succ factorCounts
  else factorCounts.

Local Open Scope Q_scope.

(** The score the key [k] gets, 0 standing for a call that throws. *)
Definition keyScore (self : CaesarBreaker.t) (normalizedText : string)
  (key : Z) : Q :=
  match CaesarBreaker.scoreText self
          (CaesarBreaker.caesarShift normalizedText key) with
  | Ok score => score
  | Fail _ => 0
  end.

(** The part of [kasiskiExamination] that follows the collection of the
    distances. *)
Definition scoreDistances (self : VigenereBreaker.t) (allDistances : list Z)
  : result (list (Z * Q)) :=
  match allDistances with
  | [] => Ok []
  | _ =>
      keyLengthScores <-
        VigenereBreaker.analyzeDistancePatterns self allDistances ;;
      let results :=
        filter (fun pair =>
                  (VigenereBreaker.minKeyLength self <=? fst pair)%Z
                  && (fst pair <=? VigenereBreaker.maxKeyLength self)%Z)
          keyLengthScores in
      Ok (std_sort VigenereBreaker.byScoreDescending results)
  end.

(** The Index of Coincidence [calculateICForKeyLength] returns, 0 standing
    for a call that fails. *)
Definition icOf (text : string) (keyLength : Z) : Q :=
  match VigenereBreaker.calculateICForKeyLength text keyLength with
  | Ok ic => ic
  | Fail _ => 0
  end.

Definition valueQ (L : Z) (m : list (Z * Q)) : Q :=
  match find Z.compare L m with
  | Some v => v
  | None => 0
  end.

Local Close Scope Q_scope.

(** The characters [Utils::trim] strips. *)
Definition stripped (c : ascii) : bool :=
  existsb (Ascii.eqb c) Utils.whitespace.

(** Two lists of characters have the same elements, each as often. *)
Definition same_letters (l1 l2 : list ascii) : bool :=
  forallb
    (fun x => Nat.eqb (count_occ ascii_dec l1 x) (count_occ ascii_dec l2 x))
    all_chars.

(** The sum of [f c] over the characters [c] of [l]. *)
Definition sumZ (f : ascii -> Z) (l : list ascii) : Z :=
  fold_right (fun c acc => f c + acc) 0 l.

(** The number of ordered pairs of distinct positions of [text] that hold
    the same letter, up to case. *)
Definition coincidences (text : string) : Z :=
  sumZ (fun c => Spec.occurrences c text * (Spec.occurrences c text - 1))
    alphabet.

(** The same sum with each product as the program's [int] holds it. *)
Definition coincidences32 (text : string) : Z :=
  sumZ
    (fun c => int32 (Spec.occurrences c text * (Spec.occurrences c text - 1)))
    alphabet.

Local Open Scope Q_scope.

(** A bound on [chiSquaredTest observed expected] for percentages
    [observed]: every letter with a positive expectation contributes at
    most 100 squared over that expectation. *)
Definition chiCap (expected : list (ascii * Q)) : Q :=
  fold_left
    (fun acc c =>
       let exp := FrequencyAnalyzer.lookup0 c expected in
       if Qltb 0 exp then acc + 10000 / exp else acc)
    alphabet 0.

Local Close Scope Q_scope.

(** What [splitByKeyPosition] has made of the first characters [text] of
    its input: [keyLength] strings, the one of index [j] holding the
    characters of the indices [j], [j + keyLength], [j + 2 keyLength]... *)
Definition columnsOf (keyLength : nat) (text : string)
  (substrings : list string) : Prop :=
  List.length substrings = keyLength /\
  forall j k, (j < keyLength)%nat ->
    String.get k (nth j substrings EmptyString)
    = String.get (k * keyLength + j) text.

(** How often [gram] occurs among [grams], and its share of them as a
    percentage. *)
Definition occurrencesOf (gram : string) (grams : list string) : Z :=
  Z.of_nat (count_occ string_dec grams gram).

Definition shareOf (gram : string) (grams : list string) : Q :=
  (inject_Z (occurrencesOf gram grams)
   / inject_Z (Z.of_nat (List.length grams)) * 100)%Q.

(** [result] holds the [count] most common of [grams], each once and with
    its share, the most common first; all of them if [count] is negative
    or not below their number. *)
Definition mostCommon (grams : list string) (count : Z)
  (result : list (string * Q)) : Prop :=
  let distinct := List.length (nodup string_dec grams) in
  NoDup (map fst result) /\
  (forall gram frequency,
     In (gram, frequency) result ->
     In gram grams /\ frequency = shareOf gram grams) /\
  descending snd result /\
  List.length result
  = (if (0 <=? count) && (count <? Z.of_nat distinct)
     then Z.to_nat count else distinct) /\
  (forall gram,
     In gram grams ->
     In gram (map fst result) \/
     Forall (fun entry => (shareOf gram grams <= snd entry)%Q) result).

(* ================================================================= *)
(** ** Characters *)

Lemma int32_small (z : Z) : z <= INT_MAX -> int32 z = z.
Proof.
  intros H. unfold int32. destruct (Z.ltb_spec INT_MAX z); [lia|reflexivity].
Qed.

Lemma all_chars_complete (c : ascii) : In c all_chars.
Proof.
  rewrite <- (ascii_nat_embedding c).
  apply in_map, in_seq.
  pose proof (nat_ascii_bounded c). lia.
Qed.

Lemma for_all_chars (P : ascii -> bool) :
  forallb P all_chars = true -> forall c, P c = true.
Proof.
  intros H c. rewrite forallb_forall in H. apply H, all_chars_complete.
Qed.

Lemma range_incl_In (lo hi z : Z) :
  In z (range_incl lo hi) <-> lo <= z <= hi.
Proof.
  unfold range_incl. rewrite in_map_iff. split.
  - intros [k [<- Hk]]. apply in_seq in Hk. lia.
  - intros Hz. exists (Z.to_nat (z - lo)). split; [lia|].
    apply in_seq. lia.
Qed.

Lemma for_all_shifts (P : Z -> bool) :
  forallb P (range_incl 0 26) = true ->
  forall s, 0 <= s <= 26 -> P s = true.
Proof.
  intros H s Hs. rewrite forallb_forall in H. apply H, range_incl_In, Hs.
Qed.

(** A property of every character and every shift from 0 to 26, decided by
    running through the 256 x 27 cases. *)
Lemma for_all_chars_shifts (P : ascii -> Z -> bool) :
  forallb (fun c => forallb (P c) (range_incl 0 26)) all_chars = true ->
  forall c s, 0 <= s <= 26 -> P c s = true.
Proof.
  intros H c s Hs.
  apply (for_all_shifts (P c)); [|exact Hs].
  exact (for_all_chars _ H c).
Qed.

Lemma isalpha_toupper (c : ascii) : isalpha (toupper c) = isalpha c.
Proof.
  apply Bool.eqb_prop. revert c. apply for_all_chars. vm_compute. reflexivity.
Qed.

Lemma toupper_idempotent (c : ascii) : toupper (toupper c) = toupper c.
Proof.
  apply Ascii.eqb_eq. revert c. apply for_all_chars. vm_compute. reflexivity.
Qed.

Lemma isalpha_toupper_isupper (c : ascii) :
  isalpha c = true -> isupper (toupper c) = true.
Proof.
  revert c.
  assert (H : forall c, implb (isalpha c) (isupper (toupper c)) = true).
  { apply for_all_chars. vm_compute. reflexivity. }
  intros c Hc. specialize (H c). rewrite Hc in H. exact H.
Qed.

Lemma isupper_In_alphabet (c : ascii) : isupper c = true <-> In c alphabet.
Proof.
  split.
  - revert c.
    assert (H : forall c, implb (isupper c) (existsb (Ascii.eqb c) alphabet) = true).
    { apply for_all_chars. vm_compute. reflexivity. }
    intros c Hc. specialize (H c). rewrite Hc in H.
    destruct (existsb (Ascii.eqb c) alphabet) eqn:E; [clear H | discriminate H].
    apply existsb_exists in E. destruct E as [x [Hx Heq]].
    apply Ascii.eqb_eq in Heq. subst. exact Hx.
  - intros Hin.
    assert (H : forallb isupper alphabet = true) by (vm_compute; reflexivity).
    rewrite forallb_forall in H. apply H, Hin.
Qed.

Lemma alphabet_NoDup : NoDup alphabet.
Proof.
  unfold alphabet. apply Injective_map_NoDup_in.
  - intros x y Hx Hy Heq. apply range_incl_In in Hx, Hy.
    unfold char_of_int in Heq.
    assert (H : N_of_ascii (ascii_of_N (Z.to_N (x mod 256)))
                = N_of_ascii (ascii_of_N (Z.to_N (y mod 256)))) by congruence.
    rewrite !N_ascii_embedding in H
      by (rewrite Z.mod_small by lia; lia).
    rewrite !Z.mod_small in H by lia. lia.
  - unfold range_incl. apply Injective_map_NoDup.
    + intros a b. lia.
    + apply seq_NoDup.
Qed.

(* ================================================================= *)
(** ** Caesar shifts *)

Lemma string_map_length (f : ascii -> ascii) (s : string) :
  String.length (string_map f s) = String.length s.
Proof. induction s; simpl; congruence. Qed.

Lemma string_map_get (f : ascii -> ascii) (s : string) (i : nat) :
  String.get i (string_map f s) = option_map f (String.get i s).
Proof.
  revert i. induction s as [|c s IH]; intros [|i]; simpl; auto.
Qed.

Lemma string_map_ext (f g : ascii -> ascii) (s : string) :
  (forall c, f c = g c) -> string_map f s = string_map g s.
Proof. intros H. induction s; simpl; congruence. Qed.

Lemma string_map_map (f g : ascii -> ascii) (s : string) :
  string_map f (string_map g s) = string_map (fun c => f (g c)) s.
Proof. induction s; simpl; congruence. Qed.

Lemma string_map_id (f : ascii -> ascii) (s : string) :
  (forall c, f c = c) -> string_map f s = s.
Proof. intros H. induction s; simpl; congruence. Qed.

Lemma caesarShiftChar_spec (c : ascii) (s : Z) :
  0 <= s <= 26 -> shiftChar_ok c s = true.
Proof.
  revert c s. apply for_all_chars_shifts. vm_compute. reflexivity.
Qed.

Lemma caesarShiftChar_inverse (c : ascii) (s : Z) :
  0 <= s <= 26 ->
  CaesarBreaker.caesarShiftChar (CaesarBreaker.caesarShiftChar c (26 - s)) s = c.
Proof.
  intros Hs. apply Ascii.eqb_eq. revert c s Hs.
  apply (for_all_chars_shifts
           (fun c s => Ascii.eqb
              (CaesarBreaker.caesarShiftChar
                 (CaesarBreaker.caesarShiftChar c (26 - s)) s) c)).
  vm_compute. reflexivity.
Qed.

Lemma caesarShift_rotates (text : string) (s : Z) :
  0 <= s <= 26 ->
  Spec.rotatesEachLetterBy s text (CaesarBreaker.caesarShift text s).
Proof.
  intros Hs. unfold CaesarBreaker.caesarShift. split.
  - apply string_map_length.
  - intros i c Hget. rewrite string_map_get, Hget. simpl.
    eexists. split; [reflexivity|].
    pose proof (caesarShiftChar_spec c s Hs) as H. unfold shiftChar_ok in H.
    destruct (isalpha c); split; intros Hc; try discriminate.
    + apply andb_prop in H. destruct H as [H H3].
      apply andb_prop in H. destruct H as [H1 H2].
      apply Bool.eqb_prop in H1, H2. apply Z.eqb_eq in H3. auto.
    + apply Ascii.eqb_eq. exact H.
Qed.

(** C1, as amended: for every text and every shift [s] from 0 to 25,
    [CaesarBreaker::decrypt(text, s)] moves each letter [s] places forward
    (not backward) in the alphabet, within its case, and leaves every other
    character unchanged; [decrypt("URYYB JBEYQ", 13)] is ["HELLO WORLD"], and
    it is the key 23 that turns ["KHOOR ZRUOG"] into ["HELLO WORLD"]. *)
Theorem C1_decrypt_rotates_forward :
  (forall text s, 0 <= s <= 25 ->
     Spec.rotatesEachLetterBy s text (CaesarBreaker.decrypt text s)) /\
  CaesarBreaker.decrypt "URYYB JBEYQ" 13 = "HELLO WORLD" /\
  CaesarBreaker.decrypt "KHOOR ZRUOG" 23 = "HELLO WORLD".
Proof.
  split; [|split; reflexivity].
  intros text s Hs. unfold CaesarBreaker.decrypt.
  apply caesarShift_rotates. lia.
Qed.

Lemma C1_witness :
  0 <= 3 <= 25 /\
  Spec.rotatesEachLetterBy 3 "KHOOR ZRUOG" (CaesarBreaker.decrypt "KHOOR ZRUOG" 3).
Proof.
  split; [lia | apply (proj1 C1_decrypt_rotates_forward "KHOOR ZRUOG" 3); lia].
Defined.

(** C1 as stated fails: with key 3 the letters of ["KHOOR ZRUOG"] move
    forward, to ["NKRRU CUXRJ"]. *)
Lemma C1_counterexample :
  CaesarBreaker.decrypt "KHOOR ZRUOG" 3 = "NKRRU CUXRJ" /\
  CaesarBreaker.decrypt "KHOOR ZRUOG" 3 <> "HELLO WORLD".
Proof. split; [reflexivity | discriminate]. Qed.

(* ================================================================= *)
(** ** Round trips *)

Lemma caesar_round_trip (text : string) (s : Z) :
  0 <= s <= 26 ->
  CaesarBreaker.decrypt (CaesarBreaker.encrypt text s) s = text.
Proof.
  intros Hs. unfold CaesarBreaker.decrypt, CaesarBreaker.encrypt,
    CaesarBreaker.caesarShift.
  rewrite int32_small by (unfold INT_MAX; lia).
  rewrite string_map_map. apply string_map_id.
  intros c. apply caesarShiftChar_inverse, Hs.
Qed.

Lemma vigenereShift_caesarShiftChar (c : ascii) (s : Z) :
  VigenereBreaker.vigenereShift c s = CaesarBreaker.caesarShiftChar c s.
Proof. reflexivity. Qed.

Lemma charToShift_range (k : ascii) :
  0 <= VigenereBreaker.charToShift k <= 25.
Proof.
  assert (H : forall k, (0 <=? VigenereBreaker.charToShift k)
                        && (VigenereBreaker.charToShift k <=? 25) = true).
  { apply for_all_chars. vm_compute. reflexivity. }
  specialize (H k). apply andb_prop in H. destruct H as [H1 H2].
  apply Z.leb_le in H1, H2. lia.
Qed.

Lemma vigenereShift_isalpha (c : ascii) (s : Z) :
  0 <= s <= 26 ->
  isalpha (VigenereBreaker.vigenereShift c s) = isalpha c.
Proof.
  intros Hs. apply Bool.eqb_prop. revert c s Hs.
  apply (for_all_chars_shifts
           (fun c s => Bool.eqb (isalpha (VigenereBreaker.vigenereShift c s))
                         (isalpha c))).
  vm_compute. reflexivity.
Qed.

Lemma vigenereShift_inverse (c : ascii) (s : Z) :
  0 <= s <= 26 ->
  VigenereBreaker.vigenereShift (VigenereBreaker.vigenereShift c s) (26 - s) = c.
Proof.
  intros Hs. apply Ascii.eqb_eq. revert c s Hs.
  apply (for_all_chars_shifts
           (fun c s => Ascii.eqb
              (VigenereBreaker.vigenereShift
                 (VigenereBreaker.vigenereShift c s) (26 - s)) c)).
  vm_compute. reflexivity.
Qed.

Lemma vigenere_round_trip_from (key rest : string) (i : nat) :
  VigenereBreaker.decryptFrom key i (VigenereBreaker.encryptFrom key i rest)
  = rest.
Proof.
  revert i. induction rest as [|c rest IH]; intros i; simpl; [reflexivity|].
  rewrite IH. f_equal.
  pose proof (charToShift_range (toupper (VigenereBreaker.keyCharAt key i))) as Hk.
  destruct (isalpha c) eqn:Hc.
  - rewrite vigenereShift_isalpha, Hc by lia.
    apply vigenereShift_inverse. lia.
  - rewrite Hc. reflexivity.
Qed.

Lemma vigenere_round_trip (text key : string) :
  VigenereBreaker.decrypt (VigenereBreaker.encrypt text key) key = text.
Proof.
  destruct key as [|k key]; [reflexivity|].
  unfold VigenereBreaker.decrypt, VigenereBreaker.encrypt.
  apply vigenere_round_trip_from.
Qed.

(** C3, as amended: for every text, every Caesar key [s] from 0 to 25 and
    every keyword, [decrypt(encrypt(text, key), key)] is [text] itself, with
    its case and its non-alphabetic characters; so the normalized forms of
    the round trip and of [text] agree. *)
Theorem C3_round_trip_returns_text :
  forall text : string,
    (forall s, 0 <= s <= 25 ->
       CaesarBreaker.decrypt (CaesarBreaker.encrypt text s) s = text /\
       Utils.normalizeText
         (CaesarBreaker.decrypt (CaesarBreaker.encrypt text s) s)
       = Utils.normalizeText text) /\
    (forall key,
       VigenereBreaker.decrypt (VigenereBreaker.encrypt text key) key = text /\
       Utils.normalizeText
         (VigenereBreaker.decrypt (VigenereBreaker.encrypt text key) key)
       = Utils.normalizeText text).
Proof.
  intros text. split.
  - intros s Hs. rewrite caesar_round_trip by lia. auto.
  - intros key. rewrite vigenere_round_trip. auto.
Qed.

Lemma C3_witness :
  0 <= 3 <= 25 /\
  CaesarBreaker.decrypt (CaesarBreaker.encrypt "Hello, World!" 3) 3
  = "Hello, World!".
Proof.
  split; [lia|].
  apply (proj1 (C3_round_trip_returns_text "Hello, World!") 3). lia.
Defined.

(** C3 as stated fails on a text that is not already normalized: the round
    trip of ["Hi!"] is ["Hi!"], and its normalized form is ["HI"]. *)
Lemma C3_counterexample :
  CaesarBreaker.decrypt (CaesarBreaker.encrypt "Hi!" 3) 3
  <> Utils.normalizeText "Hi!" /\
  VigenereBreaker.decrypt (VigenereBreaker.encrypt "Hi!" "KEY") "KEY"
  <> Utils.normalizeText "Hi!".
Proof. split; vm_compute; discriminate. Qed.

(* ================================================================= *)
(** ** Key positions in the Vigenere cipher *)

Lemma encryptFrom_get (key rest : string) (i j : nat) (c : ascii) :
  String.get j rest = Some c ->
  String.get j (VigenereBreaker.encryptFrom key i rest)
  = Some (if isalpha c
          then VigenereBreaker.vigenereShift c
                 (VigenereBreaker.charToShift
                    (toupper (VigenereBreaker.keyCharAt key (i + j))))
          else c).
Proof.
  revert i j. induction rest as [|x rest IH]; intros i j; [discriminate|].
  destruct j as [|j]; simpl.
  - intros [= ->]. rewrite Nat.add_0_r. reflexivity.
  - intros H. rewrite (IH (S i) j H).
    replace (S i + j)%nat with (i + S j)%nat by lia. reflexivity.
Qed.

Lemma decryptFrom_get (key rest : string) (i j : nat) (c : ascii) :
  String.get j rest = Some c ->
  String.get j (VigenereBreaker.decryptFrom key i rest)
  = Some (if isalpha c
          then VigenereBreaker.vigenereShift c
                 (26 - VigenereBreaker.charToShift
                         (toupper (VigenereBreaker.keyCharAt key (i + j))))
          else c).
Proof.
  revert i j. induction rest as [|x rest IH]; intros i j; [discriminate|].
  destruct j as [|j]; simpl.
  - intros [= ->]. rewrite Nat.add_0_r. reflexivity.
  - intros H. rewrite (IH (S i) j H).
    replace (S i + j)%nat with (i + S j)%nat by lia. reflexivity.
Qed.

(** C10: [VigenereBreaker::encrypt] and [decrypt] take the key character of
    position [i] of the input at position [i mod key.length()] of the key,
    [i] counting every character; a non-alphabetic character is copied
    unchanged and still uses up its key position. *)
Theorem C10_key_position_counts_all_characters :
  forall (text key : string) (i : nat) (c k : ascii),
    key <> EmptyString ->
    String.get i text = Some c ->
    String.get (i mod String.length key) key = Some k ->
    let shift := VigenereBreaker.charToShift (toupper k) in
    String.get i (VigenereBreaker.encrypt text key)
    = Some (if isalpha c then VigenereBreaker.vigenereShift c shift else c) /\
    String.get i (VigenereBreaker.decrypt text key)
    = Some (if isalpha c then VigenereBreaker.vigenereShift c (26 - shift)
            else c).
Proof.
  intros text key i c k Hkey Hc Hk shift.
  destruct key as [|k0 key]; [contradiction|].
  unfold VigenereBreaker.encrypt, VigenereBreaker.decrypt.
  rewrite (encryptFrom_get _ _ 0 i c Hc), (decryptFrom_get _ _ 0 i c Hc).
  unfold VigenereBreaker.keyCharAt. simpl (0 + i)%nat.
  rewrite Hk. split; reflexivity.
Qed.

Lemma C10_witness :
  String.get 2 (VigenereBreaker.encrypt "A A" "AB") = Some "A"%char /\
  String.get 2 (VigenereBreaker.decrypt "A A" "AB") = Some "A"%char.
Proof.
  apply (C10_key_position_counts_all_characters "A A" "AB" 2 "A"%char "A"%char);
    [discriminate | reflexivity | reflexivity].
Defined.

(* ================================================================= *)
(** ** Invalid input *)

Lemma validateInput_false (ciphertext : string) :
  ciphertext = EmptyString \/
  2 * Utils.alphaCount ciphertext < size ciphertext ->
  CipherBreaker.validateInput ciphertext = false.
Proof.
  intros [-> | H]; [reflexivity|].
  unfold CipherBreaker.validateInput, Utils.isValidInput.
  destruct ciphertext; [reflexivity|].
  apply Z.leb_gt. exact H.
Qed.

(** C5, as amended: when the ciphertext is empty or fewer than half of its
    characters are alphabetic, [breakCipher] of each of the three solvers
    returns the empty string at once, raises no exception and leaves the
    solver as it was, its confidence included; the confidence is zero on a
    solver that has not analysed anything yet. *)
Theorem C5_invalid_input_returns_empty :
  forall ciphertext : string,
    ciphertext = EmptyString \/
    2 * Utils.alphaCount ciphertext < size ciphertext ->
    (forall hardware_concurrency self,
       CaesarBreaker.breakCipher hardware_concurrency self ciphertext
       = Ok (EmptyString, self)) /\
    (forall std_exp std_pow uniform_real self,
       SubstitutionBreaker.breakCipher std_exp std_pow uniform_real self
         ciphertext
       = Ok (EmptyString, self)) /\
    (forall hardware_concurrency self,
       VigenereBreaker.breakCipher hardware_concurrency self ciphertext
       = Ok (EmptyString, self)) /\
    CaesarBreaker.getConfidence CaesarBreaker.new = 0%Q /\
    (forall tape,
       SubstitutionBreaker.getConfidence (SubstitutionBreaker.new tape) = 0%Q) /\
    VigenereBreaker.getConfidence VigenereBreaker.new = 0%Q.
Proof.
  intros ciphertext H. apply validateInput_false in H.
  repeat split.
  - intros hc self. unfold CaesarBreaker.breakCipher. rewrite H. reflexivity.
  - intros e p u self. unfold SubstitutionBreaker.breakCipher.
    rewrite H. reflexivity.
  - intros hc self. unfold VigenereBreaker.breakCipher. rewrite H. reflexivity.
Qed.

Lemma C5_witness :
  2 * Utils.alphaCount "123456789" < size "123456789" /\
  CaesarBreaker.breakCipher 8 CaesarBreaker.new "123456789"
  = Ok (EmptyString, CaesarBreaker.new).
Proof.
  split; [reflexivity|].
  apply (proj1 (C5_invalid_input_returns_empty "123456789"
                  (or_intror eq_refl)) 8 CaesarBreaker.new).
Defined.

(** C5 as stated fails on a solver that has been used: after
    [breakCipher("HI")], which leaves the confidence at 50, [breakCipher("")]
    returns the empty string and the confidence is still 50. *)
Lemma C5_counterexample :
  exists result used after,
    CaesarBreaker.breakCipher 8 CaesarBreaker.new "HI" = Ok (result, used) /\
    CaesarBreaker.breakCipher 8 used "" = Ok (EmptyString, after) /\
    ~ (CaesarBreaker.getConfidence after == 0)%Q.
Proof.
  destruct (CaesarBreaker.breakCipher 8 CaesarBreaker.new "HI")
    as [[result used]|] eqn:E; [|vm_compute in E; discriminate E].
  exists result, used, used. split; [reflexivity|]. split; [reflexivity|].
  vm_compute in E. injection E as _ <-. vm_compute. discriminate.
Qed.

(* ================================================================= *)
(** ** Scores *)

Local Open Scope Q_scope.

Lemma Qltb_lt (x y : Q) : Qltb x y = true <-> x < y.
Proof.
  unfold Qltb. rewrite negb_true_iff. split.
  - intros H. apply Qnot_le_lt. intros Hle.
    apply Qle_bool_iff in Hle. congruence.
  - intros H. destruct (Qle_bool y x) eqn:E; [|reflexivity].
    apply Qle_bool_iff in E. exfalso. exact (Qlt_not_le _ _ H E).
Qed.

Lemma Qltb_ge (x y : Q) : Qltb x y = false <-> y <= x.
Proof.
  unfold Qltb. rewrite negb_false_iff. apply Qle_bool_iff.
Qed.

Lemma Qsquare_nonneg (x : Q) : 0 <= x * x.
Proof.
  destruct (Qlt_le_dec x 0) as [H|H].
  - setoid_replace (x * x) with ((- x) * (- x)) by ring.
    apply Qmult_le_0_compat; apply (Qopp_le_compat x 0), Qlt_le_weak, H.
  - apply Qmult_le_0_compat; exact H.
Qed.

Lemma chiSquaredTest_nonneg (observed expected : list (ascii * Q)) :
  0 <= FrequencyAnalyzer.chiSquaredTest observed expected.
Proof.
  unfold FrequencyAnalyzer.chiSquaredTest.
  assert (H : forall l acc, 0 <= acc ->
    0 <= fold_left
      (fun chiSquared c =>
         let obs := FrequencyAnalyzer.lookup0 c observed in
         let exp := FrequencyAnalyzer.lookup0 c expected in
         if Qltb 0 exp
         then let diff := obs - exp in chiSquared + (diff * diff) / exp
         else chiSquared) l acc).
  { induction l as [|c l IH]; intros acc Hacc; simpl; [exact Hacc|].
    apply IH.
    destruct (Qltb 0 (FrequencyAnalyzer.lookup0 c expected)) eqn:E;
      [|exact Hacc].
    apply Qltb_lt in E.
    rewrite <- (Qplus_0_l 0). apply Qplus_le_compat; [exact Hacc|].
    apply Qle_shift_div_l; [exact E|].
    rewrite Qmult_0_l. apply Qsquare_nonneg. }
  apply H. apply Qle_refl.
Qed.



Local Close Scope Q_scope.

(* ================================================================= *)
(** ** Association lists in key order *)

Section MapFacts.

(** The keys are ordered through a numbering [code]. *)
Context {K V : Type} (cmp : K -> K -> comparison) (code : K -> Z).
Hypothesis cmp_code : forall a b, cmp a b = Z.compare (code a) (code b).
Hypothesis code_inj : forall a b, code a = code b -> a = b.

Lemma cmp_Eq (a b : K) : cmp a b = Eq <-> a = b.
Proof.
  rewrite cmp_code, Z.compare_eq_iff. split; [apply code_inj | congruence].
Qed.

Lemma cmp_Lt (a b : K) : cmp a b = Lt <-> code a < code b.
Proof. rewrite cmp_code. apply Z.compare_lt_iff. Qed.

Lemma cmp_Gt (a b : K) : cmp a b = Gt <-> code b < code a.
Proof. rewrite cmp_code. apply Z.compare_gt_iff. Qed.

Lemma cmp_refl (a : K) : cmp a a = Eq.
Proof. apply cmp_Eq. reflexivity. Qed.

Lemma find_cons_other (k k' : K) (v : V) (m : list (K * V)) :
  k <> k' -> find cmp k ((k', v) :: m) = find cmp k m.
Proof.
  intros H. simpl. destruct (cmp k k') eqn:E; try reflexivity.
  apply cmp_Eq in E. contradiction.
Qed.

Lemma find_cons_same (k : K) (v : V) (m : list (K * V)) :
  find cmp k ((k, v) :: m) = Some v.
Proof. simpl. rewrite cmp_refl. reflexivity. Qed.

Lemma find_In (k : K) (v : V) (m : list (K * V)) :
  find cmp k m = Some v -> In (k, v) m.
Proof.
  induction m as [|[k0 v0] m IH]; simpl; [discriminate|].
  destruct (cmp k k0) eqn:E; auto.
  intros [= ->]. apply cmp_Eq in E. subst. auto.
Qed.

Lemma find_None_keys (k : K) (m : list (K * V)) :
  find cmp k m = None <-> ~ In k (map fst m).
Proof.
  induction m as [|[k0 v0] m IH]; simpl.
  - tauto.
  - destruct (cmp k k0) eqn:E.
    + apply cmp_Eq in E. subst. split; [discriminate|]. tauto.
    + rewrite IH. split; [|tauto]. intros H [H1|H1]; [|tauto].
      subst. rewrite cmp_refl in E. discriminate.
    + rewrite IH. split; [|tauto]. intros H [H1|H1]; [|tauto].
      subst. rewrite cmp_refl in E. discriminate.
Qed.

Lemma find_below (k : K) (m : list (K * V)) :
  Forall (fun q => code k < code (fst q)) m -> find cmp k m = None.
Proof.
  intros H. apply find_None_keys. intros Hin.
  apply in_map_iff in Hin. destruct Hin as [q [<- Hq]].
  rewrite Forall_forall in H. specialize (H q Hq). lia.
Qed.

Lemma find_update_same (k : K) (d : V) (f : V -> V) (m : list (K * V)) :
  sorted code m ->
  find cmp k (update cmp k d f m)
  = Some (f (match find cmp k m with Some v => v | None => d end)).
Proof.
  induction m as [|[k0 v] m IH]; intros Hs; simpl.
  - rewrite cmp_refl. reflexivity.
  - apply StronglySorted_inv in Hs. destruct Hs as [Hs Hall].
    destruct (cmp k k0) eqn:E; simpl.
    + rewrite E. reflexivity.
    + rewrite cmp_refl. apply cmp_Lt in E.
      rewrite find_below; [reflexivity|].
      eapply Forall_impl; [|exact Hall]. simpl. intros q Hq. lia.
    + rewrite E. apply IH, Hs.
Qed.

Lemma find_update_other (k k' : K) (d : V) (f : V -> V) (m : list (K * V)) :
  k' <> k -> find cmp k' (update cmp k d f m) = find cmp k' m.
Proof.
  intros Hne. induction m as [|[k0 v] m IH]; simpl.
  - destruct (cmp k' k) eqn:E; try reflexivity.
    apply cmp_Eq in E. contradiction.
  - destruct (cmp k k0) eqn:E; simpl.
    + destruct (cmp k' k0) eqn:E'; try reflexivity.
      apply cmp_Eq in E, E'. congruence.
    + destruct (cmp k' k) eqn:E'; try reflexivity.
      apply cmp_Eq in E'. contradiction.
    + destruct (cmp k' k0); try reflexivity; exact IH.
Qed.

Lemma update_keys (k k' : K) (d : V) (f : V -> V) (m : list (K * V)) :
  In k' (map fst (update cmp k d f m)) <-> k' = k \/ In k' (map fst m).
Proof.
  induction m as [|[k0 v] m IH]; simpl.
  - intuition.
  - destruct (cmp k k0) eqn:E; simpl.
    + apply cmp_Eq in E. subst. intuition.
    + intuition.
    + rewrite IH. intuition.
Qed.

Lemma update_sorted (k : K) (d : V) (f : V -> V) (m : list (K * V)) :
  sorted code m -> sorted code (update cmp k d f m).
Proof.
  induction m as [|[k0 v] m IH]; intros Hs; simpl.
  - constructor; constructor.
  - pose proof Hs as Hs0.
    apply StronglySorted_inv in Hs. destruct Hs as [Hs Hall].
    destruct (cmp k k0) eqn:E.
    + apply cmp_Eq in E. subst k0. constructor; assumption.
    + apply cmp_Lt in E. constructor; [exact Hs0|].
      constructor; [exact E|].
      eapply Forall_impl; [|exact Hall]. simpl. intros q Hq. lia.
    + apply cmp_Gt in E. constructor; [apply IH, Hs|].
      apply Forall_forall. intros q Hq.
      assert (Hk : In (fst q) (map fst (update cmp k d f m)))
        by (apply in_map, Hq).
      apply update_keys in Hk. destruct Hk as [Hk|Hk].
      * rewrite Hk. exact E.
      * apply in_map_iff in Hk. destruct Hk as [q' [Hq' Hin]].
        rewrite Forall_forall in Hall. specialize (Hall q' Hin).
        simpl in Hall. rewrite <- Hq'. exact Hall.
Qed.

Lemma sorted_nil : sorted code ([] : list (K * V)).
Proof. constructor. Qed.

Lemma sorted_NoDup (m : list (K * V)) : sorted code m -> NoDup (map fst m).
Proof.
  induction m as [|[k0 v] m IH]; intros Hs; simpl; [constructor|].
  apply StronglySorted_inv in Hs. destruct Hs as [Hs Hall].
  constructor; [|apply IH, Hs].
  intros Hin. apply in_map_iff in Hin. destruct Hin as [q [Hq Hin]].
  rewrite Forall_forall in Hall. specialize (Hall q Hin).
  simpl in Hall. rewrite Hq in Hall. lia.
Qed.

Lemma In_find (k : K) (v : V) (m : list (K * V)) :
  NoDup (map fst m) -> In (k, v) m -> find cmp k m = Some v.
Proof.
  induction m as [|[k0 v0] m IH]; simpl; intros Hnd Hin; [contradiction|].
  apply NoDup_cons_iff in Hnd. destruct Hnd as [Hnot Hnd].
  destruct Hin as [[= -> ->]|Hin].
  - rewrite cmp_refl. reflexivity.
  - destruct (cmp k k0) eqn:E; try (apply IH; assumption).
    apply cmp_Eq in E. subst k0. exfalso. apply Hnot.
    apply in_map_iff. exists (k, v). auto.
Qed.

Lemma find_map_values {W : Type} (g : V -> W) (k : K) (m : list (K * V)) :
  find cmp k (map (fun p => (fst p, g (snd p))) m)
  = option_map g (find cmp k m).
Proof.
  induction m as [|[k0 v0] m IH]; simpl; [reflexivity|].
  destruct (cmp k k0); auto.
Qed.

Lemma find_assign_same (k : K) (v : V) (m : list (K * V)) :
  find cmp k (assign cmp k v m) = Some v.
Proof.
  unfold assign. induction m as [|[k0 v0] m IH]; simpl.
  - rewrite cmp_refl. reflexivity.
  - destruct (cmp k k0) eqn:E; simpl.
    + rewrite E. reflexivity.
    + rewrite cmp_refl. reflexivity.
    + rewrite E. exact IH.
Qed.

Lemma find_assign_other (k k' : K) (v : V) (m : list (K * V)) :
  k' <> k -> find cmp k' (assign cmp k v m) = find cmp k' m.
Proof. apply find_update_other. Qed.

End MapFacts.

Lemma ascii_cmp_code (a b : ascii) :
  Ascii.compare a b = Z.compare (int_of_char a) (int_of_char b).
Proof. unfold Ascii.compare, int_of_char. symmetry. apply N2Z.inj_compare. Qed.

Lemma int_of_char_inj (a b : ascii) : int_of_char a = int_of_char b -> a = b.
Proof.
  unfold int_of_char. intros H. apply N2Z.inj in H.
  rewrite <- (ascii_N_embedding a), <- (ascii_N_embedding b). congruence.
Qed.

Lemma Z_cmp_code (a b : Z) : Z.compare a b = Z.compare (id a) (id b).
Proof. reflexivity. Qed.

Lemma id_inj (a b : Z) : id a = id b -> a = b.
Proof. auto. Qed.

(* ================================================================= *)
(** ** Frequency tables *)

Lemma count_of_increment (x c : ascii) (counts : list (ascii * Z)) :
  sorted int_of_char counts ->
  count_of c (update Ascii.compare x 0 Z.succ counts)
  = (if Ascii.eqb x c then 1 else 0) + count_of c counts.
Proof.
  intros Hs. unfold count_of. destruct (Ascii.eqb_spec x c) as [->|Hne].
  - rewrite (find_update_same Ascii.compare int_of_char ascii_cmp_code
               int_of_char_inj) by exact Hs.
    destruct (find Ascii.compare c counts); lia.
  - rewrite (find_update_other Ascii.compare int_of_char ascii_cmp_code
               int_of_char_inj) by congruence.
    lia.
Qed.

Lemma counts_ok_increment (x : ascii) (counts : list (ascii * Z)) :
  sorted int_of_char counts -> counts_ok counts -> isupper x = true ->
  counts_ok (update Ascii.compare x 0 Z.succ counts).
Proof.
  intros Hs Hok Hx c v Hfind. destruct (Ascii.eqb_spec c x) as [->|Hne].
  - rewrite (find_update_same Ascii.compare int_of_char ascii_cmp_code
               int_of_char_inj) in Hfind by exact Hs.
    injection Hfind as <-. split; [|exact Hx].
    destruct (find Ascii.compare x counts) as [v|] eqn:E; [|lia].
    destruct (Hok x v E). lia.
  - rewrite (find_update_other Ascii.compare int_of_char ascii_cmp_code
               int_of_char_inj) in Hfind by exact Hne.
    apply Hok, Hfind.
Qed.

Lemma countLetters_spec (text : string) :
  forall counts totalAlphaChars,
    sorted int_of_char counts -> counts_ok counts ->
    let r := FrequencyAnalyzer.countLetters text counts totalAlphaChars in
    sorted int_of_char (fst r) /\ counts_ok (fst r) /\
    snd r = totalAlphaChars + Utils.alphaCount text /\
    forall c, count_of c (fst r) = count_of c counts + Spec.occurrences c text.
Proof.
  induction text as [|x text IH]; intros counts total Hs Hok; cbv zeta;
    cbn [FrequencyAnalyzer.countLetters Utils.alphaCount Spec.occurrences].
  - split; [exact Hs|]. split; [exact Hok|]. split; [simpl; lia|].
    intros c. simpl. lia.
  - destruct (isalpha x) eqn:Hx; cbn [andb].
    + specialize (IH (update Ascii.compare (toupper x) 0 Z.succ counts)
                    (total + 1)).
      destruct IH as [H1 [H2 [H3 H4]]].
      * apply (update_sorted Ascii.compare int_of_char ascii_cmp_code
                 int_of_char_inj), Hs.
      * apply counts_ok_increment; auto. apply isalpha_toupper_isupper, Hx.
      * split; [exact H1|]. split; [exact H2|]. split; [lia|].
        intros c. rewrite H4, count_of_increment by exact Hs.
        lia.
    + specialize (IH counts total Hs Hok).
      destruct IH as [H1 [H2 [H3 H4]]].
      split; [exact H1|]. split; [exact H2|]. split; [exact H3|].
      intros c. rewrite H4. lia.
Qed.

Lemma countLetters_from_empty (text : string) :
  let r := FrequencyAnalyzer.countLetters text [] 0 in
  sorted int_of_char (fst r) /\ counts_ok (fst r) /\
  snd r = Utils.alphaCount text /\
  forall c, count_of c (fst r) = Spec.occurrences c text.
Proof.
  destruct (countLetters_spec text [] 0) as [H1 [H2 [H3 H4]]].
  - apply sorted_nil.
  - intros c v H. discriminate H.
  - split; [exact H1|]. split; [exact H2|]. split; [exact H3|].
    intros c. rewrite H4. reflexivity.
Qed.

Lemma alphaCount_nonneg (text : string) : 0 <= Utils.alphaCount text.
Proof. induction text as [|x text IH]; simpl; [lia|]. destruct (isalpha x); lia. Qed.

Lemma occurrences_nonneg (c : ascii) (text : string) :
  0 <= Spec.occurrences c text.
Proof.
  induction text as [|x text IH]; simpl; [lia|].
  destruct (isalpha x && Ascii.eqb (toupper x) c); lia.
Qed.

(** A table entry exists exactly for the letters that occur. *)
Lemma countLetters_find (text : string) (c : ascii) :
  find Ascii.compare c (fst (FrequencyAnalyzer.countLetters text [] 0))
  = if 0 <? Spec.occurrences c text then Some (Spec.occurrences c text)
    else None.
Proof.
  destruct (countLetters_from_empty text) as [_ [Hok [_ Hcount]]].
  specialize (Hcount c). unfold count_of in Hcount.
  destruct (find Ascii.compare c _) as [v|] eqn:E.
  - destruct (Hok c v E) as [Hv _]. subst v.
    apply Z.ltb_lt in Hv. rewrite Hv. reflexivity.
  - rewrite <- Hcount. reflexivity.
Qed.

Lemma sum_indicator (y : ascii) (l : list ascii) :
  NoDup l ->
  fold_right (fun c acc => (if Ascii.eqb y c then 1 else 0) + acc) 0 l
  = if existsb (Ascii.eqb y) l then 1 else 0.
Proof.
  induction l as [|c l IH]; intros Hnd; simpl; [reflexivity|].
  apply NoDup_cons_iff in Hnd. destruct Hnd as [Hnot Hnd].
  rewrite (IH Hnd). destruct (Ascii.eqb_spec y c) as [->|Hne]; simpl.
  - destruct (existsb (Ascii.eqb c) l) eqn:E; [|reflexivity].
    apply existsb_exists in E. destruct E as [z [Hz Heq]].
    apply Ascii.eqb_eq in Heq. subst z. contradiction.
  - reflexivity.
Qed.

Lemma sum_all_zero (l : list ascii) (f : ascii -> Z) :
  (forall c, f c = 0) -> fold_right (fun c acc => f c + acc) 0 l = 0.
Proof.
  intros H. induction l as [|c l IH]; [reflexivity|].
  cbn [fold_right]. rewrite H, IH. reflexivity.
Qed.

Lemma sum_split (l : list ascii) (f g : ascii -> Z) :
  fold_right (fun c acc => (f c + g c) + acc) 0 l
  = fold_right (fun c acc => f c + acc) 0 l
    + fold_right (fun c acc => g c + acc) 0 l.
Proof.
  induction l as [|c l IH]; [reflexivity|].
  cbn [fold_right]. rewrite IH. lia.
Qed.

(** Over the 26 letters the occurrences add up to the number of letters. *)
Lemma sum_occurrences (text : string) :
  fold_right (fun c acc => Spec.occurrences c text + acc) 0 alphabet
  = Utils.alphaCount text.
Proof.
  induction text as [|x text IH].
  - apply sum_all_zero. reflexivity.
  - cbn [Spec.occurrences Utils.alphaCount].
    rewrite (sum_split alphabet
               (fun c => if isalpha x && Ascii.eqb (toupper x) c
                         then 1 else 0)
               (fun c => Spec.occurrences c text)).
    rewrite IH. f_equal.
    destruct (isalpha x) eqn:Hx; cbn [andb].
    + rewrite (sum_indicator (toupper x) alphabet alphabet_NoDup).
      assert (Hin : In (toupper x) alphabet)
        by (apply isupper_In_alphabet, isalpha_toupper_isupper, Hx).
      destruct (existsb (Ascii.eqb (toupper x)) alphabet) eqn:E;
        [reflexivity|].
      exfalso. apply Bool.not_true_iff_false in E. apply E.
      apply existsb_exists. exists (toupper x). split; [exact Hin|].
      apply Ascii.eqb_refl.
    + apply sum_all_zero. reflexivity.
Qed.

Local Open Scope Q_scope.

Lemma inject_Z_nonzero (z : Z) : (0 < z)%Z -> ~ inject_Z z == 0.
Proof. intros H E. unfold Qeq in E. simpl in E. lia. Qed.

Lemma lookup0_calculateFrequency (text : string) (c : ascii) :
  (0 < Utils.alphaCount text)%Z ->
  FrequencyAnalyzer.lookup0 c (FrequencyAnalyzer.calculateFrequency text)
  == inject_Z (Spec.occurrences c text)
     / inject_Z (Utils.alphaCount text) * 100.
Proof.
  intros Hpos. unfold FrequencyAnalyzer.lookup0,
    FrequencyAnalyzer.calculateFrequency.
  pose proof (countLetters_from_empty text) as [_ [_ [Htotal _]]].
  pose proof (countLetters_find text c) as Hfind.
  destruct (FrequencyAnalyzer.countLetters text [] 0) as [counts total].
  simpl in Htotal, Hfind. subst total. cbv beta iota.
  unfold FrequencyAnalyzer.normalizeFrequencies.
  destruct (Z.eqb_spec (Utils.alphaCount text) 0) as [E|_]; [lia|].
  rewrite (find_map_values Ascii.compare
             (fun n => inject_Z n / inject_Z (Utils.alphaCount text) * 100)),
    Hfind.
  destruct (0 <? Spec.occurrences c text)%Z eqn:E; simpl; [reflexivity|].
  apply Z.ltb_ge in E. pose proof (occurrences_nonneg c text).
  replace (Spec.occurrences c text) with 0%Z by lia.
  unfold Qdiv. rewrite !Qmult_0_l. reflexivity.
Qed.

Lemma total_calculateFrequency (text : string) :
  (0 < Utils.alphaCount text)%Z ->
  Spec.total (FrequencyAnalyzer.calculateFrequency text) == 100.
Proof.
  intros Hpos. unfold Spec.total.
  assert (H : forall l : list ascii,
    fold_right
      (fun c acc =>
         FrequencyAnalyzer.lookup0 c (FrequencyAnalyzer.calculateFrequency text)
         + acc) 0 l
    == inject_Z (fold_right (fun c acc => Spec.occurrences c text + acc)%Z 0%Z l)
       / inject_Z (Utils.alphaCount text) * 100).
  { induction l as [|c l IH]; simpl.
    - unfold Qdiv. rewrite !Qmult_0_l. reflexivity.
    - rewrite IH, (lookup0_calculateFrequency text c Hpos), inject_Z_plus.
      field. apply inject_Z_nonzero, Hpos. }
  rewrite H, sum_occurrences. field. apply inject_Z_nonzero, Hpos.
Qed.

(** C6, as amended: [calculateFrequency(text)] returns a table that has an
    entry exactly for the letters A-Z that occur in the text, case folded,
    each with its positive percentage of the alphabetic characters, the
    count of the letter over the count of all letters, times 100; the counts
    of the 26 letters add up to the count of all letters; a letter absent
    from the text has no entry, and reads as 0 where a reader defaults to 0;
    on a text without alphabetic characters the table is empty. *)
Theorem C6_frequency_table :
  forall text : string,
    let table := FrequencyAnalyzer.calculateFrequency text in
    (forall c, find Ascii.compare c table = None
               <-> Spec.occurrences c text = 0%Z) /\
    (forall c v, find Ascii.compare c table = Some v ->
                 isupper c = true /\ 0 < v /\
                 v == inject_Z (Spec.occurrences c text)
                      / inject_Z (Utils.alphaCount text) * 100) /\
    (Utils.alphaCount text = 0%Z -> table = []) /\
    fold_right (fun c acc => (Spec.occurrences c text + acc)%Z) 0%Z alphabet
    = Utils.alphaCount text.
Proof.
  intros text table.
  pose proof (countLetters_from_empty text) as [_ [Hok [Htotal _]]].
  pose proof (countLetters_find text) as Hfind.
  assert (Htable : forall c,
    find Ascii.compare c table
    = if (Utils.alphaCount text =? 0)%Z then None
      else option_map
             (fun n => inject_Z n / inject_Z (Utils.alphaCount text) * 100)
             (if (0 <? Spec.occurrences c text)%Z
              then Some (Spec.occurrences c text) else None)).
  { intros c. unfold table, FrequencyAnalyzer.calculateFrequency.
    specialize (Hfind c).
    destruct (FrequencyAnalyzer.countLetters text [] 0) as [counts total].
    simpl in Htotal, Hfind. subst total. cbv beta iota.
    unfold FrequencyAnalyzer.normalizeFrequencies.
    destruct (Utils.alphaCount text =? 0)%Z; [reflexivity|].
    rewrite (find_map_values Ascii.compare
               (fun n => inject_Z n / inject_Z (Utils.alphaCount text) * 100)),
      Hfind.
    reflexivity. }
  assert (Hocc : forall c, (Spec.occurrences c text <= Utils.alphaCount text)%Z).
  { intros c. clear.
    induction text as [|x text IH];
      cbn [Spec.occurrences Utils.alphaCount]; [lia|].
    destruct (isalpha x); cbn [andb]; [|lia].
    destruct (Ascii.eqb (toupper x) c); lia. }
  split; [|split; [|split]].
  - intros c. rewrite Htable. pose proof (occurrences_nonneg c text).
    specialize (Hocc c).
    destruct (Z.eqb_spec (Utils.alphaCount text) 0) as [E|E].
    + split; [lia | reflexivity].
    + destruct (Z.ltb_spec 0 (Spec.occurrences c text)); simpl.
      * split; [discriminate | lia].
      * split; [lia | reflexivity].
  - intros c v Hv. rewrite Htable in Hv.
    destruct (Z.eqb_spec (Utils.alphaCount text) 0) as [E|E]; [discriminate|].
    destruct (Z.ltb_spec 0 (Spec.occurrences c text)) as [Hpos|Hz];
      [|discriminate].
    simpl in Hv. injection Hv as <-.
    pose proof (alphaCount_nonneg text) as Hnn.
    assert (Hc : isupper c = true).
    { specialize (Hfind c). apply Z.ltb_lt in Hpos. rewrite Hpos in Hfind.
      destruct (Hok c _ Hfind). assumption. }
    split; [exact Hc|]. split; [|reflexivity].
    apply Qmult_lt_0_compat; [|reflexivity].
    apply Qlt_shift_div_l.
    + rewrite <- (Zlt_Qlt 0). lia.
    + rewrite Qmult_0_l. rewrite <- (Zlt_Qlt 0). exact Hpos.
  - intros E. unfold table, FrequencyAnalyzer.calculateFrequency.
    destruct (FrequencyAnalyzer.countLetters text [] 0) as [counts total].
    simpl in Htotal. subst total. cbv beta iota.
    unfold FrequencyAnalyzer.normalizeFrequencies. rewrite E. reflexivity.
  - apply sum_occurrences.
Qed.

Lemma C6_witness :
  exists v,
    find Ascii.compare "A"%char (FrequencyAnalyzer.calculateFrequency "AABBC")
    = Some v /\
    v == 40.
Proof.
  eexists. split; [reflexivity|].
  destruct (C6_frequency_table "AABBC") as [_ [H _]].
  destruct (H "A"%char _ eq_refl) as [_ [_ E]].
  rewrite E. reflexivity.
Defined.

(** C6 as stated fails: the table of ["AABBC"] has three entries and none
    for D, and the table of a text without letters is empty, not a table of
    26 zeros. *)
Lemma C6_counterexample :
  List.length (FrequencyAnalyzer.calculateFrequency "AABBC") = 3%nat /\
  find Ascii.compare "D"%char (FrequencyAnalyzer.calculateFrequency "AABBC")
  = None /\
  FrequencyAnalyzer.calculateFrequency "123" = [].
Proof. repeat split. Qed.

Local Close Scope Q_scope.

(* ================================================================= *)
(** ** Sorting *)

Section SortFacts.

Context {A : Type} (comp : A -> A -> bool).

Lemma insert_perm (x : A) (l : list A) :
  Permutation (x :: l) (insert comp x l).
Proof.
  induction l as [|y l IH]; simpl; [reflexivity|].
  destruct (comp x y); [reflexivity|].
  rewrite perm_swap. apply perm_skip, IH.
Qed.

Lemma sort_loop_perm (l acc : list A) :
  Permutation (l ++ acc) (fold_left (fun acc x => insert comp x acc) l acc).
Proof.
  revert acc. induction l as [|x l IH]; intros acc; simpl; [reflexivity|].
  rewrite <- IH. rewrite <- (insert_perm x acc).
  apply Permutation_middle.
Qed.

Lemma std_sort_perm (l : list A) : Permutation l (std_sort comp l).
Proof.
  unfold std_sort. rewrite <- sort_loop_perm, app_nil_r. reflexivity.
Qed.

Lemma std_sort_length (l : list A) :
  List.length (std_sort comp l) = List.length l.
Proof. symmetry. apply Permutation_length, std_sort_perm. Qed.

(** [comp] orders by a rational key, larger keys first. *)
Context (key : A -> Q).
Hypothesis comp_key : forall a b, comp a b = Qltb (key b) (key a).

Lemma insert_descending (x : A) (l : list A) :
  descending key l -> descending key (insert comp x l).
Proof.
  induction l as [|y l IH]; intros Hs; simpl.
  - constructor; constructor.
  - pose proof Hs as Hs0.
    apply StronglySorted_inv in Hs. destruct Hs as [Hs Hall].
    destruct (comp x y) eqn:E; rewrite comp_key in E.
    + apply Qltb_lt in E. constructor; [exact Hs0|].
      constructor; [apply Qlt_le_weak, E|].
      eapply Forall_impl; [|exact Hall]. simpl. intros z Hz.
      apply Qle_trans with (key y); [exact Hz | apply Qlt_le_weak, E].
    + apply Qltb_ge in E. constructor; [apply IH, Hs|].
      apply Forall_forall. intros z Hz.
      apply (Permutation_in _ (Permutation_sym (insert_perm x l))) in Hz.
      destruct Hz as [<-|Hz]; [exact E|].
      rewrite Forall_forall in Hall. apply Hall, Hz.
Qed.

Lemma std_sort_descending (l : list A) : descending key (std_sort comp l).
Proof.
  unfold std_sort.
  assert (H : forall l acc, descending key acc ->
            descending key (fold_left (fun acc x => insert comp x acc) l acc)).
  { clear l. induction l as [|x l IH]; intros acc Hacc; simpl; [exact Hacc|].
    apply IH, insert_descending, Hacc. }
  apply H. constructor.
Qed.

End SortFacts.

(* ================================================================= *)
(** ** Loops that can fail *)

Lemma mapM_app {A B} (f : A -> result B) (l1 l2 : list A) :
  mapM f (l1 ++ l2)
  = bind (mapM f l1) (fun a => bind (mapM f l2) (fun b => Ok (a ++ b)%list)).
Proof.
  induction l1 as [|x l1 IH]; simpl.
  - destruct (mapM f l2); reflexivity.
  - destruct (f x); [|reflexivity]. rewrite IH.
    destruct (mapM f l1); [|reflexivity]. simpl.
    destruct (mapM f l2); reflexivity.
Qed.

Lemma mapM_flat_map {A B C} (f : A -> result B) (g : C -> list A)
  (rs : list C) :
  bind (mapM (fun r => mapM f (g r)) rs) (fun ys => Ok (List.concat ys))
  = mapM f (flat_map g rs).
Proof.
  induction rs as [|r rs IH]; simpl; [reflexivity|].
  rewrite mapM_app. destruct (mapM f (g r)); [|reflexivity]. simpl.
  rewrite <- IH.
  destruct (mapM (fun r0 => mapM f (g r0)) rs); reflexivity.
Qed.

Lemma mapM_total {A B} (f : A -> result B) (g : A -> B) (l : list A) :
  (forall x, In x l -> f x = Ok (g x)) -> mapM f l = Ok (map g l).
Proof.
  induction l as [|x l IH]; intros H; simpl; [reflexivity|].
  rewrite (H x) by (left; reflexivity).
  rewrite IH by (intros y Hy; apply H; right; exact Hy). reflexivity.
Qed.

Lemma mapM_Ok_inv {A B} (f : A -> result B) (l : list A) (ys : list B) :
  mapM f l = Ok ys -> Forall2 (fun x y => f x = Ok y) l ys.
Proof.
  revert ys. induction l as [|x l IH]; intros ys; simpl.
  - intros [= <-]. constructor.
  - destruct (f x) as [y|] eqn:E; [|discriminate].
    destruct (mapM f l) as [ys'|]; [|discriminate].
    intros [= <-]. constructor; [exact E | apply IH; reflexivity].
Qed.

(* ================================================================= *)
(** ** The Caesar ranking *)

Lemma string_filter_forall (p : ascii -> bool) (s : string) :
  string_forall p (string_filter p s) = true.
Proof.
  induction s as [|c s IH]; simpl; [reflexivity|].
  destruct (p c) eqn:E; simpl; [rewrite E|]; exact IH.
Qed.

Lemma string_forall_map (p : ascii -> bool) (f : ascii -> ascii) (s : string) :
  (forall c, p c = true -> p (f c) = true) ->
  string_forall p s = true -> string_forall p (string_map f s) = true.
Proof.
  intros Hf. induction s as [|c s IH]; simpl; [reflexivity|].
  intros H. apply andb_prop in H. destruct H as [H1 H2].
  rewrite (Hf c H1), (IH H2). reflexivity.
Qed.

Lemma string_filter_all (p : ascii -> bool) (s : string) :
  string_forall p s = true -> string_filter p s = s.
Proof.
  induction s as [|c s IH]; simpl; [reflexivity|].
  intros H. apply andb_prop in H. destruct H as [H1 H2].
  rewrite H1, (IH H2). reflexivity.
Qed.

Lemma normalizeText_letters (text : string) :
  string_forall isalpha (Utils.normalizeText text) = true.
Proof.
  unfold Utils.normalizeText, Utils.toUpperCase, Utils.removeNonAlpha.
  apply string_forall_map.
  - intros c Hc. rewrite isalpha_toupper. exact Hc.
  - apply string_filter_forall.
Qed.

Lemma normalizeText_length_letters (text : string) :
  string_forall isalpha text = true ->
  String.length (Utils.normalizeText text) = String.length text.
Proof.
  intros H. unfold Utils.normalizeText, Utils.toUpperCase,
    Utils.removeNonAlpha.
  rewrite string_map_length, (string_filter_all _ _ H). reflexivity.
Qed.

Lemma caesarShiftChar_isalpha (c : ascii) (s : Z) :
  0 <= s <= 26 -> isalpha (CaesarBreaker.caesarShiftChar c s) = isalpha c.
Proof.
  intros Hs. rewrite <- vigenereShift_caesarShiftChar.
  apply vigenereShift_isalpha, Hs.
Qed.

Lemma caesarShift_letters (text : string) (s : Z) :
  0 <= s <= 26 ->
  string_forall isalpha text = true ->
  string_forall isalpha (CaesarBreaker.caesarShift text s) = true.
Proof.
  intros Hs. apply string_forall_map.
  intros c Hc. rewrite caesarShiftChar_isalpha by exact Hs. exact Hc.
Qed.

(** Scoring a text made of letters does not throw, unless the text is
    empty and [minTextLength] is not positive. *)
Lemma scoreText_total (self : CaesarBreaker.t) (text : string) :
  0 < CaesarBreaker.minTextLength self \/ text <> EmptyString ->
  string_forall isalpha text = true ->
  exists score, CaesarBreaker.scoreText self text = Ok score.
Proof.
  intros Hmin Hletters. unfold CaesarBreaker.scoreText.
  destruct (Z.ltb_spec (size text) (CaesarBreaker.minTextLength self))
    as [Hshort|Hlong]; [eexists; reflexivity|].
  unfold CaesarBreaker.checkCommonPatterns, FrequencyAnalyzer.findCommonBigrams.
  rewrite (normalizeText_length_letters text Hletters).
  destruct (Nat.eqb_spec (String.length text) 0) as [E|E].
  - exfalso. destruct Hmin as [Hmin|Hmin].
    + unfold size in Hlong. rewrite E in Hlong. simpl in Hlong. lia.
    + destruct text; [contradiction | discriminate E].
  - simpl. eexists. reflexivity.
Qed.

Lemma string_map_nonempty (f : ascii -> ascii) (s : string) :
  s <> EmptyString -> string_map f s <> EmptyString.
Proof. destruct s; [contradiction | discriminate]. Qed.

(** Whatever the number of threads, the tasks cover the keys 0 to 25 in
    order. *)
Lemma launch_covers_keys (numThreads : Z) :
  1 <= numThreads <= 26 ->
  flat_map (fun r => range_incl (fst r) (snd r - 1))
    (CaesarBreaker.launch (Z.to_nat numThreads) 0
       (Z.quot (26 + numThreads - 1) numThreads))
  = range_incl 0 25.
Proof.
  intros H.
  assert (Hall : forall n, 0 <= n <= 26 ->
    (if n =? 0 then true
     else same_list
            (flat_map (fun r => range_incl (fst r) (snd r - 1))
               (CaesarBreaker.launch (Z.to_nat n) 0 (Z.quot (26 + n - 1) n)))
            (range_incl 0 25)) = true).
  { apply for_all_shifts. vm_compute. reflexivity. }
  specialize (Hall numThreads ltac:(lia)).
  destruct (Z.eqb_spec numThreads 0); [lia|].
  unfold same_list in Hall.
  destruct (list_eq_dec Z.eq_dec _ _) as [E|E]; [exact E | discriminate].
Qed.

Local Open Scope Q_scope.

Lemma clamp_from_50 (x : Q) :
  50 <= x -> Qmin 100 x == Spec.clamp x 0 100.
Proof.
  intros H. unfold Spec.clamp. symmetry. apply Q.max_r.
  apply Q.min_glb; [discriminate|].
  apply Qle_trans with 50; [discriminate | exact H].
Qed.

Lemma keyScore_run (self : CaesarBreaker.t) (normalizedText : string)
  (key : Z) :
  (0 < CaesarBreaker.minTextLength self)%Z \/ normalizedText <> EmptyString ->
  string_forall isalpha normalizedText = true ->
  (0 <= key <= 25)%Z ->
  CaesarBreaker.scoreText self (CaesarBreaker.caesarShift normalizedText key)
  = Ok (keyScore self normalizedText key).
Proof.
  intros Hmin Hletters Hkey. unfold keyScore.
  destruct (scoreText_total self (CaesarBreaker.caesarShift normalizedText key))
    as [score Hscore].
  - destruct Hmin as [Hmin|Hmin]; [left; exact Hmin|].
    right. apply string_map_nonempty, Hmin.
  - apply caesarShift_letters; [lia | exact Hletters].
  - rewrite Hscore. reflexivity.
Qed.

Lemma findPossibleKeys_ranking (hardware_concurrency : Z)
  (self : CaesarBreaker.t) (ciphertext : string) :
  (1 <= hardware_concurrency)%Z ->
  (0 < CaesarBreaker.minTextLength self)%Z
  \/ Utils.normalizeText ciphertext <> EmptyString ->
  exists keyScores self',
    CaesarBreaker.findPossibleKeys hardware_concurrency self ciphertext
    = Ok (keyScores, self') /\
    Permutation
      (map (fun key => (key, keyScore self (Utils.normalizeText ciphertext) key))
         (range_incl 0 25))
      keyScores /\
    descending snd keyScores /\
    CaesarBreaker.confidence self'
    = CaesarBreaker.rankedConfidence keyScores (CaesarBreaker.confidence self).
Proof.
  intros Hhc Hmin. unfold CaesarBreaker.findPossibleKeys.
  set (nt := Utils.normalizeText ciphertext).
  set (numThreads := Z.min 26 hardware_concurrency).
  assert (Hn : (1 <= numThreads <= 26)%Z) by (unfold numThreads; lia).
  destruct (Z.eqb_spec numThreads 0) as [E|_]; [lia|].
  set (f := fun key : Z =>
              score <- CaesarBreaker.scoreText self
                         (CaesarBreaker.caesarShift nt key) ;;
              Ok (key, score)).
  assert (Hf : forall key, In key (range_incl 0 25) ->
                           f key = Ok (key, keyScore self nt key)).
  { intros key Hkey. apply range_incl_In in Hkey. unfold f.
    rewrite (keyScore_run self nt key Hmin (normalizeText_letters _) Hkey).
    reflexivity. }
  pose proof (mapM_flat_map f (fun r => range_incl (fst r) (snd r - 1))
                (CaesarBreaker.launch (Z.to_nat numThreads) 0
                   (Z.quot (26 + numThreads - 1) numThreads))) as Hmap.
  rewrite (launch_covers_keys numThreads Hn) in Hmap.
  rewrite (mapM_total f _ _ Hf) in Hmap.
  change (CaesarBreaker.threadTask self nt)
    with (fun r : Z * Z => mapM f (range_incl (fst r) (snd r - 1))).
  destruct (mapM (fun r : Z * Z => mapM f (range_incl (fst r) (snd r - 1))) _)
    as [collected|e]; [|discriminate Hmap].
  simpl in Hmap. injection Hmap as Hcollected. simpl bind.
  rewrite Hcollected.
  eexists. eexists. split; [reflexivity|]. split; [|split].
  - etransitivity; [apply std_sort_perm|]. apply std_sort_perm.
  - apply (std_sort_descending _ snd). reflexivity.
  - reflexivity.
Qed.

(** C7: after [findPossibleKeys] has ranked the 26 shift candidates by
    score, the confidence is clamp((best - secondBest) * 10 + 50, 0, 100),
    best and secondBest being the two highest scores; a ranking of fewer than
    two candidates leaves the confidence at its prior value.  The ranking
    exists whenever at least one hardware thread is reported and the scoring
    does not throw, which needs a positive [minTextLength] (the default is
    20) or a ciphertext with a letter. *)
Theorem C7_confidence_from_ranking :
  (forall hardware_concurrency self ciphertext,
     (1 <= hardware_concurrency)%Z ->
     (0 < CaesarBreaker.minTextLength self)%Z
     \/ Utils.normalizeText ciphertext <> EmptyString ->
     exists k0 best k1 secondBest rest self',
       CaesarBreaker.findPossibleKeys hardware_concurrency self ciphertext
       = Ok ((k0, best) :: (k1, secondBest) :: rest, self') /\
       Permutation (range_incl 0 25) (k0 :: k1 :: map fst rest) /\
       (forall k s, In (k, s) ((k0, best) :: (k1, secondBest) :: rest) ->
          CaesarBreaker.scoreText self
            (CaesarBreaker.caesarShift (Utils.normalizeText ciphertext) k)
          = Ok s) /\
       secondBest <= best /\
       Forall (fun p => snd p <= secondBest) rest /\
       CaesarBreaker.getConfidence self'
       == Spec.clamp ((best - secondBest) * 10 + 50) 0 100) /\
  (forall keyScores prior,
     (List.length keyScores < 2)%nat ->
     CaesarBreaker.rankedConfidence keyScores prior = prior).
Proof.
  split.
  - intros hc self ciphertext Hhc Hmin.
    destruct (findPossibleKeys_ranking hc self ciphertext Hhc Hmin)
      as [keyScores [self' [Hrun [Hperm [Hdesc Hconf]]]]].
    assert (Hlen : List.length keyScores = 26%nat).
    { rewrite <- (Permutation_length Hperm). reflexivity. }
    destruct keyScores as [|[k0 best] [|[k1 secondBest] rest]];
      try discriminate Hlen.
    exists k0, best, k1, secondBest, rest, self'.
    apply StronglySorted_inv in Hdesc. destruct Hdesc as [Hdesc Hbest].
    apply StronglySorted_inv in Hdesc. destruct Hdesc as [_ Hsecond].
    apply Forall_inv in Hbest. simpl in Hbest.
    split; [exact Hrun|]. split; [|split; [|split; [|split]]].
    + apply (Permutation_map fst) in Hperm.
      rewrite map_map in Hperm.
      erewrite map_ext in Hperm by (intros key; reflexivity).
      rewrite map_id in Hperm. exact Hperm.
    + intros k s Hin.
      apply (Permutation_in _ (Permutation_sym Hperm)) in Hin.
      apply in_map_iff in Hin. destruct Hin as [key [[= <- <-] Hkey]].
      apply range_incl_In in Hkey.
      apply (keyScore_run self _ key Hmin (normalizeText_letters _) Hkey).
    + exact Hbest.
    + exact Hsecond.
    + unfold CaesarBreaker.getConfidence. rewrite Hconf. simpl.
      apply clamp_from_50.
      rewrite <- (Qplus_0_l 50) at 1. apply Qplus_le_compat; [|apply Qle_refl].
      apply Qmult_le_0_compat; [|discriminate].
      unfold Qminus. rewrite <- (Qplus_opp_r secondBest).
      apply Qplus_le_compat; [exact Hbest | apply Qle_refl].
  - intros [|[k0 s0] [|p rest]] prior H; simpl in *; try reflexivity. lia.
Qed.

Lemma C7_witness :
  exists k0 best k1 secondBest rest self',
    CaesarBreaker.findPossibleKeys 8 CaesarBreaker.new "HI"
    = Ok ((k0, best) :: (k1, secondBest) :: rest, self') /\
    CaesarBreaker.getConfidence self'
    == Spec.clamp ((best - secondBest) * 10 + 50) 0 100.
Proof.
  destruct (proj1 C7_confidence_from_ranking 8%Z CaesarBreaker.new "HI")
    as [k0 [best [k1 [secondBest [rest [self' [H1 [_ [_ [_ [_ H2]]]]]]]]]]].
  - apply Z.leb_le. reflexivity.
  - left. reflexivity.
  - exists k0, best, k1, secondBest, rest, self'. split; assumption.
Defined.

Local Close Scope Q_scope.

(* ================================================================= *)
(** ** Hill climbing *)

Local Open Scope Q_scope.

Lemma hillClimbStep_cases (ciphertext : string)
  (s s' : SubstitutionBreaker.climb) :
  SubstitutionBreaker.hillClimbStep ciphertext s = Ok s' ->
  (SubstitutionBreaker.currentMapping s' = SubstitutionBreaker.currentMapping s /\
   SubstitutionBreaker.currentScore s' = SubstitutionBreaker.currentScore s) \/
  (SubstitutionBreaker.currentScore s < SubstitutionBreaker.currentScore s' /\
   SubstitutionBreaker.scoreMapping (SubstitutionBreaker.currentMapping s')
     ciphertext
   = Ok (SubstitutionBreaker.currentScore s')).
Proof.
  unfold SubstitutionBreaker.hillClimbStep.
  destruct (SubstitutionBreaker.generateNeighborMapping _ _)
    as [[neighborMapping self]|e]; [|discriminate].
  simpl.
  destruct (SubstitutionBreaker.scoreMapping neighborMapping ciphertext)
    as [neighborScore|e] eqn:Hscore; [|discriminate].
  simpl.
  destruct (Qltb (SubstitutionBreaker.currentScore s) neighborScore) eqn:E;
    intros [= <-]; simpl.
  - right. split; [apply Qltb_lt, E | exact Hscore].
  - left. split; reflexivity.
Qed.

Lemma hillClimbStep_monotone (ciphertext : string)
  (s s' : SubstitutionBreaker.climb) :
  SubstitutionBreaker.hillClimbStep ciphertext s = Ok s' ->
  SubstitutionBreaker.currentScore s <= SubstitutionBreaker.currentScore s'.
Proof.
  intros H. destruct (hillClimbStep_cases _ _ _ H) as [[_ E]|[Hlt _]].
  - rewrite E. apply Qle_refl.
  - apply Qlt_le_weak, Hlt.
Qed.

Lemma hillClimbLoop_monotone (ciphertext : string) (n : nat) :
  forall s s',
    SubstitutionBreaker.hillClimbLoop ciphertext n s = Ok s' ->
    SubstitutionBreaker.currentScore s <= SubstitutionBreaker.currentScore s'.
Proof.
  induction n as [|n IH]; intros s s'; simpl.
  - intros [= <-]. apply Qle_refl.
  - destruct (SubstitutionBreaker.hillClimbStep ciphertext s) as [s1|e] eqn:E;
      [|discriminate].
    simpl. intros H.
    apply Qle_trans with (SubstitutionBreaker.currentScore s1).
    + apply (hillClimbStep_monotone _ _ _ E).
    + apply (IH _ _ H).
Qed.

Lemma hillClimbLoop_add (ciphertext : string) (a b : nat) :
  forall s,
    SubstitutionBreaker.hillClimbLoop ciphertext (a + b) s
    = bind (SubstitutionBreaker.hillClimbLoop ciphertext a s)
        (SubstitutionBreaker.hillClimbLoop ciphertext b).
Proof.
  induction a as [|a IH]; intros s; simpl; [reflexivity|].
  destruct (SubstitutionBreaker.hillClimbStep ciphertext s); [|reflexivity].
  simpl. apply IH.
Qed.

Lemma hillClimbStep_scored (ciphertext : string)
  (s s' : SubstitutionBreaker.climb) :
  SubstitutionBreaker.hillClimbStep ciphertext s = Ok s' ->
  SubstitutionBreaker.scoreMapping (SubstitutionBreaker.currentMapping s)
    ciphertext
  = Ok (SubstitutionBreaker.currentScore s) ->
  SubstitutionBreaker.scoreMapping (SubstitutionBreaker.currentMapping s')
    ciphertext
  = Ok (SubstitutionBreaker.currentScore s').
Proof.
  intros H Hs. destruct (hillClimbStep_cases ciphertext s s' H) as [[E1 E2]|[_ E]].
  - rewrite E1, E2. exact Hs.
  - exact E.
Qed.

Lemma hillClimbLoop_scored (ciphertext : string) (n : nat) :
  forall s s',
    SubstitutionBreaker.hillClimbLoop ciphertext n s = Ok s' ->
    SubstitutionBreaker.scoreMapping (SubstitutionBreaker.currentMapping s)
      ciphertext
    = Ok (SubstitutionBreaker.currentScore s) ->
    SubstitutionBreaker.scoreMapping (SubstitutionBreaker.currentMapping s')
      ciphertext
    = Ok (SubstitutionBreaker.currentScore s').
Proof.
  induction n as [|n IH]; intros s s' H Hs; cbn [SubstitutionBreaker.hillClimbLoop] in H.
  - injection H as <-. exact Hs.
  - destruct (SubstitutionBreaker.hillClimbStep ciphertext s) as [s1|e] eqn:E;
      [|discriminate H].
    cbn [bind] in H. apply (IH s1 s' H).
    apply (hillClimbStep_scored ciphertext s s1 E Hs).
Qed.

(** One pass of the loop: the neighbour is scored, and it replaces the
    current mapping exactly when its fitness is strictly greater. *)
Lemma hillClimbStep_adopts (ciphertext : string)
  (s s' : SubstitutionBreaker.climb) :
  SubstitutionBreaker.hillClimbStep ciphertext s = Ok s' ->
  exists neighbor self' neighborScore,
    SubstitutionBreaker.generateNeighborMapping (SubstitutionBreaker.this s)
      (SubstitutionBreaker.currentMapping s)
    = Ok (neighbor, self') /\
    SubstitutionBreaker.scoreMapping neighbor ciphertext = Ok neighborScore /\
    ((SubstitutionBreaker.currentScore s < neighborScore /\
      SubstitutionBreaker.currentMapping s' = neighbor /\
      SubstitutionBreaker.currentScore s' = neighborScore) \/
     (neighborScore <= SubstitutionBreaker.currentScore s /\
      SubstitutionBreaker.currentMapping s'
      = SubstitutionBreaker.currentMapping s /\
      SubstitutionBreaker.currentScore s'
      = SubstitutionBreaker.currentScore s)).
Proof.
  unfold SubstitutionBreaker.hillClimbStep.
  destruct (SubstitutionBreaker.generateNeighborMapping _ _)
    as [[neighborMapping self]|e]; [|discriminate].
  cbn [bind].
  destruct (SubstitutionBreaker.scoreMapping neighborMapping ciphertext)
    as [neighborScore|e] eqn:Hscore; [|discriminate].
  cbn [bind]. exists neighborMapping, self, neighborScore.
  split; [reflexivity|]. split; [exact Hscore|].
  destruct (Qltb (SubstitutionBreaker.currentScore s) neighborScore) eqn:E;
    injection H as <-; cbn.
  - left. split; [apply Qltb_lt, E|]. split; reflexivity.
  - right. split; [apply Qltb_ge, E|]. split; reflexivity.
Qed.

Lemma hillClimbStart_scored (self : SubstitutionBreaker.t)
  (initialMapping : SubstitutionBreaker.Mapping) (ciphertext : string)
  (start : SubstitutionBreaker.climb) :
  SubstitutionBreaker.hillClimbStart self initialMapping ciphertext
  = Ok start ->
  SubstitutionBreaker.currentMapping start = initialMapping /\
  SubstitutionBreaker.scoreMapping initialMapping ciphertext
  = Ok (SubstitutionBreaker.currentScore start).
Proof.
  unfold SubstitutionBreaker.hillClimbStart.
  destruct (SubstitutionBreaker.scoreMapping initialMapping ciphertext)
    as [score|e]; [|discriminate].
  cbn [bind]. intros H. injection H as <-. split; reflexivity.
Qed.

(** C9: over a run of [hillClimbOptimization], the loop started on the
    initial mapping, the score the loop holds after any number of passes is
    the fitness [scoreMapping] of the mapping it holds; in the next pass the
    neighbour is adopted exactly when its fitness is strictly greater, and
    otherwise mapping and score stay; so the fitness of the current mapping
    after [i] passes is at most the one after any [j >= i] passes.  The
    mapping [hillClimbOptimization] returns is the current one after
    [maxIterations] passes, and its fitness is at least that of the initial
    mapping. *)
Theorem C9_hill_climbing_monotone :
  forall (ciphertext : string) (self : SubstitutionBreaker.t)
    (initialMapping : SubstitutionBreaker.Mapping)
    (start : SubstitutionBreaker.climb),
    SubstitutionBreaker.hillClimbStart self initialMapping ciphertext
    = Ok start ->
    SubstitutionBreaker.currentMapping start = initialMapping /\
    (forall (maxIterations : Z) (mapping : SubstitutionBreaker.Mapping)
       (self' : SubstitutionBreaker.t),
       SubstitutionBreaker.hillClimbOptimization self initialMapping
         ciphertext maxIterations
       = Ok (mapping, self') ->
       exists final initialFitness finalFitness,
         SubstitutionBreaker.hillClimbLoop ciphertext
           (Z.to_nat maxIterations) start
         = Ok final /\
         mapping = SubstitutionBreaker.currentMapping final /\
         SubstitutionBreaker.scoreMapping initialMapping ciphertext
         = Ok initialFitness /\
         SubstitutionBreaker.scoreMapping mapping ciphertext
         = Ok finalFitness /\
         initialFitness <= finalFitness) /\
    forall (i : nat) (si : SubstitutionBreaker.climb),
      SubstitutionBreaker.hillClimbLoop ciphertext i start = Ok si ->
      SubstitutionBreaker.scoreMapping (SubstitutionBreaker.currentMapping si)
        ciphertext
      = Ok (SubstitutionBreaker.currentScore si) /\
      (forall si',
         SubstitutionBreaker.hillClimbLoop ciphertext (S i) start = Ok si' ->
         exists neighbor self' neighborFitness,
           SubstitutionBreaker.generateNeighborMapping
             (SubstitutionBreaker.this si)
             (SubstitutionBreaker.currentMapping si)
           = Ok (neighbor, self') /\
           SubstitutionBreaker.scoreMapping neighbor ciphertext
           = Ok neighborFitness /\
           ((SubstitutionBreaker.currentScore si < neighborFitness /\
             SubstitutionBreaker.currentMapping si' = neighbor /\
             SubstitutionBreaker.currentScore si' = neighborFitness) \/
            (neighborFitness <= SubstitutionBreaker.currentScore si /\
             SubstitutionBreaker.currentMapping si'
             = SubstitutionBreaker.currentMapping si /\
             SubstitutionBreaker.currentScore si'
             = SubstitutionBreaker.currentScore si))) /\
      (forall (j : nat) (sj : SubstitutionBreaker.climb),
         (i <= j)%nat ->
         SubstitutionBreaker.hillClimbLoop ciphertext j start = Ok sj ->
         exists fitness_i fitness_j,
           SubstitutionBreaker.scoreMapping
             (SubstitutionBreaker.currentMapping si) ciphertext
           = Ok fitness_i /\
           SubstitutionBreaker.scoreMapping
             (SubstitutionBreaker.currentMapping sj) ciphertext
           = Ok fitness_j /\
           fitness_i <= fitness_j).
Proof.
  intros ciphertext self initialMapping start Hstart.
  destruct (hillClimbStart_scored _ _ _ _ Hstart) as [Hmap Hscore].
  split; [exact Hmap|].
  rewrite <- Hmap in Hscore.
  split.
  { intros maxIterations mapping self' Hopt.
    unfold SubstitutionBreaker.hillClimbOptimization in Hopt.
    rewrite Hstart in Hopt. cbn [bind] in Hopt.
    destruct (SubstitutionBreaker.hillClimbLoop ciphertext
                (Z.to_nat maxIterations) start) as [final|e] eqn:Hloop;
      [|discriminate Hopt].
    cbn [bind] in Hopt. injection Hopt as <- <-.
    exists final, (SubstitutionBreaker.currentScore start),
      (SubstitutionBreaker.currentScore final).
    split; [reflexivity|]. split; [reflexivity|].
    split; [rewrite <- Hmap; exact Hscore|].
    split; [apply (hillClimbLoop_scored _ _ _ _ Hloop Hscore)|].
    apply (hillClimbLoop_monotone _ _ _ _ Hloop). }
  intros i si Hi.
  pose proof (hillClimbLoop_scored _ _ _ _ Hi Hscore) as Hsi.
  split; [exact Hsi|]. split.
  - intros si' Hi'.
    replace (S i) with (i + 1)%nat in Hi' by lia.
    rewrite hillClimbLoop_add, Hi in Hi'. cbn [bind] in Hi'.
    cbn [SubstitutionBreaker.hillClimbLoop] in Hi'.
    destruct (SubstitutionBreaker.hillClimbStep ciphertext si) as [s1|e] eqn:E;
      [|discriminate Hi'].
    cbn [bind] in Hi'. injection Hi' as <-.
    apply (hillClimbStep_adopts _ _ _ E).
  - intros j sj Hij Hj.
    pose proof (hillClimbLoop_scored _ _ _ _ Hj Hscore) as Hsj.
    exists (SubstitutionBreaker.currentScore si),
      (SubstitutionBreaker.currentScore sj).
    split; [exact Hsi|]. split; [exact Hsj|].
    replace j with (i + (j - i))%nat in Hj by lia.
    rewrite hillClimbLoop_add, Hi in Hj. cbn [bind] in Hj.
    apply (hillClimbLoop_monotone _ _ _ _ Hj).
Qed.

(** A run on ["XXXY"] whose first pass adopts its neighbour (the draws 3
    and 24 exchange the plain letters of D and Y) and whose second pass does
    not. *)
Lemma C9_witness :
  exists start s1 s2 fitness_0 fitness_1 fitness_2,
    SubstitutionBreaker.hillClimbStart
      (SubstitutionBreaker.new [3; 24; 7; 9]%nat)
      (SubstitutionBreaker.generateMapping (SubstitutionBreaker.new []) "XXXY")
      "XXXY"
    = Ok start /\
    SubstitutionBreaker.hillClimbLoop "XXXY" 1 start = Ok s1 /\
    SubstitutionBreaker.hillClimbLoop "XXXY" 2 start = Ok s2 /\
    SubstitutionBreaker.currentMapping s1
    <> SubstitutionBreaker.currentMapping start /\
    SubstitutionBreaker.currentMapping s2
    = SubstitutionBreaker.currentMapping s1 /\
    SubstitutionBreaker.scoreMapping
      (SubstitutionBreaker.currentMapping start) "XXXY" = Ok fitness_0 /\
    SubstitutionBreaker.scoreMapping
      (SubstitutionBreaker.currentMapping s1) "XXXY" = Ok fitness_1 /\
    SubstitutionBreaker.scoreMapping
      (SubstitutionBreaker.currentMapping s2) "XXXY" = Ok fitness_2 /\
    fitness_0 < fitness_1 /\ fitness_1 <= fitness_2.
Proof.
  lazymatch eval vm_compute in
    (SubstitutionBreaker.hillClimbStart
       (SubstitutionBreaker.new [3; 24; 7; 9]%nat)
       (SubstitutionBreaker.generateMapping (SubstitutionBreaker.new []) "XXXY")
       "XXXY") with
  | Ok ?st =>
    lazymatch eval vm_compute in
      (SubstitutionBreaker.hillClimbLoop "XXXY" 1 st) with
    | Ok ?st1 =>
      lazymatch eval vm_compute in
        (SubstitutionBreaker.hillClimbLoop "XXXY" 2 st) with
      | Ok ?st2 =>
        assert (E0 : SubstitutionBreaker.hillClimbStart
                  (SubstitutionBreaker.new [3; 24; 7; 9]%nat)
                  (SubstitutionBreaker.generateMapping
                     (SubstitutionBreaker.new []) "XXXY")
                  "XXXY" = Ok st) by (vm_compute; reflexivity);
        assert (L1 : SubstitutionBreaker.hillClimbLoop "XXXY" 1 st = Ok st1)
          by (vm_compute; reflexivity);
        assert (L2 : SubstitutionBreaker.hillClimbLoop "XXXY" 2 st = Ok st2)
          by (vm_compute; reflexivity);
        assert (N1 : SubstitutionBreaker.currentMapping st1
                     <> SubstitutionBreaker.currentMapping st)
          by (vm_compute; discriminate);
        assert (N2 : SubstitutionBreaker.currentMapping st2
                     = SubstitutionBreaker.currentMapping st1)
          by (vm_compute; reflexivity);
        set (start := st) in *; set (s1 := st1) in *; set (s2 := st2) in *
      end
    end
  end.
  assert (L0 : SubstitutionBreaker.hillClimbLoop "XXXY" 0 start = Ok start)
    by reflexivity.
  destruct (C9_hill_climbing_monotone _ _ _ _ E0) as [Hmap [_ H]].
  destruct (H 0%nat start L0) as [F0 [A0 _]].
  destruct (H 1%nat s1 L1) as [F1 [_ M1]].
  destruct (M1 2%nat s2 ltac:(lia) L2) as [f1 [f2 [G1 [G2 Hle]]]].
  destruct (A0 s1 L1) as [neighbor [self' [nf [_ [_ [[Hlt [_ Hs]]|[_ [Hm _]]]]]]]];
    [|contradiction].
  exists start, s1, s2, (SubstitutionBreaker.currentScore start), f1, f2.
  repeat (split; [assumption|]).
  split; [|exact Hle].
  replace f1 with nf; [exact Hlt|].
  rewrite <- Hs. rewrite F1 in G1. injection G1 as G1. exact G1.
Defined.

Local Close Scope Q_scope.

(* ================================================================= *)
(** ** Substitution mappings *)

Lemma isPermutationb_spec (mapping : SubstitutionBreaker.Mapping) :
  isPermutationb mapping = true <-> Spec.isPermutation mapping.
Proof.
  unfold isPermutationb, Spec.isPermutation.
  rewrite andb_true_iff. split.
  - intros [H1 H2]. split.
    + destruct (list_eq_dec ascii_dec _ _); [assumption | discriminate].
    + apply (Permutation_count_occ ascii_dec). intros x.
      apply Nat.eqb_eq. revert x. apply for_all_chars. exact H2.
  - intros [H1 H2]. split.
    + destruct (list_eq_dec ascii_dec _ _); [reflexivity | contradiction].
    + apply forallb_forall. intros x _. apply Nat.eqb_eq.
      apply (Permutation_count_occ ascii_dec). exact H2.
Qed.

(** C4 fails on the ciphertext ["XXXY"]: the completed seed mapping is a
    permutation, and bigram refinement turns it into a mapping that sends
    both G and X to H and nothing to T. *)
Theorem C4_bigram_refinement_breaks_permutation :
  let seed :=
    SubstitutionBreaker.generateMapping (SubstitutionBreaker.new []) "XXXY" in
  Spec.isPermutation seed /\
  exists refined,
    SubstitutionBreaker.improveMappingWithBigrams seed "XXXY" = Ok refined /\
    find Ascii.compare "G"%char refined = Some "H"%char /\
    find Ascii.compare "X"%char refined = Some "H"%char /\
    ~ In "T"%char (map snd refined) /\
    ~ Spec.isPermutation refined.
Proof.
  split.
  - apply isPermutationb_spec. vm_compute. reflexivity.
  - eexists. split; [vm_compute; reflexivity|].
    split; [reflexivity|]. split; [reflexivity|]. split.
    + intros H. simpl in H.
      repeat (destruct H as [H|H]; [discriminate H|]). exact H.
    + intros H. apply isPermutationb_spec in H. vm_compute in H.
      discriminate H.
Qed.

(* ================================================================= *)
(** ** Kasiski examination *)

Lemma foldM_total {A S} (f : S -> A -> result S) (g : S -> A -> S)
  (l : list A) :
  (forall s x, In x l -> f s x = Ok (g s x)) ->
  forall s, foldM f l s = Ok (fold_left g l s).
Proof.
  induction l as [|x l IH]; intros H s; simpl; [reflexivity|].
  rewrite (H s x) by (left; reflexivity).
  apply IH. intros s' y Hy. apply H. right. exact Hy.
Qed.

Lemma countZ_step (distance factor L : Z) (factorCounts : list (Z * Z)) :
  sorted id factorCounts ->
  countZ L (countFactorStep distance factorCounts factor)
  = countZ L factorCounts
    + (if (factor =? L) && (Z.rem distance factor =? 0) then 1 else 0).
Proof.
  intros Hs. unfold countFactorStep, countZ.
  destruct (Z.rem distance factor =? 0); [|rewrite andb_false_r; lia].
  rewrite andb_true_r. destruct (Z.eqb_spec factor L) as [->|Hne].
  - rewrite (find_update_same Z.compare id Z_cmp_code id_inj) by exact Hs.
    destruct (find Z.compare L factorCounts); lia.
  - rewrite (find_update_other Z.compare id Z_cmp_code id_inj) by congruence.
    lia.
Qed.

Lemma step_sorted (distance factor : Z) (factorCounts : list (Z * Z)) :
  sorted id factorCounts ->
  sorted id (countFactorStep distance factorCounts factor).
Proof.
  intros Hs. unfold countFactorStep.
  destruct (Z.rem distance factor =? 0); [|exact Hs].
  apply (update_sorted Z.compare id Z_cmp_code id_inj), Hs.
Qed.

Lemma step_ok (lo hi distance factor : Z) (factorCounts : list (Z * Z)) :
  sorted id factorCounts -> factors_ok lo hi factorCounts ->
  lo <= factor <= hi ->
  factors_ok lo hi (countFactorStep distance factorCounts factor).
Proof.
  intros Hs Hok Hf L v. unfold countFactorStep.
  destruct (Z.rem distance factor =? 0); [|apply Hok].
  destruct (Z.eq_dec L factor) as [->|Hne].
  - rewrite (find_update_same Z.compare id Z_cmp_code id_inj) by exact Hs.
    intros [= <-]. split; [|exact Hf].
    destruct (find Z.compare factor factorCounts) as [v|] eqn:E; [|lia].
    destruct (Hok factor v E). lia.
  - rewrite (find_update_other Z.compare id Z_cmp_code id_inj) by exact Hne.
    apply Hok.
Qed.

(** The inner loop over a list of distinct factors. *)
Lemma inner_loop (lo hi distance : Z) (factors : list Z) :
  NoDup factors -> Forall (fun f => lo <= f <= hi) factors ->
  forall factorCounts,
    sorted id factorCounts -> factors_ok lo hi factorCounts ->
    let r := fold_left (countFactorStep distance) factors factorCounts in
    sorted id r /\ factors_ok lo hi r /\
    forall L, countZ L r
              = countZ L factorCounts
                + (if existsb (Z.eqb L) factors && (Z.rem distance L =? 0)
                   then 1 else 0).
Proof.
  induction factors as [|f factors IH]; intros Hnd Hall fc Hs Hok; cbv zeta;
    cbn [fold_left existsb].
  - split; [exact Hs|]. split; [exact Hok|]. intros L. simpl. lia.
  - apply NoDup_cons_iff in Hnd. destruct Hnd as [Hnot Hnd].
    pose proof (Forall_inv Hall) as Hf. apply Forall_inv_tail in Hall.
    destruct (IH Hnd Hall (countFactorStep distance fc f)) as [H1 [H2 H3]].
    + apply step_sorted, Hs.
    + apply step_ok; assumption.
    + split; [exact H1|]. split; [exact H2|]. intros L.
      rewrite H3, countZ_step by exact Hs.
      destruct (Z.eqb_spec L f) as [->|Hne].
      * rewrite Z.eqb_refl. cbn [orb andb].
        destruct (existsb (Z.eqb f) factors) eqn:E.
        -- apply existsb_exists in E. destruct E as [x [Hx Heq]].
           apply Z.eqb_eq in Heq. subst x. contradiction.
        -- cbn [andb]. lia.
      * destruct (Z.eqb_spec f L) as [E|_]; [congruence|].
        cbn [orb andb]. lia.
Qed.

Lemma range_incl_NoDup (lo hi : Z) : NoDup (range_incl lo hi).
Proof.
  unfold range_incl. apply Injective_map_NoDup.
  - intros a b. lia.
  - apply seq_NoDup.
Qed.

Lemma existsb_range (L lo hi : Z) :
  existsb (Z.eqb L) (range_incl lo hi) = (lo <=? L) && (L <=? hi).
Proof.
  destruct (existsb (Z.eqb L) (range_incl lo hi)) eqn:E.
  - apply existsb_exists in E. destruct E as [x [Hx Heq]].
    apply Z.eqb_eq in Heq. subst x. apply range_incl_In in Hx.
    symmetry. apply andb_true_iff. split; apply Z.leb_le; lia.
  - symmetry. apply Bool.not_true_iff_false. intros H.
    apply andb_true_iff in H. destruct H as [H1 H2].
    apply Z.leb_le in H1, H2.
    apply Bool.not_true_iff_false in E. apply E.
    apply existsb_exists. exists L. split; [|apply Z.eqb_refl].
    apply range_incl_In. lia.
Qed.

(** A distance of at least 1 has the factor [L >= 1] exactly when [L] divides
    it; such a factor is at most the distance. *)
Lemma factor_test (L hi distance : Z) :
  1 <= L <= hi -> 1 <= distance ->
  (L <=? Z.min hi distance) && (Z.rem distance L =? 0)
  = (distance mod L =? 0).
Proof.
  intros HL Hd. rewrite Z.rem_mod_nonneg by lia.
  destruct (Z.eqb_spec (distance mod L) 0) as [E|E];
    [|apply andb_false_r].
  rewrite andb_true_r. apply Z.leb_le.
  assert (L <= distance); [|lia].
  apply Z.mod_divide in E; [|lia].
  apply Z.divide_pos_le; [lia | exact E].
Qed.

Lemma countFactors_total (self : VigenereBreaker.t)
  (factorCounts : list (Z * Z)) (distance : Z) :
  1 <= VigenereBreaker.minKeyLength self ->
  VigenereBreaker.countFactors self factorCounts distance
  = Ok (fold_left (countFactorStep distance)
          (range_incl (VigenereBreaker.minKeyLength self)
             (Z.min (VigenereBreaker.maxKeyLength self) distance))
          factorCounts).
Proof.
  intros Hmin. unfold VigenereBreaker.countFactors.
  apply foldM_total. intros fc factor Hin. apply range_incl_In in Hin.
  destruct (Z.eqb_spec factor 0) as [E|_]; [lia|].
  unfold countFactorStep. destruct (Z.rem distance factor =? 0); reflexivity.
Qed.

Lemma divisibleCount_cons (L d : Z) (distances : list Z) :
  Spec.divisibleCount L (d :: distances)
  = (if d mod L =? 0 then 1 else 0) + Spec.divisibleCount L distances.
Proof.
  unfold Spec.divisibleCount. cbn [filter].
  destruct (d mod L =? 0); cbn [List.length]; lia.
Qed.

(** The outer loop of [analyzeDistancePatterns]: the count of a candidate
    length grows by the number of distances it divides. *)
Lemma outer_loop (self : VigenereBreaker.t) (distances : list Z) :
  1 <= VigenereBreaker.minKeyLength self ->
  Forall (fun d => 1 <= d) distances ->
  forall factorCounts,
    sorted id factorCounts ->
    factors_ok (VigenereBreaker.minKeyLength self)
      (VigenereBreaker.maxKeyLength self) factorCounts ->
    exists r,
      foldM (VigenereBreaker.countFactors self) distances factorCounts = Ok r /\
      sorted id r /\
      factors_ok (VigenereBreaker.minKeyLength self)
        (VigenereBreaker.maxKeyLength self) r /\
      forall L,
        VigenereBreaker.minKeyLength self <= L
        <= VigenereBreaker.maxKeyLength self ->
        countZ L r = countZ L factorCounts + Spec.divisibleCount L distances.
Proof.
  intros Hmin. induction distances as [|d distances IH];
    intros Hall fc Hs Hok; cbn [foldM].
  - exists fc. split; [reflexivity|]. split; [exact Hs|]. split; [exact Hok|].
    intros L _. unfold Spec.divisibleCount. simpl. lia.
  - pose proof (Forall_inv Hall) as Hd. apply Forall_inv_tail in Hall.
    rewrite countFactors_total by exact Hmin.
    destruct (inner_loop (VigenereBreaker.minKeyLength self)
                (VigenereBreaker.maxKeyLength self) d
                (range_incl (VigenereBreaker.minKeyLength self)
                   (Z.min (VigenereBreaker.maxKeyLength self) d))
                (range_incl_NoDup _ _)) with (factorCounts := fc)
      as [H1 [H2 H3]]; [|exact Hs|exact Hok|].
    { apply Forall_forall. intros f Hf. apply range_incl_In in Hf. lia. }
    destruct (IH Hall _ H1 H2) as [r [Hr [Hr1 [Hr2 Hr3]]]].
    exists r. split; [exact Hr|]. split; [exact Hr1|]. split; [exact Hr2|].
    intros L HL. rewrite (Hr3 L HL), H3, divisibleCount_cons, existsb_range.
    destruct (Z.leb_spec (VigenereBreaker.minKeyLength self) L); [|lia].
    cbn [andb]. cbv beta in Hd. rewrite factor_test by lia. lia.
Qed.

Lemma max_loop_bounds (factorCounts : list (Z * Z)) :
  forall m0,
    let m := fold_left (fun maxCount pair => Z.max maxCount (snd pair))
               factorCounts m0 in
    m0 <= m /\ (forall p, In p factorCounts -> snd p <= m) /\
    (m = m0 \/ exists p, In p factorCounts /\ snd p = m).
Proof.
  induction factorCounts as [|q fc IH]; intros m0; cbv zeta; cbn [fold_left].
  - split; [lia|]. split; [intros p []|]. left. reflexivity.
  - destruct (IH (Z.max m0 (snd q))) as [H1 [H2 H3]].
    split; [lia|]. split.
    + intros p [<-|Hp]; [lia | apply H2, Hp].
    + destruct H3 as [H3|[p [Hp H3]]].
      * destruct (Z.max_spec m0 (snd q)) as [[_ E]|[_ E]].
        -- right. exists q. split; [left; reflexivity | lia].
        -- left. lia.
      * right. exists p. split; [right; exact Hp | exact H3].
Qed.

Lemma max_list_bounds (values : list Z) :
  let m := fold_right Z.max 0 values in
  0 <= m /\ (forall v, In v values -> v <= m) /\ (m = 0 \/ In m values).
Proof.
  induction values as [|v values IH]; cbv zeta; cbn [fold_right].
  - split; [lia|]. split; [intros v []|]. left. reflexivity.
  - destruct IH as [H1 [H2 H3]]. split; [lia|]. split.
    + intros w [<-|Hw]; [lia|]. specialize (H2 w Hw). lia.
    + destruct (Z.max_spec v (fold_right Z.max 0 values)) as [[_ E]|[_ E]].
      * destruct H3 as [H3|H3].
        -- left. lia.
        -- right. right. rewrite E. exact H3.
      * right. left. lia.
Qed.

(** The maximum count the source computes over the entries of
    [factorCounts] is the maximum of the counts of all candidate lengths. *)
Lemma maxCount_agrees (self : VigenereBreaker.t) (distances : list Z)
  (factorCounts : list (Z * Z)) :
  sorted id factorCounts ->
  factors_ok (VigenereBreaker.minKeyLength self)
    (VigenereBreaker.maxKeyLength self) factorCounts ->
  (forall L,
     VigenereBreaker.minKeyLength self <= L
     <= VigenereBreaker.maxKeyLength self ->
     countZ L factorCounts = Spec.divisibleCount L distances) ->
  fold_left (fun maxCount pair => Z.max maxCount (snd pair)) factorCounts 0
  = fold_right Z.max 0
      (map (fun L => Spec.divisibleCount L distances)
         (range_incl (VigenereBreaker.minKeyLength self)
            (VigenereBreaker.maxKeyLength self))).
Proof.
  intros Hs Hok Hcount.
  destruct (max_loop_bounds factorCounts 0) as [A1 [A2 A3]].
  destruct (max_list_bounds
              (map (fun L => Spec.divisibleCount L distances)
                 (range_incl (VigenereBreaker.minKeyLength self)
                    (VigenereBreaker.maxKeyLength self)))) as [B1 [B2 B3]].
  cbv zeta in A1, A2, A3, B1, B2, B3.
  set (m1 := fold_left _ factorCounts 0) in *.
  set (m2 := fold_right Z.max 0 _) in *.
  assert (Hentry : forall p, In p factorCounts ->
            VigenereBreaker.minKeyLength self <= fst p
            <= VigenereBreaker.maxKeyLength self /\
            snd p = Spec.divisibleCount (fst p) distances).
  { intros [L v] Hp.
    apply (In_find Z.compare id Z_cmp_code id_inj) in Hp;
      [|apply (sorted_NoDup id), Hs].
    destruct (Hok L v Hp) as [_ HL]. cbn [fst snd]. split; [exact HL|].
    rewrite <- (Hcount L HL). unfold countZ. rewrite Hp. reflexivity. }
  apply Z.le_antisymm.
  - destruct A3 as [->|[p [Hp <-]]]; [exact B1|].
    destruct (Hentry p Hp) as [HL ->]. apply B2.
    apply in_map_iff. exists (fst p). split; [reflexivity|].
    apply range_incl_In, HL.
  - destruct B3 as [->|Hin]; [exact A1|].
    apply in_map_iff in Hin. destruct Hin as [L [HL Hin]].
    apply range_incl_In in Hin. rewrite <- HL, <- (Hcount L Hin).
    unfold countZ. destruct (find Z.compare L factorCounts) as [v|] eqn:E;
      [|exact A1].
    apply (find_In Z.compare id Z_cmp_code id_inj) in E.
    apply (A2 _ E).
Qed.

Lemma findRepeatingSubstrings_total (text : string) (minLength : Z) :
  0 <= minLength <= size text ->
  exists patterns,
    VigenereBreaker.findRepeatingSubstrings text minLength = Ok patterns.
Proof.
  intros H. unfold VigenereBreaker.findRepeatingSubstrings.
  destruct (Z.ltb_spec minLength 0); [lia|].
  destruct (Z.ltb_spec (size text) minLength); [lia|].
  destruct (Z.ltb_spec 10 minLength); eexists; reflexivity.
Qed.

Lemma patternDistances_positive (self : VigenereBreaker.t)
  (pattern : string * list Z) :
  1 <= VigenereBreaker.minKeyLength self ->
  Forall (fun d => 1 <= d) (VigenereBreaker.patternDistances self pattern).
Proof.
  intros Hmin. unfold VigenereBreaker.patternDistances.
  destruct (snd pattern) as [|first [|p others]]; try constructor.
  apply Forall_forall. intros d Hd. apply filter_In in Hd.
  destruct Hd as [_ Hd]. apply Z.leb_le in Hd. lia.
Qed.

Lemma kasiskiDistances_positive (self : VigenereBreaker.t) (text : string) :
  1 <= VigenereBreaker.minKeyLength self ->
  Forall (fun d => 1 <= d) (Spec.kasiskiDistances self text).
Proof.
  intros Hmin. unfold Spec.kasiskiDistances.
  destruct (VigenereBreaker.findRepeatingSubstrings _ _) as [patterns|e];
    [|constructor].
  apply Forall_forall. intros d Hd. apply in_flat_map in Hd.
  destruct Hd as [pattern [_ Hd]].
  pose proof (patternDistances_positive self pattern Hmin) as H.
  rewrite Forall_forall in H. apply H, Hd.
Qed.

Lemma filter_keys_NoDup {V : Type} (p : Z * V -> bool) (l : list (Z * V)) :
  NoDup (map fst l) -> NoDup (map fst (filter p l)).
Proof.
  induction l as [|x l IH]; simpl; intros H; [constructor|].
  apply NoDup_cons_iff in H. destruct H as [Hnot H].
  destruct (p x); simpl; [|apply IH, H].
  constructor; [|apply IH, H].
  intros Hin. apply Hnot. apply in_map_iff in Hin.
  destruct Hin as [y [Hy Hin]]. apply filter_In in Hin.
  apply in_map_iff. exists y. tauto.
Qed.

Local Open Scope Q_scope.

Lemma max_of_zeros (values : list Z) :
  (forall v, In v values -> v = 0%Z) -> fold_right Z.max 0%Z values = 0%Z.
Proof.
  induction values as [|v values IH]; intros H; [reflexivity|].
  cbn [fold_right]. rewrite IH by (intros w Hw; apply H; right; exact Hw).
  rewrite (H v) by (left; reflexivity). reflexivity.
Qed.

Lemma scoreDistances_scores (self : VigenereBreaker.t) (distances : list Z) :
  (1 <= VigenereBreaker.minKeyLength self)%Z ->
  Forall (fun d => (1 <= d)%Z) distances ->
  exists results,
    scoreDistances self distances = Ok results /\
    NoDup (map fst results) /\
    (forall L v, In (L, v) results ->
       (VigenereBreaker.minKeyLength self <= L
        <= VigenereBreaker.maxKeyLength self)%Z /\
       v = Spec.normalizedCount (VigenereBreaker.minKeyLength self)
             (VigenereBreaker.maxKeyLength self) distances L) /\
    (forall L,
       (VigenereBreaker.minKeyLength self <= L
        <= VigenereBreaker.maxKeyLength self)%Z ->
       ~ In L (map fst results) ->
       Spec.normalizedCount (VigenereBreaker.minKeyLength self)
         (VigenereBreaker.maxKeyLength self) distances L == 0).
Proof.
  intros Hmin Hpos. unfold Spec.normalizedCount.
  destruct distances as [|d0 distances0].
  { exists []. split; [reflexivity|]. split; [constructor|].
    split; [intros L v []|]. intros L _ _.
    rewrite max_of_zeros; [reflexivity|].
    intros v Hv. apply in_map_iff in Hv. destruct Hv as [L' [<- _]].
    reflexivity. }
  remember (d0 :: distances0) as distances eqn:Hds.
  assert (Hrun : scoreDistances self distances
                 = bind (VigenereBreaker.analyzeDistancePatterns self distances)
                     (fun keyLengthScores =>
                        Ok (std_sort VigenereBreaker.byScoreDescending
                              (filter
                                 (fun pair =>
                                    (VigenereBreaker.minKeyLength self
                                     <=? fst pair)%Z
                                    && (fst pair
                                        <=? VigenereBreaker.maxKeyLength self)%Z)
                                 keyLengthScores)))).
  { rewrite Hds. reflexivity. }
  rewrite Hrun. clear Hrun Hds d0 distances0.
  destruct (outer_loop self distances Hmin Hpos [] (sorted_nil id))
    as [fc [Hfc [Hsorted [Hok Hcount]]]].
  { intros L v H. discriminate H. }
  assert (Hcount' : forall L,
            (VigenereBreaker.minKeyLength self <= L
             <= VigenereBreaker.maxKeyLength self)%Z ->
            countZ L fc = Spec.divisibleCount L distances).
  { intros L HL. rewrite (Hcount L HL). reflexivity. }
  pose proof (maxCount_agrees self distances fc Hsorted Hok Hcount') as Hmax.
  unfold VigenereBreaker.analyzeDistancePatterns. rewrite Hfc. cbn [bind].
  rewrite Hmax.
  set (maxCount := fold_right Z.max 0%Z _).
  assert (Hentry : forall L n, In (L, n) fc ->
            (VigenereBreaker.minKeyLength self <= L
             <= VigenereBreaker.maxKeyLength self)%Z /\
            n = Spec.divisibleCount L distances).
  { intros L n Hp.
    apply (In_find Z.compare id Z_cmp_code id_inj) in Hp;
      [|apply (sorted_NoDup id), Hsorted].
    destruct (Hok L n Hp) as [_ HL]. split; [exact HL|].
    rewrite <- (Hcount' L HL). unfold countZ. rewrite Hp. reflexivity. }
  destruct (Z.ltb_spec 0 maxCount) as [Hm|Hm].
  - eexists. split; [reflexivity|]. split; [|split].
    + rewrite <- (Permutation_map fst (std_sort_perm _ _)).
      apply filter_keys_NoDup. rewrite map_map. cbn [fst].
      apply (sorted_NoDup id), Hsorted.
    + intros L v Hin.
      apply (Permutation_in _ (Permutation_sym (std_sort_perm _ _))) in Hin.
      apply filter_In in Hin. destruct Hin as [Hin _].
      apply in_map_iff in Hin. destruct Hin as [[L' n] [[= -> <-] Hin]].
      destruct (Hentry L n Hin) as [HL ->]. split; [exact HL|reflexivity].
    + intros L HL Hnot.
      assert (Hzero : Spec.divisibleCount L distances = 0%Z).
      { rewrite <- (Hcount' L HL). unfold countZ.
        destruct (find Z.compare L fc) as [n|] eqn:E; [|reflexivity].
        exfalso. apply Hnot.
        apply (find_In Z.compare id Z_cmp_code id_inj) in E.
        rewrite <- (Permutation_map fst (std_sort_perm _ _)).
        apply in_map_iff.
        exists (L, inject_Z n / inject_Z maxCount). split; [reflexivity|].
        apply filter_In. split.
        - apply in_map_iff. exists (L, n). split; [reflexivity | exact E].
        - cbn [fst]. apply andb_true_iff. split; apply Z.leb_le; lia. }
      rewrite Hzero. unfold Qdiv. apply Qmult_0_l.
  - exists []. split; [reflexivity|]. split; [constructor|].
    split; [intros L v []|]. intros L _ _. reflexivity.
Qed.

(** What [kasiskiExamination] returns on a normalized text: distinct
    candidate lengths, each with its Kasiski score; a candidate length it
    leaves out has the score 0. *)
Lemma kasiskiExamination_scores (self : VigenereBreaker.t) (text : string) :
  (1 <= VigenereBreaker.minKeyLength self)%Z ->
  (0 <= VigenereBreaker.minSubstringLength self <= size text)%Z ->
  exists results,
    VigenereBreaker.kasiskiExamination self text = Ok results /\
    NoDup (map fst results) /\
    (forall L v, In (L, v) results ->
       (VigenereBreaker.minKeyLength self <= L
        <= VigenereBreaker.maxKeyLength self)%Z /\
       v = Spec.kasiskiScore self text L) /\
    (forall L,
       (VigenereBreaker.minKeyLength self <= L
        <= VigenereBreaker.maxKeyLength self)%Z ->
       ~ In L (map fst results) -> Spec.kasiskiScore self text L == 0).
Proof.
  intros Hmin Hsub.
  pose proof (kasiskiDistances_positive self text Hmin) as Hpos.
  destruct (scoreDistances_scores self _ Hmin Hpos) as [results Hresults].
  exists results. unfold Spec.kasiskiScore.
  split; [|apply Hresults]. destruct Hresults as [Hrun _].
  unfold VigenereBreaker.kasiskiExamination.
  unfold Spec.kasiskiDistances in Hrun.
  destruct (findRepeatingSubstrings_total text _ Hsub)
    as [patterns Hpatterns].
  rewrite Hpatterns in *. exact Hrun.
Qed.

Local Close Scope Q_scope.

Lemma StronglySorted_map {A B} (R : A -> A -> Prop) (R' : B -> B -> Prop)
  (f : A -> B) (l : list A) :
  (forall a b, In a l -> In b l -> R a b -> R' (f a) (f b)) ->
  StronglySorted R l -> StronglySorted R' (map f l).
Proof.
  intros H Hs. induction Hs as [|a l Hs IH Hall]; simpl; [constructor|].
  constructor.
  - apply IH. intros x y Hx Hy. apply H; right; assumption.
  - apply Forall_forall. intros b Hb. apply in_map_iff in Hb.
    destruct Hb as [x [<- Hx]]. rewrite Forall_forall in Hall.
    apply H; [left; reflexivity | right; exact Hx | apply Hall, Hx].
Qed.

(* ================================================================= *)
(** ** The parts of the search that keep the mapping a permutation *)

Lemma alphabet_sorted : forall m : SubstitutionBreaker.Mapping,
  map fst m = alphabet -> sorted int_of_char m.
Proof.
  assert (H : StronglySorted (fun a b => int_of_char a < int_of_char b) alphabet).
  { repeat (constructor; [|repeat constructor; vm_compute; reflexivity]).
    constructor. }
  intros m Hm. rewrite <- Hm in H. clear Hm. unfold sorted.
  induction m as [|p m IH]; [constructor|].
  cbn [map] in H. apply StronglySorted_inv in H. destruct H as [H Hall].
  constructor; [apply IH, H|].
  apply Forall_forall. intros q Hq. rewrite Forall_forall in Hall.
  apply Hall. apply in_map, Hq.
Qed.

Lemma assign_keys_existing {V : Type} (k : ascii) (v : V)
  (m : list (ascii * V)) :
  sorted int_of_char m -> In k (map fst m) ->
  map fst (assign Ascii.compare k v m) = map fst m.
Proof.
  unfold assign. induction m as [|[k0 v0] m IH]; intros Hs Hin; [contradiction|].
  apply StronglySorted_inv in Hs. destruct Hs as [Hs Hall].
  cbn [update map fst]. destruct (Ascii.compare k k0) eqn:E.
  - reflexivity.
  - exfalso. rewrite ascii_cmp_code, Z.compare_lt_iff in E.
    destruct Hin as [Hin|Hin]; [simpl in Hin; subst; lia|].
    apply in_map_iff in Hin. destruct Hin as [q [Hq Hin]].
    rewrite Forall_forall in Hall. specialize (Hall q Hin). simpl in Hall.
    rewrite Hq in Hall. lia.
  - cbn [map fst]. f_equal. apply IH; [exact Hs|].
    destruct Hin as [Hin|Hin]; [|exact Hin].
    simpl in Hin. subst k0. rewrite ascii_cmp_code, Z.compare_refl in E.
    discriminate E.
Qed.

(** The values of a mapping, read through its keys. *)
Lemma values_by_keys (m : SubstitutionBreaker.Mapping) :
  NoDup (map fst m) ->
  map snd m = map (SubstitutionBreaker.at_ m) (map fst m).
Proof.
  induction m as [|[k0 v0] m IH]; intros Hnd; [reflexivity|].
  cbn [map fst snd] in *. apply NoDup_cons_iff in Hnd.
  destruct Hnd as [Hnot Hnd]. f_equal.
  - unfold SubstitutionBreaker.at_.
    rewrite (find_cons_same Ascii.compare int_of_char ascii_cmp_code
               int_of_char_inj). reflexivity.
  - rewrite (IH Hnd). apply map_ext_in. intros k Hk.
    unfold SubstitutionBreaker.at_.
    rewrite (find_cons_other Ascii.compare int_of_char ascii_cmp_code
               int_of_char_inj); [reflexivity|].
    intros ->. contradiction.
Qed.

(** Exchanging two members of a list without repetition permutes it. *)
Lemma transposition_perm (a b : ascii) (l : list ascii) :
  NoDup l -> In a l -> In b l ->
  Permutation
    (map (fun k => if Ascii.eqb k a then b else if Ascii.eqb k b then a else k)
       l)
    l.
Proof.
  intros Hnd Ha Hb.
  set (t := fun k => if Ascii.eqb k a then b
                     else if Ascii.eqb k b then a else k).
  assert (Hinv : forall k, t (t k) = k).
  { intros k. unfold t.
    destruct (Ascii.eqb_spec k a) as [->|Hka].
    - destruct (Ascii.eqb_spec b a) as [->|Hba]; [reflexivity|].
      rewrite Ascii.eqb_refl. reflexivity.
    - destruct (Ascii.eqb_spec k b) as [->|Hkb].
      + rewrite Ascii.eqb_refl. reflexivity.
      + destruct (Ascii.eqb_spec k a); [contradiction|].
        destruct (Ascii.eqb_spec k b); [contradiction|]. reflexivity. }
  assert (Hin : forall k, In k l -> In (t k) l).
  { intros k Hk. unfold t.
    destruct (Ascii.eqb k a); [exact Hb|].
    destruct (Ascii.eqb k b); [exact Ha | exact Hk]. }
  apply NoDup_Permutation.
  - apply Injective_map_NoDup; [|exact Hnd].
    intros x y Hxy. rewrite <- (Hinv x), <- (Hinv y), Hxy. reflexivity.
  - exact Hnd.
  - intros k. split.
    + intros Hk. apply in_map_iff in Hk. destruct Hk as [x [<- Hx]].
      apply Hin, Hx.
    + intros Hk. apply in_map_iff. exists (t k). split; [apply Hinv|].
      apply Hin, Hk.
Qed.

Lemma dist_range (n : nat) (tape : list nat) (idx : nat) (tape' : list nat) :
  (0 < n)%nat ->
  SubstitutionBreaker.dist n tape = Ok (idx, tape') -> (idx < n)%nat.
Proof.
  intros Hn. destruct tape as [|r tape]; simpl; [discriminate|].
  intros [= <- _]. apply Nat.mod_upper_bound. lia.
Qed.

Lemma distOtherThan_range (idx1 n : nat) (tape : list nat) (idx : nat)
  (tape' : list nat) :
  (0 < n)%nat ->
  SubstitutionBreaker.distOtherThan idx1 n tape = Ok (idx, tape') ->
  (idx < n)%nat /\ idx <> idx1.
Proof.
  intros Hn. induction tape as [|r tape IH]; simpl; [discriminate|].
  destruct (Nat.eqb_spec (r mod n) idx1) as [E|E]; [exact IH|].
  intros [= <- _]. split; [apply Nat.mod_upper_bound; lia | exact E].
Qed.

(** The neighbor of a permutation is a permutation. *)
Lemma generateNeighborMapping_permutation (self self' : SubstitutionBreaker.t)
  (mapping neighbor : SubstitutionBreaker.Mapping) :
  Spec.isPermutation mapping ->
  SubstitutionBreaker.generateNeighborMapping self mapping
  = Ok (neighbor, self') ->
  Spec.isPermutation neighbor.
Proof.
  intros [Hkeys Hvalues]. unfold SubstitutionBreaker.generateNeighborMapping.
  cbv zeta.
  assert (Hlen : List.length (map fst mapping) = 26%nat)
    by (rewrite Hkeys; reflexivity).
  rewrite Hlen. change (26 <? 2)%nat with false. cbv iota.
  destruct (SubstitutionBreaker.dist _ _) as [[idx1 tape1]|e] eqn:E1;
    [|discriminate].
  cbn [bind].
  destruct (SubstitutionBreaker.distOtherThan _ _ _) as [[idx2 tape2]|e] eqn:E2;
    [|discriminate].
  cbn [bind]. intros [= <- _].
  apply dist_range in E1; [|lia].
  apply distOtherThan_range in E2; [|lia].
  destruct E2 as [E2 Hne].
  set (char1 := nth idx1 (map fst mapping) zero).
  set (char2 := nth idx2 (map fst mapping) zero).
  assert (H1 : In char1 alphabet).
  { rewrite <- Hkeys. apply nth_In. rewrite Hlen. exact E1. }
  assert (H2 : In char2 alphabet).
  { rewrite <- Hkeys. apply nth_In. rewrite Hlen. exact E2. }
  assert (Hchars : char1 <> char2).
  { intros E. apply Hne. symmetry.
    assert (Hnd0 : NoDup (map fst mapping))
      by (rewrite Hkeys; apply alphabet_NoDup).
    apply (proj1 (NoDup_nth (map fst mapping) zero) Hnd0 idx1 idx2);
      [rewrite Hlen; exact E1 | rewrite Hlen; exact E2 | exact E]. }
  pose proof (alphabet_sorted mapping Hkeys) as Hs.
  set (m1 := assign Ascii.compare char1
               (SubstitutionBreaker.at_ mapping char2) mapping).
  assert (Hk1 : map fst m1 = alphabet).
  { unfold m1. rewrite assign_keys_existing; [exact Hkeys | exact Hs|].
    rewrite Hkeys. exact H1. }
  set (m2 := assign Ascii.compare char2
               (SubstitutionBreaker.at_ mapping char1) m1).
  assert (Hk2 : map fst m2 = alphabet).
  { unfold m2.
    rewrite assign_keys_existing; [exact Hk1 | apply alphabet_sorted, Hk1|].
    rewrite Hk1. exact H2. }
  split; [exact Hk2|].
  assert (Hnd2 : NoDup (map fst m2)) by (rewrite Hk2; apply alphabet_NoDup).
  assert (Hnd : NoDup (map fst mapping))
    by (rewrite Hkeys; apply alphabet_NoDup).
  rewrite (values_by_keys m2 Hnd2), Hk2.
  apply Permutation_trans with (map snd mapping); [|exact Hvalues].
  rewrite (values_by_keys mapping Hnd), Hkeys.
  rewrite <- (Permutation_map (SubstitutionBreaker.at_ mapping)
                (transposition_perm char1 char2 alphabet alphabet_NoDup H1 H2)).
  rewrite map_map.
  erewrite map_ext; [reflexivity|].
  intros k. unfold SubstitutionBreaker.at_ at 1. unfold m2.
  destruct (Ascii.eqb_spec k char1) as [->|Hk1'].
  - rewrite (find_assign_other Ascii.compare int_of_char ascii_cmp_code
               int_of_char_inj) by exact Hchars.
    unfold m1.
    rewrite (find_assign_same Ascii.compare int_of_char ascii_cmp_code
               int_of_char_inj). reflexivity.
  - destruct (Ascii.eqb_spec k char2) as [->|Hk2'].
    + rewrite (find_assign_same Ascii.compare int_of_char ascii_cmp_code
                 int_of_char_inj). reflexivity.
    + rewrite (find_assign_other Ascii.compare int_of_char ascii_cmp_code
                 int_of_char_inj) by exact Hk2'.
      unfold m1.
      rewrite (find_assign_other Ascii.compare int_of_char ascii_cmp_code
                 int_of_char_inj) by exact Hk1'.
      reflexivity.
Qed.

Lemma hillClimbStep_permutation (ciphertext : string)
  (s s' : SubstitutionBreaker.climb) :
  SubstitutionBreaker.hillClimbStep ciphertext s = Ok s' ->
  Spec.isPermutation (SubstitutionBreaker.currentMapping s) ->
  Spec.isPermutation (SubstitutionBreaker.currentMapping s').
Proof.
  unfold SubstitutionBreaker.hillClimbStep.
  destruct (SubstitutionBreaker.generateNeighborMapping _ _)
    as [[neighborMapping self]|e] eqn:E; [|discriminate].
  cbn [bind].
  destruct (SubstitutionBreaker.scoreMapping neighborMapping ciphertext)
    as [neighborScore|e]; [|discriminate].
  cbn [bind].
  destruct (Qltb _ _); intros [= <-] H; cbn [SubstitutionBreaker.currentMapping].
  - apply (generateNeighborMapping_permutation _ _ _ _ H E).
  - exact H.
Qed.

(** Hill climbing from a permutation stays on permutations. *)
Lemma hillClimbLoop_permutation (ciphertext : string) (n : nat) :
  forall s s',
    SubstitutionBreaker.hillClimbLoop ciphertext n s = Ok s' ->
    Spec.isPermutation (SubstitutionBreaker.currentMapping s) ->
    Spec.isPermutation (SubstitutionBreaker.currentMapping s').
Proof.
  induction n as [|n IH]; intros s s'; simpl.
  - intros [= <-] H. exact H.
  - destruct (SubstitutionBreaker.hillClimbStep ciphertext s) as [s1|e] eqn:E;
      [|discriminate].
    simpl. intros H Hs. apply (IH _ _ H).
    apply (hillClimbStep_permutation _ _ _ E Hs).
Qed.

(** A new key goes to its place in key order. *)
Lemma assign_new_perm {V : Type} (k : ascii) (v : V) (m : list (ascii * V)) :
  ~ In k (map fst m) -> Permutation (assign Ascii.compare k v m) ((k, v) :: m).
Proof.
  unfold assign. induction m as [|[k0 v0] m IH]; intros Hnot;
    cbn [update]; [reflexivity|].
  destruct (Ascii.compare k k0) eqn:E.
  - exfalso. rewrite ascii_cmp_code, Z.compare_eq_iff in E.
    apply int_of_char_inj in E. subst k0. apply Hnot. left. reflexivity.
  - reflexivity.
  - rewrite perm_swap. apply perm_skip, IH.
    intros H. apply Hnot. right. exact H.
Qed.

(** A loop of assignments to distinct new keys adds the pairs assigned. *)
Lemma assign_loop_perm (pairs : list (ascii * ascii)) :
  NoDup (map fst pairs) ->
  forall m : SubstitutionBreaker.Mapping,
    (forall k, In k (map fst pairs) -> ~ In k (map fst m)) ->
    Permutation
      (fold_left (fun r p => assign Ascii.compare (fst p) (snd p) r) pairs m)
      (pairs ++ m).
Proof.
  induction pairs as [|[k v] pairs IH]; intros Hnd m Hnew;
    cbn [fold_left fst snd]; [reflexivity|].
  cbn [map fst] in Hnd. apply NoDup_cons_iff in Hnd.
  destruct Hnd as [Hnot Hnd].
  assert (Hk : ~ In k (map fst m)) by (apply Hnew; left; reflexivity).
  rewrite IH.
  - rewrite (assign_new_perm k v m Hk). cbn [app].
    symmetry. apply Permutation_middle.
  - exact Hnd.
  - intros k' Hk' Hin.
    apply (Permutation_in _ (Permutation_map fst (assign_new_perm k v m Hk)))
      in Hin.
    destruct Hin as [Hin|Hin].
    + simpl in Hin. subst k'. contradiction.
    + apply (Hnew k'); [right; exact Hk' | exact Hin].
Qed.

Lemma assign_loop_sorted (pairs : list (ascii * ascii)) :
  forall m : SubstitutionBreaker.Mapping,
    sorted int_of_char m ->
    sorted int_of_char
      (fold_left (fun r p => assign Ascii.compare (fst p) (snd p) r) pairs m).
Proof.
  induction pairs as [|p pairs IH]; intros m Hs; cbn [fold_left]; [exact Hs|].
  apply IH. apply (update_sorted Ascii.compare int_of_char ascii_cmp_code
                     int_of_char_inj), Hs.
Qed.

(** Two lists in strictly increasing order with the same members are
    equal. *)
Lemma increasing_perm_eq (l1 l2 : list ascii) :
  StronglySorted (fun a b => int_of_char a < int_of_char b) l1 ->
  StronglySorted (fun a b => int_of_char a < int_of_char b) l2 ->
  Permutation l1 l2 -> l1 = l2.
Proof.
  revert l2. induction l1 as [|a l1 IH]; intros l2 H1 H2 Hp.
  - apply Permutation_nil in Hp. subst. reflexivity.
  - destruct l2 as [|b l2].
    + apply Permutation_sym, Permutation_nil in Hp. discriminate Hp.
    + apply StronglySorted_inv in H1, H2.
      destruct H1 as [H1 Ha], H2 as [H2 Hb].
      rewrite Forall_forall in Ha, Hb.
      assert (E : a = b).
      { assert (Hin1 : In a (b :: l2))
          by (apply (Permutation_in _ Hp); left; reflexivity).
        assert (Hin2 : In b (a :: l1))
          by (apply (Permutation_in _ (Permutation_sym Hp)); left; reflexivity).
        destruct Hin1 as [E|Hin1]; [symmetry; exact E|].
        destruct Hin2 as [E|Hin2]; [exact E|].
        specialize (Ha b Hin2). specialize (Hb a Hin1). lia. }
      subst b. f_equal. apply IH; [exact H1 | exact H2|].
      apply (Permutation_cons_inv Hp).
Qed.

Lemma combine_keys_NoDup {A B : Type} (f : A -> ascii) (l1 : list A)
  (l2 : list B) :
  NoDup (map f l1) -> NoDup (map (fun p => f (fst p)) (combine l1 l2)).
Proof.
  revert l2. induction l1 as [|a l1 IH]; intros l2 Hnd; [constructor|].
  destruct l2 as [|b l2]; [constructor|].
  cbn [combine map fst] in *. apply NoDup_cons_iff in Hnd.
  destruct Hnd as [Hnot Hnd]. constructor; [|apply IH, Hnd].
  intros Hin. apply Hnot. apply in_map_iff in Hin.
  destruct Hin as [[x y] [E Hin]]. apply in_combine_l in Hin.
  apply in_map_iff. exists x. auto.
Qed.

Lemma combine_values_NoDup {A B : Type} (g : B -> ascii) (l1 : list A)
  (l2 : list B) :
  NoDup (map g l2) -> NoDup (map (fun p => g (snd p)) (combine l1 l2)).
Proof.
  revert l2. induction l1 as [|a l1 IH]; intros l2 Hnd; [constructor|].
  destruct l2 as [|b l2]; [constructor|].
  cbn [combine map snd] in *. apply NoDup_cons_iff in Hnd.
  destruct Hnd as [Hnot Hnd]. constructor; [|apply IH, Hnd].
  intros Hin. apply Hnot. apply in_map_iff in Hin.
  destruct Hin as [[x y] [E Hin]]. apply in_combine_r in Hin.
  apply in_map_iff. exists y. auto.
Qed.

Lemma alphabet_increasing :
  StronglySorted (fun a b => int_of_char a < int_of_char b) alphabet.
Proof.
  repeat (constructor; [|repeat constructor; vm_compute; reflexivity]).
  constructor.
Qed.

Lemma sorted_keys_increasing {V : Type} (m : list (ascii * V)) :
  sorted int_of_char m ->
  StronglySorted (fun a b => int_of_char a < int_of_char b) (map fst m).
Proof.
  unfold sorted.
  apply (StronglySorted_map
           (fun p q : ascii * V => int_of_char (fst p) < int_of_char (fst q))).
  intros a b _ _ H. exact H.
Qed.

Lemma combine_same_length {A B : Type} (l1 : list A) (l2 : list B) :
  List.length l1 = List.length l2 ->
  map fst (combine l1 l2) = l1 /\ map snd (combine l1 l2) = l2.
Proof.
  revert l2. induction l1 as [|a l1 IH]; intros [|b l2] H;
    try discriminate H; [split; reflexivity|].
  injection H as H. destruct (IH l2 H) as [H1 H2].
  cbn [combine map fst snd]. rewrite H1, H2. split; reflexivity.
Qed.

Lemma mem_In (c : ascii) (l : list ascii) :
  SubstitutionBreaker.mem c l = true <-> In c l.
Proof.
  unfold SubstitutionBreaker.mem. rewrite existsb_exists. split.
  - intros [x [Hx E]]. apply Ascii.eqb_eq in E. subst. exact Hx.
  - intros H. exists c. split; [exact H | apply Ascii.eqb_refl].
Qed.

(** Completion: a partial mapping between letters that sends distinct cipher
    letters to distinct plain letters becomes a permutation. *)
Lemma completeMapping_permutation (mapping : SubstitutionBreaker.Mapping) :
  sorted int_of_char mapping ->
  NoDup (map snd mapping) ->
  (forall k, In k (map fst mapping) -> In k alphabet) ->
  (forall v, In v (map snd mapping) -> In v alphabet) ->
  Spec.isPermutation (SubstitutionBreaker.completeMapping mapping).
Proof.
  intros Hs Hvnd Hkeys Hvals. unfold SubstitutionBreaker.completeMapping.
  set (uc := filter _ alphabet). set (up := filter _ alphabet).
  pose proof (sorted_NoDup int_of_char mapping Hs) as Hknd.
  assert (Huc : forall x, In x uc <-> In x alphabet /\ ~ In x (map fst mapping)).
  { intros x. unfold uc. rewrite filter_In.
    rewrite <- (find_None_keys Ascii.compare int_of_char ascii_cmp_code
                  int_of_char_inj).
    destruct (find Ascii.compare x mapping); split; intros [H1 H2];
      split; auto; discriminate. }
  assert (Hup : forall x, In x up <-> In x alphabet /\ ~ In x (map snd mapping)).
  { intros x. unfold up. rewrite filter_In, negb_true_iff.
    rewrite <- (mem_In x (map snd mapping)).
    destruct (SubstitutionBreaker.mem x (map snd mapping)); split;
      intros [H1 H2]; split; auto; congruence. }
  assert (Pk : Permutation (uc ++ map fst mapping) alphabet).
  { apply NoDup_Permutation.
    - apply NoDup_app.
      + apply NoDup_filter, alphabet_NoDup.
      + exact Hknd.
      + intros x Hx. apply Huc in Hx. tauto.
    - apply alphabet_NoDup.
    - intros x. rewrite in_app_iff, Huc. split.
      + intros [[H _]|H]; [exact H | apply Hkeys, H].
      + intros H. destruct (in_dec ascii_dec x (map fst mapping)); tauto. }
  assert (Pv : Permutation (up ++ map snd mapping) alphabet).
  { apply NoDup_Permutation.
    - apply NoDup_app.
      + apply NoDup_filter, alphabet_NoDup.
      + exact Hvnd.
      + intros x Hx. apply Hup in Hx. tauto.
    - apply alphabet_NoDup.
    - intros x. rewrite in_app_iff, Hup. split.
      + intros [[H _]|H]; [exact H | apply Hvals, H].
      + intros H. destruct (in_dec ascii_dec x (map snd mapping)); tauto. }
  assert (Hlen : List.length uc = List.length up).
  { apply Permutation_length in Pk, Pv.
    rewrite length_app, length_map in Pk, Pv. lia. }
  destruct (combine_same_length uc up Hlen) as [C1 C2].
  pose proof (assign_loop_perm (combine uc up)) as Hloop.
  rewrite C1 in Hloop.
  specialize (Hloop (NoDup_filter _ alphabet_NoDup) mapping).
  assert (Hnew : forall k, In k uc -> ~ In k (map fst mapping))
    by (intros k Hk; apply Huc in Hk; tauto).
  specialize (Hloop Hnew).
  split.
  - apply increasing_perm_eq.
    + apply sorted_keys_increasing, assign_loop_sorted, Hs.
    + apply alphabet_increasing.
    + rewrite (Permutation_map fst Hloop), map_app, C1. exact Pk.
  - rewrite (Permutation_map snd Hloop), map_app, C2. exact Pv.
Qed.

Lemma fold_left_over_map {A B C : Type} (f : A -> B -> A) (g : C -> B)
  (l : list C) (a : A) :
  fold_left f (map g l) a = fold_left (fun a x => f a (g x)) l a.
Proof. revert a. induction l as [|x l IH]; intros a; simpl; auto. Qed.

Lemma calculateFrequency_keys (text : string) :
  NoDup (map fst (FrequencyAnalyzer.calculateFrequency text)) /\
  forall k, In k (map fst (FrequencyAnalyzer.calculateFrequency text)) ->
            In k alphabet.
Proof.
  unfold FrequencyAnalyzer.calculateFrequency.
  pose proof (countLetters_from_empty text) as [Hs [Hok _]].
  destruct (FrequencyAnalyzer.countLetters text [] 0) as [counts total].
  cbn [fst] in Hs, Hok. cbv beta iota.
  unfold FrequencyAnalyzer.normalizeFrequencies.
  destruct (total =? 0); [split; [constructor | intros k []]|].
  rewrite map_map. cbn [fst].
  pose proof (sorted_NoDup int_of_char counts Hs) as Hnd.
  split; [exact Hnd|].
  intros k Hk. apply in_map_iff in Hk. destruct Hk as [[k' v] [E Hk]].
  simpl in E. subst k'.
  apply (In_find Ascii.compare int_of_char ascii_cmp_code int_of_char_inj)
    in Hk; [|exact Hnd].
  apply isupper_In_alphabet. apply (Hok k v Hk).
Qed.

Lemma getLanguageFrequencies_keys (language : string) :
  NoDup (map fst (FrequencyAnalyzer.getLanguageFrequencies language)) /\
  forall k, In k (map fst (FrequencyAnalyzer.getLanguageFrequencies language)) ->
            In k alphabet.
Proof.
  unfold FrequencyAnalyzer.getLanguageFrequencies.
  destruct (String.eqb language "english").
  - change (map fst FrequencyAnalyzer.english) with alphabet.
    split; [apply alphabet_NoDup | auto].
  - destruct (String.eqb language "turkish").
    + change (map fst FrequencyAnalyzer.turkish) with alphabet.
      split; [apply alphabet_NoDup | auto].
    + split; [constructor | intros k []].
Qed.

(** The seed: the completed frequency mapping is a permutation, whatever the
    ciphertext and the target language. *)
Lemma generateMapping_permutation (self : SubstitutionBreaker.t)
  (ciphertext : string) :
  Spec.isPermutation (SubstitutionBreaker.generateMapping self ciphertext).
Proof.
  unfold SubstitutionBreaker.generateMapping.
  set (cipherSorted := std_sort _ (FrequencyAnalyzer.calculateFrequency _)).
  set (englishSorted := std_sort _ (FrequencyAnalyzer.getLanguageFrequencies _)).
  destruct (calculateFrequency_keys (Utils.normalizeText ciphertext))
    as [Hc1 Hc2].
  destruct (getLanguageFrequencies_keys (SubstitutionBreaker.targetLanguage self))
    as [He1 He2].
  assert (Pc : Permutation
                 (map fst (FrequencyAnalyzer.calculateFrequency
                             (Utils.normalizeText ciphertext)))
                 (map fst cipherSorted))
    by (apply Permutation_map, std_sort_perm).
  assert (Pe : Permutation
                 (map fst (FrequencyAnalyzer.getLanguageFrequencies
                             (SubstitutionBreaker.targetLanguage self)))
                 (map fst englishSorted))
    by (apply Permutation_map, std_sort_perm).
  set (pairs := map (fun p : (ascii * Q) * (ascii * Q) =>
                       (fst (fst p), fst (snd p)))
                  (combine cipherSorted englishSorted)).
  assert (Hfold :
    fold_left
      (fun m (p : (ascii * Q) * (ascii * Q)) =>
         assign Ascii.compare (fst (fst p)) (fst (snd p)) m)
      (combine cipherSorted englishSorted) []
    = fold_left (fun r p => assign Ascii.compare (fst p) (snd p) r) pairs []).
  { unfold pairs. rewrite fold_left_over_map. reflexivity. }
  rewrite Hfold. clear Hfold.
  assert (Hknd : NoDup (map fst pairs)).
  { unfold pairs. rewrite map_map. cbn [fst].
    apply (combine_keys_NoDup fst).
    apply (Permutation_NoDup Pc Hc1). }
  assert (Hvnd : NoDup (map snd pairs)).
  { unfold pairs. rewrite map_map. cbn [snd].
    apply (combine_values_NoDup fst).
    apply (Permutation_NoDup Pe He1). }
  pose proof (assign_loop_perm pairs Hknd [] (fun k _ H => H)) as Hloop.
  rewrite app_nil_r in Hloop.
  apply completeMapping_permutation.
  - apply assign_loop_sorted, sorted_nil.
  - apply (Permutation_NoDup (Permutation_sym (Permutation_map snd Hloop))).
    exact Hvnd.
  - intros k Hk. apply (Permutation_in _ (Permutation_map fst Hloop)) in Hk.
    unfold pairs in Hk. rewrite map_map in Hk. cbn [fst] in Hk.
    apply in_map_iff in Hk. destruct Hk as [[x y] [<- Hk]].
    apply in_combine_l in Hk. apply Hc2.
    apply (Permutation_in _ (Permutation_sym Pc)). apply in_map, Hk.
  - intros v Hv. apply (Permutation_in _ (Permutation_map snd Hloop)) in Hv.
    unfold pairs in Hv. rewrite map_map in Hv. cbn [snd] in Hv.
    apply in_map_iff in Hv. destruct Hv as [[x y] [<- Hv]].
    apply in_combine_r in Hv. apply He2.
    apply (Permutation_in _ (Permutation_sym Pe)). apply in_map, Hv.
Qed.

(* ================================================================= *)
(** ** Utils: normalizing, trimming and splitting *)

Lemma toupper_isupper (c : ascii) : isupper c = true -> toupper c = c.
Proof.
  intros H.
  assert (E : implb (isupper c) (Ascii.eqb (toupper c) c) = true).
  { revert c H. intros c _. revert c. apply for_all_chars.
    vm_compute. reflexivity. }
  rewrite H in E. apply Ascii.eqb_eq, E.
Qed.

Lemma isupper_isalpha (c : ascii) : isupper c = true -> isalpha c = true.
Proof. unfold isalpha. intros ->. reflexivity. Qed.

Lemma normalizeText_upper (text : string) :
  string_forall isupper (Utils.normalizeText text) = true.
Proof.
  unfold Utils.normalizeText, Utils.toUpperCase, Utils.removeNonAlpha.
  induction text as [|c text IH]; [reflexivity|].
  cbn [string_filter]. destruct (isalpha c) eqn:Hc; [|exact IH].
  cbn [string_map string_forall]. rewrite IH.
  rewrite (isalpha_toupper_isupper c Hc). reflexivity.
Qed.

Lemma normalizeText_fixed (text : string) :
  string_forall isupper text = true -> Utils.normalizeText text = text.
Proof.
  unfold Utils.normalizeText, Utils.toUpperCase, Utils.removeNonAlpha.
  induction text as [|c text IH]; [reflexivity|].
  cbn [string_forall]. intros H. apply andb_prop in H. destruct H as [Hc H].
  cbn [string_filter]. rewrite (isupper_isalpha c Hc).
  cbn [string_map]. rewrite (toupper_isupper c Hc), (IH H). reflexivity.
Qed.

Lemma normalizeText_size (text : string) :
  size (Utils.normalizeText text) = Utils.alphaCount text.
Proof.
  unfold size, Utils.normalizeText, Utils.toUpperCase, Utils.removeNonAlpha.
  rewrite string_map_length.
  induction text as [|c text IH]; [reflexivity|].
  cbn [string_filter Utils.alphaCount]. destruct (isalpha c).
  - cbn [String.length]. rewrite Nat2Z.inj_succ, IH. lia.
  - rewrite IH. lia.
Qed.

Lemma normalizeText_app (a b : string) :
  Utils.normalizeText (a ++ b)
  = (Utils.normalizeText a ++ Utils.normalizeText b)%string.
Proof.
  unfold Utils.normalizeText, Utils.toUpperCase, Utils.removeNonAlpha.
  induction a as [|c a IH]; [reflexivity|].
  cbn [append string_filter]. destruct (isalpha c); [|exact IH].
  cbn [string_map append]. rewrite IH. reflexivity.
Qed.

(** X1.  [normalizeText] returns a canonical form: nothing but the letters A to
    Z, as many as the text has alphabetic characters; normalizing again
    changes nothing, and the normal form of a concatenation is the
    concatenation of the normal forms. *)
Theorem normalizeText_canonical :
  forall text : string,
    string_forall isupper (Utils.normalizeText text) = true /\
    size (Utils.normalizeText text) = Utils.alphaCount text /\
    Utils.normalizeText (Utils.normalizeText text) = Utils.normalizeText text /\
    forall more : string,
      Utils.normalizeText (text ++ more)
      = (Utils.normalizeText text ++ Utils.normalizeText more)%string.
Proof.
  intros text. split; [apply normalizeText_upper|].
  split; [apply normalizeText_size|].
  split; [apply normalizeText_fixed, normalizeText_upper|].
  intros more. apply normalizeText_app.
Qed.

(** *** trim *)

Lemma first_not_of_None (s : string) :
  Utils.find_first_not_of Utils.whitespace s = None <->
  string_forall stripped s = true.
Proof.
  induction s as [|c s IH]; [split; reflexivity|].
  cbn [Utils.find_first_not_of string_forall]. fold (stripped c).
  destruct (stripped c); cbn [andb].
  - rewrite <- IH.
    destruct (Utils.find_first_not_of Utils.whitespace s);
      split; intros H; try reflexivity; discriminate H.
  - split; intros H; discriminate H.
Qed.

Lemma last_not_of_None (s : string) :
  Utils.find_last_not_of Utils.whitespace s = None <->
  string_forall stripped s = true.
Proof.
  induction s as [|c s IH]; [split; reflexivity|].
  cbn [Utils.find_last_not_of string_forall]. fold (stripped c).
  destruct (Utils.find_last_not_of Utils.whitespace s).
  - split; intros H; [discriminate H|].
    apply andb_prop in H. destruct H as [_ H]. apply IH in H. discriminate H.
  - destruct IH as [IH _]. rewrite (IH eq_refl), andb_true_r.
    destruct (stripped c); split; intros H; try reflexivity; discriminate H.
Qed.

Lemma string_forall_app (p : ascii -> bool) (a b : string) :
  string_forall p (a ++ b) = string_forall p a && string_forall p b.
Proof.
  induction a as [|c a IH]; [reflexivity|].
  cbn [append string_forall]. rewrite IH, andb_assoc. reflexivity.
Qed.

Lemma substring_app_drop (l s : string) (n : nat) :
  String.substring (String.length l) n (l ++ s) = String.substring 0 n s.
Proof. induction l as [|c l IH]; [reflexivity|]. exact IH. Qed.

Lemma substring_app_take (a b : string) :
  String.substring 0 (String.length a) (a ++ b) = a.
Proof.
  induction a as [|c a IH]; [destruct b; reflexivity|].
  cbn [append String.length String.substring]. rewrite IH. reflexivity.
Qed.

Lemma string_app_length (a b : string) :
  String.length (a ++ b) = (String.length a + String.length b)%nat.
Proof.
  induction a as [|c a IH]; [reflexivity|]. simpl. rewrite IH. reflexivity.
Qed.

Lemma string_app_assoc (a b c : string) :
  ((a ++ b) ++ c = a ++ (b ++ c))%string.
Proof.
  induction a as [|x a IH]; [reflexivity|]. simpl. rewrite IH. reflexivity.
Qed.

Lemma string_app_nil_r (a : string) : (a ++ "")%string = a.
Proof.
  induction a as [|x a IH]; [reflexivity|]. simpl. rewrite IH. reflexivity.
Qed.

Lemma get_last (m : string) (c : ascii) :
  String.get (String.length (m ++ String c "") - 1) (m ++ String c "")
  = Some c.
Proof.
  induction m as [|x m IH]; [reflexivity|].
  cbn [append String.length]. rewrite string_app_length in *.
  cbn [String.length] in *.
  replace (S (String.length m + 1) - 1)%nat
    with (S (String.length m + 1 - 1)) by lia.
  exact IH.
Qed.

Lemma last_not_of_last (m : string) (c : ascii) :
  stripped c = false ->
  Utils.find_last_not_of Utils.whitespace (m ++ String c "")
  = Some (String.length m).
Proof.
  intros Hc. induction m as [|x m IH].
  - cbn [append Utils.find_last_not_of String.length].
    fold (stripped c). rewrite Hc. reflexivity.
  - cbn [append Utils.find_last_not_of String.length]. rewrite IH.
    reflexivity.
Qed.

(** A text is nothing but stripped characters, or it has a first and a
    last kept character, which the two searches find. *)
Lemma trim_parts (text : string) :
  string_forall stripped text = true \/
  exists l c1 m1 m2 c2 r,
    text = (l ++ String c1 m1 ++ r)%string /\
    String c1 m1 = (m2 ++ String c2 "")%string /\
    string_forall stripped l = true /\ string_forall stripped r = true /\
    stripped c1 = false /\ stripped c2 = false /\
    Utils.find_first_not_of Utils.whitespace text = Some (String.length l) /\
    Utils.find_last_not_of Utils.whitespace text
    = Some (String.length l + String.length m2)%nat.
Proof.
  induction text as [|x s IH]; [left; reflexivity|].
  cbn [string_forall Utils.find_first_not_of Utils.find_last_not_of].
  fold (stripped x). destruct IH as [Hall | IH].
  - destruct (stripped x) eqn:Hx; [left; rewrite Hall; reflexivity|].
    right. exists "", x, "", "", x, s.
    apply last_not_of_None in Hall as Hlast. rewrite Hlast.
    cbn [append String.length]. repeat split; auto.
  - right. destruct IH as [l [c1 [m1 [m2 [c2 [r IH]]]]]].
    destruct IH as [Ht [Hm [Hl [Hr [Hc1 [Hc2 [Hf Hlast]]]]]]].
    rewrite Hf, Hlast. destruct (stripped x) eqn:Hx.
    + exists (String x l), c1, m1, m2, c2, r.
      cbn [append String.length string_forall option_map].
      rewrite Hx, Hl, Ht. repeat split; auto.
    + exists "", x, (l ++ String c1 m1)%string, (String x l ++ m2)%string, c2, r.
      cbn [append String.length string_forall].
      rewrite Ht. repeat split; auto.
      * rewrite string_app_assoc. reflexivity.
      * rewrite Hm, !string_app_assoc. reflexivity.
      * rewrite string_app_length. reflexivity.
Qed.

Lemma size_t_small (z : Z) : 0 <= z < 2 ^ 64 -> Utils.size_t z = z.
Proof. intros H. unfold Utils.size_t. apply Z.mod_small, H. Qed.

(** What [trim] returns on a text cut in three. *)
Lemma trim_middle (l m2 r : string) (c1 c2 : ascii) (m1 : string) :
  size (l ++ String c1 m1 ++ r) < 2 ^ 64 ->
  String c1 m1 = (m2 ++ String c2 "")%string ->
  string_forall stripped l = true -> string_forall stripped r = true ->
  stripped c1 = false -> stripped c2 = false ->
  Utils.find_first_not_of Utils.whitespace (l ++ String c1 m1 ++ r)
  = Some (String.length l) ->
  Utils.find_last_not_of Utils.whitespace (l ++ String c1 m1 ++ r)
  = Some (String.length l + String.length m2)%nat ->
  Utils.trim (l ++ String c1 m1 ++ r) = String c1 m1.
Proof.
  intros Hsize Hm Hl Hr Hc1 Hc2 Hf Hlast. unfold Utils.trim.
  rewrite Hf, Hlast.
  assert (Hlen : String.length (String c1 m1) = S (String.length m2)).
  { rewrite Hm, string_app_length. simpl. lia. }
  unfold size in *. rewrite !string_app_length in *.
  rewrite size_t_small by lia.
  replace (Z.to_nat _) with (String.length (String c1 m1)) by lia.
  rewrite substring_app_drop. apply substring_app_take.
Qed.

(** X2.  [trim] removes the stripped characters at both ends and nothing else:
    the text is [trim text] between two runs of stripped characters, and
    [trim text] neither begins nor ends with one.  Trimming again changes
    nothing. *)
Theorem trim_strips_both_ends :
  forall text : string,
    size text < 2 ^ 64 ->
    (exists l r,
       text = (l ++ Utils.trim text ++ r)%string /\
       string_forall stripped l = true /\
       string_forall stripped r = true) /\
    (forall c, String.get 0 (Utils.trim text) = Some c ->
               stripped c = false) /\
    (forall c,
       String.get (String.length (Utils.trim text) - 1) (Utils.trim text)
       = Some c ->
       stripped c = false) /\
    Utils.trim (Utils.trim text) = Utils.trim text.
Proof.
  intros text Hsize. destruct (trim_parts text) as [Hall | H].
  - assert (E : Utils.trim text = "").
    { unfold Utils.trim. apply first_not_of_None in Hall. rewrite Hall.
      reflexivity. }
    rewrite E. split; [|split; [|split]]; try (intros c H; discriminate H);
      [|reflexivity].
    exists text, "". rewrite string_app_nil_r. auto.
  - destruct H as [l [c1 [m1 [m2 [c2 [r H]]]]]].
    destruct H as [Ht [Hm [Hl [Hr [Hc1 [Hc2 [Hf Hlast]]]]]]].
    assert (E : Utils.trim text = String c1 m1).
    { rewrite Ht in *. apply (trim_middle l m2 r c1 c2 m1); assumption. }
    rewrite E. split; [|split; [|split]].
    + exists l, r. auto.
    + intros c G. simpl in G. injection G as <-. exact Hc1.
    + intros c G. rewrite Hm, get_last in G. injection G as <-. exact Hc2.
    + pose proof (trim_middle "" m2 "" c1 c2 m1) as T.
      cbn [append] in T. rewrite string_app_nil_r in T. apply T; auto.
      * unfold size in *. rewrite Ht, !string_app_length in Hsize.
        rewrite Hm, string_app_length in *. lia.
      * cbn [Utils.find_first_not_of]. fold (stripped c1). rewrite Hc1.
        reflexivity.
      * rewrite Hm. apply last_not_of_last, Hc2.
Qed.

Lemma trim_strips_both_ends_witness :
  size "  two words 	" < 2 ^ 64 /\
  Utils.trim (Utils.trim "  two words 	") = Utils.trim "  two words 	".
Proof.
  split; [reflexivity|].
  apply (trim_strips_both_ends "  two words 	"). reflexivity.
Defined.

(** *** split *)

Lemma concat_cons (x : string) (l : list string) :
  String.concat "" (x :: l) = (x ++ String.concat "" l)%string.
Proof.
  destruct l as [|y l]; cbn [String.concat];
    [rewrite string_app_nil_r|]; reflexivity.
Qed.

Lemma split_aux_spec (delimiter : ascii) (text : string) :
  let kept c := negb (Ascii.eqb c delimiter) in
  forall token,
    string_forall kept token = true ->
    Forall (fun t => t <> "" /\ string_forall kept t = true)
      (Utils.split_aux delimiter text token) /\
    String.concat "" (Utils.split_aux delimiter text token)
    = (token ++ string_filter kept text)%string.
Proof.
  intros kept. induction text as [|c s IH]; intros token Htok.
  - cbn [Utils.split_aux string_filter]. rewrite string_app_nil_r.
    destruct token as [|x token]; [split; [constructor | reflexivity]|].
    split; [|reflexivity]. constructor; [|constructor].
    split; [discriminate | exact Htok].
  - cbn [Utils.split_aux string_filter].
    assert (Hk : kept c = negb (Ascii.eqb c delimiter)) by reflexivity.
    destruct (Ascii.eqb c delimiter) eqn:Hc; cbn [negb] in Hk;
      change (string_filter (fun c0 => negb (Ascii.eqb c0 delimiter)) s)
        with (string_filter kept s);
      rewrite Hk.
    + destruct token as [|x token]; [apply (IH "" eq_refl)|].
      destruct (IH "" eq_refl) as [H1 H2]. split.
      * constructor; [|exact H1]. split; [discriminate | exact Htok].
      * rewrite concat_cons, H2. reflexivity.
    + assert (Htok' : string_forall kept (token ++ String c "") = true).
      { rewrite string_forall_app, Htok. cbn [string_forall]. unfold kept.
        rewrite Hc. reflexivity. }
      destruct (IH _ Htok') as [H1 H2]. split; [exact H1|].
      rewrite H2, string_app_assoc. reflexivity.
Qed.

Lemma split_aux_piece (delimiter : ascii) (piece : string) :
  string_forall (fun c => negb (Ascii.eqb c delimiter)) piece = true ->
  forall rest token,
    Utils.split_aux delimiter (piece ++ rest) token
    = Utils.split_aux delimiter rest (token ++ piece).
Proof.
  induction piece as [|c piece IH]; intros Hall rest token.
  - rewrite string_app_nil_r. reflexivity.
  - cbn [string_forall] in Hall. apply andb_prop in Hall.
    destruct Hall as [Hc Hall]. apply negb_true_iff in Hc.
    cbn [String.append Utils.split_aux]. rewrite Hc.
    rewrite (IH Hall), string_app_assoc. reflexivity.
Qed.

Lemma split_aux_pieces (delimiter : ascii) (pieces : list string) :
  forall piece token,
    Forall (fun p => string_forall (fun c => negb (Ascii.eqb c delimiter)) p
                     = true) (piece :: pieces) ->
    Utils.split_aux delimiter
      (String.concat (String delimiter "") (piece :: pieces)) token
    = filter (fun p => negb (String.eqb p ""))
        ((token ++ piece)%string :: pieces).
Proof.
  induction pieces as [|q pieces IH]; intros piece token Hall;
    inversion Hall as [|? ? Hp Hrest]; subst.
  - cbn [String.concat].
    rewrite <- (string_app_nil_r piece) at 1.
    rewrite (split_aux_piece _ _ Hp). cbn [Utils.split_aux filter].
    destruct (token ++ piece)%string; reflexivity.
  - change (String.concat (String delimiter "") (piece :: q :: pieces))
      with (piece ++ String delimiter
                        (String.concat (String delimiter "") (q :: pieces)))%string.
    rewrite (split_aux_piece _ _ Hp). cbn [Utils.split_aux].
    rewrite Ascii.eqb_refl, (IH q "" Hrest).
    cbn [String.append filter].
    destruct (token ++ piece)%string; reflexivity.
Qed.

(** X3.  [split] returns exactly the pieces of the text between the
    delimiters, the empty ones left out: on the pieces, none of which holds
    the delimiter, joined by the delimiter, it returns the non-empty pieces
    in their order.  Hence no token is empty, none contains the delimiter,
    and put end to end the tokens are the text without its delimiters; a
    text without delimiter is its own single token. *)
Theorem split_tokens :
  forall (delimiter : ascii),
    let kept c := negb (Ascii.eqb c delimiter) in
    (forall pieces : list string,
       Forall (fun piece => string_forall kept piece = true) pieces ->
       Utils.split (String.concat (String delimiter "") pieces) delimiter
       = filter (fun piece => negb (String.eqb piece "")) pieces) /\
    forall text : string,
      Forall (fun token => token <> "" /\ string_forall kept token = true)
        (Utils.split text delimiter) /\
      String.concat "" (Utils.split text delimiter) = string_filter kept text /\
      (text <> "" -> string_forall kept text = true ->
       Utils.split text delimiter = [text]).
Proof.
  intros delimiter kept. split.
  { intros [|piece pieces] Hall; [reflexivity|].
    unfold Utils.split. apply (split_aux_pieces delimiter pieces piece "" Hall). }
  intros text. unfold Utils.split.
  destruct (split_aux_spec delimiter text "" eq_refl) as [H1 H2].
  split; [exact H1|]. split; [exact H2|].
  intros Hne Hall.
  assert (G : forall token,
    (token ++ text)%string <> "" ->
    Utils.split_aux delimiter text token = [(token ++ text)%string]).
  { clear - Hall. induction text as [|c s IH]; intros token Hne.
    - cbn [Utils.split_aux]. rewrite string_app_nil_r in *.
      destruct token; [contradiction | reflexivity].
    - cbn [string_forall] in Hall. apply andb_prop in Hall.
      destruct Hall as [Hc Hall]. cbn [Utils.split_aux].
      unfold kept in Hc. apply negb_true_iff in Hc. rewrite Hc.
      rewrite (IH Hall); rewrite string_app_assoc; [reflexivity|].
      destruct token; discriminate. }
  apply (G ""). exact Hne.
Qed.

Lemma split_tokens_witness :
  Utils.split ",the,,quick fox," ","%char = ["the"; "quick fox"] /\
  Utils.split "one" ","%char = ["one"].
Proof.
  destruct (split_tokens ","%char) as [Hpieces Htext]. split.
  - apply (Hpieces [""; "the"; ""; "quick fox"; ""]).
    repeat constructor.
  - destruct (Htext "one") as [_ [_ H]].
    apply H; [discriminate | reflexivity].
Defined.

(* ================================================================= *)
(** ** FrequencyAnalyzer: what the statistics depend on *)

Lemma countLetters_normalizeText (text : string) :
  forall counts totalAlphaChars,
    FrequencyAnalyzer.countLetters (Utils.normalizeText text) counts
      totalAlphaChars
    = FrequencyAnalyzer.countLetters text counts totalAlphaChars.
Proof.
  unfold Utils.normalizeText, Utils.toUpperCase, Utils.removeNonAlpha.
  induction text as [|c text IH]; intros counts total; [reflexivity|].
  cbn [string_filter FrequencyAnalyzer.countLetters].
  destruct (isalpha c) eqn:Hc; [|apply IH].
  cbn [string_map FrequencyAnalyzer.countLetters].
  rewrite isalpha_toupper, Hc, toupper_idempotent. apply IH.
Qed.

(** X4.  The letter statistics read the text up to case and skip every other
    character: they are those of the normalized text. *)
Theorem statistics_of_normalized_text :
  forall text : string,
    FrequencyAnalyzer.calculateFrequency (Utils.normalizeText text)
    = FrequencyAnalyzer.calculateFrequency text /\
    FrequencyAnalyzer.calculateIndexOfCoincidence (Utils.normalizeText text)
    = FrequencyAnalyzer.calculateIndexOfCoincidence text /\
    FrequencyAnalyzer.scoreEnglishness (Utils.normalizeText text)
    = FrequencyAnalyzer.scoreEnglishness text.
Proof.
  intros text.
  assert (E : FrequencyAnalyzer.calculateFrequency (Utils.normalizeText text)
              = FrequencyAnalyzer.calculateFrequency text).
  { unfold FrequencyAnalyzer.calculateFrequency.
    rewrite countLetters_normalizeText. reflexivity. }
  split; [exact E|]. split.
  - unfold FrequencyAnalyzer.calculateIndexOfCoincidence.
    rewrite countLetters_normalizeText. reflexivity.
  - unfold FrequencyAnalyzer.scoreEnglishness. rewrite E. reflexivity.
Qed.

(** *** The Index of Coincidence *)

(** The sum of [f c] over the characters [c] of [l]. *)
Lemma sumZ_perm (f : ascii -> Z) (l1 l2 : list ascii) :
  Permutation l1 l2 -> sumZ f l1 = sumZ f l2.
Proof.
  unfold sumZ. induction 1; cbn [fold_right]; try lia.
Qed.

Lemma sumZ_app (f : ascii -> Z) (l1 l2 : list ascii) :
  sumZ f (l1 ++ l2) = sumZ f l1 + sumZ f l2.
Proof.
  unfold sumZ. induction l1 as [|c l1 IH]; cbn [app fold_right]; lia.
Qed.

Lemma sumZ_zero (f : ascii -> Z) (l : list ascii) :
  (forall c, In c l -> f c = 0) -> sumZ f l = 0.
Proof.
  unfold sumZ. induction l as [|c l IH]; intros H; [reflexivity|].
  cbn [fold_right]. rewrite (H c (or_introl eq_refl)), IH; [reflexivity|].
  intros x Hx. apply H. right. exact Hx.
Qed.

Lemma sumZ_map (f : ascii -> Z) (g : ascii -> ascii) (l : list ascii) :
  sumZ f (map g l) = sumZ (fun c => f (g c)) l.
Proof.
  unfold sumZ. induction l as [|c l IH]; [reflexivity|].
  cbn [map fold_right]. rewrite IH. reflexivity.
Qed.

Lemma sumZ_ext (f g : ascii -> Z) (l : list ascii) :
  (forall c, In c l -> f c = g c) -> sumZ f l = sumZ g l.
Proof.
  unfold sumZ. induction l as [|c l IH]; intros H; [reflexivity|].
  cbn [fold_right]. rewrite (H c (or_introl eq_refl)), IH; [reflexivity|].
  intros x Hx. apply H. right. exact Hx.
Qed.

(** Summing over the entries of a table of counts is summing over the
    alphabet, for a summand that is 0 at 0. *)
Lemma sum_over_counts (g : Z -> Z) (counts : list (ascii * Z)) :
  g 0 = 0 ->
  sorted int_of_char counts ->
  (forall k, In k (map fst counts) -> In k alphabet) ->
  fold_right (fun p acc => g (snd p) + acc) 0 counts
  = sumZ (fun c => g (count_of c counts)) alphabet.
Proof.
  intros Hg Hs Hkeys.
  pose proof (sorted_NoDup int_of_char counts Hs) as Hnd.
  set (rest := filter (fun c => negb (SubstitutionBreaker.mem c (map fst counts)))
                 alphabet).
  assert (P : Permutation alphabet (map fst counts ++ rest)).
  { apply NoDup_Permutation.
    - apply alphabet_NoDup.
    - apply NoDup_app; [exact Hnd | apply NoDup_filter, alphabet_NoDup |].
      intros x Hx Hr. unfold rest in Hr. apply filter_In in Hr.
      destruct Hr as [_ Hr]. apply negb_true_iff in Hr.
      apply (proj2 (mem_In x (map fst counts))) in Hx. congruence.
    - intros x. rewrite in_app_iff. unfold rest. rewrite filter_In. split.
      + intros Hx.
        destruct (SubstitutionBreaker.mem x (map fst counts)) eqn:E.
        * left. apply mem_In, E.
        * right. auto.
      + intros [Hx | [Hx _]]; [apply Hkeys, Hx | exact Hx]. }
  rewrite (sumZ_perm _ _ _ P), sumZ_app.
  rewrite (sumZ_zero _ rest).
  2:{ intros c Hc. unfold rest in Hc. apply filter_In in Hc.
      destruct Hc as [_ Hc]. apply negb_true_iff in Hc.
      unfold count_of.
      destruct (find Ascii.compare c counts) as [v|] eqn:E; [|exact Hg].
      apply (find_In Ascii.compare int_of_char ascii_cmp_code int_of_char_inj)
        in E.
      apply (in_map fst) in E. apply (proj2 (mem_In c _)) in E.
      cbn [fst] in E. congruence. }
  rewrite Z.add_0_r.
  assert (G : forall part,
    incl part counts ->
    fold_right (fun p acc => g (snd p) + acc) 0 part
    = sumZ (fun c => g (count_of c counts)) (map fst part)).
  { induction part as [|[k v] part IH]; intros Hincl; [reflexivity|].
    cbn [fold_right map fst snd]. unfold sumZ in *. cbn [fold_right].
    rewrite IH by (intros x Hx; apply Hincl; right; exact Hx).
    f_equal. unfold count_of.
    rewrite (In_find Ascii.compare int_of_char ascii_cmp_code int_of_char_inj
               k v counts Hnd); [reflexivity|].
    apply Hincl. left. reflexivity. }
  apply G. apply incl_refl.
Qed.

Local Open Scope Q_scope.

Lemma fold_left_inject_Z {A : Type} (h : A -> Z) (l : list A) :
  forall acc : Q,
    fold_left (fun ic p => ic + inject_Z (h p)) l acc
    == acc + inject_Z (fold_right (fun p a => (h p + a)%Z) 0%Z l).
Proof.
  induction l as [|p l IH]; intros acc; cbn [fold_left fold_right].
  - change (inject_Z 0) with 0. ring.
  - rewrite IH, inject_Z_plus. ring.
Qed.

(** The Index of Coincidence as the program computes it: the sum of the
    products, each as an [int] holds it, over the [int] product
    [N (N - 1)]. *)
Lemma calculateIndexOfCoincidence_formula (text : string) :
  FrequencyAnalyzer.calculateIndexOfCoincidence text
  == if (Utils.alphaCount text <=? 1)%Z then 0
     else inject_Z (coincidences32 text)
          / inject_Z
              (int32 (Utils.alphaCount text * (Utils.alphaCount text - 1))).
Proof.
  unfold FrequencyAnalyzer.calculateIndexOfCoincidence.
  pose proof (countLetters_from_empty text) as [Hs [Hok [Htotal Hocc]]].
  destruct (FrequencyAnalyzer.countLetters text [] 0) as [counts total].
  cbn [fst snd] in Hs, Hok, Htotal, Hocc. subst total. cbv beta iota zeta.
  destruct (Utils.alphaCount text <=? 1)%Z; [reflexivity|].
  rewrite (fold_left_inject_Z (fun p => int32 (snd p * (snd p - 1))%Z)).
  rewrite (sum_over_counts (fun n => int32 (n * (n - 1))%Z) counts eq_refl Hs).
  - rewrite Qplus_0_l. unfold coincidences32.
    rewrite (sumZ_ext _ (fun c => int32 (Spec.occurrences c text
                                         * (Spec.occurrences c text - 1))%Z));
      [reflexivity|].
    intros c _. rewrite Hocc. reflexivity.
  - intros k Hk. apply in_map_iff in Hk. destruct Hk as [[k' v] [E Hk]].
    cbn [fst] in E. subst k'.
    apply (In_find Ascii.compare int_of_char ascii_cmp_code int_of_char_inj)
      in Hk; [|apply (sorted_NoDup int_of_char), Hs].
    apply isupper_In_alphabet. apply (Hok k v Hk).
Qed.

Lemma occurrences_le_alphaCount (c : ascii) (text : string) :
  (Spec.occurrences c text <= Utils.alphaCount text)%Z.
Proof.
  induction text as [|x text IH]; [reflexivity|].
  cbn [Spec.occurrences Utils.alphaCount].
  destruct (isalpha x); cbn [andb]; [|lia].
  destruct (Ascii.eqb (toupper x) c); lia.
Qed.

Lemma coincidences_bounds (text : string) :
  (0 <= coincidences text
   <= Utils.alphaCount text * (Utils.alphaCount text - 1))%Z.
Proof.
  pose proof (alphaCount_nonneg text) as HN.
  assert (G : forall l,
    (0 <= sumZ (fun c => Spec.occurrences c text
                         * (Spec.occurrences c text - 1)) l
     <= sumZ (fun c => Spec.occurrences c text) l
        * (Utils.alphaCount text - 1))%Z).
  { induction l as [|c l IH]; unfold sumZ in *; cbn [fold_right]; [lia|].
    pose proof (occurrences_nonneg c text) as H0.
    pose proof (occurrences_le_alphaCount c text) as H1.
    assert (0 <= Spec.occurrences c text * (Spec.occurrences c text - 1)
            <= Spec.occurrences c text * (Utils.alphaCount text - 1))%Z
      by nia.
    lia. }
  specialize (G alphabet).
  replace (sumZ (fun c => Spec.occurrences c text) alphabet)
    with (Utils.alphaCount text) in G
    by (symmetry; apply sum_occurrences).
  exact G.
Qed.

(** Up to 46341 letters no product passes [INT_MAX]. *)
Lemma coincidences32_small (text : string) :
  (Utils.alphaCount text <= 46341)%Z ->
  coincidences32 text = coincidences text /\
  int32 (Utils.alphaCount text * (Utils.alphaCount text - 1))
  = (Utils.alphaCount text * (Utils.alphaCount text - 1))%Z.
Proof.
  intros HN. pose proof (alphaCount_nonneg text) as H0. split.
  - unfold coincidences32, coincidences. apply sumZ_ext. intros c _.
    pose proof (occurrences_nonneg c text) as Hc0.
    pose proof (occurrences_le_alphaCount c text) as Hc1.
    apply int32_small. unfold INT_MAX. nia.
  - apply int32_small. unfold INT_MAX. nia.
Qed.

(** Up to 46341 letters the program computes the Index of Coincidence of
    the formula. *)
Lemma calculateIndexOfCoincidence_small (text : string) :
  (Utils.alphaCount text <= 46341)%Z ->
  FrequencyAnalyzer.calculateIndexOfCoincidence text
  == Spec.indexOfCoincidence text.
Proof.
  intros HN. rewrite calculateIndexOfCoincidence_formula.
  destruct (coincidences32_small text HN) as [-> ->].
  unfold Spec.indexOfCoincidence. cbv zeta.
  rewrite sum_occurrences. reflexivity.
Qed.

Lemma indexOfCoincidence_bounds (text : string) :
  0 <= Spec.indexOfCoincidence text <= 1.
Proof.
  unfold Spec.indexOfCoincidence. cbv zeta.
  rewrite sum_occurrences.
  change (fold_right
            (fun c acc => (Spec.occurrences c text
                           * (Spec.occurrences c text - 1) + acc)%Z)
            0%Z alphabet)
    with (coincidences text).
  pose proof (coincidences_bounds text) as [H0 H1].
  destruct (Z.leb_spec (Utils.alphaCount text) 1) as [Hle|Hgt];
    [split; [apply Qle_refl | discriminate]|].
  assert (Hpos : 0 < inject_Z (Utils.alphaCount text
                               * (Utils.alphaCount text - 1))).
  { change 0 with (inject_Z 0). rewrite <- Zlt_Qlt. nia. }
  split.
  - apply Qle_shift_div_l; [exact Hpos|]. rewrite Qmult_0_l.
    change 0 with (inject_Z 0). rewrite <- Zle_Qle. exact H0.
  - apply Qle_shift_div_r; [exact Hpos|]. rewrite Qmult_1_l.
    rewrite <- Zle_Qle. exact H1.
Qed.

(** X5.  On a text of at most 46341 letters [calculateIndexOfCoincidence]
    returns the sum of the [ni (ni - 1)] over [N (N - 1)], a value from 0 to
    1; from 46342 letters on the [int] products pass [INT_MAX] and the
    value is another.  On a text of fewer than two letters it returns
    0. *)
Theorem calculateIndexOfCoincidence_range :
  forall text : string,
    ((Utils.alphaCount text <= 46341)%Z ->
     FrequencyAnalyzer.calculateIndexOfCoincidence text
     == Spec.indexOfCoincidence text /\
     0 <= FrequencyAnalyzer.calculateIndexOfCoincidence text <= 1) /\
    ((Utils.alphaCount text <= 1)%Z ->
     FrequencyAnalyzer.calculateIndexOfCoincidence text == 0).
Proof.
  intros text. split.
  - intros HN. rewrite (calculateIndexOfCoincidence_small text HN).
    split; [reflexivity | apply indexOfCoincidence_bounds].
  - intros H1. rewrite calculateIndexOfCoincidence_formula.
    apply Z.leb_le in H1. rewrite H1. reflexivity.
Qed.

Lemma calculateIndexOfCoincidence_range_witness :
  (0 <= FrequencyAnalyzer.calculateIndexOfCoincidence "ATTACK AT DAWN" <= 1)
  /\ (FrequencyAnalyzer.calculateIndexOfCoincidence "A1" == 0)%Q.
Proof.
  split.
  - destruct (calculateIndexOfCoincidence_range "ATTACK AT DAWN") as [H _].
    apply H. vm_compute. discriminate.
  - destruct (calculateIndexOfCoincidence_range "A1") as [_ H].
    apply H. vm_compute. discriminate.
Defined.

Local Close Scope Q_scope.

(* ================================================================= *)
(** ** Index of coincidence per key length *)

Local Open Scope Q_scope.

Lemma splitByKeyPosition_total (text : string) (keyLength : Z) :
  (1 <= keyLength)%Z ->
  VigenereBreaker.splitByKeyPosition text keyLength
  = Ok (Spec.columns text keyLength).
Proof.
  intros H. unfold Spec.columns, VigenereBreaker.splitByKeyPosition.
  destruct (Z.ltb_spec keyLength 0); [lia|].
  destruct (Z.eqb_spec keyLength 0); [lia|]. reflexivity.
Qed.






Lemma calculateICForKeyLength_total (text : string) (keyLength : Z) :
  (1 <= keyLength)%Z ->
  exists ic, VigenereBreaker.calculateICForKeyLength text keyLength = Ok ic.
Proof.
  intros H. unfold VigenereBreaker.calculateICForKeyLength.
  rewrite (splitByKeyPosition_total text keyLength H). cbn [bind].
  destruct (fold_left _ (Spec.columns text keyLength) (0, 0%Z))
    as [totalIC validSubstrings].
  eexists. reflexivity.
Qed.



Lemma indexOfCoincidenceMethod_scores (self : VigenereBreaker.t)
  (text : string) :
  (1 <= VigenereBreaker.minKeyLength self)%Z ->
  exists results,
    VigenereBreaker.indexOfCoincidenceMethod self text = Ok results /\
    Permutation
      (map (fun L => (L, icOf text L))
         (range_incl (VigenereBreaker.minKeyLength self)
            (VigenereBreaker.maxKeyLength self)))
      results.
Proof.
  intros Hmin. unfold VigenereBreaker.indexOfCoincidenceMethod.
  rewrite (mapM_total _ (fun L => (L, icOf text L))).
  - cbn [bind]. eexists. split; [reflexivity|]. apply std_sort_perm.
  - intros L HL. apply range_incl_In in HL. unfold icOf.
    destruct (calculateICForKeyLength_total text L) as [ic ->]; [lia|].
    reflexivity.
Qed.

(* ================================================================= *)
(** ** Combining the two rankings *)

(** One loop of [combineKeyLengthResults]: [combinedScores[r.first] +=
    r.second * weight] for the results [rs], whose lengths are distinct. *)
Lemma combine_loop (weight : Q) (rs : list (Z * Q)) :
  NoDup (map fst rs) ->
  forall m0,
    sorted id m0 ->
    let m := fold_left
               (fun m r =>
                  update Z.compare (fst r) 0 (fun v => v + snd r * weight) m)
               rs m0 in
    sorted id m /\
    (forall L, In L (map fst m) <-> In L (map fst m0) \/ In L (map fst rs)) /\
    (forall L s, In (L, s) rs ->
       find Z.compare L m = Some (valueQ L m0 + s * weight)) /\
    (forall L, ~ In L (map fst rs) ->
       find Z.compare L m = find Z.compare L m0).
Proof.
  induction rs as [|[L0 s0] rs IH]; intros Hnd m0 Hs; cbv zeta;
    cbn [fold_left map fst snd].
  - split; [exact Hs|]. split; [intros L; simpl; tauto|].
    split; [intros L s []|]. reflexivity.
  - cbn [map fst] in Hnd. apply NoDup_cons_iff in Hnd.
    destruct Hnd as [Hnot Hnd].
    set (m1 := update Z.compare L0 0 (fun v => v + s0 * weight) m0).
    assert (Hs1 : sorted id m1)
      by (apply (update_sorted Z.compare id Z_cmp_code id_inj), Hs).
    destruct (IH Hnd m1 Hs1) as [H1 [H2 [H3 H4]]]. cbv zeta in H1, H2, H3, H4.
    split; [exact H1|]. split; [|split].
    + intros L. rewrite H2. unfold m1.
      rewrite (update_keys Z.compare id Z_cmp_code id_inj). simpl.
      intuition (subst; auto).
    + intros L s [[= -> ->]|Hin].
      * rewrite (H4 L Hnot). unfold m1, valueQ.
        rewrite (find_update_same Z.compare id Z_cmp_code id_inj) by exact Hs.
        reflexivity.
      * rewrite (H3 L s Hin). unfold valueQ, m1.
        rewrite (find_update_other Z.compare id Z_cmp_code id_inj);
          [reflexivity|].
        intros ->. apply Hnot. apply in_map_iff. exists (L0, s). auto.
    + intros L Hnotin. rewrite H4 by (intros H; apply Hnotin; right; exact H).
      unfold m1.
      apply (find_update_other Z.compare id Z_cmp_code id_inj).
      intros ->. apply Hnotin. left. reflexivity.
Qed.

(** What [combineKeyLengthResults] returns when the Kasiski results hold
    distinct candidate lengths with their scores and the IC results hold
    every candidate length with its score. *)
Lemma combineKeyLengthResults_ranking (lo hi : Z)
  (kasiski ic : Z -> Q) (kasiskiResults icResults : list (Z * Q)) :
  NoDup (map fst kasiskiResults) ->
  (forall L v, In (L, v) kasiskiResults -> (lo <= L <= hi)%Z /\ v == kasiski L) ->
  (forall L, (lo <= L <= hi)%Z -> ~ In L (map fst kasiskiResults) ->
             kasiski L == 0) ->
  (exists values,
     Permutation (map (fun L => (L, values L)) (range_incl lo hi)) icResults /\
     forall L, (lo <= L <= hi)%Z -> values L == ic L) ->
  let lengths :=
    VigenereBreaker.combineKeyLengthResults kasiskiResults icResults in
  Permutation lengths (range_incl lo hi) /\
  StronglySorted
    (fun L1 L2 =>
       Spec.combinedScore (kasiski L2) (ic L2)
       <= Spec.combinedScore (kasiski L1) (ic L1))
    lengths.
Proof.
  intros Hknd Hk Hk0 [values [Hperm Hic]]. cbv zeta.
  unfold VigenereBreaker.combineKeyLengthResults.
  assert (Hicnd : NoDup (map fst icResults)).
  { rewrite <- (Permutation_map fst Hperm), map_map.
    erewrite map_ext by (intros L; reflexivity). rewrite map_id.
    apply range_incl_NoDup. }
  assert (Hickeys : forall L, In L (map fst icResults) <-> (lo <= L <= hi)%Z).
  { intros L. rewrite <- (Permutation_map fst Hperm), map_map.
    erewrite map_ext by (intros x; reflexivity). rewrite map_id.
    apply range_incl_In. }
  assert (Hicval : forall L, (lo <= L <= hi)%Z -> In (L, values L) icResults).
  { intros L HL. apply (Permutation_in _ Hperm).
    apply in_map_iff. exists L. split; [reflexivity|].
    apply range_incl_In, HL. }
  destruct (combine_loop 0.6 kasiskiResults Hknd [] (sorted_nil id))
    as [A1 [A2 [A3 A4]]]. cbv zeta in A1, A2, A3, A4.
  set (mk := fold_left _ kasiskiResults []) in *.
  destruct (combine_loop 0.4 icResults Hicnd mk A1) as [B1 [B2 [B3 B4]]].
  cbv zeta in B1, B2, B3, B4.
  set (combined := fold_left _ icResults mk) in *.
  assert (Hkeys : forall L, In L (map fst combined) <-> (lo <= L <= hi)%Z).
  { intros L. rewrite B2, A2, Hickeys. split; [|tauto].
    intros [[[]|H]|H]; [|exact H].
    apply in_map_iff in H. destruct H as [[L' v] [<- H]].
    apply (Hk _ _ H). }
  assert (Hscore : forall L v, In (L, v) combined ->
            v == Spec.combinedScore (kasiski L) (ic L)).
  { intros L v Hin.
    assert (HL : (lo <= L <= hi)%Z).
    { apply Hkeys. apply in_map_iff. exists (L, v). auto. }
    apply (In_find Z.compare id Z_cmp_code id_inj) in Hin;
      [|apply (sorted_NoDup id), B1].
    rewrite (B3 L (values L) (Hicval L HL)) in Hin. injection Hin as <-.
    unfold Spec.combinedScore, valueQ. rewrite (Hic L HL).
    destruct (find Z.compare L mk) as [x|] eqn:E.
    - destruct (in_dec Z.eq_dec L (map fst kasiskiResults)) as [Hin|Hnot].
      + apply in_map_iff in Hin. destruct Hin as [[L' k] [E' Hin]].
        simpl in E'. subst L'.
        rewrite (A3 L k Hin) in E. injection E as <-.
        destruct (Hk L k Hin) as [_ ->]. unfold valueQ. simpl. ring.
      + rewrite (A4 L Hnot) in E. discriminate E.
    - destruct (in_dec Z.eq_dec L (map fst kasiskiResults)) as [Hin|Hnot].
      + apply in_map_iff in Hin. destruct Hin as [[L' k] [E' Hin]].
        simpl in E'. subst L'.
        rewrite (A3 L k Hin) in E. discriminate E.
      + rewrite (Hk0 L HL Hnot). ring. }
  split.
  - rewrite <- (Permutation_map fst (std_sort_perm _ combined)).
    apply NoDup_Permutation.
    + apply (sorted_NoDup id), B1.
    + apply range_incl_NoDup.
    + intros L. rewrite Hkeys. symmetry. apply range_incl_In.
  - apply (StronglySorted_map (fun a b => snd b <= snd a)).
    + intros [L1 v1] [L2 v2] H1 H2 Hle. cbn [fst snd] in *.
      apply (Permutation_in _ (Permutation_sym (std_sort_perm _ _))) in H1, H2.
      rewrite <- (Hscore L1 v1 H1), <- (Hscore L2 v2 H2). exact Hle.
    + apply (std_sort_descending _ snd). reflexivity.
Qed.




Local Close Scope Q_scope.

(** *** A Caesar shift keeps the Index of Coincidence *)

Lemma same_letters_spec (l1 l2 : list ascii) :
  same_letters l1 l2 = true -> Permutation l1 l2.
Proof.
  intros H. apply (Permutation_count_occ ascii_dec). intros x.
  apply Nat.eqb_eq. revert x. apply for_all_chars. exact H.
Qed.

(** The letters shifted back by [s] are the letters. *)
Lemma shifted_alphabet (s : Z) :
  0 <= s <= 26 ->
  Permutation
    (map (fun c => CaesarBreaker.caesarShiftChar c (26 - s)) alphabet)
    alphabet.
Proof.
  intros Hs. apply same_letters_spec. revert s Hs.
  apply (for_all_shifts
    (fun s => same_letters
                (map (fun c => CaesarBreaker.caesarShiftChar c (26 - s))
                   alphabet)
                alphabet)).
  vm_compute. reflexivity.
Qed.

Lemma toupper_caesarShiftChar (x : ascii) (s : Z) :
  0 <= s <= 26 ->
  toupper (CaesarBreaker.caesarShiftChar x s)
  = CaesarBreaker.caesarShiftChar (toupper x) s.
Proof.
  intros Hs. apply Ascii.eqb_eq. revert x s Hs.
  apply (for_all_chars_shifts
    (fun x s => Ascii.eqb (toupper (CaesarBreaker.caesarShiftChar x s))
                  (CaesarBreaker.caesarShiftChar (toupper x) s))).
  vm_compute. reflexivity.
Qed.

Lemma caesarShiftChar_back (c : ascii) (s : Z) :
  0 <= s <= 26 ->
  CaesarBreaker.caesarShiftChar (CaesarBreaker.caesarShiftChar c s) (26 - s)
  = c.
Proof.
  intros Hs. rewrite <- !vigenereShift_caesarShiftChar.
  apply vigenereShift_inverse, Hs.
Qed.

(** A character counts for the letter [c] after the shift when it counted
    for the letter [c] comes from. *)
Lemma shifted_letter (x c : ascii) (s : Z) :
  0 <= s <= 26 ->
  isalpha (CaesarBreaker.caesarShiftChar x s)
  && Ascii.eqb (toupper (CaesarBreaker.caesarShiftChar x s)) c
  = isalpha x
    && Ascii.eqb (toupper x) (CaesarBreaker.caesarShiftChar c (26 - s)).
Proof.
  intros Hs. rewrite (caesarShiftChar_isalpha x s Hs). f_equal.
  rewrite (toupper_caesarShiftChar x s Hs).
  destruct (Ascii.eqb_spec (CaesarBreaker.caesarShiftChar (toupper x) s) c)
    as [E|E];
    destruct (Ascii.eqb_spec (toupper x)
                (CaesarBreaker.caesarShiftChar c (26 - s))) as [E'|E'];
    try reflexivity; exfalso.
  - apply E'. rewrite <- E. symmetry. apply caesarShiftChar_back, Hs.
  - apply E. rewrite E'. apply caesarShiftChar_inverse, Hs.
Qed.

Lemma occurrences_caesarShift (c : ascii) (text : string) (s : Z) :
  0 <= s <= 26 ->
  Spec.occurrences c (CaesarBreaker.caesarShift text s)
  = Spec.occurrences (CaesarBreaker.caesarShiftChar c (26 - s)) text.
Proof.
  intros Hs. unfold CaesarBreaker.caesarShift.
  induction text as [|x text IH]; [reflexivity|].
  cbn [string_map Spec.occurrences].
  rewrite (shifted_letter x c s Hs), IH. reflexivity.
Qed.

Lemma alphaCount_caesarShift (text : string) (s : Z) :
  0 <= s <= 26 ->
  Utils.alphaCount (CaesarBreaker.caesarShift text s) = Utils.alphaCount text.
Proof.
  intros Hs. unfold CaesarBreaker.caesarShift.
  induction text as [|x text IH]; [reflexivity|].
  cbn [string_map Utils.alphaCount].
  rewrite (caesarShiftChar_isalpha x s Hs), IH. reflexivity.
Qed.

Lemma coincidences_caesarShift (text : string) (s : Z) :
  0 <= s <= 26 ->
  coincidences32 (CaesarBreaker.caesarShift text s) = coincidences32 text.
Proof.
  intros Hs. unfold coincidences32.
  set (g := fun c => int32 (Spec.occurrences c text
                            * (Spec.occurrences c text - 1))).
  transitivity
    (sumZ (fun c => g (CaesarBreaker.caesarShiftChar c (26 - s))) alphabet).
  - apply sumZ_ext. intros c _. unfold g.
    rewrite (occurrences_caesarShift c text s Hs). reflexivity.
  - rewrite <- sumZ_map. apply sumZ_perm, shifted_alphabet, Hs.
Qed.

Local Open Scope Q_scope.

Lemma calculateIndexOfCoincidence_caesarShift (text : string) (s : Z) :
  (0 <= s <= 26)%Z ->
  FrequencyAnalyzer.calculateIndexOfCoincidence
    (CaesarBreaker.caesarShift text s)
  == FrequencyAnalyzer.calculateIndexOfCoincidence text.
Proof.
  intros Hs. rewrite !calculateIndexOfCoincidence_formula.
  rewrite (alphaCount_caesarShift text s Hs),
    (coincidences_caesarShift text s Hs).
  reflexivity.
Qed.

(** X6.  A Caesar shift does not change the Index of Coincidence: encrypting or
    decrypting with a key from 0 to 26 leaves it as it is. *)
Theorem caesar_keeps_index_of_coincidence :
  forall (text : string) (key : Z),
    (0 <= key <= 26)%Z ->
    FrequencyAnalyzer.calculateIndexOfCoincidence
      (CaesarBreaker.encrypt text key)
    == FrequencyAnalyzer.calculateIndexOfCoincidence text /\
    FrequencyAnalyzer.calculateIndexOfCoincidence
      (CaesarBreaker.decrypt text key)
    == FrequencyAnalyzer.calculateIndexOfCoincidence text.
Proof.
  intros text key Hk. unfold CaesarBreaker.encrypt, CaesarBreaker.decrypt.
  rewrite int32_small by (unfold INT_MAX; lia).
  split; apply calculateIndexOfCoincidence_caesarShift; lia.
Qed.

Lemma caesar_keeps_index_of_coincidence_witness :
  (0 <= 3 <= 26)%Z /\
  FrequencyAnalyzer.calculateIndexOfCoincidence
    (CaesarBreaker.encrypt "ATTACK AT DAWN" 3)
  == FrequencyAnalyzer.calculateIndexOfCoincidence "ATTACK AT DAWN".
Proof.
  split; [lia|].
  apply (caesar_keeps_index_of_coincidence "ATTACK AT DAWN" 3). lia.
Defined.

Local Close Scope Q_scope.

(** *** scoreEnglishness *)

Local Open Scope Q_scope.

Lemma inverse_range (x : Q) : 0 <= x -> 0 < 1 / (1 + x) /\ 1 / (1 + x) <= 1.
Proof.
  intros Hx. assert (H1 : 0 < 1 + x).
  { apply Qlt_le_trans with 1; [reflexivity|].
    rewrite <- (Qplus_0_r 1) at 1. apply Qplus_le_r, Hx. }
  split.
  - apply Qlt_shift_div_l; [exact H1|]. rewrite Qmult_0_l. reflexivity.
  - apply Qle_shift_div_r; [exact H1|]. rewrite Qmult_1_l.
    rewrite <- (Qplus_0_r 1) at 1. apply Qplus_le_r, Hx.
Qed.


Lemma scoreEnglishness_value (text : string) :
  FrequencyAnalyzer.scoreEnglishness text
  = 1 / (1 + FrequencyAnalyzer.chiSquaredTest
               (FrequencyAnalyzer.calculateFrequency text)
               FrequencyAnalyzer.english).
Proof. reflexivity. Qed.

Lemma scoreEnglishness_bounds (text : string) :
  0 < FrequencyAnalyzer.scoreEnglishness text /\
  FrequencyAnalyzer.scoreEnglishness text <= 1.
Proof.
  rewrite scoreEnglishness_value. apply inverse_range, chiSquaredTest_nonneg.
Qed.


Local Close Scope Q_scope.

(** *** The most common bigrams and trigrams *)

Lemma firstn_descending {A : Type} (key : A -> Q) (n : nat) (l : list A) :
  descending key l -> descending key (firstn n l).
Proof.
  unfold descending. revert n. induction l as [|x l IH]; intros n H.
  - rewrite firstn_nil. constructor.
  - destruct n as [|n]; [constructor|].
    apply StronglySorted_inv in H. destruct H as [H1 H2].
    cbn [firstn]. constructor; [apply IH, H1|].
    rewrite Forall_forall in *. intros y Hy. apply H2.
    rewrite <- (firstn_skipn n l). apply in_or_app. left. exact Hy.
Qed.

(** The last step of [findCommonBigrams] and [findCommonTrigrams]: the
    sorted vector cut to [count] entries. *)
Lemma top_count {A : Type} (key : A -> Q) (count : Z) (sorted : list A) :
  descending key sorted ->
  let top := if (0 <=? count) && (count <? Z.of_nat (List.length sorted))
             then firstn (Z.to_nat count) sorted else sorted in
  descending key top /\
  (0 <= count -> Z.of_nat (List.length top) <= count) /\
  (List.length top <= List.length sorted)%nat.
Proof.
  intros Hs top. unfold top.
  destruct (Z.leb_spec 0 count) as [H0|H0]; cbn [andb].
  - destruct (Z.ltb_spec count (Z.of_nat (List.length sorted))) as [H1|H1].
    + split; [apply firstn_descending, Hs|]. rewrite length_firstn. lia.
    + split; [exact Hs|]. lia.
  - split; [exact Hs|]. lia.
Qed.

Lemma ascii_compare_trans (a b c : ascii) :
  Ascii.compare a b = Lt -> Ascii.compare b c = Lt -> Ascii.compare a c = Lt.
Proof.
  rewrite !ascii_cmp_code, !Z.compare_lt_iff. lia.
Qed.

Lemma string_compare_trans (a b c : string) :
  String.compare a b = Lt -> String.compare b c = Lt ->
  String.compare a c = Lt.
Proof.
  revert b c. induction a as [|x a IH]; intros [|y b] [|z c] H1 H2;
    try discriminate; try reflexivity.
  cbn [String.compare] in *.
  destruct (Ascii.compare x y) eqn:Exy; try discriminate H1.
  - apply Ascii.compare_eq_iff in Exy. subst y.
    destruct (Ascii.compare x z); try discriminate H2; [|reflexivity].
    apply (IH b c H1 H2).
  - destruct (Ascii.compare y z) eqn:Eyz; try discriminate H2.
    + apply Ascii.compare_eq_iff in Eyz. subst z. rewrite Exy. reflexivity.
    + rewrite (ascii_compare_trans x y z Exy Eyz). reflexivity.
Qed.

Lemma string_compare_refl (a : string) : String.compare a a = Eq.
Proof.
  induction a as [|x a IH]; [reflexivity|]. cbn [String.compare].
  unfold Ascii.compare. rewrite N.compare_refl. exact IH.
Qed.

Section StringMapFacts.

Context {V : Type}.

Lemma smap_find_below (k : string) (m : list (string * V)) :
  Forall (fun q => String.compare k (fst q) = Lt) m ->
  find String.compare k m = None.
Proof.
  induction m as [|[k0 v] m IH]; intros H; [reflexivity|].
  inversion H as [|? ? H1 H2]; subst. cbn [find fst] in *.
  rewrite H1. apply IH, H2.
Qed.

Lemma smap_find_update_same (k : string) (d : V) (f : V -> V)
  (m : list (string * V)) :
  StronglySorted (fun p q => String.compare (fst p) (fst q) = Lt) m ->
  find String.compare k (update String.compare k d f m)
  = Some (f (match find String.compare k m with Some v => v | None => d end)).
Proof.
  induction m as [|[k0 v] m IH]; intros Hs; cbn [find update].
  - rewrite string_compare_refl. reflexivity.
  - apply StronglySorted_inv in Hs. destruct Hs as [Hs Hall].
    destruct (String.compare k k0) eqn:E; cbn [find].
    + rewrite E. reflexivity.
    + rewrite string_compare_refl.
      rewrite smap_find_below; [reflexivity|].
      eapply Forall_impl; [|exact Hall]. cbn beta. cbn [fst].
      intros q Hq. apply (string_compare_trans _ _ _ E Hq).
    + rewrite E. apply IH, Hs.
Qed.

Lemma smap_find_update_other (k k' : string) (d : V) (f : V -> V)
  (m : list (string * V)) :
  k' <> k ->
  find String.compare k' (update String.compare k d f m)
  = find String.compare k' m.
Proof.
  intros Hne. induction m as [|[k0 v] m IH]; cbn [find update].
  - destruct (String.compare k' k) eqn:E; try reflexivity.
    apply String.compare_eq_iff in E. contradiction.
  - destruct (String.compare k k0) eqn:E; cbn [find].
    + destruct (String.compare k' k0) eqn:E'; try reflexivity.
      apply String.compare_eq_iff in E, E'. congruence.
    + destruct (String.compare k' k) eqn:E'; try reflexivity.
      apply String.compare_eq_iff in E'. contradiction.
    + destruct (String.compare k' k0); try reflexivity; exact IH.
Qed.

Lemma smap_update_keys (k k' : string) (d : V) (f : V -> V)
  (m : list (string * V)) :
  In k' (map fst (update String.compare k d f m))
  <-> k' = k \/ In k' (map fst m).
Proof.
  induction m as [|[k0 v] m IH]; cbn [update map fst In].
  - intuition.
  - destruct (String.compare k k0) eqn:E; cbn [map fst In].
    + apply String.compare_eq_iff in E. subst. intuition.
    + intuition.
    + rewrite IH. intuition.
Qed.

Lemma smap_update_sorted (k : string) (d : V) (f : V -> V)
  (m : list (string * V)) :
  StronglySorted (fun p q => String.compare (fst p) (fst q) = Lt) m ->
  StronglySorted (fun p q => String.compare (fst p) (fst q) = Lt)
    (update String.compare k d f m).
Proof.
  induction m as [|[k0 v] m IH]; intros Hs; cbn [update].
  - constructor; constructor.
  - pose proof Hs as Hs0.
    apply StronglySorted_inv in Hs. destruct Hs as [Hs Hall].
    destruct (String.compare k k0) eqn:E.
    + apply String.compare_eq_iff in E. subst k0. constructor; assumption.
    + constructor; [exact Hs0|].
      constructor; [exact E|].
      eapply Forall_impl; [|exact Hall]. cbn beta. cbn [fst].
      intros q Hq. apply (string_compare_trans _ _ _ E Hq).
    + constructor; [apply IH, Hs|].
      apply Forall_forall. intros q Hq.
      assert (Hk : In (fst q) (map fst (update String.compare k d f m)))
        by (apply in_map, Hq).
      apply smap_update_keys in Hk. cbn beta. cbn [fst].
      destruct Hk as [Hk|Hk].
      * rewrite Hk, String.compare_antisym, E. reflexivity.
      * apply in_map_iff in Hk. destruct Hk as [q' [Hq' Hin]].
        rewrite Forall_forall in Hall. specialize (Hall q' Hin).
        cbn beta in Hall. cbn [fst] in Hall. rewrite <- Hq'. exact Hall.
Qed.

Lemma smap_sorted_NoDup (m : list (string * V)) :
  StronglySorted (fun p q => String.compare (fst p) (fst q) = Lt) m -> NoDup (map fst m).
Proof.
  induction m as [|[k0 v] m IH]; intros Hs; cbn [map]; [constructor|].
  apply StronglySorted_inv in Hs. destruct Hs as [Hs Hall].
  constructor; [|apply IH, Hs].
  intros Hin. apply in_map_iff in Hin. destruct Hin as [q [Hq Hin]].
  rewrite Forall_forall in Hall. specialize (Hall q Hin).
  cbn beta in Hall. cbn [fst] in *. rewrite Hq in Hall.
  rewrite string_compare_refl in Hall. discriminate.
Qed.

Lemma smap_In_find (k : string) (v : V) (m : list (string * V)) :
  NoDup (map fst m) -> In (k, v) m -> find String.compare k m = Some v.
Proof.
  induction m as [|[k0 v0] m IH]; cbn [map In find]; intros Hnd Hin;
    [contradiction|].
  apply NoDup_cons_iff in Hnd. destruct Hnd as [Hnot Hnd].
  destruct Hin as [[= -> ->]|Hin].
  - rewrite string_compare_refl. reflexivity.
  - destruct (String.compare k k0) eqn:E; try (apply IH; assumption).
    apply String.compare_eq_iff in E. subst k0. exfalso. apply Hnot.
    apply in_map_iff. exists (k, v). auto.
Qed.

End StringMapFacts.

(** The counting loop of [findCommonBigrams] and [findCommonTrigrams]. *)
Lemma countGrams_spec (grams : list string) :
  forall counts : list (string * Z),
    StronglySorted (fun p q => String.compare (fst p) (fst q) = Lt) counts ->
    let counts' :=
      fold_left
        (fun counts gram => update String.compare gram 0 Z.succ counts)
        grams counts in
    StronglySorted (fun p q => String.compare (fst p) (fst q) = Lt) counts' /\
    (forall gram,
       In gram (map fst counts')
       <-> In gram (map fst counts) \/ In gram grams) /\
    (forall gram,
       match find String.compare gram counts' with Some v => v | None => 0 end
       = match find String.compare gram counts with Some v => v | None => 0 end
         + occurrencesOf gram grams).
Proof.
  induction grams as [|g grams IH]; intros counts Hs; cbn [fold_left].
  - split; [exact Hs|]. split; [intros gram; cbn [In]; tauto|].
    intros gram. unfold occurrencesOf. cbn [count_occ]. lia.
  - destruct (IH _ (smap_update_sorted g 0 Z.succ counts Hs))
      as [H1 [H2 H3]].
    split; [exact H1|]. split.
    + intros gram. rewrite H2, smap_update_keys. cbn [In].
      intuition congruence.
    + intros gram. rewrite H3. unfold occurrencesOf. cbn [count_occ].
      destruct (string_dec g gram) as [->|Hne].
      * rewrite (smap_find_update_same gram 0 Z.succ counts Hs). lia.
      * rewrite smap_find_update_other by congruence. lia.
Qed.

Lemma descending_app {A : Type} (key : A -> Q) (l1 l2 : list A) :
  descending key (l1 ++ l2) ->
  forall x y, In x l1 -> In y l2 -> (key y <= key x)%Q.
Proof.
  unfold descending. induction l1 as [|a l1 IH]; intros Hs x y Hx Hy;
    [contradiction|].
  cbn [app] in Hs. apply StronglySorted_inv in Hs. destruct Hs as [Hs Hall].
  destruct Hx as [<-|Hx]; [|apply (IH Hs x y Hx Hy)].
  rewrite Forall_forall in Hall. apply Hall, in_or_app. right. exact Hy.
Qed.

(** From the windows to the vector returned. *)
Lemma mostCommon_spec (grams : list string) (total count : Z) :
  total = Z.of_nat (List.length grams) ->
  let counts :=
    fold_left
      (fun counts gram => update String.compare gram 0 Z.succ counts)
      grams [] in
  let entries :=
    map (fun p => (fst p, (inject_Z (snd p) / inject_Z total * 100)%Q))
      counts in
  let sorted := std_sort (fun a b => Qltb (snd b) (snd a)) entries in
  mostCommon grams count
    (if (0 <=? count) && (count <? Z.of_nat (List.length sorted))
     then firstn (Z.to_nat count) sorted else sorted).
Proof.
  intros Htotal counts entries sorted.
  destruct (countGrams_spec grams [] (SSorted_nil _)) as [Hs [Hkeys Hval]].
  fold counts in Hs, Hkeys, Hval.
  pose proof (smap_sorted_NoDup counts Hs) as Hnd.
  assert (Hfst : map fst entries = map fst counts).
  { unfold entries. rewrite map_map. reflexivity. }
  pose proof (std_sort_perm (fun a b => Qltb (snd b) (snd a)) entries)
    as Hperm.
  fold sorted in Hperm.
  assert (Hnds : NoDup (map fst sorted)).
  { apply (Permutation_NoDup (Permutation_map fst Hperm)).
    rewrite Hfst. exact Hnd. }
  assert (Hin : forall gram frequency,
    In (gram, frequency) sorted <->
    In gram grams /\ frequency = shareOf gram grams).
  { intros gram frequency. split.
    - intros H. apply (Permutation_in _ (Permutation_sym Hperm)) in H.
      unfold entries in H. apply in_map_iff in H.
      destruct H as [[g c] [[= <- <-] Hgc]]. cbn [fst snd].
      pose proof (smap_In_find g c counts Hnd Hgc) as Hf.
      specialize (Hval g). rewrite Hf in Hval. cbn [find] in Hval.
      split.
      + assert (Hk : In g (map fst counts))
          by (apply in_map_iff; exists (g, c); auto).
        apply Hkeys in Hk. destruct Hk as [[]|Hk]. exact Hk.
      + unfold shareOf. rewrite Hval, Htotal. reflexivity.
    - intros [Hg ->]. apply (Permutation_in _ Hperm).
      assert (Hk : In gram (map fst counts))
        by (apply Hkeys; right; exact Hg).
      apply in_map_iff in Hk. destruct Hk as [[g c] [Hgc Hk]].
      cbn [fst] in Hgc. subst g.
      pose proof (smap_In_find gram c counts Hnd Hk) as Hf.
      specialize (Hval gram). rewrite Hf in Hval. cbn [find] in Hval.
      unfold entries. apply in_map_iff. exists (gram, c).
      split; [|exact Hk]. cbn [fst snd]. unfold shareOf.
      rewrite Hval, Htotal. reflexivity. }
  assert (Hlen : List.length sorted
                 = List.length (nodup string_dec grams)).
  { rewrite <- (length_map fst sorted).
    apply Permutation_length, NoDup_Permutation;
      [exact Hnds | apply NoDup_nodup|].
    intros g. rewrite nodup_In. split.
    - intros H. apply in_map_iff in H. destruct H as [[g' f] [<- H]].
      apply (Hin g' f), H.
    - intros H. apply in_map_iff. exists (g, shareOf g grams).
      split; [reflexivity|]. apply Hin. split; [exact H | reflexivity]. }
  pose proof (std_sort_descending (fun a b => Qltb (snd b) (snd a)) snd
                (fun a b => eq_refl) entries) as Hdesc.
  fold sorted in Hdesc.
  unfold mostCommon. rewrite <- Hlen.
  destruct ((0 <=? count) && (count <? Z.of_nat (List.length sorted)))
    eqn:Hcut.
  - apply andb_prop in Hcut. destruct Hcut as [H0 H1].
    apply Z.leb_le in H0. apply Z.ltb_lt in H1.
    pose proof (firstn_skipn (Z.to_nat count) sorted) as Hsplit.
    split; [|split; [|split; [|split]]].
    + rewrite <- Hsplit, map_app in Hnds.
      apply NoDup_app_remove_r in Hnds. exact Hnds.
    + intros gram frequency H. apply Hin.
      rewrite <- Hsplit. apply in_or_app. left. exact H.
    + apply firstn_descending, Hdesc.
    + rewrite length_firstn. lia.
    + intros gram Hg.
      assert (H : In (gram, shareOf gram grams) sorted)
        by (apply Hin; split; [exact Hg | reflexivity]).
      rewrite <- Hsplit in H. apply in_app_or in H. destruct H as [H|H].
      * left. apply in_map_iff. exists (gram, shareOf gram grams). auto.
      * right. apply Forall_forall. intros entry He.
        rewrite <- Hsplit in Hdesc.
        apply (descending_app snd _ _ Hdesc entry _ He H).
  - split; [exact Hnds|]. split; [intros g f H; apply Hin, H|].
    split; [exact Hdesc|]. split; [reflexivity|].
    intros gram Hg. left. apply in_map_iff.
    exists (gram, shareOf gram grams). split; [reflexivity|].
    apply Hin. split; [exact Hg | reflexivity].
Qed.

Lemma windows_length (n : nat) (text : string) :
  List.length (FrequencyAnalyzer.windows n text)
  = (String.length text + 1 - n)%nat.
Proof.
  unfold FrequencyAnalyzer.windows. rewrite length_map, length_seq.
  reflexivity.
Qed.

(** X8.  [findCommonBigrams] and [findCommonTrigrams] throw [std::out_of_range]
    on a text without letter, and the latter on a text of one letter too.
    Otherwise, on a text of at most [INT_MAX] letters, they return the
    n-grams of the normalised text, each once and with its frequency (its
    occurrences over the number of windows, as a percentage), in descending
    order of frequency: all of them if [count] is negative or not below
    their number, and else [count] of them, none less frequent than one
    left out.  A text too short to hold one n-gram gives none. *)
Theorem common_ngrams :
  forall (text : string) (count : Z),
    let normalizedText := Utils.normalizeText text in
    let letters := size normalizedText in
    (letters = 0 ->
     FrequencyAnalyzer.findCommonBigrams text count = Fail out_of_range) /\
    (1 <= letters <= INT_MAX ->
     exists bigrams,
       FrequencyAnalyzer.findCommonBigrams text count = Ok bigrams /\
       mostCommon (FrequencyAnalyzer.windows 2 normalizedText) count bigrams /\
       descending snd bigrams /\
       (0 <= count -> Z.of_nat (List.length bigrams) <= count) /\
       (letters = 1 -> bigrams = [])) /\
    (letters <= 1 ->
     FrequencyAnalyzer.findCommonTrigrams text count = Fail out_of_range) /\
    (2 <= letters <= INT_MAX ->
     exists trigrams,
       FrequencyAnalyzer.findCommonTrigrams text count = Ok trigrams /\
       mostCommon (FrequencyAnalyzer.windows 3 normalizedText) count trigrams /\
       descending snd trigrams /\
       (0 <= count -> Z.of_nat (List.length trigrams) <= count) /\
       (letters = 2 -> trigrams = [])).
Proof.
  intros text count normalizedText letters. unfold letters, size.
  unfold FrequencyAnalyzer.findCommonBigrams,
    FrequencyAnalyzer.findCommonTrigrams.
  fold normalizedText. set (nt := normalizedText).
  split; [|split; [|split]].
  - intros H. replace (String.length nt) with 0%nat by lia. reflexivity.
  - intros H. destruct (Nat.eqb_spec (String.length nt) 0) as [E|_]; [lia|].
    assert (Htotal : int32 (size nt - 1)
                     = Z.of_nat (List.length (FrequencyAnalyzer.windows 2 nt))).
    { rewrite int32_small by (unfold size; lia).
      rewrite windows_length. unfold size. lia. }
    pose proof (mostCommon_spec (FrequencyAnalyzer.windows 2 nt) _ count Htotal)
      as M. cbv zeta in M.
    match goal with
    | |- context [std_sort ?c ?l] =>
        pose proof (top_count snd count (std_sort c l)
                      (std_sort_descending c snd (fun a b => eq_refl) l))
          as [T1 [T2 T3]]
    end.
    eexists. split; [reflexivity|]. split; [exact M|].
    split; [exact T1|]. split; [exact T2|].
    intros H1. clear T1 T2 T3 M Htotal.
    assert (W : FrequencyAnalyzer.windows 2 nt = []).
    { unfold FrequencyAnalyzer.windows.
      replace (String.length nt + 1 - 2)%nat with 0%nat by lia.
      reflexivity. }
    rewrite W. cbn [fold_left map std_sort List.length].
    destruct ((0 <=? count) && (count <? Z.of_nat 0));
      [apply firstn_nil | reflexivity].
  - intros H. destruct (Nat.ltb_spec (String.length nt) 2) as [_|E]; [|lia].
    reflexivity.
  - intros H. destruct (Nat.ltb_spec (String.length nt) 2) as [E|_]; [lia|].
    assert (Htotal : int32 (size nt - 2)
                     = Z.of_nat (List.length (FrequencyAnalyzer.windows 3 nt))).
    { rewrite int32_small by (unfold size; lia).
      rewrite windows_length. unfold size. lia. }
    pose proof (mostCommon_spec (FrequencyAnalyzer.windows 3 nt) _ count Htotal)
      as M. cbv zeta in M.
    match goal with
    | |- context [std_sort ?c ?l] =>
        pose proof (top_count snd count (std_sort c l)
                      (std_sort_descending c snd (fun a b => eq_refl) l))
          as [T1 [T2 T3]]
    end.
    eexists. split; [reflexivity|]. split; [exact M|].
    split; [exact T1|]. split; [exact T2|].
    intros H1. clear T1 T2 T3 M Htotal.
    assert (W : FrequencyAnalyzer.windows 3 nt = []).
    { unfold FrequencyAnalyzer.windows.
      replace (String.length nt + 1 - 3)%nat with 0%nat by lia.
      reflexivity. }
    rewrite W. cbn [fold_left map std_sort List.length].
    destruct ((0 <=? count) && (count <? Z.of_nat 0));
      [apply firstn_nil | reflexivity].
Qed.

Lemma common_ngrams_witness :
  exists bigrams,
    FrequencyAnalyzer.findCommonBigrams "the then" 2 = Ok bigrams /\
    mostCommon ["TH"; "HE"; "ET"; "TH"; "HE"; "EN"] 2 bigrams /\
    Z.of_nat (List.length bigrams) <= 2.
Proof.
  destruct (common_ngrams "the then" 2) as [_ [H _]].
  destruct (H ltac:(vm_compute; split; discriminate))
    as [bigrams [E [M [_ [B _]]]]].
  exists bigrams. split; [exact E|]. split; [exact M | apply B; lia].
Defined.

(** *** Language detection *)

Local Open Scope Q_scope.

Lemma calculateFrequency_no_letter (text : string) :
  Utils.alphaCount text = 0%Z -> FrequencyAnalyzer.calculateFrequency text = [].
Proof.
  intros H. unfold FrequencyAnalyzer.calculateFrequency.
  pose proof (countLetters_from_empty text) as [_ [_ [Htotal _]]].
  destruct (FrequencyAnalyzer.countLetters text [] 0) as [counts total].
  cbn [snd] in Htotal. subst total. cbv beta iota.
  unfold FrequencyAnalyzer.normalizeFrequencies. rewrite H. reflexivity.
Qed.

(** The entries of a frequency table are percentages. *)
Lemma lookup0_percentage (text : string) (c : ascii) :
  0 <= FrequencyAnalyzer.lookup0 c (FrequencyAnalyzer.calculateFrequency text)
  <= 100.
Proof.
  pose proof (alphaCount_nonneg text) as HN.
  destruct (Z.eq_dec (Utils.alphaCount text) 0) as [E|E].
  - rewrite (calculateFrequency_no_letter text E). split; discriminate.
  - assert (Hpos : (0 < Utils.alphaCount text)%Z) by lia.
    rewrite (lookup0_calculateFrequency text c Hpos).
    pose proof (occurrences_nonneg c text) as H0.
    pose proof (occurrences_le_alphaCount c text) as H1.
    assert (HposQ : 0 < inject_Z (Utils.alphaCount text)).
    { change 0 with (inject_Z 0). rewrite <- Zlt_Qlt. exact Hpos. }
    split.
    + apply Qmult_le_0_compat; [|discriminate].
      apply Qle_shift_div_l; [exact HposQ|]. rewrite Qmult_0_l.
      change 0 with (inject_Z 0). rewrite <- Zle_Qle. exact H0.
    + setoid_replace 100 with (1 * 100) at 2 by reflexivity.
      apply Qmult_le_compat_r; [|discriminate].
      apply Qle_shift_div_r; [exact HposQ|]. rewrite Qmult_1_l.
      rewrite <- Zle_Qle. exact H1.
Qed.

Lemma square_le_10000 (d : Q) : -(100) <= d <= 100 -> d * d <= 10000.
Proof.
  intros H. apply Qabs_Qle_condition in H.
  assert (E : d * d == Qabs d * Qabs d).
  { rewrite <- Qabs_Qmult. symmetry. apply Qabs_pos, Qsquare_nonneg. }
  rewrite E. setoid_replace 10000 with (100 * 100) by reflexivity.
  apply Qmult_le_compat_nonneg; split; try apply Qabs_nonneg; exact H.
Qed.

Lemma chiSquaredTest_le_chiCap (observed expected : list (ascii * Q)) :
  (forall c, 0 <= FrequencyAnalyzer.lookup0 c observed <= 100) ->
  (forall c, FrequencyAnalyzer.lookup0 c expected <= 100) ->
  FrequencyAnalyzer.chiSquaredTest observed expected <= chiCap expected.
Proof.
  intros Hobs Hexp. unfold FrequencyAnalyzer.chiSquaredTest, chiCap.
  assert (G : forall l acc acc', acc <= acc' ->
    fold_left
      (fun chiSquared c =>
         let obs := FrequencyAnalyzer.lookup0 c observed in
         let exp := FrequencyAnalyzer.lookup0 c expected in
         if Qltb 0 exp
         then let diff := obs - exp in chiSquared + diff * diff / exp
         else chiSquared) l acc
    <= fold_left
         (fun acc c =>
            let exp := FrequencyAnalyzer.lookup0 c expected in
            if Qltb 0 exp then acc + 10000 / exp else acc) l acc').
  { induction l as [|c l IH]; intros acc acc' Hacc; [exact Hacc|].
    cbn [fold_left]. apply IH. cbv zeta.
    destruct (Qltb 0 (FrequencyAnalyzer.lookup0 c expected)) eqn:E;
      [|exact Hacc].
    apply Qltb_lt in E. apply Qplus_le_compat; [exact Hacc|].
    apply Qmult_le_compat_r; [|apply Qinv_le_0_compat, Qlt_le_weak, E].
    apply square_le_10000.
    specialize (Hobs c). specialize (Hexp c).
    set (o := FrequencyAnalyzer.lookup0 c observed) in *.
    set (e := FrequencyAnalyzer.lookup0 c expected) in *.
    destruct Hobs as [Ho1 Ho2]. split.
    - apply Qle_trans with (0 - 100); [discriminate|].
      unfold Qminus. apply Qplus_le_compat; [exact Ho1|].
      apply Qopp_le_compat, Hexp.
    - apply Qle_trans with (100 - 0); [|discriminate].
      unfold Qminus. apply Qplus_le_compat; [exact Ho2|].
      apply Qopp_le_compat, Qlt_le_weak, E. }
  apply G. apply Qle_refl.
Qed.

Lemma table_le_100 (table : list (ascii * Q)) :
  forallb (fun c => Qle_bool (FrequencyAnalyzer.lookup0 c table) 100)
    all_chars = true ->
  forall c, FrequencyAnalyzer.lookup0 c table <= 100.
Proof.
  intros H c. apply Qle_bool_iff. revert c. apply for_all_chars. exact H.
Qed.

(** The chi-squared distance of a text to a table of the program stays
    below the largest [double]. *)
Lemma chiSquaredTest_below_DBL_MAX (text language : string) :
  FrequencyAnalyzer.chiSquaredTest (FrequencyAnalyzer.calculateFrequency text)
    (FrequencyAnalyzer.getLanguageFrequencies language)
  < FrequencyAnalyzer.DBL_MAX.
Proof.
  apply Qle_lt_trans
    with (chiCap (FrequencyAnalyzer.getLanguageFrequencies language)).
  - apply chiSquaredTest_le_chiCap; [apply lookup0_percentage|].
    apply table_le_100. unfold FrequencyAnalyzer.getLanguageFrequencies.
    destruct (String.eqb language "english");
      [|destruct (String.eqb language "turkish")]; vm_compute; reflexivity.
  - unfold FrequencyAnalyzer.getLanguageFrequencies.
    destruct (String.eqb language "english");
      [|destruct (String.eqb language "turkish")]; vm_compute; reflexivity.
Qed.

(** X9.  [detectLanguage] never answers "unknown": it returns the one of the
    two tables, English and Turkish, that is closer to the text in
    chi-squared distance, English on a tie.  [LanguageDetector] returns the
    same language, with a confidence in (0, 1] computed from its
    distance. *)
Theorem detectLanguage_picks_closer_table :
  forall text : string,
    let distance language :=
      FrequencyAnalyzer.chiSquaredTest
        (FrequencyAnalyzer.calculateFrequency text)
        (FrequencyAnalyzer.getLanguageFrequencies language) in
    let language := FrequencyAnalyzer.detectLanguage text in
    language = (if Qltb (distance "turkish") (distance "english")
                then "turkish" else "english")%string /\
    In language FrequencyAnalyzer.getSupportedLanguages /\
    LanguageDetector.detectLanguage text
    = (language, 1 / (1 + distance language / 100)) /\
    0 < snd (LanguageDetector.detectLanguage text) <= 1.
Proof.
  intros text distance language.
  pose proof (chiSquaredTest_below_DBL_MAX text "english") as He.
  apply Qltb_lt in He.
  change (Qltb (distance "english") FrequencyAnalyzer.DBL_MAX = true) in He.
  assert (E : FrequencyAnalyzer.bestMatch
                (FrequencyAnalyzer.calculateFrequency text)
                FrequencyAnalyzer.languageFrequencies
              = if Qltb (distance "turkish") (distance "english")
                then (distance "turkish", "turkish"%string)
                else (distance "english", "english"%string)).
  { unfold FrequencyAnalyzer.bestMatch, FrequencyAnalyzer.languageFrequencies.
    cbn [fold_left fst snd].
    change (FrequencyAnalyzer.chiSquaredTest
              (FrequencyAnalyzer.calculateFrequency text)
              FrequencyAnalyzer.english) with (distance "english").
    change (FrequencyAnalyzer.chiSquaredTest
              (FrequencyAnalyzer.calculateFrequency text)
              FrequencyAnalyzer.turkish) with (distance "turkish").
    rewrite He. cbn [fst]. reflexivity. }
  assert (L : language = (if Qltb (distance "turkish") (distance "english")
                          then "turkish" else "english")%string).
  { unfold language, FrequencyAnalyzer.detectLanguage. rewrite E.
    destruct (Qltb (distance "turkish") (distance "english")); reflexivity. }
  assert (D : LanguageDetector.detectLanguage text
              = (language, 1 / (1 + distance language / 100))).
  { unfold LanguageDetector.detectLanguage.
    change LanguageDetector.languageProfiles
      with FrequencyAnalyzer.languageFrequencies.
    rewrite E, L.
    destruct (Qltb (distance "turkish") (distance "english")); reflexivity. }
  split; [exact L|]. split; [|split; [exact D|]].
  - rewrite L. destruct (Qltb (distance "turkish") (distance "english"));
      cbn; auto.
  - rewrite D. cbn [snd]. apply inverse_range.
    apply Qle_shift_div_l; [reflexivity|]. rewrite Qmult_0_l.
    apply chiSquaredTest_nonneg.
Qed.

Local Close Scope Q_scope.

(* ================================================================= *)
(** ** CipherBreaker: the confidence *)

Local Open Scope Q_scope.

Lemma updateConfidence_bounds (score maxScore : Q) :
  0 <= CipherBreaker.updateConfidence score maxScore <= 100.
Proof.
  unfold CipherBreaker.updateConfidence.
  destruct (Qltb 0 maxScore); [|split; discriminate].
  destruct (Qltb 100 (score / maxScore * 100)) eqn:E1.
  - cbn. split; discriminate.
  - apply Qltb_ge in E1.
    destruct (Qltb (score / maxScore * 100) 0) eqn:E2.
    + split; discriminate.
    + apply Qltb_ge in E2. split; assumption.
Qed.

(** X10.  [updateConfidence] always leaves a percentage: a value from 0 to 100;
    it is 0 when [maxScore] is not positive, and the exact percentage
    [score / maxScore * 100] when [score] lies between 0 and [maxScore]. *)
Theorem updateConfidence_percentage :
  forall score maxScore : Q,
    0 <= CipherBreaker.updateConfidence score maxScore <= 100 /\
    (maxScore <= 0 -> CipherBreaker.updateConfidence score maxScore = 0) /\
    (0 < maxScore -> 0 <= score <= maxScore ->
     CipherBreaker.updateConfidence score maxScore = score / maxScore * 100).
Proof.
  intros score maxScore. split; [apply updateConfidence_bounds|].
  unfold CipherBreaker.updateConfidence. split.
  - intros H. apply Qltb_ge in H. rewrite H. reflexivity.
  - intros Hm [H0 H1]. apply Qltb_lt in Hm as Hm'. rewrite Hm'.
    assert (R0 : 0 <= score / maxScore * 100).
    { apply Qmult_le_0_compat; [|discriminate].
      apply Qle_shift_div_l; [exact Hm|]. rewrite Qmult_0_l. exact H0. }
    assert (R1 : score / maxScore * 100 <= 100).
    { setoid_replace 100 with (1 * 100) at 2 by reflexivity.
      apply Qmult_le_compat_r; [|discriminate].
      apply Qle_shift_div_r; [exact Hm|]. rewrite Qmult_1_l. exact H1. }
    apply Qltb_ge in R0, R1. rewrite R1. cbv zeta. rewrite R0. reflexivity.
Qed.

Lemma updateConfidence_percentage_witness :
  0 < 1 /\ 0 <= 1 # 4 <= 1 /\
  CipherBreaker.updateConfidence (1 # 4) 1 = (1 # 4) / 1 * 100.
Proof.
  split; [reflexivity|]. split; [split; discriminate|].
  apply (updateConfidence_percentage (1 # 4) 1);
    [reflexivity | split; discriminate].
Defined.

Local Close Scope Q_scope.

(* ================================================================= *)
(** ** CaesarBreaker: shifts *)

Lemma letter_offset (c : ascii) :
  isalpha c = true ->
  0 <= int_of_char c - int_of_char (if isupper c then "A" else "a")%char <= 25.
Proof.
  intros H.
  assert (G : implb (isalpha c)
    ((0 <=? int_of_char c - int_of_char (if isupper c then "A" else "a")%char)
     && (int_of_char c - int_of_char (if isupper c then "A" else "a")%char
         <=? 25)) = true).
  { clear H. revert c. apply for_all_chars. vm_compute. reflexivity. }
  rewrite H in G. cbn [implb] in G. apply andb_prop in G. lia.
Qed.

(** Shifting by [s >= 0] is shifting by [s mod 26], as long as the sum
    with the place of the letter stays an [int]. *)
Lemma caesarShiftChar_mod (c : ascii) (s : Z) :
  0 <= s <= INT_MAX - 25 ->
  CaesarBreaker.caesarShiftChar c s
  = CaesarBreaker.caesarShiftChar c (s mod 26).
Proof.
  intros Hs. unfold CaesarBreaker.caesarShiftChar.
  destruct (isalpha c) eqn:Hc; [|reflexivity]. cbn [negb].
  pose proof (letter_offset c Hc) as Ho.
  set (o := int_of_char c - int_of_char (if isupper c then "A" else "a")%char)
    in *.
  pose proof (Z.mod_pos_bound s 26 ltac:(lia)) as Hm.
  rewrite !int32_small by (unfold INT_MAX in *; lia).
  rewrite !Z.rem_mod_nonneg by lia.
  rewrite Zplus_mod_idemp_r. reflexivity.
Qed.

Lemma int_of_char_of_int (z : Z) :
  0 <= z < 256 -> int_of_char (char_of_int z) = z.
Proof.
  intros H. unfold int_of_char, char_of_int.
  rewrite Z.mod_small by lia. rewrite N_ascii_embedding by lia. lia.
Qed.

Lemma letterIndex_inj (r r' : ascii) :
  isalpha r = true -> isupper r' = isupper r -> islower r' = islower r ->
  Spec.letterIndex r' = Spec.letterIndex r -> r' = r.
Proof.
  intros Ha Hu Hl Hi. apply int_of_char_inj.
  unfold Spec.letterIndex in Hi. rewrite Hu, Hl in Hi.
  unfold isalpha in Ha.
  destruct (isupper r); [apply Z.sub_cancel_r in Hi; exact Hi|].
  destruct (islower r); [apply Z.sub_cancel_r in Hi; exact Hi|].
  discriminate Ha.
Qed.

Lemma caesarShiftChar_add (c : ascii) (a b : Z) :
  0 <= a <= 26 -> 0 <= b <= 26 ->
  CaesarBreaker.caesarShiftChar (CaesarBreaker.caesarShiftChar c a) b
  = CaesarBreaker.caesarShiftChar c ((a + b) mod 26).
Proof.
  intros Ha Hb.
  pose proof (Z.mod_pos_bound (a + b) 26 ltac:(lia)) as Hm.
  pose proof (caesarShiftChar_spec c a Ha) as S1.
  pose proof (caesarShiftChar_spec (CaesarBreaker.caesarShiftChar c a) b Hb)
    as S2.
  pose proof (caesarShiftChar_spec c ((a + b) mod 26) ltac:(lia)) as S3.
  unfold shiftChar_ok in S1, S2, S3.
  rewrite (caesarShiftChar_isalpha c a Ha) in S2.
  destruct (isalpha c) eqn:Hc.
  - apply andb_prop in S1, S2, S3.
    destruct S1 as [S1 I1], S2 as [S2 I2], S3 as [S3 I3].
    apply andb_prop in S1, S2, S3.
    destruct S1 as [U1 L1], S2 as [U2 L2], S3 as [U3 L3].
    apply Bool.eqb_prop in U1, U2, U3, L1, L2, L3.
    apply Z.eqb_eq in I1, I2, I3.
    apply letterIndex_inj.
    + rewrite (caesarShiftChar_isalpha c ((a + b) mod 26)) by lia. exact Hc.
    + congruence.
    + congruence.
    + rewrite I2, I1, I3. rewrite Zplus_mod_idemp_l, Zplus_mod_idemp_r.
      f_equal. lia.
  - apply Ascii.eqb_eq in S1, S2, S3. congruence.
Qed.

Lemma caesarShift_char (f g : Z) (text : string) :
  (forall c, CaesarBreaker.caesarShiftChar c f
             = CaesarBreaker.caesarShiftChar c g) ->
  CaesarBreaker.caesarShift text f = CaesarBreaker.caesarShift text g.
Proof. intros H. unfold CaesarBreaker.caesarShift. apply string_map_ext, H. Qed.

(** X11.  Shifts by amounts that are not negative add up, as long as the
    [int] sum of the shift and of the place of a letter does not
    overflow: for [a + b <= INT_MAX - 25], shifting by [a] and then by [b]
    is shifting by [a + b]; a shift is the shift by its remainder modulo
    26, so that 26 more change nothing; and the shift by 0 changes
    nothing.  Past the bound the sum wraps around: the shifts by
    2147483621 and by 26 more turn B into Y and into a parenthesis. *)
Theorem caesarShift_composes :
  forall (text : string) (a b : Z),
    0 <= a -> 0 <= b -> a + b <= INT_MAX - 25 ->
    CaesarBreaker.caesarShift (CaesarBreaker.caesarShift text a) b
    = CaesarBreaker.caesarShift text (a + b) /\
    CaesarBreaker.caesarShift text a
    = CaesarBreaker.caesarShift text (a mod 26) /\
    CaesarBreaker.caesarShift text 0 = text /\
    CaesarBreaker.caesarShift "B" 2147483621 = "Y" /\
    CaesarBreaker.caesarShift "B" (2147483621 + 26) = ")".
Proof.
  intros text a b Ha Hb Hab.
  pose proof (Z.mod_pos_bound a 26 ltac:(lia)) as Hma.
  pose proof (Z.mod_pos_bound b 26 ltac:(lia)) as Hmb.
  split; [|split; [|split; [|split; reflexivity]]].
  - unfold CaesarBreaker.caesarShift. rewrite string_map_map.
    apply string_map_ext. intros c.
    rewrite (caesarShiftChar_mod c a) by lia.
    rewrite (caesarShiftChar_mod _ b) by lia.
    rewrite (caesarShiftChar_mod c (a + b)) by lia.
    rewrite caesarShiftChar_add by lia.
    rewrite <- Zplus_mod. reflexivity.
  - apply caesarShift_char. intros c. apply caesarShiftChar_mod. lia.
  - unfold CaesarBreaker.caesarShift. apply string_map_id. intros c.
    pose proof (caesarShiftChar_inverse c 26 ltac:(lia)) as H.
    change (26 - 26) with 0 in H.
    rewrite (caesarShiftChar_mod _ 26) in H by (unfold INT_MAX; lia).
    change (26 mod 26) with 0 in H.
    rewrite (caesarShiftChar_add c 0 0) in H by lia. exact H.
Qed.

Lemma caesarShift_composes_witness :
  0 <= 20 /\ 0 <= 9 /\ 20 + 9 <= INT_MAX - 25 /\
  CaesarBreaker.caesarShift (CaesarBreaker.caesarShift "Veni, vidi" 20) 9
  = CaesarBreaker.caesarShift "Veni, vidi" (20 + 9).
Proof.
  split; [lia|]. split; [lia|]. split; [unfold INT_MAX; lia|].
  apply (caesarShift_composes "Veni, vidi" 20 9); unfold INT_MAX; lia.
Defined.

(** X12.  With a negative shift the remainder of the C++ division is negative:
    a letter whose place in the alphabet, moved by [s], falls before A and
    not on a multiple of 26 leaves its case; a capital letter is then no
    letter at all.  So is every [encrypt] with a key above 26 plus the
    place of the letter. *)
Theorem caesarShift_negative_leaves_case :
  forall (c : ascii) (s : Z),
    isalpha c = true ->
    Spec.letterIndex c + s < 0 ->
    Z.rem (Spec.letterIndex c + s) 26 <> 0 ->
    let r := CaesarBreaker.caesarShiftChar c s in
    (isupper c = true -> isalpha r = false) /\
    (islower c = true -> islower r = false) /\
    r <> c.
Proof.
  intros c s Hc Hneg Hrem r.
  pose proof (letter_offset c Hc) as Ho.
  assert (Hidx : Spec.letterIndex c
                 = int_of_char c
                   - int_of_char (if isupper c then "A" else "a")%char).
  { unfold Spec.letterIndex. unfold isalpha in Hc.
    destruct (isupper c); [reflexivity|].
    destruct (islower c); [reflexivity | discriminate Hc]. }
  assert (Hb : -26 < Z.rem (Spec.letterIndex c + s) 26 <= 0).
  { pose proof (Z.rem_bound_abs (Spec.letterIndex c + s) 26 ltac:(lia)).
    pose proof (Z.rem_nonpos (Spec.letterIndex c + s) 26 ltac:(lia) ltac:(lia)).
    lia. }
  assert (Hr : int_of_char r
               = Z.rem (Spec.letterIndex c + s) 26
                 + int_of_char (if isupper c then "A" else "a")%char).
  { unfold r, CaesarBreaker.caesarShiftChar. rewrite Hc. cbn [negb].
    rewrite <- Hidx, int32_small by (unfold INT_MAX; lia).
    apply int_of_char_of_int.
    destruct (isupper c); [change (int_of_char "A") with 65
                          | change (int_of_char "a") with 97]; lia. }
  split; [|split].
  - intros Hu. rewrite Hu in Hr. change (int_of_char "A") with 65 in Hr.
    unfold isalpha, isupper, islower. rewrite Hr.
    apply orb_false_iff. split; apply andb_false_iff; lia.
  - intros Hl. unfold islower. rewrite Hr. apply andb_false_iff.
    destruct (isupper c); [change (int_of_char "A") with 65
                          | change (int_of_char "a") with 97]; lia.
  - intros E. rewrite E in Hr. lia.
Qed.

Lemma caesarShift_negative_leaves_case_witness :
  CaesarBreaker.encrypt "A" 27 = "@" /\
  isalpha (CaesarBreaker.caesarShiftChar "A" (26 - 27)) = false.
Proof.
  split; [reflexivity|].
  destruct (caesarShift_negative_leaves_case "A" (26 - 27))
    as [H _]; [reflexivity | reflexivity | discriminate |].
  apply H. reflexivity.
Defined.

(* ================================================================= *)
(** ** CaesarBreaker: scores and rankings *)

Local Open Scope Q_scope.

Lemma count_if_nonneg {A : Type} (p : A -> bool) (l : list A) :
  0 <= inject_Z (CaesarBreaker.count_if p l).
Proof.
  unfold CaesarBreaker.count_if. change 0 with (inject_Z 0).
  rewrite <- Zle_Qle. lia.
Qed.

Lemma normalizeText_empty (text : string) :
  Utils.normalizeText text = "" <-> Utils.alphaCount text = 0%Z.
Proof.
  rewrite <- normalizeText_size. unfold size.
  destruct (Utils.normalizeText text); cbn [String.length]; split;
    intros H; try reflexivity; try discriminate H; lia.
Qed.

Lemma findCommonBigrams_letters (text : string) (count : Z) :
  (Utils.alphaCount text = 0%Z ->
   FrequencyAnalyzer.findCommonBigrams text count = Fail out_of_range) /\
  ((0 < Utils.alphaCount text)%Z ->
   exists bigrams,
     FrequencyAnalyzer.findCommonBigrams text count = Ok bigrams).
Proof.
  pose proof (normalizeText_size text) as Hsize. unfold size in Hsize.
  unfold FrequencyAnalyzer.findCommonBigrams. split; intros H.
  - replace (String.length (Utils.normalizeText text)) with 0%nat by lia.
    reflexivity.
  - destruct (Nat.eqb_spec (String.length (Utils.normalizeText text)) 0)
      as [E|_]; [lia|].
    eexists. reflexivity.
Qed.

Lemma checkCommonPatterns_range (text : string) :
  (0 < Utils.alphaCount text)%Z ->
  exists patternScore,
    CaesarBreaker.checkCommonPatterns text = Ok patternScore /\
    0 <= patternScore <= 1.
Proof.
  intros H. unfold CaesarBreaker.checkCommonPatterns.
  destruct (proj2 (findCommonBigrams_letters text 10) H) as [bigrams ->].
  cbn [bind]. eexists. split; [reflexivity|]. split.
  - apply Q.min_glb; [discriminate|].
    apply Qle_trans with (0 + 0); [discriminate|].
    apply Qplus_le_compat.
    + apply Qle_shift_div_l; [reflexivity|]. rewrite Qmult_0_l.
      apply count_if_nonneg.
    + apply Qmult_le_0_compat; [|discriminate].
      apply Qle_shift_div_l; [reflexivity|]. rewrite Qmult_0_l.
      apply count_if_nonneg.
  - apply Q.le_min_l.
Qed.

Lemma calculateICScore_range (text : string) :
  0 <= CaesarBreaker.calculateICScore text <= 1.
Proof.
  unfold CaesarBreaker.calculateICScore. cbv zeta. split.
  - apply Q.le_max_l.
  - apply Q.max_lub; [discriminate|].
    set (d := Qabs _). assert (Hd : 0 <= d) by apply Qabs_nonneg.
    apply Qle_trans with (1 - 0); [|discriminate].
    unfold Qminus. apply Qplus_le_r, Qopp_le_compat.
    apply Qmult_le_0_compat; [exact Hd | discriminate].
Qed.

Lemma normalizeScore_range (score minVal maxVal : Q) :
  0 <= CaesarBreaker.normalizeScore score minVal maxVal <= 1.
Proof.
  unfold CaesarBreaker.normalizeScore.
  destruct (Qle_bool maxVal minVal); [split; discriminate|]. split.
  - apply Q.le_max_l.
  - apply Q.max_lub; [discriminate | apply Q.le_min_l].
Qed.

Lemma weighted_range (wa wb wc a b c : Q) :
  0 <= wa -> 0 <= wb -> 0 <= wc -> wa + wb + wc == 1 ->
  0 <= a <= 1 -> 0 <= b <= 1 -> 0 <= c <= 1 ->
  0 <= a * wa + b * wb + c * wc <= 1.
Proof.
  intros Hwa Hwb Hwc Hw [Ha0 Ha1] [Hb0 Hb1] [Hc0 Hc1]. split.
  - repeat (apply Qle_trans with (0 + 0); [discriminate|];
            apply Qplus_le_compat);
      try (apply Qmult_le_0_compat; assumption).
  - rewrite <- Hw. repeat apply Qplus_le_compat.
    + setoid_replace wa with (1 * wa) at 2 by ring.
      apply Qmult_le_compat_r; assumption.
    + setoid_replace wb with (1 * wb) at 2 by ring.
      apply Qmult_le_compat_r; assumption.
    + setoid_replace wc with (1 * wc) at 2 by ring.
      apply Qmult_le_compat_r; assumption.
Qed.

(** X13.  What [scoreText] returns: 0 for a text shorter than [minTextLength];
    for a longer one without any letter, the exception
    [std::out_of_range] of [findCommonBigrams]; otherwise a score from 0
    to 1. *)
Theorem scoreText_range :
  forall (self : CaesarBreaker.t) (text : string),
    ((size text < CaesarBreaker.minTextLength self)%Z ->
     CaesarBreaker.scoreText self text = Ok 0) /\
    ((CaesarBreaker.minTextLength self <= size text)%Z ->
     Utils.alphaCount text = 0%Z ->
     CaesarBreaker.scorePlaintext self text = Fail out_of_range) /\
    ((CaesarBreaker.minTextLength self <= size text)%Z ->
     (0 < Utils.alphaCount text)%Z ->
     exists score,
       CaesarBreaker.scorePlaintext self text = Ok score /\
       0 <= score <= 1).
Proof.
  intros self text.
  unfold CaesarBreaker.scorePlaintext, CaesarBreaker.scoreText.
  split; [|split].
  - intros H. apply Z.ltb_lt in H. rewrite H. reflexivity.
  - intros H Hn. apply Z.ltb_ge in H. rewrite H.
    unfold CaesarBreaker.checkCommonPatterns.
    rewrite (proj1 (findCommonBigrams_letters text 10) Hn). reflexivity.
  - intros H Hp. apply Z.ltb_ge in H. rewrite H.
    destruct (checkCommonPatterns_range text Hp) as [p [-> Hrange]].
    cbn [bind]. eexists. split; [reflexivity|]. cbv zeta.
    rewrite Qplus_0_l.
    apply weighted_range; try discriminate; try reflexivity;
      [apply normalizeScore_range | apply calculateICScore_range
       | exact Hrange].
Qed.

Lemma scoreText_range_witness :
  exists score,
    CaesarBreaker.scorePlaintext CaesarBreaker.new "to be or not to be, that is"
    = Ok score /\
    0 <= score <= 1.
Proof.
  destruct (scoreText_range CaesarBreaker.new "to be or not to be, that is")
    as [_ [_ H]].
  apply H; [vm_compute; discriminate | reflexivity].
Defined.

Local Close Scope Q_scope.

Lemma bind_bind {A B C : Type} (m : result A) (f : A -> result B)
  (g : B -> result C) :
  bind (bind m f) g = bind m (fun x => bind (f x) g).
Proof. destruct m; reflexivity. Qed.

(** Collecting the results of the tasks, whatever their number, is running
    through their ranges in order. *)
Lemma collect_tasks {A B C D : Type} (f : A -> result B) (g : D -> list A)
  (futures : list D) (k : list B -> result C) :
  bind (mapM (fun r => mapM f (g r)) futures)
    (fun collected => k (List.concat collected))
  = bind (mapM f (flat_map g futures)) k.
Proof.
  rewrite <- mapM_flat_map, bind_bind.
  destruct (mapM (fun r => mapM f (g r)) futures); reflexivity.
Qed.

(** [findPossibleKeys] on at least one thread is the sequential loop over
    the keys 0 to 25, followed by the ranking. *)
Lemma findPossibleKeys_sequential (hardware_concurrency : Z)
  (self : CaesarBreaker.t) (ciphertext : string) :
  1 <= hardware_concurrency ->
  CaesarBreaker.findPossibleKeys hardware_concurrency self ciphertext
  = bind
      (mapM (fun key =>
               score <- CaesarBreaker.scoreText self
                          (CaesarBreaker.caesarShift
                             (Utils.normalizeText ciphertext) key) ;;
               Ok (key, score))
         (range_incl 0 25))
      (fun keyScores =>
         let ranked :=
           std_sort (fun a b => Qltb (snd b) (snd a))
             (std_sort (fun a b => (fst a <? fst b)%Z) keyScores) in
         Ok (ranked,
             {| CaesarBreaker.confidence :=
                  CaesarBreaker.rankedConfidence ranked
                    (CaesarBreaker.confidence self);
                CaesarBreaker.targetLanguage :=
                  CaesarBreaker.targetLanguage self;
                CaesarBreaker.minTextLength :=
                  CaesarBreaker.minTextLength self;
                CaesarBreaker.lastAnalysis :=
                  fold_left (fun m r => assign Z.compare (fst r) (snd r) m)
                    keyScores (CaesarBreaker.lastAnalysis self) |})).
Proof.
  intros Hhc. unfold CaesarBreaker.findPossibleKeys.
  set (numThreads := Z.min 26 hardware_concurrency).
  assert (Hn : 1 <= numThreads <= 26) by (unfold numThreads; lia).
  destruct (Z.eqb_spec numThreads 0) as [E|_]; [lia|].
  rewrite <- (launch_covers_keys numThreads Hn).
  unfold CaesarBreaker.threadTask. cbv zeta.
  rewrite <- collect_tasks. reflexivity.
Qed.

Lemma findPossibleKeys_threads (hardware_concurrency : Z)
  (self : CaesarBreaker.t) (ciphertext : string) :
  1 <= hardware_concurrency ->
  CaesarBreaker.findPossibleKeys hardware_concurrency self ciphertext
  = CaesarBreaker.findPossibleKeys 1 self ciphertext.
Proof.
  intros Hhc. rewrite (findPossibleKeys_sequential _ self ciphertext Hhc).
  rewrite (findPossibleKeys_sequential 1 self ciphertext ltac:(lia)).
  reflexivity.
Qed.

(** X14.  The number of threads does not change any result of the Caesar
    breaker: with [hardware_concurrency() >= 1] every method returns what
    it returns on one thread.  With [hardware_concurrency() = 0], which the
    standard allows, [findPossibleKeys] divides by zero. *)
Theorem caesar_results_independent_of_threads :
  forall (self : CaesarBreaker.t) (ciphertext : string),
    (forall hardware_concurrency,
       1 <= hardware_concurrency ->
       CaesarBreaker.findPossibleKeys hardware_concurrency self ciphertext
       = CaesarBreaker.findPossibleKeys 1 self ciphertext /\
       CaesarBreaker.breakCipher hardware_concurrency self ciphertext
       = CaesarBreaker.breakCipher 1 self ciphertext /\
       CaesarBreaker.getPossibleSolutions hardware_concurrency self ciphertext
       = CaesarBreaker.getPossibleSolutions 1 self ciphertext /\
       CaesarBreaker.getDetailedAnalysis hardware_concurrency self ciphertext
       = CaesarBreaker.getDetailedAnalysis 1 self ciphertext) /\
    CaesarBreaker.findPossibleKeys 0 self ciphertext
    = Fail undefined_behaviour /\
    (CipherBreaker.validateInput ciphertext = true ->
     CaesarBreaker.breakCipher 0 self ciphertext = Fail undefined_behaviour).
Proof.
  intros self ciphertext. split; [|split].
  - intros hc Hhc.
    pose proof (findPossibleKeys_threads hc self ciphertext Hhc) as E.
    split; [exact E|].
    unfold CaesarBreaker.breakCipher, CaesarBreaker.findBestKey,
      CaesarBreaker.getPossibleSolutions, CaesarBreaker.getDetailedAnalysis.
    rewrite E. auto.
  - reflexivity.
  - intros Hv. unfold CaesarBreaker.breakCipher. rewrite Hv. reflexivity.
Qed.

Lemma caesar_results_independent_of_threads_witness :
  1 <= 8 /\
  CaesarBreaker.breakCipher 8 CaesarBreaker.new "Wkh txlfn eurzq ira"
  = CaesarBreaker.breakCipher 1 CaesarBreaker.new "Wkh txlfn eurzq ira".
Proof.
  split; [lia|].
  destruct (caesar_results_independent_of_threads CaesarBreaker.new
              "Wkh txlfn eurzq ira") as [H _].
  apply (H 8). lia.
Defined.

(** *** The solutions and the detailed analysis *)

Lemma validateInput_letters (ciphertext : string) :
  CipherBreaker.validateInput ciphertext = true ->
  0 < Utils.alphaCount ciphertext.
Proof.
  unfold CipherBreaker.validateInput, Utils.isValidInput.
  destruct ciphertext as [|c s]; [discriminate|].
  intros H. apply Z.leb_le in H. unfold size in H.
  cbn [String.length] in H. lia.
Qed.

(** The result of [findPossibleKeys], written out. *)
Lemma findPossibleKeys_result (hardware_concurrency : Z)
  (self : CaesarBreaker.t) (ciphertext : string) :
  1 <= hardware_concurrency ->
  0 < CaesarBreaker.minTextLength self
  \/ Utils.normalizeText ciphertext <> EmptyString ->
  let scored :=
    map (fun key => (key, keyScore self (Utils.normalizeText ciphertext) key))
      (range_incl 0 25) in
  let ranked :=
    std_sort (fun a b => Qltb (snd b) (snd a))
      (std_sort (fun a b => (fst a <? fst b)%Z) scored) in
  CaesarBreaker.findPossibleKeys hardware_concurrency self ciphertext
  = Ok (ranked,
        {| CaesarBreaker.confidence :=
             CaesarBreaker.rankedConfidence ranked
               (CaesarBreaker.confidence self);
           CaesarBreaker.targetLanguage := CaesarBreaker.targetLanguage self;
           CaesarBreaker.minTextLength := CaesarBreaker.minTextLength self;
           CaesarBreaker.lastAnalysis :=
             fold_left (fun m r => assign Z.compare (fst r) (snd r) m)
               scored (CaesarBreaker.lastAnalysis self) |}).
Proof.
  intros Hhc Hmin scored ranked.
  rewrite (findPossibleKeys_sequential _ self ciphertext Hhc).
  rewrite (mapM_total _
             (fun key => (key, keyScore self (Utils.normalizeText ciphertext)
                                 key))).
  - reflexivity.
  - intros key Hkey. apply range_incl_In in Hkey.
    rewrite (keyScore_run self _ key Hmin (normalizeText_letters _) Hkey).
    reflexivity.
Qed.

Lemma ranked_keys (self : CaesarBreaker.t) (nt : string) :
  let scored :=
    map (fun key => (key, keyScore self nt key)) (range_incl 0 25) in
  let ranked :=
    std_sort (fun a b => Qltb (snd b) (snd a))
      (std_sort (fun a b => (fst a <? fst b)%Z) scored) in
  Permutation (range_incl 0 25) (map fst ranked) /\
  forall k s, In (k, s) ranked -> s = keyScore self nt k.
Proof.
  intros scored ranked.
  assert (P : Permutation scored ranked).
  { etransitivity; [apply std_sort_perm|]. apply std_sort_perm. }
  split.
  - rewrite <- (Permutation_map fst P). unfold scored. rewrite map_map.
    cbn [fst]. rewrite map_id. reflexivity.
  - intros k s Hin. apply (Permutation_in _ (Permutation_sym P)) in Hin.
    unfold scored in Hin. apply in_map_iff in Hin.
    destruct Hin as [key [E _]]. injection E as -> <-. reflexivity.
Qed.

Lemma firstn_NoDup {A : Type} (n : nat) (l : list A) :
  NoDup l -> NoDup (firstn n l).
Proof.
  intros H. rewrite <- (firstn_skipn n l) in H.
  apply NoDup_app_remove_r in H. exact H.
Qed.

Lemma firstn_In {A : Type} (n : nat) (l : list A) (x : A) :
  In x (firstn n l) -> In x l.
Proof.
  intros H. rewrite <- (firstn_skipn n l). apply in_or_app. left. exact H.
Qed.

(** X15.  On a valid input [getPossibleSolutions] returns five solutions: the
    decryptions with five different keys from 0 to 25, the first of them
    the text [breakCipher] returns.  On an invalid input it returns
    none. *)
Theorem caesar_getPossibleSolutions :
  forall (hardware_concurrency : Z) (self : CaesarBreaker.t)
    (ciphertext : string),
    1 <= hardware_concurrency ->
    (CipherBreaker.validateInput ciphertext = false ->
     CaesarBreaker.getPossibleSolutions hardware_concurrency self ciphertext
     = Ok ([], self)) /\
    (CipherBreaker.validateInput ciphertext = true ->
     exists keys self',
       CaesarBreaker.getPossibleSolutions hardware_concurrency self ciphertext
       = Ok (map (CaesarBreaker.decrypt ciphertext) keys, self') /\
       List.length keys = 5%nat /\ NoDup keys /\
       Forall (fun key => 0 <= key <= 25) keys /\
       CaesarBreaker.breakCipher hardware_concurrency self ciphertext
       = Ok (CaesarBreaker.decrypt ciphertext (hd 0 keys), self')).
Proof.
  intros hc self ciphertext Hhc.
  unfold CaesarBreaker.getPossibleSolutions, CaesarBreaker.breakCipher,
    CaesarBreaker.findBestKey.
  split; intros Hv; rewrite Hv; cbn [negb]; [reflexivity|].
  assert (Hmin : 0 < CaesarBreaker.minTextLength self
                 \/ Utils.normalizeText ciphertext <> EmptyString).
  { right. intros E. apply normalizeText_empty in E.
    pose proof (validateInput_letters ciphertext Hv). lia. }
  rewrite (findPossibleKeys_result hc self ciphertext Hhc Hmin).
  destruct (ranked_keys self (Utils.normalizeText ciphertext)) as [P _].
  set (ranked := std_sort _ (std_sort _ _)) in *.
  assert (Hlen : List.length ranked = 26%nat).
  { rewrite <- (length_map fst), <- (Permutation_length P). reflexivity. }
  assert (Hnd : NoDup (map fst ranked)).
  { apply (Permutation_NoDup P), range_incl_NoDup. }
  cbn [bind]. rewrite Hlen. change (Z.to_nat (Z.min 5 (Z.of_nat 26))) with 5%nat.
  exists (map fst (firstn 5 ranked)). eexists.
  split; [rewrite map_map; reflexivity|].
  split; [rewrite length_map, length_firstn, Hlen; reflexivity|].
  split; [rewrite <- firstn_map; apply firstn_NoDup, Hnd|].
  split.
  - apply Forall_forall. intros key Hkey. rewrite <- firstn_map in Hkey.
    apply firstn_In in Hkey.
    apply (Permutation_in _ (Permutation_sym P)) in Hkey.
    apply range_incl_In in Hkey. exact Hkey.
  - destruct ranked as [|[key score] rest]; [discriminate Hlen|].
    reflexivity.
Qed.

Lemma caesar_getPossibleSolutions_witness :
  exists keys self',
    CaesarBreaker.getPossibleSolutions 4 CaesarBreaker.new "Khoor, zruog"
    = Ok (map (CaesarBreaker.decrypt "Khoor, zruog") keys, self') /\
    List.length keys = 5%nat.
Proof.
  destruct (caesar_getPossibleSolutions 4 CaesarBreaker.new "Khoor, zruog")
    as [_ H]; [lia|].
  destruct (H eq_refl) as [keys [self' [E [L _]]]].
  exists keys, self'. split; assumption.
Defined.

(** A loop of assignments with distinct keys leaves each of them with its
    value, and the other keys as they were. *)
Lemma assign_loop_find (l : list (Z * Q)) :
  NoDup (map fst l) ->
  forall m : list (Z * Q),
    let m' := fold_left (fun m r => assign Z.compare (fst r) (snd r) m) l m in
    (forall k v, In (k, v) l -> find Z.compare k m' = Some v) /\
    (forall k, ~ In k (map fst l) ->
               find Z.compare k m' = find Z.compare k m).
Proof.
  induction l as [|[k0 v0] l IH]; intros Hnd m; cbn [fold_left fst snd].
  - split; [intros k v []|reflexivity].
  - cbn [map fst] in Hnd. apply NoDup_cons_iff in Hnd.
    destruct Hnd as [Hk0 Hnd].
    destruct (IH Hnd (assign Z.compare k0 v0 m)) as [IH1 IH2]. split.
    + intros k v [E|Hin]; [|apply IH1, Hin]. injection E as -> ->.
      rewrite (IH2 k Hk0).
      apply (find_assign_same Z.compare id Z_cmp_code id_inj).
    + intros k Hk. cbn [map fst] in Hk.
      rewrite IH2 by (intros Hin; apply Hk; right; exact Hin).
      apply (find_assign_other Z.compare id Z_cmp_code id_inj).
      intros E. apply Hk. left. symmetry. exact E.
Qed.

(** X16.  [getDetailedAnalysis] returns the map [lastAnalysis] with, for every
    key from 0 to 25, the score of the text shifted by that key; what the
    map held for other keys stays. *)
Theorem caesar_getDetailedAnalysis :
  forall (hardware_concurrency : Z) (self : CaesarBreaker.t)
    (ciphertext : string),
    1 <= hardware_concurrency ->
    0 < CaesarBreaker.minTextLength self
    \/ Utils.normalizeText ciphertext <> EmptyString ->
    exists analysis self',
      CaesarBreaker.getDetailedAnalysis hardware_concurrency self ciphertext
      = Ok (analysis, self') /\
      CaesarBreaker.lastAnalysis self' = analysis /\
      (forall key, 0 <= key <= 25 ->
         exists score,
           CaesarBreaker.scoreText self
             (CaesarBreaker.caesarShift (Utils.normalizeText ciphertext) key)
           = Ok score /\
           find Z.compare key analysis = Some score) /\
      (forall key, ~ 0 <= key <= 25 ->
         find Z.compare key analysis
         = find Z.compare key (CaesarBreaker.lastAnalysis self)).
Proof.
  intros hc self ciphertext Hhc Hmin. unfold CaesarBreaker.getDetailedAnalysis.
  rewrite (findPossibleKeys_result hc self ciphertext Hhc Hmin).
  cbn [bind CaesarBreaker.lastAnalysis]. eexists. eexists.
  split; [reflexivity|]. split; [reflexivity|].
  set (nt := Utils.normalizeText ciphertext) in *.
  set (scored := map (fun key => (key, keyScore self nt key))
                   (range_incl 0 25)).
  assert (Hkeys : map fst scored = range_incl 0 25).
  { unfold scored. rewrite map_map. cbn [fst]. apply map_id. }
  destruct (assign_loop_find scored
              ltac:(rewrite Hkeys; apply range_incl_NoDup)
              (CaesarBreaker.lastAnalysis self)) as [F1 F2].
  split.
  - intros key Hkey. exists (keyScore self nt key). split.
    + apply (keyScore_run self nt key Hmin (normalizeText_letters _) Hkey).
    + apply F1. unfold scored. apply in_map_iff. exists key.
      split; [reflexivity | apply range_incl_In, Hkey].
  - intros key Hkey. apply F2. rewrite Hkeys, range_incl_In. exact Hkey.
Qed.

Lemma caesar_getDetailedAnalysis_witness :
  exists analysis self',
    CaesarBreaker.getDetailedAnalysis 2 CaesarBreaker.new "Khoor"
    = Ok (analysis, self') /\
    CaesarBreaker.lastAnalysis self' = analysis.
Proof.
  destruct (caesar_getDetailedAnalysis 2 CaesarBreaker.new "Khoor")
    as [analysis [self' [E [L _]]]]; [lia | left; reflexivity |].
  exists analysis, self'. split; assumption.
Defined.

(* ================================================================= *)
(** ** SubstitutionBreaker: the score of a plaintext *)

Local Open Scope Q_scope.

Lemma find_value_In {K V : Type} (cmp : K -> K -> comparison) (k : K) (v : V)
  (m : list (K * V)) :
  find cmp k m = Some v -> In v (map snd m).
Proof.
  induction m as [|[k0 v0] m IH]; [discriminate|].
  cbn [find map snd]. destruct (cmp k k0).
  - intros [= <-]. left. reflexivity.
  - intros H. right. apply IH, H.
  - intros H. right. apply IH, H.
Qed.

(** The average over the windows lies between 0 and the largest entry of
    the table. *)
Lemma ngramAverage_range (table : list (string * Q)) (top : Q)
  (grams : list string) :
  0 <= top ->
  (forall v, In v (map snd table) -> 0 <= v <= top) ->
  0 <= SubstitutionBreaker.ngramAverage table grams <= top.
Proof.
  intros Htop Htable. unfold SubstitutionBreaker.ngramAverage.
  assert (G : forall grams score total,
    (0 <= total)%Z -> 0 <= score <= inject_Z total * top ->
    let r :=
      fold_left
        (fun acc gram =>
           let '(score, total) := acc in
           match find String.compare gram table with
           | Some f => (score + f, (total + 1)%Z)
           | None => (score, (total + 1)%Z)
           end)
        grams (score, total) in
    (0 <= snd r)%Z /\ 0 <= fst r <= inject_Z (snd r) * top).
  { clear grams. induction grams as [|gram grams IH];
      intros score total Ht Hs; [split; assumption|].
    cbn [fold_left].
    assert (Hstep : inject_Z (total + 1) * top == inject_Z total * top + top).
    { rewrite inject_Z_plus. change (inject_Z 1) with 1. ring. }
    destruct (find String.compare gram table) as [f|] eqn:E.
    - apply IH; [lia|]. apply find_value_In in E. apply Htable in E.
      rewrite Hstep. split.
      + apply Qle_trans with (0 + 0); [discriminate|].
        apply Qplus_le_compat; [apply Hs | apply E].
      + apply Qplus_le_compat; [apply Hs | apply E].
    - apply IH; [lia|]. rewrite Hstep. split; [apply Hs|].
      apply Qle_trans with (inject_Z total * top + 0).
      + rewrite Qplus_0_r. apply Hs.
      + apply Qplus_le_r, Htop. }
  specialize (G grams 0 0%Z (Z.le_refl 0)).
  destruct (fold_left _ grams (0, 0%Z)) as [score total].
  destruct G as [Ht [Hs0 Hs1]];
    [split; [apply Qle_refl | rewrite Qmult_0_l; apply Qle_refl]|].
  cbn [fst snd] in *.
  destruct (Z.ltb_spec 0 total) as [Hpos|_]; [|split; [apply Qle_refl|exact Htop]].
  assert (HposQ : 0 < inject_Z total).
  { change 0 with (inject_Z 0). rewrite <- Zlt_Qlt. exact Hpos. }
  split.
  - apply Qle_shift_div_l; [exact HposQ|]. rewrite Qmult_0_l. exact Hs0.
  - apply Qle_shift_div_r; [exact HposQ|]. rewrite Qmult_comm. exact Hs1.
Qed.

Lemma table_range (table : list (string * Q)) (top : Q) :
  forallb (fun v => Qle_bool 0 v && Qle_bool v top) (map snd table) = true ->
  forall v, In v (map snd table) -> 0 <= v <= top.
Proof.
  intros H v Hv. rewrite forallb_forall in H. specialize (H v Hv).
  apply andb_prop in H. destruct H as [H0 H1].
  apply Qle_bool_iff in H0, H1. split; assumption.
Qed.

Lemma calculateWordScore_range (text : string) :
  0 <= SubstitutionBreaker.calculateWordScore text <= 1.
Proof.
  unfold SubstitutionBreaker.calculateWordScore.
  assert (G : forall words foundWords totalWords,
    (0 <= foundWords <= totalWords)%Z ->
    let r :=
      fold_left
        (fun acc word =>
           let '(foundWords, totalWords) := acc in
           let normalizedWord := Utils.normalizeText word in
           if (3 <=? String.length normalizedWord)%nat
           then if existsb (String.eqb normalizedWord)
                     SubstitutionBreaker.commonWords
                then ((foundWords + 1)%Z, (totalWords + 1)%Z)
                else (foundWords, (totalWords + 1)%Z)
           else (foundWords, totalWords))
        words (foundWords, totalWords) in
    (0 <= fst r <= snd r)%Z).
  { induction words as [|word words IH]; intros found total H; [exact H|].
    cbn [fold_left]. cbv zeta.
    destruct (3 <=? String.length (Utils.normalizeText word))%nat;
      [|apply IH, H].
    destruct (existsb _ _); apply IH; lia. }
  specialize (G (Utils.split text " "%char) 0%Z 0%Z ltac:(lia)).
  destruct (fold_left _ _ (0%Z, 0%Z)) as [found total].
  cbn [fst snd] in G.
  destruct (Z.ltb_spec 0 total) as [Hpos|_]; [|split; discriminate].
  assert (HposQ : 0 < inject_Z total).
  { change 0 with (inject_Z 0). rewrite <- Zlt_Qlt. exact Hpos. }
  split.
  - apply Qle_shift_div_l; [exact HposQ|]. rewrite Qmult_0_l.
    change 0 with (inject_Z 0). rewrite <- Zle_Qle. lia.
  - apply Qle_shift_div_r; [exact HposQ|]. rewrite Qmult_1_l.
    rewrite <- Zle_Qle. lia.
Qed.

Lemma substitution_scorePlaintext_cases (text : string) :
  ((Utils.alphaCount text < 2)%Z ->
   SubstitutionBreaker.scorePlaintext text = Fail out_of_range) /\
  ((2 <= Utils.alphaCount text)%Z ->
   exists score,
     SubstitutionBreaker.scorePlaintext text = Ok score /\
     0 < score <= 0.51175).
Proof.
  pose proof (normalizeText_size text) as Hsize. unfold size in Hsize.
  unfold SubstitutionBreaker.scorePlaintext,
    SubstitutionBreaker.calculateBigramScore,
    SubstitutionBreaker.calculateTrigramScore.
  split; intros H.
  - destruct (Nat.ltb_spec (String.length (Utils.normalizeText text)) 1);
      [reflexivity|].
    cbn [bind].
    destruct (Nat.ltb_spec (String.length (Utils.normalizeText text)) 2);
      [reflexivity | lia].
  - destruct (Nat.ltb_spec (String.length (Utils.normalizeText text)) 1);
      [lia|].
    destruct (Nat.ltb_spec (String.length (Utils.normalizeText text)) 2);
      [lia|].
    cbn [bind]. eexists. split; [reflexivity|].
    unfold SubstitutionBreaker.calculateCombinedScore.
    pose proof (scoreEnglishness_bounds text) as [F0 F1].
    assert (B : forallb (fun v => Qle_bool 0 v && Qle_bool v 0.0271)
                  (map snd SubstitutionBreaker.bigramFreq) = true)
      by (vm_compute; reflexivity).
    assert (T : forallb (fun v => Qle_bool 0 v && Qle_bool v 0.0181)
                  (map snd SubstitutionBreaker.trigramFreq) = true)
      by (vm_compute; reflexivity).
    assert (B' : 0 <= 0.0271) by discriminate.
    assert (T' : 0 <= 0.0181) by discriminate.
    pose proof (ngramAverage_range SubstitutionBreaker.bigramFreq 0.0271
                  (FrequencyAnalyzer.windows 2 (Utils.normalizeText text))
                  B' (table_range _ _ B)) as [B0 B1].
    pose proof (ngramAverage_range SubstitutionBreaker.trigramFreq 0.0181
                  (FrequencyAnalyzer.windows 3 (Utils.normalizeText text))
                  T' (table_range _ _ T)) as [T0 T1].
    clear B T B' T'.
    pose proof (calculateWordScore_range text) as [W0 W1].
    revert F0 F1 B0 B1 T0 T1 W0 W1.
    generalize (FrequencyAnalyzer.scoreEnglishness text) as f.
    generalize (SubstitutionBreaker.ngramAverage SubstitutionBreaker.bigramFreq
                  (FrequencyAnalyzer.windows 2 (Utils.normalizeText text)))
      as b.
    generalize (SubstitutionBreaker.ngramAverage
                  SubstitutionBreaker.trigramFreq
                  (FrequencyAnalyzer.windows 3 (Utils.normalizeText text)))
      as t.
    generalize (SubstitutionBreaker.calculateWordScore text) as w.
    intros w t b f F0 F1 B0 B1 T0 T1 W0 W1.
    split.
    + apply Qlt_le_trans with (f * 0.3 + 0 + 0 + 0).
      * rewrite !Qplus_0_r. apply Qmult_lt_0_compat; [exact F0|reflexivity].
      * repeat apply Qplus_le_compat; try apply Qle_refl;
          apply Qmult_le_0_compat; try assumption; discriminate.
    + setoid_replace 0.51175
        with (1 * 0.3 + 0.0271 * 0.3 + 0.0181 * 0.2 + 1 * 0.2) by reflexivity.
      repeat apply Qplus_le_compat;
        apply Qmult_le_compat_r; try assumption; discriminate.
Qed.

(** X17.  [scorePlaintext] throws [std::out_of_range] on a text of fewer than two
    letters.  On any other text it returns a score above 0 and at most
    0.51175: the bigram and trigram averages cannot exceed the largest
    entries of their tables, 0.0271 and 0.0181. *)
Theorem substitution_scorePlaintext_range :
  forall text : string,
    ((Utils.alphaCount text < 2)%Z ->
     SubstitutionBreaker.scorePlaintext text = Fail out_of_range) /\
    ((2 <= Utils.alphaCount text)%Z ->
     exists score,
       SubstitutionBreaker.scorePlaintext text = Ok score /\
       0 < score <= 0.51175).
Proof. exact substitution_scorePlaintext_cases. Qed.

Lemma substitution_scorePlaintext_range_witness :
  exists score,
    SubstitutionBreaker.scorePlaintext "the end" = Ok score /\
    0 < score <= 0.51175.
Proof.
  apply (substitution_scorePlaintext_range "the end"). vm_compute. discriminate.
Defined.

Local Close Scope Q_scope.

(* ================================================================= *)
(** ** SubstitutionBreaker: mappings *)

(** What a permutation holds for a key. *)
Lemma permutation_find (m : SubstitutionBreaker.Mapping) (k : ascii) :
  Spec.isPermutation m ->
  (In k alphabet ->
   exists v, find Ascii.compare k m = Some v /\ In v alphabet) /\
  (~ In k alphabet -> find Ascii.compare k m = None).
Proof.
  intros [Hkeys Hvalues]. split.
  - intros Hk. rewrite <- Hkeys in Hk.
    destruct (find Ascii.compare k m) as [v|] eqn:E.
    + exists v. split; [reflexivity|].
      apply (Permutation_in _ Hvalues). apply (find_value_In _ _ _ _ E).
    + apply (find_None_keys Ascii.compare int_of_char ascii_cmp_code
               int_of_char_inj) in E. contradiction.
  - intros Hk. rewrite <- Hkeys in Hk.
    apply (find_None_keys Ascii.compare int_of_char ascii_cmp_code
             int_of_char_inj). exact Hk.
Qed.

Lemma NoDup_values_inj {K V : Type} (m : list (K * V)) (k1 k2 : K) (v : V) :
  NoDup (map snd m) -> In (k1, v) m -> In (k2, v) m -> k1 = k2.
Proof.
  induction m as [|[k0 v0] m IH]; intros Hnd H1 H2; [contradiction|].
  cbn [map snd] in Hnd. apply NoDup_cons_iff in Hnd.
  destruct Hnd as [Hv0 Hnd].
  destruct H1 as [E1|H1], H2 as [E2|H2].
  - congruence.
  - injection E1 as -> ->. exfalso. apply Hv0.
    apply (in_map snd) in H2. exact H2.
  - injection E2 as -> ->. exfalso. apply Hv0.
    apply (in_map snd) in H1. exact H1.
  - apply IH; assumption.
Qed.

(** A permutation sends different letters to different letters. *)
Lemma permutation_find_inj (m : SubstitutionBreaker.Mapping) (k1 k2 v : ascii) :
  Spec.isPermutation m ->
  find Ascii.compare k1 m = Some v -> find Ascii.compare k2 m = Some v ->
  k1 = k2.
Proof.
  intros [Hkeys Hvalues] H1 H2.
  apply (find_In Ascii.compare int_of_char ascii_cmp_code int_of_char_inj)
    in H1, H2.
  apply (NoDup_values_inj m k1 k2 v); try assumption.
  apply (Permutation_NoDup (Permutation_sym Hvalues)), alphabet_NoDup.
Qed.

Lemma letter_cases (c : ascii) :
  (isupper c = true -> islower c = false /\ toupper c = c
                       /\ isupper (tolower c) = false
                       /\ islower (tolower c) = true
                       /\ toupper (tolower c) = c) /\
  (islower c = true -> isupper c = false /\ tolower c = c
                       /\ isupper (toupper c) = true
                       /\ tolower (toupper c) = c).
Proof.
  assert (G : implb (isupper c)
                (negb (islower c) && Ascii.eqb (toupper c) c
                 && negb (isupper (tolower c)) && islower (tolower c)
                 && Ascii.eqb (toupper (tolower c)) c)
              && implb (islower c)
                   (negb (isupper c) && Ascii.eqb (tolower c) c
                    && isupper (toupper c)
                    && Ascii.eqb (tolower (toupper c)) c) = true).
  { revert c. apply for_all_chars. vm_compute. reflexivity. }
  apply andb_prop in G. destruct G as [G1 G2]. split; intros H.
  - rewrite H in G1. cbn [implb] in G1.
    repeat (apply andb_prop in G1; destruct G1 as [G1 ?]).
    repeat match goal with
           | E : negb _ = true |- _ => apply negb_true_iff in E
           | E : Ascii.eqb _ _ = true |- _ => apply Ascii.eqb_eq in E
           end.
    auto.
  - rewrite H in G2. cbn [implb] in G2.
    repeat (apply andb_prop in G2; destruct G2 as [G2 ?]).
    repeat match goal with
           | E : negb _ = true |- _ => apply negb_true_iff in E
           | E : Ascii.eqb _ _ = true |- _ => apply Ascii.eqb_eq in E
           end.
    auto.
Qed.

(** What [applyMapping] does to one character under a permutation. *)
Lemma applyMapping_char (m : SubstitutionBreaker.Mapping) (c : ascii) :
  Spec.isPermutation m ->
  let r := if isalpha c
           then match find Ascii.compare (toupper c) m with
                | Some mapped => if isupper c then mapped else tolower mapped
                | None => c
                end
           else c in
  (isalpha c = false -> r = c) /\
  isupper r = isupper c /\ islower r = islower c /\
  (isalpha c = true ->
   find Ascii.compare (toupper c) m = Some (toupper r)).
Proof.
  intros Hm r. unfold r. clear r.
  destruct (isalpha c) eqn:Hc; [|repeat split; try reflexivity; discriminate].
  destruct (proj1 (permutation_find m (toupper c) Hm)) as [v [-> Hv]].
  { apply isupper_In_alphabet, isalpha_toupper_isupper, Hc. }
  apply isupper_In_alphabet in Hv.
  destruct (proj1 (letter_cases v) Hv) as [V1 [V2 [V3 [V4 V5]]]].
  split; [discriminate|].
  destruct (isupper c) eqn:Hu.
  - destruct (proj1 (letter_cases c) Hu) as [C1 _].
    rewrite Hv, V1, C1, V2. auto.
  - assert (Hl : islower c = true).
    { unfold isalpha in Hc. rewrite Hu in Hc. exact Hc. }
    rewrite V3, V4, Hl, V5. auto.
Qed.

Lemma applyMapping_length (text : string) (m : SubstitutionBreaker.Mapping) :
  String.length (SubstitutionBreaker.applyMapping text m) = String.length text.
Proof. apply string_map_length. Qed.

Lemma applyMapping_alphaCount (text : string)
  (m : SubstitutionBreaker.Mapping) :
  Spec.isPermutation m ->
  Utils.alphaCount (SubstitutionBreaker.applyMapping text m)
  = Utils.alphaCount text.
Proof.
  intros Hm. unfold SubstitutionBreaker.applyMapping.
  induction text as [|c text IH]; [reflexivity|].
  cbn [string_map Utils.alphaCount]. rewrite IH. f_equal.
  destruct (applyMapping_char m c Hm) as [_ [Hu [Hl _]]].
  unfold isalpha at 1. rewrite Hu, Hl. reflexivity.
Qed.

Lemma applyMapping_char_inj (m : SubstitutionBreaker.Mapping) (c1 c2 : ascii) :
  Spec.isPermutation m ->
  (if isalpha c1
   then match find Ascii.compare (toupper c1) m with
        | Some mapped => if isupper c1 then mapped else tolower mapped
        | None => c1
        end
   else c1)
  = (if isalpha c2
     then match find Ascii.compare (toupper c2) m with
          | Some mapped => if isupper c2 then mapped else tolower mapped
          | None => c2
          end
     else c2) ->
  c1 = c2.
Proof.
  intros Hm E.
  destruct (applyMapping_char m c1 Hm) as [N1 [U1 [L1 F1]]].
  destruct (applyMapping_char m c2 Hm) as [N2 [U2 [L2 F2]]].
  cbv zeta in *. rewrite E in N1, U1, L1, F1.
  set (r := if isalpha c2 then _ else c2) in *. clearbody r. clear E.
  assert (Hu : isupper c1 = isupper c2) by congruence.
  assert (Hl : islower c1 = islower c2) by congruence.
  destruct (isalpha c1) eqn:H1.
  - assert (H2 : isalpha c2 = true).
    { unfold isalpha in *. rewrite <- Hu, <- Hl. exact H1. }
    pose proof (permutation_find_inj m _ _ _ Hm (F1 eq_refl) (F2 H2)) as T.
    unfold isalpha in H1. destruct (isupper c1) eqn:Hu1.
    + destruct (proj1 (letter_cases c1) Hu1) as [_ [E1 _]].
      destruct (proj1 (letter_cases c2) (eq_sym Hu)) as [_ [E2 _]].
      congruence.
    + cbn [orb] in H1.
      destruct (proj2 (letter_cases c1) H1) as [_ [_ [_ E1]]].
      destruct (proj2 (letter_cases c2) ltac:(congruence)) as [_ [_ [_ E2]]].
      congruence.
  - assert (H2 : isalpha c2 = false).
    { unfold isalpha in *. rewrite <- Hu, <- Hl. exact H1. }
    rewrite <- (N1 eq_refl), <- (N2 H2). reflexivity.
Qed.

(** X18.  Decrypting with a permutation loses nothing: the text keeps its length,
    its letters stay letters of the same case and every other character
    stays itself, and two different texts give two different results. *)
Theorem applyMapping_permutation :
  forall (m : SubstitutionBreaker.Mapping) (text : string),
    Spec.isPermutation m ->
    String.length (SubstitutionBreaker.applyMapping text m)
    = String.length text /\
    (forall i c, String.get i text = Some c ->
       exists r,
         String.get i (SubstitutionBreaker.applyMapping text m) = Some r /\
         (isalpha c = false -> r = c) /\
         isupper r = isupper c /\ islower r = islower c) /\
    (forall text',
       SubstitutionBreaker.applyMapping text' m
       = SubstitutionBreaker.applyMapping text m ->
       text' = text).
Proof.
  intros m text Hm. split; [apply applyMapping_length|]. split.
  - intros i c Hc. unfold SubstitutionBreaker.applyMapping.
    rewrite string_map_get, Hc. cbn [option_map]. eexists.
    split; [reflexivity|].
    destruct (applyMapping_char m c Hm) as [N [U [L _]]]. auto.
  - unfold SubstitutionBreaker.applyMapping.
    induction text as [|c text IH]; intros [|c' text'] E;
      try discriminate E; [reflexivity|].
    cbn [string_map] in E. injection E as E1 E2.
    rewrite (applyMapping_char_inj m c' c Hm E1), (IH text' E2). reflexivity.
Qed.

Lemma applyMapping_permutation_witness :
  Spec.isPermutation
    (SubstitutionBreaker.generateMapping (SubstitutionBreaker.new []) "abba") /\
  String.length
    (SubstitutionBreaker.applyMapping "Abba!"
       (SubstitutionBreaker.generateMapping (SubstitutionBreaker.new [])
          "abba"))
  = 5%nat.
Proof.
  split; [apply generateMapping_permutation|].
  apply (applyMapping_permutation _ "Abba!"). apply generateMapping_permutation.
Defined.

(** Two maps with the same keys, each once, and the same value for every
    key are the same map. *)
Lemma mapping_ext (m1 m2 : SubstitutionBreaker.Mapping) :
  map fst m1 = map fst m2 -> NoDup (map fst m1) ->
  (forall k, In k (map fst m1) ->
             find Ascii.compare k m1 = find Ascii.compare k m2) ->
  m1 = m2.
Proof.
  revert m2. induction m1 as [|[k1 v1] m1 IH]; intros [|[k2 v2] m2] Hk Hnd H;
    try discriminate Hk; [reflexivity|].
  cbn [map fst] in Hk, Hnd. injection Hk as -> Hk.
  apply NoDup_cons_iff in Hnd. destruct Hnd as [Hnot Hnd].
  pose proof (H k2 (or_introl eq_refl)) as H0.
  rewrite !(find_cons_same Ascii.compare int_of_char ascii_cmp_code
              int_of_char_inj) in H0.
  injection H0 as ->. f_equal. apply IH; [exact Hk | exact Hnd|].
  intros k Hin. specialize (H k (or_intror Hin)).
  assert (Hne : k <> k2) by (intros ->; contradiction).
  rewrite !(find_cons_other Ascii.compare int_of_char ascii_cmp_code
              int_of_char_inj) in H by exact Hne.
  exact H.
Qed.

(** Writing the values of two keys of a permutation crosswise. *)
Lemma exchange_values (m : SubstitutionBreaker.Mapping) (a b va vb : ascii) :
  Spec.isPermutation m ->
  find Ascii.compare a m = Some va -> find Ascii.compare b m = Some vb ->
  let m' := assign Ascii.compare b va (assign Ascii.compare a vb m) in
  Spec.isPermutation m' /\
  find Ascii.compare a m' = Some (if Ascii.eqb a b then va else vb) /\
  find Ascii.compare b m' = Some va /\
  (forall k, k <> a -> k <> b ->
             find Ascii.compare k m' = find Ascii.compare k m).
Proof.
  intros Hm Ha Hb m'.
  assert (Hm' := Hm). destruct Hm' as [Hkeys Hvalues].
  pose proof (alphabet_sorted m Hkeys) as Hs.
  assert (Ka : In a alphabet).
  { rewrite <- Hkeys.
    apply (find_In Ascii.compare int_of_char ascii_cmp_code int_of_char_inj)
      in Ha. apply (in_map fst) in Ha. exact Ha. }
  assert (Kb : In b alphabet).
  { rewrite <- Hkeys.
    apply (find_In Ascii.compare int_of_char ascii_cmp_code int_of_char_inj)
      in Hb. apply (in_map fst) in Hb. exact Hb. }
  set (m1 := assign Ascii.compare a vb m) in *.
  assert (Hk1 : map fst m1 = alphabet).
  { unfold m1. rewrite assign_keys_existing; [exact Hkeys | exact Hs|].
    rewrite Hkeys. exact Ka. }
  assert (Hk2 : map fst m' = alphabet).
  { unfold m'.
    rewrite assign_keys_existing; [exact Hk1 | apply alphabet_sorted, Hk1|].
    rewrite Hk1. exact Kb. }
  assert (Fa : find Ascii.compare a m'
               = Some (if Ascii.eqb a b then va else vb)).
  { unfold m'. destruct (Ascii.eqb_spec a b) as [->|Hab].
    - apply (find_assign_same Ascii.compare int_of_char ascii_cmp_code
               int_of_char_inj).
    - rewrite (find_assign_other Ascii.compare int_of_char ascii_cmp_code
                 int_of_char_inj) by exact Hab.
      apply (find_assign_same Ascii.compare int_of_char ascii_cmp_code
               int_of_char_inj). }
  assert (Fb : find Ascii.compare b m' = Some va).
  { apply (find_assign_same Ascii.compare int_of_char ascii_cmp_code
             int_of_char_inj). }
  assert (Fk : forall k, k <> a -> k <> b ->
                         find Ascii.compare k m' = find Ascii.compare k m).
  { intros k Hka Hkb. unfold m', m1.
    rewrite !(find_assign_other Ascii.compare int_of_char ascii_cmp_code
                int_of_char_inj) by assumption.
    reflexivity. }
  split; [|auto]. split; [exact Hk2|].
  assert (Hnd2 : NoDup (map fst m')) by (rewrite Hk2; apply alphabet_NoDup).
  assert (Hnd : NoDup (map fst m)) by (rewrite Hkeys; apply alphabet_NoDup).
  rewrite (values_by_keys m' Hnd2), Hk2.
  apply Permutation_trans with (map snd m); [|exact Hvalues].
  rewrite (values_by_keys m Hnd), Hkeys.
  rewrite <- (Permutation_map (SubstitutionBreaker.at_ m)
                (transposition_perm a b alphabet alphabet_NoDup Ka Kb)).
  rewrite map_map. erewrite map_ext; [reflexivity|]. intros k.
  unfold SubstitutionBreaker.at_.
  destruct (Ascii.eqb_spec k a) as [->|Hka].
  - rewrite Fa, Hb. destruct (Ascii.eqb_spec a b) as [->|_]; congruence.
  - destruct (Ascii.eqb_spec k b) as [->|Hkb].
    + rewrite Fb, Ha. reflexivity.
    + rewrite (Fk k Hka Hkb). reflexivity.
Qed.

Lemma swapCharacters_missing (m : SubstitutionBreaker.Mapping)
  (char1 char2 : ascii) :
  find Ascii.compare char1 m = None \/ find Ascii.compare char2 m = None ->
  SubstitutionBreaker.swapCharacters m char1 char2 = m.
Proof.
  unfold SubstitutionBreaker.swapCharacters. intros [H|H]; rewrite H;
    [reflexivity|].
  destruct (find Ascii.compare char1 m); reflexivity.
Qed.

(** X19.  [swapCharacters] exchanges the plain letters of two cipher letters and
    keeps a permutation a permutation; swapping the same two again gives
    the mapping back.  When one of the two characters is no key, nothing
    changes. *)
Theorem swapCharacters_exchanges :
  forall (m : SubstitutionBreaker.Mapping) (char1 char2 : ascii),
    Spec.isPermutation m ->
    let m' := SubstitutionBreaker.swapCharacters m char1 char2 in
    Spec.isPermutation m' /\
    (In char1 alphabet -> In char2 alphabet ->
     find Ascii.compare char1 m' = find Ascii.compare char2 m /\
     find Ascii.compare char2 m' = find Ascii.compare char1 m) /\
    (forall k, k <> char1 -> k <> char2 ->
               find Ascii.compare k m' = find Ascii.compare k m) /\
    (~ In char1 alphabet \/ ~ In char2 alphabet -> m' = m) /\
    SubstitutionBreaker.swapCharacters m' char1 char2 = m.
Proof.
  intros m a b Hm m'.
  assert (Hmiss : ~ In a alphabet \/ ~ In b alphabet ->
                  SubstitutionBreaker.swapCharacters m a b = m).
  { intros [K|K]; apply swapCharacters_missing; [left|right];
      apply (proj2 (permutation_find m _ Hm) K). }
  destruct (in_dec ascii_dec a alphabet) as [Ka|Ka].
  2:{ unfold m'. rewrite !(Hmiss (or_introl Ka)).
      split; [exact Hm|]. split; [contradiction|]. auto. }
  destruct (in_dec ascii_dec b alphabet) as [Kb|Kb].
  2:{ unfold m'. rewrite !(Hmiss (or_intror Kb)).
      split; [exact Hm|]. split; [contradiction|]. auto. }
  clear Hmiss. unfold m', SubstitutionBreaker.swapCharacters.
  destruct (proj1 (permutation_find m a Hm) Ka) as [va [Ha _]].
  destruct (proj1 (permutation_find m b Hm) Kb) as [vb [Hb _]].
  rewrite Ha, Hb.
  destruct (exchange_values m a b va vb Hm Ha Hb) as [P [Fa [Fb Fk]]].
  set (m1 := assign Ascii.compare b va (assign Ascii.compare a vb m)) in *.
  assert (Fa' : find Ascii.compare a m1 = Some vb).
  { rewrite Fa. destruct (Ascii.eqb_spec a b) as [->|_]; congruence. }
  split; [exact P|]. split; [intros _ _; split; congruence|].
  split; [exact Fk|]. split; [tauto|].
  rewrite Fa', Fb.
  destruct (exchange_values m1 a b vb va P Fa' Fb) as [P2 [Ga [Gb Gk]]].
  apply mapping_ext.
  - rewrite (proj1 P2), (proj1 Hm). reflexivity.
  - rewrite (proj1 P2). apply alphabet_NoDup.
  - intros k _. destruct (Ascii.eqb_spec k b) as [->|Hkb].
    + rewrite Gb, Hb. reflexivity.
    + destruct (Ascii.eqb_spec k a) as [->|Hka].
      * rewrite Ga, Ha. destruct (Ascii.eqb_spec a b); congruence.
      * rewrite (Gk k Hka Hkb). apply Fk; assumption.
Qed.

Lemma swapCharacters_exchanges_witness :
  let m := SubstitutionBreaker.generateMapping (SubstitutionBreaker.new [])
             "abba" in
  Spec.isPermutation m /\
  SubstitutionBreaker.swapCharacters
    (SubstitutionBreaker.swapCharacters m "A" "B") "A" "B" = m.
Proof.
  split; [apply generateMapping_permutation|].
  apply (swapCharacters_exchanges _ "A"%char "B"%char).
  apply generateMapping_permutation.
Defined.

(* ================================================================= *)
(** ** SubstitutionBreaker: breaking *)

Local Open Scope Q_scope.

(** With a permutation the decrypted text has the letters of the
    ciphertext, so its score exists exactly when the ciphertext has two
    letters. *)
Lemma scoreMapping_cases (m : SubstitutionBreaker.Mapping)
  (ciphertext : string) :
  Spec.isPermutation m ->
  ((Utils.alphaCount ciphertext < 2)%Z ->
   SubstitutionBreaker.scoreMapping m ciphertext = Fail out_of_range) /\
  ((2 <= Utils.alphaCount ciphertext)%Z ->
   exists score,
     SubstitutionBreaker.scoreMapping m ciphertext = Ok score /\
     0 < score <= 0.51175).
Proof.
  intros Hm. unfold SubstitutionBreaker.scoreMapping. cbv zeta.
  rewrite <- (applyMapping_alphaCount ciphertext m Hm).
  apply substitution_scorePlaintext_cases.
Qed.

Lemma findCommonBigrams_one_letter (text : string) (count : Z) :
  Utils.alphaCount text = 1%Z ->
  FrequencyAnalyzer.findCommonBigrams text count = Ok [].
Proof.
  intros H. pose proof (normalizeText_size text) as Hsize.
  unfold size in Hsize. unfold FrequencyAnalyzer.findCommonBigrams.
  set (nt := Utils.normalizeText text) in *.
  destruct (Nat.eqb_spec (String.length nt) 0) as [E|_]; [lia|].
  assert (W : FrequencyAnalyzer.windows 2 nt = []).
  { unfold FrequencyAnalyzer.windows.
    replace (String.length nt + 1 - 2)%nat with 0%nat by lia. reflexivity. }
  rewrite W. cbn [fold_left map std_sort List.length].
  destruct ((0 <=? count)%Z && (count <? Z.of_nat 0)%Z);
    [rewrite firstn_nil|]; reflexivity.
Qed.

Lemma alphaCount_normalizeText (text : string) :
  Utils.alphaCount (Utils.normalizeText text) = Utils.alphaCount text.
Proof.
  rewrite <- (normalizeText_size (Utils.normalizeText text)).
  rewrite normalizeText_fixed by apply normalizeText_upper.
  apply normalizeText_size.
Qed.

(** X20.  A valid input with a single letter, such as "A" or "a1", makes
    [breakCipher] and [getPossibleSolutions] throw [std::out_of_range],
    whatever the optimization method: the trigram score of the decrypted
    text cannot be computed. *)
Theorem substitution_breakCipher_one_letter :
  forall (std_exp : Q -> Q) (std_pow : Q -> Q -> Q)
    (uniform_real : list nat -> result (Q * list nat))
    (self : SubstitutionBreaker.t) (ciphertext : string),
    CipherBreaker.validateInput ciphertext = true ->
    (Utils.alphaCount ciphertext < 2)%Z ->
    SubstitutionBreaker.breakCipher std_exp std_pow uniform_real self
      ciphertext
    = Fail out_of_range /\
    SubstitutionBreaker.getPossibleSolutions self ciphertext
    = Fail out_of_range.
Proof.
  intros std_exp std_pow uniform_real self ciphertext Hv Hone.
  pose proof (validateInput_letters ciphertext Hv) as Hpos.
  assert (Hscore : forall self',
    SubstitutionBreaker.scoreMapping
      (SubstitutionBreaker.generateMapping self' ciphertext) ciphertext
    = Fail out_of_range).
  { intros self'.
    apply (scoreMapping_cases _ ciphertext
             (generateMapping_permutation self' ciphertext)), Hone. }
  assert (Hclimb : forall self' self'' n,
    SubstitutionBreaker.hillClimbOptimization self''
      (SubstitutionBreaker.generateMapping self' ciphertext) ciphertext n
    = Fail out_of_range).
  { intros self' self'' n.
    unfold SubstitutionBreaker.hillClimbOptimization,
      SubstitutionBreaker.hillClimbStart.
    rewrite Hscore. reflexivity. }
  assert (Hbigrams : forall self',
    SubstitutionBreaker.improveMappingWithBigrams
      (SubstitutionBreaker.generateMapping self' ciphertext) ciphertext
    = Ok (SubstitutionBreaker.generateMapping self' ciphertext)).
  { intros self'. unfold SubstitutionBreaker.improveMappingWithBigrams.
    rewrite findCommonBigrams_one_letter; [reflexivity|].
    rewrite alphaCount_normalizeText. lia. }
  split.
  - unfold SubstitutionBreaker.breakCipher. rewrite Hv. cbn [negb].
    set (self0 := SubstitutionBreaker.set_optimizationHistory self []).
    destruct (String.eqb (SubstitutionBreaker.optimizationMethod self0)
                "frequency").
    { cbn [bind]. rewrite Hscore. reflexivity. }
    destruct (String.eqb (SubstitutionBreaker.optimizationMethod self0)
                "hill_climbing").
    { rewrite Hclimb. reflexivity. }
    destruct (String.eqb (SubstitutionBreaker.optimizationMethod self0)
                "simulated_annealing").
    { unfold SubstitutionBreaker.simulatedAnnealing. rewrite Hscore.
      reflexivity. }
    rewrite Hbigrams. cbn [bind]. rewrite Hclimb. reflexivity.
  - unfold SubstitutionBreaker.getPossibleSolutions. rewrite Hv. cbn [negb].
    rewrite Hbigrams. cbn [bind]. rewrite Hclimb. reflexivity.
Qed.

Lemma substitution_breakCipher_one_letter_witness :
  SubstitutionBreaker.breakCipher (fun _ => 1) (fun _ _ => 1)
    (fun _ => Fail rng_exhausted) (SubstitutionBreaker.new []) "A"
  = Fail out_of_range.
Proof.
  apply (substitution_breakCipher_one_letter (fun _ => 1) (fun _ _ => 1)
           (fun _ => Fail rng_exhausted) (SubstitutionBreaker.new []) "A");
    reflexivity.
Defined.

Local Close Scope Q_scope.

(* ================================================================= *)
(** ** SubstitutionBreaker: the seed and the optimizers *)

(** X21.  The seed of every search is a permutation, whatever the ciphertext and
    the target language; for a language the analyzer has no table of, it
    is the identity, and [breakByFrequency] returns the ciphertext. *)
Theorem seed_mapping_is_permutation :
  forall (self : SubstitutionBreaker.t) (ciphertext : string),
    Spec.isPermutation (SubstitutionBreaker.generateMapping self ciphertext) /\
    String.length (SubstitutionBreaker.breakByFrequency self ciphertext)
    = String.length ciphertext /\
    (FrequencyAnalyzer.getLanguageFrequencies
       (SubstitutionBreaker.targetLanguage self) = [] ->
     SubstitutionBreaker.generateMapping self ciphertext
     = map (fun c => (c, c)) alphabet /\
     SubstitutionBreaker.breakByFrequency self ciphertext = ciphertext).
Proof.
  intros self ciphertext.
  split; [apply generateMapping_permutation|].
  split; [apply applyMapping_length|].
  intros Hlang.
  assert (E : SubstitutionBreaker.generateMapping self ciphertext
              = map (fun c => (c, c)) alphabet).
  { unfold SubstitutionBreaker.generateMapping. rewrite Hlang.
    cbn [std_sort fold_left]. rewrite combine_nil. cbn [fold_left].
    vm_compute. reflexivity. }
  split; [exact E|].
  unfold SubstitutionBreaker.breakByFrequency. rewrite E.
  unfold SubstitutionBreaker.applyMapping. apply string_map_id. intros c.
  destruct (isalpha c) eqn:Hc; [|reflexivity].
  assert (F : forall u, isupper u = true ->
    find Ascii.compare u (map (fun c => (c, c)) alphabet) = Some u).
  { intros u Hu. apply isupper_In_alphabet in Hu.
    apply (In_find Ascii.compare int_of_char ascii_cmp_code int_of_char_inj).
    - rewrite map_map. cbn [fst]. rewrite map_id. apply alphabet_NoDup.
    - apply in_map_iff. exists u. auto. }
  rewrite (F _ (isalpha_toupper_isupper c Hc)).
  destruct (isupper c) eqn:Hu.
  - apply (letter_cases c), Hu.
  - apply (letter_cases c). unfold isalpha in Hc. rewrite Hu in Hc. exact Hc.
Qed.

Lemma seed_mapping_is_permutation_witness :
  SubstitutionBreaker.breakByFrequency
    {| SubstitutionBreaker.confidence := 0;
       SubstitutionBreaker.targetLanguage := "german";
       SubstitutionBreaker.optimizationMethod := "hybrid";
       SubstitutionBreaker.maxIterations := 1000;
       SubstitutionBreaker.rng := [];
       SubstitutionBreaker.optimizationHistory := [] |}
    "Hello"
  = "Hello".
Proof.
  destruct (seed_mapping_is_permutation
              {| SubstitutionBreaker.confidence := 0;
                 SubstitutionBreaker.targetLanguage := "german";
                 SubstitutionBreaker.optimizationMethod := "hybrid";
                 SubstitutionBreaker.maxIterations := 1000;
                 SubstitutionBreaker.rng := [];
                 SubstitutionBreaker.optimizationHistory := [] |}
              "Hello") as [_ [_ H]].
  destruct H as [_ H]; [reflexivity | exact H].
Defined.

Local Open Scope Q_scope.

(** The loop keeps the score of the current mapping. *)
(** X22.  Hill climbing started from a permutation returns a permutation, and
    one that scores at least as well as the initial mapping. *)
Theorem hillClimbOptimization_result :
  forall (self self' : SubstitutionBreaker.t)
    (initialMapping mapping : SubstitutionBreaker.Mapping)
    (ciphertext : string) (maxIterations : Z),
    Spec.isPermutation initialMapping ->
    SubstitutionBreaker.hillClimbOptimization self initialMapping ciphertext
      maxIterations
    = Ok (mapping, self') ->
    Spec.isPermutation mapping /\
    exists initialScore score,
      SubstitutionBreaker.scoreMapping initialMapping ciphertext
      = Ok initialScore /\
      SubstitutionBreaker.scoreMapping mapping ciphertext = Ok score /\
      initialScore <= score.
Proof.
  intros self self' initialMapping mapping ciphertext maxIterations Hp H.
  unfold SubstitutionBreaker.hillClimbOptimization,
    SubstitutionBreaker.hillClimbStart in H.
  destruct (SubstitutionBreaker.scoreMapping initialMapping ciphertext)
    as [initialScore|e] eqn:E0; [|discriminate H].
  cbn [bind] in H.
  destruct (SubstitutionBreaker.hillClimbLoop _ _ _) as [s|e] eqn:E;
    [|discriminate H].
  cbn [bind] in H. injection H as <- <-.
  split.
  - apply (hillClimbLoop_permutation _ _ _ _ E). exact Hp.
  - exists initialScore, (SubstitutionBreaker.currentScore s).
    split; [reflexivity|]. split.
    + apply (hillClimbLoop_scored _ _ _ _ E). exact E0.
    + apply (hillClimbLoop_monotone _ _ _ _ E).
Qed.

Lemma hillClimbOptimization_result_witness :
  exists mapping self',
    SubstitutionBreaker.hillClimbOptimization
      (SubstitutionBreaker.new [7; 3; 11; 5]%nat)
      (SubstitutionBreaker.generateMapping (SubstitutionBreaker.new []) "XXXY")
      "XXXY" 2
    = Ok (mapping, self') /\
    Spec.isPermutation mapping.
Proof.
  assert (E : exists mapping self',
    SubstitutionBreaker.hillClimbOptimization
      (SubstitutionBreaker.new [7; 3; 11; 5]%nat)
      (SubstitutionBreaker.generateMapping (SubstitutionBreaker.new []) "XXXY")
      "XXXY" 2
    = Ok (mapping, self')).
  { eexists. eexists. vm_compute. reflexivity. }
  destruct E as [mapping [self' E]]. exists mapping, self'.
  split; [exact E|].
  apply (hillClimbOptimization_result _ _ _ _ _ _
           (generateMapping_permutation _ _) E).
Defined.

Local Close Scope Q_scope.

Local Open Scope Q_scope.

Lemma foldM_invariant {A S : Type} (f : S -> A -> result S) (I : S -> Prop)
  (l : list A) :
  (forall s x s', f s x = Ok s' -> I s -> I s') ->
  forall s s', foldM f l s = Ok s' -> I s -> I s'.
Proof.
  intros Hstep. induction l as [|x l IH]; intros s s' H Hs; cbn [foldM] in H.
  - injection H as <-. exact Hs.
  - destruct (f s x) as [s1|e] eqn:E; [|discriminate H].
    cbn [bind] in H. apply (IH s1 s' H). apply (Hstep s x s1 E Hs).
Qed.

(** One pass of simulated annealing keeps the two mappings permutations and
    the best one with its score, which does not go down. *)
Lemma annealStep_invariant (std_exp : Q -> Q)
  (uniform_real : list nat -> result (Q * list nat))
  (ciphertext : string) (coolingRate floor : Q)
  (s s' : SubstitutionBreaker.anneal) (iteration : Z) :
  SubstitutionBreaker.annealStep std_exp uniform_real ciphertext coolingRate
    s iteration
  = Ok s' ->
  Spec.isPermutation (SubstitutionBreaker.a_currentMapping s) /\
  Spec.isPermutation (SubstitutionBreaker.a_bestMapping s) /\
  SubstitutionBreaker.scoreMapping (SubstitutionBreaker.a_bestMapping s)
    ciphertext
  = Ok (SubstitutionBreaker.a_bestScore s) /\
  floor <= SubstitutionBreaker.a_bestScore s ->
  Spec.isPermutation (SubstitutionBreaker.a_currentMapping s') /\
  Spec.isPermutation (SubstitutionBreaker.a_bestMapping s') /\
  SubstitutionBreaker.scoreMapping (SubstitutionBreaker.a_bestMapping s')
    ciphertext
  = Ok (SubstitutionBreaker.a_bestScore s') /\
  floor <= SubstitutionBreaker.a_bestScore s'.
Proof.
  intros H [Pc [Pb [Sb Fb]]]. unfold SubstitutionBreaker.annealStep in H.
  destruct (SubstitutionBreaker.generateNeighborMapping _ _)
    as [[neighborMapping self]|e] eqn:En; [|discriminate H].
  cbn [bind] in H.
  pose proof (generateNeighborMapping_permutation _ _ _ _ Pc En) as Pn.
  destruct (SubstitutionBreaker.scoreMapping neighborMapping ciphertext)
    as [neighborScore|e] eqn:Es; [|discriminate H].
  cbn [bind] in H. cbv zeta in H.
  match type of H with
  | bind ?acc _ = _ => destruct acc as [[accept self1]|e]; [|discriminate H]
  end.
  cbn [bind] in H. destruct accept.
  - injection H as <-. cbn [SubstitutionBreaker.a_currentMapping
      SubstitutionBreaker.a_bestMapping SubstitutionBreaker.a_bestScore].
    split; [exact Pn|].
    destruct (Qltb (SubstitutionBreaker.a_bestScore s) neighborScore) eqn:E.
    + split; [exact Pn|]. split; [exact Es|].
      apply Qltb_lt in E. apply Qle_trans with (SubstitutionBreaker.a_bestScore s);
        [exact Fb | apply Qlt_le_weak, E].
    + auto.
  - injection H as <-. cbn [SubstitutionBreaker.a_currentMapping
      SubstitutionBreaker.a_bestMapping SubstitutionBreaker.a_bestScore].
    auto.
Qed.

(** X23.  Simulated annealing started from a permutation returns a permutation,
    and one that scores at least as well as the initial mapping, however
    the worse moves were accepted on the way. *)
Theorem simulatedAnnealing_result :
  forall (std_exp : Q -> Q) (std_pow : Q -> Q -> Q)
    (uniform_real : list nat -> result (Q * list nat))
    (self self' : SubstitutionBreaker.t)
    (initialMapping mapping : SubstitutionBreaker.Mapping)
    (ciphertext : string) (maxIterations : Z) (initialTemperature : Q),
    Spec.isPermutation initialMapping ->
    SubstitutionBreaker.simulatedAnnealing std_exp std_pow uniform_real self
      initialMapping ciphertext maxIterations initialTemperature
    = Ok (mapping, self') ->
    Spec.isPermutation mapping /\
    exists initialScore score,
      SubstitutionBreaker.scoreMapping initialMapping ciphertext
      = Ok initialScore /\
      SubstitutionBreaker.scoreMapping mapping ciphertext = Ok score /\
      initialScore <= score.
Proof.
  intros std_exp std_pow uniform_real self self' initialMapping mapping
    ciphertext maxIterations initialTemperature Hp H.
  unfold SubstitutionBreaker.simulatedAnnealing in H.
  destruct (SubstitutionBreaker.scoreMapping initialMapping ciphertext)
    as [initialScore|e] eqn:E0; [|discriminate H].
  cbn [bind] in H. cbv zeta in H.
  match type of H with
  | bind (foldM ?f ?l ?s0) _ = _ =>
      destruct (foldM f l s0) as [s|e] eqn:E; [|discriminate H];
      pose proof (foldM_invariant f
        (fun s =>
           Spec.isPermutation (SubstitutionBreaker.a_currentMapping s) /\
           Spec.isPermutation (SubstitutionBreaker.a_bestMapping s) /\
           SubstitutionBreaker.scoreMapping
             (SubstitutionBreaker.a_bestMapping s) ciphertext
           = Ok (SubstitutionBreaker.a_bestScore s) /\
           initialScore <= SubstitutionBreaker.a_bestScore s)
        l
        (fun s x s' => annealStep_invariant std_exp uniform_real ciphertext
                         _ initialScore s s' x)
        s0 s E) as Inv
  end.
  cbn [bind] in H. injection H as <- <-.
  destruct Inv as [_ [Pb [Sb Fb]]].
  { cbn [SubstitutionBreaker.a_currentMapping SubstitutionBreaker.a_bestMapping
      SubstitutionBreaker.a_bestScore].
    split; [exact Hp|]. split; [exact Hp|]. split; [exact E0|].
    apply Qle_refl. }
  split; [exact Pb|]. exists initialScore, (SubstitutionBreaker.a_bestScore s).
  auto.
Qed.

Lemma simulatedAnnealing_result_witness :
  exists mapping self',
    SubstitutionBreaker.simulatedAnnealing (fun _ => 1) (fun _ _ => 1)
      (fun tape => Ok (1 # 2, tape))
      (SubstitutionBreaker.new [7; 3; 11; 5]%nat)
      (SubstitutionBreaker.generateMapping (SubstitutionBreaker.new []) "XXXY")
      "XXXY" 2 100
    = Ok (mapping, self') /\
    Spec.isPermutation mapping.
Proof.
  assert (E : exists mapping self',
    SubstitutionBreaker.simulatedAnnealing (fun _ => 1) (fun _ _ => 1)
      (fun tape => Ok (1 # 2, tape))
      (SubstitutionBreaker.new [7; 3; 11; 5]%nat)
      (SubstitutionBreaker.generateMapping (SubstitutionBreaker.new []) "XXXY")
      "XXXY" 2 100
    = Ok (mapping, self')).
  { eexists. eexists. vm_compute. reflexivity. }
  destruct E as [mapping [self' E]]. exists mapping, self'.
  split; [exact E|].
  apply (simulatedAnnealing_result _ _ _ _ _ _ _ _ _ _
           (generateMapping_permutation _ _) E).
Defined.

Local Close Scope Q_scope.

Local Open Scope Q_scope.

Lemma updateConfidence_exact (score : Q) :
  0 <= score <= 1 ->
  CipherBreaker.updateConfidence score 1 = score / 1 * 100.
Proof.
  intros [H0 H1]. unfold CipherBreaker.updateConfidence.
  change (Qltb 0 1) with true. cbv iota.
  assert (R0 : 0 <= score / 1 * 100).
  { apply Qmult_le_0_compat; [|discriminate].
    apply Qle_shift_div_l; [reflexivity|]. rewrite Qmult_0_l. exact H0. }
  assert (R1 : score / 1 * 100 <= 100).
  { setoid_replace 100 with (1 * 100) at 2 by reflexivity.
    apply Qmult_le_compat_r; [|discriminate].
    apply Qle_shift_div_r; [reflexivity|]. rewrite Qmult_1_l. exact H1. }
  apply Qltb_ge in R0, R1. rewrite R1. cbv zeta. rewrite R0. reflexivity.
Qed.

(** X24.  What [breakCipher] returns on a valid input, when it returns: the
    ciphertext decrypted with the mapping found, of the length of the
    ciphertext, and a confidence that is 100 times the score of that
    mapping.  The confidence is positive and never above 51.175. *)
Theorem substitution_breakCipher_result :
  forall (std_exp : Q -> Q) (std_pow : Q -> Q -> Q)
    (uniform_real : list nat -> result (Q * list nat))
    (self self' : SubstitutionBreaker.t) (ciphertext result : string),
    CipherBreaker.validateInput ciphertext = true ->
    SubstitutionBreaker.breakCipher std_exp std_pow uniform_real self
      ciphertext
    = Ok (result, self') ->
    String.length result = String.length ciphertext /\
    exists mapping score,
      result = SubstitutionBreaker.applyMapping ciphertext mapping /\
      SubstitutionBreaker.scoreMapping mapping ciphertext = Ok score /\
      SubstitutionBreaker.getConfidence self' = score / 1 * 100 /\
      0 < SubstitutionBreaker.getConfidence self' <= 51.175.
Proof.
  intros std_exp std_pow uniform_real self self' ciphertext result Hv H.
  unfold SubstitutionBreaker.breakCipher in H. rewrite Hv in H.
  cbn [negb] in H. cbv zeta in H.
  match type of H with
  | bind ?search _ = _ =>
      destruct search as [[mapping self1]|e]; [|discriminate H]
  end.
  cbn [bind] in H.
  destruct (SubstitutionBreaker.scoreMapping mapping ciphertext)
    as [score|e] eqn:Es; [|discriminate H].
  cbn [bind] in H. injection H as <- <-.
  split; [apply applyMapping_length|].
  exists mapping, score. split; [reflexivity|]. split; [exact Es|].
  assert (Hrange : 0 < score <= 0.51175).
  { unfold SubstitutionBreaker.scoreMapping in Es. cbv zeta in Es.
    destruct (substitution_scorePlaintext_cases
                (SubstitutionBreaker.applyMapping ciphertext mapping))
      as [C1 C2].
    destruct (Z_lt_le_dec
                (Utils.alphaCount
                   (SubstitutionBreaker.applyMapping ciphertext mapping)) 2)
      as [Hlt|Hge].
    - rewrite (C1 Hlt) in Es. discriminate Es.
    - destruct (C2 Hge) as [score' [E' R]]. rewrite E' in Es.
      injection Es as <-. exact R. }
  unfold SubstitutionBreaker.getConfidence, SubstitutionBreaker.set_confidence.
  cbn [SubstitutionBreaker.confidence].
  rewrite updateConfidence_exact.
  - split; [reflexivity|]. destruct Hrange as [R0 R1]. split.
    + apply Qmult_lt_0_compat; [|reflexivity].
      apply Qlt_shift_div_l; [reflexivity|]. rewrite Qmult_0_l. exact R0.
    + setoid_replace 51.175 with (0.51175 * 100) by reflexivity.
      apply Qmult_le_compat_r; [|discriminate].
      apply Qle_shift_div_r; [reflexivity|]. rewrite Qmult_1_r. exact R1.
  - destruct Hrange as [R0 R1]. split; [apply Qlt_le_weak, R0|].
    apply Qle_trans with 0.51175; [exact R1 | discriminate].
Qed.

Lemma substitution_breakCipher_result_witness :
  exists result self',
    SubstitutionBreaker.breakCipher (fun _ => 1) (fun _ _ => 1)
      (fun tape => Ok (1 # 2, tape))
      (SubstitutionBreaker.setOptimizationMethod (SubstitutionBreaker.new [])
         "frequency")
      "XXXY"
    = Ok (result, self') /\
    0 < SubstitutionBreaker.getConfidence self' <= 51.175.
Proof.
  assert (E : exists result self',
    SubstitutionBreaker.breakCipher (fun _ => 1) (fun _ _ => 1)
      (fun tape => Ok (1 # 2, tape))
      (SubstitutionBreaker.setOptimizationMethod (SubstitutionBreaker.new [])
         "frequency")
      "XXXY"
    = Ok (result, self')).
  { eexists. eexists. vm_compute. reflexivity. }
  destruct E as [result [self' E]]. exists result, self'.
  split; [exact E|].
  destruct (substitution_breakCipher_result _ _ _ _ _ "XXXY" _ eq_refl E)
    as [_ [mapping [score [_ [_ [_ R]]]]]].
  exact R.
Defined.

Local Close Scope Q_scope.

(* ================================================================= *)
(** ** SubstitutionBreaker: the possible solutions *)

Section SortedFacts.

Context {A : Type} (comp : A -> A -> bool) (le : A -> A -> Prop).
Hypothesis comp_le : forall x y, comp x y = true -> le x y.
Hypothesis comp_ge : forall x y, comp x y = false -> le y x.
Hypothesis le_trans : forall x y z, le x y -> le y z -> le x z.

Lemma insert_sorted (x : A) (l : list A) :
  StronglySorted le l -> StronglySorted le (insert comp x l).
Proof.
  induction l as [|y l IH]; intros Hs; cbn [insert].
  - constructor; constructor.
  - apply StronglySorted_inv in Hs as Hs'. destruct Hs' as [Hl Hy].
    destruct (comp x y) eqn:E.
    + constructor; [exact Hs|]. constructor; [apply comp_le, E|].
      rewrite Forall_forall in *. intros z Hz.
      apply (le_trans x y z); [apply comp_le, E | apply Hy, Hz].
    + constructor; [apply IH, Hl|].
      rewrite Forall_forall in *. intros z Hz.
      apply (Permutation_in _ (Permutation_sym (insert_perm comp x l))) in Hz.
      destruct Hz as [<-|Hz]; [apply comp_ge, E | apply Hy, Hz].
Qed.

Lemma std_sort_sorted (l : list A) : StronglySorted le (std_sort comp l).
Proof.
  unfold std_sort.
  assert (G : forall l acc, StronglySorted le acc ->
    StronglySorted le (fold_left (fun acc x => insert comp x acc) l acc)).
  { clear l. induction l as [|x l IH]; intros acc Hacc; [exact Hacc|].
    cbn [fold_left]. apply IH, insert_sorted, Hacc. }
  apply G. constructor.
Qed.

End SortedFacts.

Lemma string_leb_trans (a b c : string) :
  String.leb a b = true -> String.leb b c = true -> String.leb a c = true.
Proof.
  unfold String.leb. intros H1 H2.
  destruct (String.compare a b) eqn:E1; try discriminate H1.
  - apply String.compare_eq_iff in E1. subst b. exact H2.
  - destruct (String.compare b c) eqn:E2; try discriminate H2.
    + apply String.compare_eq_iff in E2. subst c. rewrite E1. reflexivity.
    + rewrite (string_compare_trans a b c E1 E2). reflexivity.
Qed.

Lemma string_ltb_leb (a b : string) :
  String.ltb a b = true -> String.leb a b = true.
Proof.
  unfold String.ltb, String.leb. destruct (String.compare a b);
    intros H; try discriminate H; reflexivity.
Qed.

Lemma string_nltb_leb (a b : string) :
  String.ltb a b = false -> String.leb b a = true.
Proof.
  unfold String.ltb, String.leb. rewrite (String.compare_antisym b a).
  destruct (String.compare a b); intros H; try discriminate H; reflexivity.
Qed.

Lemma string_leb_neq_ltb (a b : string) :
  String.leb a b = true -> a <> b -> String.ltb a b = true.
Proof.
  unfold String.ltb, String.leb. destruct (String.compare a b) eqn:E;
    intros H Hne; try discriminate H; [|reflexivity].
  apply String.compare_eq_iff in E. contradiction.
Qed.

Lemma unique_In (x : string) (v : list string) :
  In x (SubstitutionBreaker.unique v) <-> In x v.
Proof.
  induction v as [|y v IH]; [reflexivity|].
  cbn [SubstitutionBreaker.unique]. destruct v as [|z v].
  - reflexivity.
  - destruct (String.eqb_spec y z) as [->|Hne].
    + rewrite IH. cbn [In]. tauto.
    + cbn [In] in *. rewrite IH. tauto.
Qed.

Lemma unique_length (v : list string) :
  (List.length (SubstitutionBreaker.unique v) <= List.length v)%nat /\
  (v <> [] -> SubstitutionBreaker.unique v <> []).
Proof.
  induction v as [|y v IH]; [split; [reflexivity | contradiction]|].
  cbn [SubstitutionBreaker.unique]. destruct v as [|z v].
  - split; [reflexivity | discriminate].
  - destruct IH as [IH1 IH2]. destruct (String.eqb y z).
    + split; [cbn [List.length] in *; lia|]. intros _. apply IH2. discriminate.
    + split; [cbn [List.length] in *; lia | discriminate].
Qed.

(** On a sorted vector [unique] leaves a strictly ascending one. *)
Lemma unique_strict (v : list string) :
  StronglySorted (fun a b => String.leb a b = true) v ->
  StronglySorted (fun a b => String.ltb a b = true)
    (SubstitutionBreaker.unique v).
Proof.
  induction v as [|y v IH]; intros Hs; [constructor|].
  apply StronglySorted_inv in Hs. destruct Hs as [Hv Hy].
  cbn [SubstitutionBreaker.unique]. destruct v as [|z v].
  - constructor; constructor.
  - destruct (String.eqb_spec y z) as [->|Hne]; [apply IH, Hv|].
    constructor; [apply IH, Hv|].
    rewrite Forall_forall in *. intros w Hw. apply (proj1 (unique_In _ _)) in Hw.
    apply string_leb_neq_ltb; [apply Hy, Hw|].
    intros ->. apply Hne. apply String.leb_antisym.
    + apply Hy. left. reflexivity.
    + apply StronglySorted_inv in Hv. destruct Hv as [_ Hz].
      rewrite Forall_forall in Hz. destruct Hw as [->|Hw];
        [unfold String.leb; rewrite string_compare_refl; reflexivity|].
      apply Hz, Hw.
Qed.

(** X25.  When [getPossibleSolutions] returns on a valid input, it returns
    between one and three texts, all different and in ascending order:
    among them the solution of the frequency analysis, each a decryption of
    the ciphertext with some mapping. *)
Theorem substitution_getPossibleSolutions :
  forall (self self' : SubstitutionBreaker.t) (ciphertext : string)
    (solutions : list string),
    CipherBreaker.validateInput ciphertext = true ->
    SubstitutionBreaker.getPossibleSolutions self ciphertext
    = Ok (solutions, self') ->
    (1 <= List.length solutions <= 3)%nat /\
    StronglySorted (fun a b => String.ltb a b = true) solutions /\
    NoDup solutions /\
    In (SubstitutionBreaker.breakByFrequency self ciphertext) solutions /\
    forall solution, In solution solutions ->
      exists mapping,
        solution = SubstitutionBreaker.applyMapping ciphertext mapping.
Proof.
  intros self self' ciphertext solutions Hv H.
  unfold SubstitutionBreaker.getPossibleSolutions in H. rewrite Hv in H.
  cbn [negb] in H. cbv zeta in H.
  destruct (SubstitutionBreaker.improveMappingWithBigrams _ _)
    as [bigramMapping|e]; [|discriminate H].
  cbn [bind] in H.
  destruct (SubstitutionBreaker.hillClimbOptimization _ _ _ _)
    as [[hillClimbMapping self1]|e]; [|discriminate H].
  cbn [bind app] in H. injection H as <- <-.
  set (all := [SubstitutionBreaker.applyMapping ciphertext
                 (SubstitutionBreaker.generateMapping self ciphertext);
               SubstitutionBreaker.applyMapping ciphertext bigramMapping;
               SubstitutionBreaker.applyMapping ciphertext hillClimbMapping]).
  pose proof (std_sort_perm String.ltb all) as P.
  pose proof (std_sort_sorted String.ltb (fun a b => String.leb a b = true)
                string_ltb_leb string_nltb_leb string_leb_trans all) as S.
  pose proof (unique_strict _ S) as U.
  pose proof (unique_length (std_sort String.ltb all)) as [L1 L2].
  rewrite <- (Permutation_length P) in L1. cbn [List.length all] in L1.
  split; [|split; [exact U|split; [|split]]].
  - split; [|exact L1].
    destruct (SubstitutionBreaker.unique (std_sort String.ltb all)) eqn:E;
      [|cbn [List.length]; lia].
    exfalso. apply L2; [|reflexivity]. intros E'.
    apply Permutation_sym in P. rewrite E' in P.
    apply Permutation_nil in P. discriminate P.
  - clear - U. induction U as [|x l Hl IH Hx]; constructor; [|exact IH].
    intros Hin. rewrite Forall_forall in Hx. specialize (Hx x Hin).
    unfold String.ltb in Hx. rewrite string_compare_refl in Hx.
    discriminate Hx.
  - apply unique_In, (Permutation_in _ P). left. reflexivity.
  - intros solution Hin. apply (proj1 (unique_In _ _)) in Hin.
    apply (Permutation_in _ (Permutation_sym P)) in Hin.
    destruct Hin as [<-|[<-|[<-|[]]]]; eexists; reflexivity.
Qed.

(** With two draws for each pass, the first 3 and the second 5, hill
    climbing from a permutation on a text of two letters or more runs to
    its end. *)
Lemma generateNeighborMapping_draws (self : SubstitutionBreaker.t)
  (mapping : SubstitutionBreaker.Mapping) (tape : list nat) :
  Spec.isPermutation mapping ->
  SubstitutionBreaker.rng self = 3%nat :: 5%nat :: tape ->
  exists neighbor,
    SubstitutionBreaker.generateNeighborMapping self mapping
    = Ok (neighbor, SubstitutionBreaker.set_rng self tape).
Proof.
  intros [Hkeys _] Hrng. unfold SubstitutionBreaker.generateNeighborMapping.
  cbv zeta. rewrite Hkeys, Hrng.
  change (List.length alphabet) with 26%nat.
  cbn [Nat.ltb Nat.leb SubstitutionBreaker.dist bind].
  change (3 mod 26)%nat with 3%nat.
  cbn [SubstitutionBreaker.distOtherThan].
  change (5 mod 26)%nat with 5%nat. cbn [Nat.eqb bind].
  eexists. reflexivity.
Qed.

Lemma hillClimbLoop_total (ciphertext : string) (tape : list nat) (n : nat) :
  (2 <= Utils.alphaCount ciphertext)%Z ->
  forall s,
    Spec.isPermutation (SubstitutionBreaker.currentMapping s) ->
    SubstitutionBreaker.rng (SubstitutionBreaker.this s)
    = (List.concat (List.repeat [3%nat; 5%nat] n) ++ tape)%list ->
    exists s', SubstitutionBreaker.hillClimbLoop ciphertext n s = Ok s'.
Proof.
  intros Hletters. induction n as [|n IH]; intros s Hperm Hrng.
  - exists s. reflexivity.
  - cbn [SubstitutionBreaker.hillClimbLoop].
    cbn [List.repeat List.concat app] in Hrng.
    destruct (generateNeighborMapping_draws _ _ _ Hperm Hrng)
      as [neighbor Hn].
    pose proof (generateNeighborMapping_permutation _ _ _ _ Hperm Hn) as Hp.
    destruct (proj2 (scoreMapping_cases neighbor ciphertext Hp) Hletters)
      as [score [Hs _]].
    unfold SubstitutionBreaker.hillClimbStep. rewrite Hn. cbn [bind].
    rewrite Hs. cbn [bind].
    destruct (Qltb _ score); cbn [bind]; apply IH;
      solve [exact Hp | exact Hperm | reflexivity].
Qed.

Lemma hillClimbOptimization_total (self : SubstitutionBreaker.t)
  (initialMapping : SubstitutionBreaker.Mapping) (ciphertext : string)
  (n : nat) :
  (2 <= Utils.alphaCount ciphertext)%Z ->
  Spec.isPermutation initialMapping ->
  SubstitutionBreaker.rng self = List.concat (List.repeat [3%nat; 5%nat] n) ->
  exists mapping self',
    SubstitutionBreaker.hillClimbOptimization self initialMapping ciphertext
      (Z.of_nat n)
    = Ok (mapping, self').
Proof.
  intros Hletters Hperm Hrng.
  unfold SubstitutionBreaker.hillClimbOptimization,
    SubstitutionBreaker.hillClimbStart.
  destruct (proj2 (scoreMapping_cases initialMapping ciphertext Hperm)
              Hletters) as [score [-> _]].
  cbn [bind]. rewrite Nat2Z.id.
  destruct (hillClimbLoop_total ciphertext [] n Hletters
              {| SubstitutionBreaker.currentMapping := initialMapping;
                 SubstitutionBreaker.currentScore := score;
                 SubstitutionBreaker.iteration := 0;
                 SubstitutionBreaker.improvementCount := 0;
                 SubstitutionBreaker.this := self |}) as [s' ->].
  - exact Hperm.
  - cbn. rewrite app_nil_r. exact Hrng.
  - cbn [bind]. eexists. eexists. reflexivity.
Qed.

Lemma substitution_getPossibleSolutions_witness :
  exists solutions self',
    SubstitutionBreaker.getPossibleSolutions
      (SubstitutionBreaker.new (List.concat (List.repeat [3%nat; 5%nat] 500)))
      "XXXY"
    = Ok (solutions, self') /\
    NoDup solutions.
Proof.
  assert (E : exists solutions self',
    SubstitutionBreaker.getPossibleSolutions
      (SubstitutionBreaker.new (List.concat (List.repeat [3%nat; 5%nat] 500)))
      "XXXY"
    = Ok (solutions, self')).
  { unfold SubstitutionBreaker.getPossibleSolutions.
    change (CipherBreaker.validateInput "XXXY") with true.
    cbn [negb]. cbv zeta.
    set (self := SubstitutionBreaker.new _).
    assert (I : exists bigramMapping,
      SubstitutionBreaker.improveMappingWithBigrams
        (SubstitutionBreaker.generateMapping self "XXXY") "XXXY"
      = Ok bigramMapping).
    { eexists. vm_compute. reflexivity. }
    destruct I as [bigramMapping ->]. cbn [bind].
    destruct (hillClimbOptimization_total self
                (SubstitutionBreaker.generateMapping self "XXXY") "XXXY" 500)
      as [mapping [self' H]].
    - vm_compute. discriminate.
    - apply generateMapping_permutation.
    - reflexivity.
    - change (Z.of_nat 500) with 500 in H. rewrite H. cbn [bind].
      eexists. eexists. reflexivity. }
  destruct E as [solutions [self' E]]. exists solutions, self'.
  split; [exact E|].
  destruct (substitution_getPossibleSolutions _ _ "XXXY" _ eq_refl E)
    as [_ [_ [N _]]].
  exact N.
Defined.

(* ================================================================= *)
(** ** VigenereBreaker: keys and the Caesar cipher *)

Lemma charToShift_toupper (k : ascii) :
  VigenereBreaker.charToShift (toupper k) = VigenereBreaker.charToShift k.
Proof.
  apply Z.eqb_eq. revert k.
  apply (for_all_chars
           (fun k => (VigenereBreaker.charToShift (toupper k)
                      =? VigenereBreaker.charToShift k)%Z)).
  vm_compute. reflexivity.
Qed.

Lemma charToShift_shiftToChar (s : Z) :
  0 <= s <= 25 ->
  VigenereBreaker.charToShift (VigenereBreaker.shiftToChar s) = s.
Proof.
  intros Hs.
  assert (H : forallb (fun s => (VigenereBreaker.charToShift
                                   (VigenereBreaker.shiftToChar s) =? s)%Z)
                (range_incl 0 25) = true) by (vm_compute; reflexivity).
  rewrite forallb_forall in H. apply Z.eqb_eq, H, range_incl_In. lia.
Qed.

Lemma keyCharAt_one (k : ascii) (i : nat) :
  VigenereBreaker.keyCharAt (String k EmptyString) i = k.
Proof.
  unfold VigenereBreaker.keyCharAt. cbn [String.length].
  rewrite Nat.mod_1_r. reflexivity.
Qed.

Lemma encryptFrom_one (k : ascii) (i : nat) (rest : string) :
  VigenereBreaker.encryptFrom (String k EmptyString) i rest
  = CaesarBreaker.caesarShift rest (VigenereBreaker.charToShift k).
Proof.
  revert i. induction rest as [|c rest IH]; intros i; [reflexivity|].
  cbn [VigenereBreaker.encryptFrom]. rewrite IH, keyCharAt_one.
  unfold CaesarBreaker.caesarShift. cbn [string_map]. f_equal.
  cbv zeta. rewrite charToShift_toupper, vigenereShift_caesarShiftChar.
  unfold CaesarBreaker.caesarShiftChar.
  destruct (isalpha c); reflexivity.
Qed.

Lemma decryptFrom_one (k : ascii) (i : nat) (rest : string) :
  VigenereBreaker.decryptFrom (String k EmptyString) i rest
  = CaesarBreaker.caesarShift rest (26 - VigenereBreaker.charToShift k).
Proof.
  revert i. induction rest as [|c rest IH]; intros i; [reflexivity|].
  cbn [VigenereBreaker.decryptFrom]. rewrite IH, keyCharAt_one.
  unfold CaesarBreaker.caesarShift. cbn [string_map]. f_equal.
  cbv zeta. rewrite charToShift_toupper, vigenereShift_caesarShiftChar.
  unfold CaesarBreaker.caesarShiftChar.
  destruct (isalpha c); reflexivity.
Qed.

(** X26.  With a key of one character the Vigenere cipher is the Caesar cipher
    of [CaesarBreaker], the two directions exchanged:
    [VigenereBreaker::encrypt] with the key character [k] is
    [CaesarBreaker::decrypt] with the key [charToShift(k)], and
    [VigenereBreaker::decrypt] is [CaesarBreaker::encrypt].  The key
    character that [shiftToChar] makes of a shift from 0 to 25 stands for
    that shift. *)
Theorem vigenere_one_letter_key :
  forall (text : string) (s : Z),
    0 <= s <= 25 ->
    VigenereBreaker.charToShift (VigenereBreaker.shiftToChar s) = s /\
    VigenereBreaker.encrypt text
      (String (VigenereBreaker.shiftToChar s) EmptyString)
    = CaesarBreaker.decrypt text s /\
    VigenereBreaker.decrypt text
      (String (VigenereBreaker.shiftToChar s) EmptyString)
    = CaesarBreaker.encrypt text s.
Proof.
  intros text s Hs. split; [apply charToShift_shiftToChar, Hs|].
  unfold VigenereBreaker.encrypt, VigenereBreaker.decrypt,
    CaesarBreaker.encrypt, CaesarBreaker.decrypt.
  rewrite encryptFrom_one, decryptFrom_one, charToShift_shiftToChar by exact Hs.
  rewrite int32_small by (unfold INT_MAX; lia).
  split; reflexivity.
Qed.

Lemma vigenere_one_letter_key_witness :
  0 <= 3 <= 25 /\
  VigenereBreaker.decrypt "Khoor" (String (VigenereBreaker.shiftToChar 3) EmptyString)
  = CaesarBreaker.encrypt "Khoor" 3.
Proof.
  split; [lia|].
  destruct (vigenere_one_letter_key "Khoor" 3) as [_ [_ H]]; [lia|].
  exact H.
Defined.

(* ================================================================= *)
(** ** VigenereBreaker: the columns of a text *)

Lemma get_None_iff (s : string) (k : nat) :
  String.get k s = None <-> (String.length s <= k)%nat.
Proof.
  revert k. induction s as [|x s IH]; intros k.
  - destruct k; cbn; split; intros; try reflexivity; lia.
  - destruct k as [|k]; cbn [String.get String.length].
    + split; [discriminate | lia].
    + rewrite IH. lia.
Qed.

Lemma get_app_one (s : string) (c : ascii) (k : nat) :
  String.get k (s ++ String c EmptyString)
  = if (k <? String.length s)%nat then String.get k s
    else if (k =? String.length s)%nat then Some c else None.
Proof.
  revert k. induction s as [|x s IH]; intros k.
  - destruct k as [|[|k]]; reflexivity.
  - destruct k as [|k]; [reflexivity|].
    cbn [String.append String.get String.length]. rewrite IH. reflexivity.
Qed.

Lemma appendAt_length (position : nat) (c : ascii) (substrings : list string) :
  List.length (VigenereBreaker.appendAt position c substrings)
  = List.length substrings.
Proof.
  revert position. induction substrings as [|s rest IH]; intros position;
    [destruct position; reflexivity|].
  destruct position; cbn [VigenereBreaker.appendAt List.length];
    [reflexivity|]. rewrite IH. reflexivity.
Qed.

Lemma appendAt_nth (position : nat) (c : ascii) (substrings : list string)
  (j : nat) :
  (position < List.length substrings)%nat ->
  nth j (VigenereBreaker.appendAt position c substrings) EmptyString
  = if (j =? position)%nat
    then (nth j substrings EmptyString ++ String c EmptyString)%string
    else nth j substrings EmptyString.
Proof.
  revert position j. induction substrings as [|s rest IH];
    intros position j Hp; [cbn in Hp; lia|].
  destruct position as [|position]; destruct j as [|j];
    cbn [VigenereBreaker.appendAt nth Nat.eqb]; try reflexivity.
  apply IH. cbn [List.length] in Hp. lia.
Qed.

Lemma columnsOf_step (keyLength : nat) (text : string) (c : ascii)
  (substrings : list string) :
  (0 < keyLength)%nat ->
  columnsOf keyLength text substrings ->
  columnsOf keyLength (text ++ String c EmptyString)
    (VigenereBreaker.appendAt (String.length text mod keyLength) c substrings).
Proof.
  intros HL [Hlen Hcols].
  pose proof (Nat.mod_upper_bound (String.length text) keyLength
                ltac:(lia)) as Hmod.
  pose proof (Nat.div_mod_eq (String.length text) keyLength) as Hdiv.
  set (n := String.length text) in *.
  set (q := (n / keyLength)%nat) in *. set (r := (n mod keyLength)%nat) in *.
  split; [rewrite appendAt_length; exact Hlen|].
  intros j k Hj. rewrite appendAt_nth by lia.
  rewrite (get_app_one text c). fold n.
  destruct (Nat.eqb_spec j r) as [->|Hne].
  - assert (Hq : String.length (nth r substrings EmptyString) = q).
    { pose proof (Hcols r q Hmod) as H1.
      assert (H2 : String.get (q * keyLength + r) text = None)
        by (apply get_None_iff; fold n; lia).
      rewrite H2 in H1. apply get_None_iff in H1.
      destruct q as [|q'] eqn:Eq; [lia|].
      pose proof (Hcols r q' Hmod) as H3.
      destruct (String.get q' (nth r substrings EmptyString)) eqn:E.
      - assert (~ (String.length (nth r substrings EmptyString) <= q')%nat).
        { intros H. apply get_None_iff in H. congruence. }
        lia.
      - symmetry in H3. apply get_None_iff in H3. fold n in H3. nia. }
    rewrite get_app_one, Hq.
    destruct (Nat.ltb_spec k q) as [Hk|Hk].
    + destruct (Nat.ltb_spec (k * keyLength + r) n) as [H|H]; [|nia].
      apply Hcols, Hmod.
    + destruct (Nat.eqb_spec k q) as [->|Hk'].
      * destruct (Nat.ltb_spec (q * keyLength + r) n) as [H|H]; [lia|].
        destruct (Nat.eqb_spec (q * keyLength + r) n) as [H'|H'];
          [reflexivity | lia].
      * destruct (Nat.ltb_spec (k * keyLength + r) n) as [H|H]; [nia|].
        destruct (Nat.eqb_spec (k * keyLength + r) n) as [H'|H'];
          [nia | reflexivity].
  - rewrite (Hcols j k Hj).
    destruct (Nat.ltb_spec (k * keyLength + j) n) as [H|H]; [reflexivity|].
    destruct (Nat.eqb_spec (k * keyLength + j) n) as [H'|H'].
    + exfalso. apply Hne. unfold r. rewrite <- H'.
      rewrite Nat.add_comm, Nat.Div0.mod_add. symmetry.
      apply Nat.mod_small, Hj.
    + apply get_None_iff. fold n. lia.
Qed.

Lemma splitLoop_columns (keyLength : nat) (rest text : string)
  (substrings : list string) :
  (0 < keyLength)%nat ->
  columnsOf keyLength text substrings ->
  columnsOf keyLength (text ++ rest)
    (VigenereBreaker.splitLoop keyLength (String.length text) rest substrings).
Proof.
  intros HL. revert text substrings.
  induction rest as [|c rest IH]; intros text substrings Hc.
  - rewrite string_app_nil_r. exact Hc.
  - cbn [VigenereBreaker.splitLoop].
    pose proof (IH _ _ (columnsOf_step keyLength text c substrings HL Hc)) as H.
    rewrite string_app_length in H. cbn [String.length] in H.
    rewrite Nat.add_1_r in H.
    rewrite string_app_assoc in H. exact H.
Qed.

(** X27.  [splitByKeyPosition(text, keyLength)] with a positive [keyLength]
    returns [keyLength] strings; the string of index [j] holds, in their
    order, the characters of [text] at the indices [j], [j + keyLength],
    [j + 2 keyLength] and so on. *)
Theorem splitByKeyPosition_columns :
  forall (text : string) (keyLength : Z),
    0 < keyLength ->
    exists substrings,
      VigenereBreaker.splitByKeyPosition text keyLength = Ok substrings /\
      Z.of_nat (List.length substrings) = keyLength /\
      forall j k : nat, (j < List.length substrings)%nat ->
        String.get k (nth j substrings EmptyString)
        = String.get (k * List.length substrings + j) text.
Proof.
  intros text keyLength HL. unfold VigenereBreaker.splitByKeyPosition.
  destruct (Z.ltb_spec keyLength 0) as [H|_]; [lia|].
  destruct (Z.eqb_spec keyLength 0) as [H|_]; [lia|].
  eexists. split; [reflexivity|].
  assert (C : columnsOf (Z.to_nat keyLength) EmptyString
                (repeat EmptyString (Z.to_nat keyLength))).
  { split; [apply repeat_length|]. intros j k _.
    replace (nth j (repeat EmptyString (Z.to_nat keyLength)) EmptyString)
      with EmptyString.
    - transitivity (@None ascii); [destruct k; reflexivity|].
      destruct (k * Z.to_nat keyLength + j)%nat; reflexivity.
    - symmetry. apply nth_repeat. }
  pose proof (splitLoop_columns (Z.to_nat keyLength) text EmptyString _
                ltac:(lia) C) as [Hlen Hcols].
  cbn [String.append String.length] in Hlen, Hcols.
  rewrite Hlen. split; [lia|]. exact Hcols.
Qed.

Lemma splitByKeyPosition_columns_witness :
  exists substrings,
    VigenereBreaker.splitByKeyPosition "ABCDEFGH" 3 = Ok substrings /\
    String.get 1 (nth 2 substrings EmptyString) = Some "F"%char.
Proof.
  destruct (splitByKeyPosition_columns "ABCDEFGH" 3) as [substrings [E [L H]]];
    [lia|].
  exists substrings. split; [exact E|].
  assert (L' : List.length substrings = 3%nat) by lia.
  rewrite (H 2%nat 1%nat) by lia. rewrite L'. reflexivity.
Defined.

(* ================================================================= *)
(** ** VigenereBreaker: the key and the result *)

Lemma appendAt_forall (p : ascii -> bool) (position : nat) (c : ascii)
  (substrings : list string) :
  p c = true ->
  Forall (fun s => string_forall p s = true) substrings ->
  Forall (fun s => string_forall p s = true)
    (VigenereBreaker.appendAt position c substrings).
Proof.
  intros Hc H. revert position.
  induction H as [|s rest Hs Hrest IH]; intros position;
    [destruct position; constructor|].
  destruct position; cbn [VigenereBreaker.appendAt]; constructor; auto.
  rewrite string_forall_app, Hs. cbn [string_forall]. rewrite Hc. reflexivity.
Qed.

Lemma splitLoop_forall (p : ascii -> bool) (keyLength i : nat)
  (rest : string) (substrings : list string) :
  string_forall p rest = true ->
  Forall (fun s => string_forall p s = true) substrings ->
  Forall (fun s => string_forall p s = true)
    (VigenereBreaker.splitLoop keyLength i rest substrings).
Proof.
  revert i substrings. induction rest as [|c rest IH];
    intros i substrings Hrest Hsubs; [exact Hsubs|].
  cbn [string_forall] in Hrest. apply andb_prop in Hrest.
  destruct Hrest as [Hc Hrest]. cbn [VigenereBreaker.splitLoop].
  apply IH; [exact Hrest|]. apply appendAt_forall; assumption.
Qed.

Lemma splitLoop_length (keyLength i : nat) (rest : string)
  (substrings : list string) :
  List.length (VigenereBreaker.splitLoop keyLength i rest substrings)
  = List.length substrings.
Proof.
  revert i substrings. induction rest as [|c rest IH]; intros i substrings;
    [reflexivity|].
  cbn [VigenereBreaker.splitLoop]. rewrite IH. apply appendAt_length.
Qed.

Lemma shiftToChar_isupper (s : Z) :
  0 <= s <= 25 -> isupper (VigenereBreaker.shiftToChar s) = true.
Proof.
  intros Hs.
  assert (H : forallb (fun s => isupper (VigenereBreaker.shiftToChar s))
                (range_incl 0 25) = true) by (vm_compute; reflexivity).
  rewrite forallb_forall in H. apply H, range_incl_In. lia.
Qed.

(** The best key of the Caesar breaker on a non-empty text of capital
    letters is a shift from 0 to 25. *)
Lemma findBestKey_range (hardware_concurrency : Z) (self : CaesarBreaker.t)
  (text : string) :
  1 <= hardware_concurrency ->
  text <> EmptyString ->
  string_forall isupper text = true ->
  exists key self',
    CaesarBreaker.findBestKey hardware_concurrency self text
    = Ok (key, self') /\
    0 <= key <= 25.
Proof.
  intros Hhc Hne Hup. unfold CaesarBreaker.findBestKey.
  assert (Hn : Utils.normalizeText text <> EmptyString)
    by (rewrite (normalizeText_fixed text Hup); exact Hne).
  rewrite (findPossibleKeys_result hardware_concurrency self text Hhc
             (or_intror Hn)).
  cbn [bind].
  destruct (ranked_keys self (Utils.normalizeText text)) as [P _].
  cbv zeta in P.
  destruct (std_sort _ (std_sort _ _)) as [|[key score] rest].
  - apply Permutation_sym, Permutation_nil in P. discriminate P.
  - eexists. eexists. split; [reflexivity|].
    apply range_incl_In. apply (Permutation_in _ (Permutation_sym P)).
    left. reflexivity.
Qed.

Lemma findSubkey_letter (hardware_concurrency : Z) (self : VigenereBreaker.t)
  (subtextCipher : string) :
  1 <= hardware_concurrency ->
  string_forall isupper subtextCipher = true ->
  exists keyChar self',
    VigenereBreaker.findSubkey hardware_concurrency self subtextCipher
    = Ok (keyChar, self') /\
    isupper keyChar = true.
Proof.
  intros Hhc Hup. unfold VigenereBreaker.findSubkey.
  destruct subtextCipher as [|c rest].
  - eexists. eexists. split; reflexivity.
  - destruct (findBestKey_range hardware_concurrency
                (VigenereBreaker.caesarBreaker self) (String c rest) Hhc
                ltac:(discriminate) Hup) as [key [breaker [-> Hkey]]].
    cbn [bind]. eexists. eexists. split; [reflexivity|].
    apply shiftToChar_isupper, Hkey.
Qed.

(** [findKey] with a positive key length returns a key of that length
    made of capital letters. *)
Lemma findKey_result (hardware_concurrency : Z) (self : VigenereBreaker.t)
  (ciphertext : string) (keyLength : Z) :
  1 <= hardware_concurrency ->
  1 <= keyLength ->
  exists key self',
    VigenereBreaker.findKey hardware_concurrency self ciphertext keyLength
    = Ok (key, self') /\
    Z.of_nat (String.length key) = keyLength /\
    string_forall isupper key = true.
Proof.
  intros Hhc HL. unfold VigenereBreaker.findKey.
  unfold VigenereBreaker.splitByKeyPosition.
  destruct (Z.ltb_spec keyLength 0) as [H|_]; [lia|].
  destruct (Z.eqb_spec keyLength 0) as [H|_]; [lia|].
  cbv zeta. cbn [bind].
  set (substrings := VigenereBreaker.splitLoop _ _ _ _).
  assert (Hup : Forall (fun s => string_forall isupper s = true) substrings).
  { apply splitLoop_forall; [apply normalizeText_upper|].
    apply Forall_forall. intros s Hs. apply repeat_spec in Hs. subst s.
    reflexivity. }
  set (f := fun (acc : string * VigenereBreaker.t) (position : Z) => _).
  assert (G : forall positions key self,
    string_forall isupper key = true ->
    exists key' self',
      foldM f positions (key, self) = Ok (key', self') /\
      String.length key'
      = (String.length key + List.length positions)%nat /\
      string_forall isupper key' = true).
  { induction positions as [|position positions IH]; intros key self0 Hkey.
    - exists key, self0. split; [reflexivity|]. split; [cbn; lia | exact Hkey].
    - cbn [foldM]. unfold f at 1.
      assert (Hstep : exists key1 self1,
        match nth_error substrings (Z.to_nat position) with
        | Some (String _ _ as substring) =>
            ' (keyChar, self2) <-
              VigenereBreaker.findSubkey hardware_concurrency self0 substring ;;
            Ok ((key ++ String keyChar EmptyString)%string, self2)
        | _ => Ok ((key ++ "A")%string, self0)
        end = Ok (key1, self1) /\
        String.length key1 = S (String.length key) /\
        string_forall isupper key1 = true).
      { destruct (nth_error substrings (Z.to_nat position))
          as [[|c rest]|] eqn:E.
        - eexists. eexists. split; [reflexivity|].
          rewrite string_app_length, string_forall_app, Hkey.
          split; [cbn; lia | reflexivity].
        - apply nth_error_In in E. rewrite Forall_forall in Hup.
          destruct (findSubkey_letter hardware_concurrency self0
                      (String c rest) Hhc (Hup _ E))
            as [keyChar [self2 [-> Hc]]].
          cbn [bind]. eexists. eexists. split; [reflexivity|].
          rewrite string_app_length, string_forall_app, Hkey.
          cbn [string_forall String.length]. rewrite Hc.
          split; [lia | reflexivity].
        - eexists. eexists. split; [reflexivity|].
          rewrite string_app_length, string_forall_app, Hkey.
          split; [cbn; lia | reflexivity]. }
      destruct Hstep as [key1 [self1 [-> [Hlen1 Hup1]]]].
      destruct (IH key1 self1 Hup1) as [key' [self' [-> [Hlen' Hup']]]].
      exists key', self'. split; [reflexivity|].
      split; [cbn [List.length]; lia | exact Hup']. }
  destruct (G (range_incl 0 (keyLength - 1)) EmptyString self eq_refl)
    as [key [self' [-> [Hlen Hkey]]]].
  exists key, self'. split; [reflexivity|]. split; [|exact Hkey].
  rewrite Hlen. unfold range_incl. rewrite length_map, length_seq.
  cbn [String.length]. lia.
Qed.

Lemma decryptFrom_length (key : string) (i : nat) (rest : string) :
  String.length (VigenereBreaker.decryptFrom key i rest) = String.length rest.
Proof.
  revert i. induction rest as [|c rest IH]; intros i; [reflexivity|].
  cbn [VigenereBreaker.decryptFrom String.length]. rewrite IH. reflexivity.
Qed.

Lemma decrypt_length (ciphertext key : string) :
  String.length (VigenereBreaker.decrypt ciphertext key)
  = String.length ciphertext.
Proof.
  unfold VigenereBreaker.decrypt. destruct key; [reflexivity|].
  apply decryptFrom_length.
Qed.

(** The candidate key lengths are those from [minKeyLength] to
    [maxKeyLength]. *)
Lemma findKeyLength_candidates (self : VigenereBreaker.t)
  (ciphertext : string) :
  1 <= VigenereBreaker.minKeyLength self ->
  0 <= VigenereBreaker.minSubstringLength self
    <= size (Utils.normalizeText ciphertext) ->
  exists lengths self',
    VigenereBreaker.findKeyLength self ciphertext = Ok (lengths, self') /\
    Permutation lengths
      (range_incl (VigenereBreaker.minKeyLength self)
         (VigenereBreaker.maxKeyLength self)).
Proof.
  intros Hmin Hsub.
  set (nt := Utils.normalizeText ciphertext) in *.
  destruct (kasiskiExamination_scores self nt Hmin Hsub)
    as [kasiskiResults [Hk [Hknd [Hkin Hkout]]]].
  unfold VigenereBreaker.findKeyLength. fold nt. rewrite Hk. cbn [bind].
  set (self1 := VigenereBreaker.set_analysisResults self _).
  destruct (indexOfCoincidenceMethod_scores self1 nt Hmin)
    as [icResults [Hic Hperm]].
  rewrite Hic. cbn [bind].
  eexists. eexists. split; [reflexivity|].
  apply (combineKeyLengthResults_ranking
           (VigenereBreaker.minKeyLength self)
           (VigenereBreaker.maxKeyLength self)
           (Spec.kasiskiScore self nt) (icOf nt)).
  - exact Hknd.
  - intros L v Hin. destruct (Hkin L v Hin) as [HL ->].
    split; [exact HL | reflexivity].
  - exact Hkout.
  - exists (icOf nt). split; [exact Hperm|].
    intros L HL. reflexivity.
Qed.

(** A text of fewer than [minSubstringLength] letters makes the search for
    repeated substrings read past its end. *)
Lemma findKeyLength_short (self : VigenereBreaker.t) (ciphertext : string) :
  0 <= VigenereBreaker.minSubstringLength self <= 10 ->
  size (Utils.normalizeText ciphertext)
  < VigenereBreaker.minSubstringLength self ->
  VigenereBreaker.findKeyLength self ciphertext = Fail out_of_range.
Proof.
  intros Hsub Hshort.
  unfold VigenereBreaker.findKeyLength, VigenereBreaker.kasiskiExamination,
    VigenereBreaker.findRepeatingSubstrings.
  cbv zeta.
  destruct (Z.ltb_spec (VigenereBreaker.minSubstringLength self) 0); [lia|].
  destruct (Z.ltb_spec 10 (VigenereBreaker.minSubstringLength self)); [lia|].
  destruct (Z.ltb_spec (size (Utils.normalizeText ciphertext))
              (VigenereBreaker.minSubstringLength self)); [|lia].
  reflexivity.
Qed.

Lemma tryKeyLength_result (hardware_concurrency : Z)
  (self : VigenereBreaker.t) (ciphertext : string) (keyLength : Z) :
  1 <= hardware_concurrency ->
  1 <= keyLength ->
  exists key self',
    VigenereBreaker.tryKeyLength hardware_concurrency self ciphertext keyLength
    = Ok ((key, VigenereBreaker.decrypt ciphertext key,
           VigenereBreaker.scorePlaintext
             (VigenereBreaker.decrypt ciphertext key)), self') /\
    Z.of_nat (String.length key) = keyLength /\
    string_forall isupper key = true.
Proof.
  intros Hhc HL. unfold VigenereBreaker.tryKeyLength.
  destruct (findKey_result hardware_concurrency self ciphertext keyLength
              Hhc HL) as [key [self' [-> H]]].
  cbn [bind]. exists key, self'. split; [reflexivity | exact H].
Qed.

Lemma percentage_of_score (score : Q) :
  (0 < score)%Q -> (score <= 1)%Q ->
  (CipherBreaker.updateConfidence score 1 == score * 100)%Q /\
  (0 < CipherBreaker.updateConfidence score 1)%Q /\
  (CipherBreaker.updateConfidence score 1 <= 100)%Q.
Proof.
  intros H0 H1.
  rewrite (updateConfidence_exact score) by (split; [apply Qlt_le_weak|]; assumption).
  assert (E : (score / 1 * 100 == score * 100)%Q) by field.
  rewrite E. split; [reflexivity|]. split.
  - apply Qmult_lt_0_compat; [exact H0 | reflexivity].
  - setoid_replace (100 : Q) with (1 * 100)%Q at 2 by reflexivity.
    apply Qmult_le_compat_r; [exact H1 | discriminate].
Qed.

Lemma range_incl_single (lo : Z) : range_incl lo lo = [lo].
Proof.
  unfold range_incl. replace (lo - lo + 1) with 1 by lia.
  change (Z.to_nat 1) with 1%nat. cbn [seq map].
  change (Z.of_nat 0) with 0. rewrite Z.add_0_r. reflexivity.
Qed.

(** X28.  A valid ciphertext with fewer letters than [minSubstringLength],
    which is at most 10, makes [breakCipher] end with [std::out_of_range].
    With at least that many letters and one key length to try
    ([minKeyLength = maxKeyLength], so that no task is started),
    [breakCipher] returns the decryption of the ciphertext with a key of
    that many capital letters; the result is as long as the ciphertext,
    and the confidence is 100 times its [scoreEnglishness], above 0 and at
    most 100. *)
Theorem vigenere_breakCipher_known_length :
  forall (hardware_concurrency : Z) (self : VigenereBreaker.t)
    (ciphertext : string),
    1 <= hardware_concurrency ->
    CipherBreaker.validateInput ciphertext = true ->
    0 <= VigenereBreaker.minSubstringLength self <= 10 ->
    let letters := size (Utils.normalizeText ciphertext) in
    (letters < VigenereBreaker.minSubstringLength self ->
     VigenereBreaker.breakCipher hardware_concurrency self ciphertext
     = Fail out_of_range) /\
    (VigenereBreaker.minSubstringLength self <= letters ->
     1 <= VigenereBreaker.minKeyLength self ->
     VigenereBreaker.maxKeyLength self = VigenereBreaker.minKeyLength self ->
     exists key self',
       VigenereBreaker.breakCipher hardware_concurrency self ciphertext
       = Ok (VigenereBreaker.decrypt ciphertext key, self') /\
       Z.of_nat (String.length key) = VigenereBreaker.minKeyLength self /\
       string_forall isupper key = true /\
       String.length (VigenereBreaker.decrypt ciphertext key)
       = String.length ciphertext /\
       (VigenereBreaker.getConfidence self'
        == FrequencyAnalyzer.scoreEnglishness
             (VigenereBreaker.decrypt ciphertext key) * 100)%Q /\
       (0 < VigenereBreaker.getConfidence self')%Q /\
       (VigenereBreaker.getConfidence self' <= 100)%Q).
Proof.
  intros hardware_concurrency self ciphertext Hhc Hv Hsub letters.
  unfold VigenereBreaker.breakCipher. rewrite Hv. cbn [negb]. cbv zeta.
  set (self0 := VigenereBreaker.set_analysisResults self []).
  split.
  - intros Hshort.
    rewrite (findKeyLength_short self0 ciphertext Hsub Hshort). reflexivity.
  - intros Hlong Hmin Hmax.
    destruct (findKeyLength_candidates self0 ciphertext)
      as [lengths [self1 [-> P]]]; [cbn; lia | cbn; lia |].
    cbn [bind]. cbn [VigenereBreaker.minKeyLength
                     VigenereBreaker.maxKeyLength self0
                     VigenereBreaker.set_analysisResults] in P.
    rewrite Hmax in P.
    pose proof (range_incl_single (VigenereBreaker.minKeyLength self)) as R.
    rewrite R in P. apply Permutation_sym, Permutation_length_1_inv in P.
    subst lengths.
    destruct (tryKeyLength_result hardware_concurrency self1 ciphertext
                (VigenereBreaker.minKeyLength self) Hhc Hmin)
      as [key [self2 [-> [Hl Hu]]]].
    cbn [bind]. exists key. eexists. split; [reflexivity|].
    split; [exact Hl|]. split; [exact Hu|]. split; [apply decrypt_length|].
    apply percentage_of_score; apply scoreEnglishness_bounds.
Qed.

Lemma vigenere_breakCipher_known_length_witness :
  VigenereBreaker.breakCipher 4 VigenereBreaker.new "Hi"
  = Fail out_of_range /\
  exists key self',
    VigenereBreaker.breakCipher 4
      (VigenereBreaker.setKeyLengthRange VigenereBreaker.new 2 2) "LXFOPV"
    = Ok (VigenereBreaker.decrypt "LXFOPV" key, self') /\
    Z.of_nat (String.length key) = 2.
Proof.
  split.
  - destruct (vigenere_breakCipher_known_length 4 VigenereBreaker.new "Hi")
      as [H _]; [lia | reflexivity | cbn; lia |].
    apply H. vm_compute. reflexivity.
  - destruct (vigenere_breakCipher_known_length 4
                (VigenereBreaker.setKeyLengthRange VigenereBreaker.new 2 2)
                "LXFOPV")
      as [_ H]; [lia | reflexivity | cbn; lia |].
    destruct H as [key [self' [E [L _]]]];
      [vm_compute; discriminate | cbn; lia | reflexivity |].
    exists key, self'. split; [exact E | exact L].
Defined.

(** The loop of [getPossibleSolutions] over the key lengths it tries. *)
Lemma solutionsOfCandidates (hardware_concurrency : Z) (ciphertext : string)
  (lo hi : Z) (candidateKeyLengths : list Z) :
  1 <= hardware_concurrency ->
  1 <= lo ->
  (forall L, In L candidateKeyLengths -> lo <= L <= hi) ->
  forall (self : VigenereBreaker.t) (solutions : list string),
    exists found self',
      foldM
        (fun acc keyLength =>
           let '(solutions, self) := acc in
           '(key, self) <-
             VigenereBreaker.findKey hardware_concurrency self ciphertext
               keyLength ;;
           let solution := VigenereBreaker.decrypt ciphertext key in
           Ok ((solutions ++ [solution])%list, self))
        candidateKeyLengths (solutions, self)
      = Ok ((solutions ++ found)%list, self') /\
      Forall2
        (fun keyLength solution =>
           exists key,
             solution = VigenereBreaker.decrypt ciphertext key /\
             Z.of_nat (String.length key) = keyLength /\
             string_forall isupper key = true)
        candidateKeyLengths found.
Proof.
  intros Hhc Hlo.
  set (f := fun (acc : list string * VigenereBreaker.t) (keyLength : Z) => _).
  induction candidateKeyLengths as [|L rest IH]; intros Hin self solutions.
  - exists [], self. rewrite app_nil_r. split; [reflexivity | constructor].
  - cbn [foldM]. unfold f at 1.
    destruct (findKey_result hardware_concurrency self ciphertext L Hhc)
      as [key [self1 [-> [Hl Hu]]]].
    { specialize (Hin L (or_introl eq_refl)). lia. }
    cbn [bind]. cbv zeta.
    destruct (IH (fun L' H => Hin L' (or_intror H)) self1
                (solutions ++ [VigenereBreaker.decrypt ciphertext key])%list)
      as [found [self' [-> F]]].
    exists (VigenereBreaker.decrypt ciphertext key :: found), self'.
    rewrite <- app_assoc. split; [reflexivity|].
    constructor; [|exact F]. exists key. auto.
Qed.

(** X29.  A valid ciphertext with fewer letters than [minSubstringLength],
    which is at most 10, makes [getPossibleSolutions] end with
    [std::out_of_range].  With at least that many letters it returns one
    solution for each of the first five candidate key lengths (for all of
    them when they are fewer), in their order: the decryption of the
    ciphertext with a key of that many capital letters, as long as the
    ciphertext.  The candidates are the lengths from [minKeyLength] to
    [maxKeyLength]. *)
Theorem vigenere_getPossibleSolutions :
  forall (hardware_concurrency : Z) (self : VigenereBreaker.t)
    (ciphertext : string),
    1 <= hardware_concurrency ->
    CipherBreaker.validateInput ciphertext = true ->
    0 <= VigenereBreaker.minSubstringLength self <= 10 ->
    let letters := size (Utils.normalizeText ciphertext) in
    (letters < VigenereBreaker.minSubstringLength self ->
     VigenereBreaker.getPossibleSolutions hardware_concurrency self ciphertext
     = Fail out_of_range) /\
    (VigenereBreaker.minSubstringLength self <= letters ->
     1 <= VigenereBreaker.minKeyLength self ->
     exists candidateKeyLengths solutions self',
       VigenereBreaker.getPossibleSolutions hardware_concurrency self
         ciphertext
       = Ok (solutions, self') /\
       Permutation candidateKeyLengths
         (range_incl (VigenereBreaker.minKeyLength self)
            (VigenereBreaker.maxKeyLength self)) /\
       Forall2
         (fun keyLength solution =>
            exists key,
              solution = VigenereBreaker.decrypt ciphertext key /\
              Z.of_nat (String.length key) = keyLength /\
              string_forall isupper key = true)
         (firstn 5 candidateKeyLengths) solutions /\
       Forall
         (fun solution => String.length solution = String.length ciphertext)
         solutions).
Proof.
  intros hardware_concurrency self ciphertext Hhc Hv Hsub letters.
  unfold VigenereBreaker.getPossibleSolutions. rewrite Hv. cbn [negb].
  split.
  - intros Hshort.
    rewrite (findKeyLength_short self ciphertext Hsub Hshort). reflexivity.
  - intros Hlong Hmin.
    destruct (findKeyLength_candidates self ciphertext)
      as [lengths [self1 [-> P]]]; [lia | lia |].
    cbn [bind].
    change (let maxTries := Z.min 5 (Z.of_nat (List.length lengths)) in ?x)
      with x.
    assert (Hfirst : firstn (Z.to_nat (Z.min 5 (Z.of_nat (List.length lengths))))
                       lengths
                     = firstn 5 lengths).
    { destruct (Z.min_spec 5 (Z.of_nat (List.length lengths)))
        as [[H ->]|[H ->]]; [reflexivity|].
      rewrite Nat2Z.id, firstn_all. symmetry. apply firstn_all2. lia. }
    rewrite Hfirst.
    destruct (solutionsOfCandidates hardware_concurrency ciphertext
                (VigenereBreaker.minKeyLength self)
                (VigenereBreaker.maxKeyLength self) (firstn 5 lengths)
                Hhc Hmin) with (self := self1) (solutions := @nil string)
      as [found [self' [E F]]].
    { intros L HL. apply range_incl_In, (Permutation_in _ P).
      rewrite <- (firstn_skipn 5 lengths). apply in_or_app. left. exact HL. }
    exists lengths, found, self'. split; [exact E|].
    split; [exact P|]. split; [exact F|].
    clear - F. induction F as [|L s ls ss [key [-> _]] _ IH]; constructor;
      [apply decrypt_length | exact IH].
Qed.

Lemma vigenere_getPossibleSolutions_witness :
  VigenereBreaker.getPossibleSolutions 4 VigenereBreaker.new "Hi"
  = Fail out_of_range /\
  exists solutions self',
    VigenereBreaker.getPossibleSolutions 4 VigenereBreaker.new "LXFOPV"
    = Ok (solutions, self') /\
    Forall (fun solution => String.length solution = 6%nat) solutions.
Proof.
  split.
  - destruct (vigenere_getPossibleSolutions 4 VigenereBreaker.new "Hi")
      as [H _]; [lia | reflexivity | cbn; lia |].
    apply H. vm_compute. reflexivity.
  - destruct (vigenere_getPossibleSolutions 4 VigenereBreaker.new "LXFOPV")
      as [_ H]; [lia | reflexivity | cbn; lia |].
    destruct H as [lengths [solutions [self' [E [_ [_ F]]]]]];
      [vm_compute; discriminate | cbn; lia |].
    exists solutions, self'. split; [exact E | exact F].
Defined.

(* ================================================================= *)
(** ** AutoCipherDetector: the scores and the detected type *)

Local Open Scope Q_scope.

Lemma indexOfCoincidence_nonneg (text : string) :
  (Utils.alphaCount text <= 46341)%Z ->
  0 <= FrequencyAnalyzer.calculateIndexOfCoincidence text.
Proof.
  intros HN. rewrite (calculateIndexOfCoincidence_small text HN).
  apply indexOfCoincidence_bounds.
Qed.

Lemma notPlaintext_range (englishnessScore limit : Q) :
  0 < limit ->
  0 <= AutoCipherDetector.notPlaintext englishnessScore limit <= 1.
Proof.
  intros Hpos. unfold AutoCipherDetector.notPlaintext. cbv zeta.
  split; [apply Q.le_max_l|]. apply Q.max_lub; [discriminate|].
  destruct (Qltb englishnessScore limit) eqn:E; [apply Qle_refl|].
  apply Qltb_ge in E.
  apply Qle_shift_div_r; [exact Hpos|]. rewrite Qmult_1_l.
  apply Qle_trans with (limit - 0).
  - unfold Qminus. apply Qplus_le_r, Qopp_le_compat.
    apply Qle_trans with limit; [apply Qlt_le_weak, Hpos | exact E].
  - unfold Qminus. setoid_replace (limit + - 0) with limit by ring.
    apply Qle_refl.
Qed.

(** [x > limit ? 1.0 : x / limit] *)
Lemma ratio_range (x limit : Q) :
  0 < limit -> 0 <= x ->
  0 <= (if Qltb limit x then 1 else x / limit) <= 1.
Proof.
  intros Hpos Hx. destruct (Qltb limit x) eqn:E; [split; discriminate|].
  apply Qltb_ge in E. split.
  - apply Qle_shift_div_l; [exact Hpos|]. rewrite Qmult_0_l. exact Hx.
  - apply Qle_shift_div_r; [exact Hpos|]. rewrite Qmult_1_l. exact E.
Qed.

Lemma freqRange_order (frequencies : list (ascii * Q)) :
  frequencies <> [] ->
  snd (AutoCipherDetector.freqRange frequencies)
  <= fst (AutoCipherDetector.freqRange frequencies).
Proof.
  unfold AutoCipherDetector.freqRange.
  assert (G : forall (l : list (ascii * Q)) (acc : Q * Q),
    snd acc <= fst acc ->
    snd (fold_left
           (fun acc pair => (Qmax (fst acc) (snd pair),
                             Qmin (snd acc) (snd pair))) l acc)
    <= fst (fold_left
              (fun acc pair => (Qmax (fst acc) (snd pair),
                                Qmin (snd acc) (snd pair))) l acc)).
  { induction l as [|p l IH]; intros acc H; [exact H|].
    cbn [fold_left]. apply IH. cbn [fst snd].
    apply Qle_trans with (snd acc); [apply Q.le_min_l|].
    apply Qle_trans with (fst acc); [exact H | apply Q.le_max_l]. }
  destruct frequencies as [|p l]; [contradiction|]. intros _.
  cbn [fold_left]. apply G. cbn [fst snd].
  apply Qle_trans with (snd p); [apply Q.le_min_r | apply Q.le_max_r].
Qed.

Lemma calculateFrequency_nonempty (text : string) :
  (0 < Utils.alphaCount text)%Z ->
  FrequencyAnalyzer.calculateFrequency text <> [].
Proof.
  intros Hpos E. pose proof (total_calculateFrequency text Hpos) as T.
  rewrite E in T. vm_compute in T. discriminate T.
Qed.

Lemma fold_left_nonneg {A : Type} (f : Q -> A -> Q) (l : list A) :
  (forall acc x, 0 <= acc -> 0 <= f acc x) ->
  forall acc, 0 <= acc -> 0 <= fold_left f l acc.
Proof.
  intros Hf. induction l as [|x l IH]; intros acc H; [exact H|].
  cbn [fold_left]. apply IH, Hf, H.
Qed.

Lemma fold_left_nonnegZ {A : Type} (f : Z -> A -> Z) (l : list A) :
  (forall acc x, (0 <= acc)%Z -> (0 <= f acc x)%Z) ->
  forall acc, (0 <= acc)%Z -> (0 <= fold_left f l acc)%Z.
Proof.
  intros Hf. induction l as [|x l IH]; intros acc H; [exact H|].
  cbn [fold_left]. apply IH, Hf, H.
Qed.

Lemma calculateCaesarScore_range (text : string) :
  (0 < Utils.alphaCount text <= 46341)%Z ->
  0 <= AutoCipherDetector.calculateCaesarScore text <= 1.
Proof.
  intros [Hpos HN]. unfold AutoCipherDetector.calculateCaesarScore. cbv zeta.
  pose proof (freqRange_order _ (calculateFrequency_nonempty text Hpos)) as Hr.
  destruct (AutoCipherDetector.freqRange _) as [maxFreq minFreq].
  cbn [fst snd] in Hr.
  apply weighted_range; try discriminate; try reflexivity.
  - apply ratio_range; [reflexivity | apply indexOfCoincidence_nonneg, HN].
  - apply ratio_range; [reflexivity|].
    unfold Qminus. rewrite <- (Qplus_opp_r minFreq).
    apply Qplus_le_l, Hr.
  - apply notPlaintext_range. reflexivity.
Qed.

Lemma calculateSubstitutionScore_range (text : string) :
  (0 < Utils.alphaCount text)%Z ->
  exists score,
    AutoCipherDetector.calculateSubstitutionScore text = Some score /\
    ((Utils.alphaCount text <= 46341)%Z -> 0 <= score <= 1).
Proof.
  intros Hpos. unfold AutoCipherDetector.calculateSubstitutionScore.
  cbv zeta.
  pose proof (calculateFrequency_nonempty text Hpos) as Hne.
  destruct (FrequencyAnalyzer.calculateFrequency text) as [|p l];
    [contradiction|].
  set (freqValues := map snd (p :: l)).
  change (map snd (p :: l)) with freqValues.
  assert (Hn : 0 < inject_Z (Z.of_nat (List.length freqValues))).
  { change 0 with (inject_Z 0). rewrite <- Zlt_Qlt.
    unfold freqValues. cbn [map List.length]. lia. }
  destruct freqValues as [|v vs] eqn:E; [discriminate E|].
  rewrite <- E in *. clear E. eexists. split; [reflexivity|]. intros HN.
  apply weighted_range; try discriminate; try reflexivity.
  - apply ratio_range; [reflexivity | apply indexOfCoincidence_nonneg, HN].
  - apply ratio_range; [reflexivity|].
    apply Qle_shift_div_l; [exact Hn|]. rewrite Qmult_0_l.
    apply fold_left_nonneg; [|apply Qle_refl].
    intros acc x Hacc. apply Qle_trans with (0 + 0); [discriminate|].
    apply Qplus_le_compat; [exact Hacc | apply Qsquare_nonneg].
  - apply notPlaintext_range. reflexivity.
Qed.

Lemma countRepeats_nonneg (text : string) :
  (0 <= AutoCipherDetector.countRepeats text)%Z.
Proof.
  unfold AutoCipherDetector.countRepeats. cbv zeta.
  apply fold_left_nonnegZ; [|lia].
  intros acc len Hacc. apply fold_left_nonnegZ; [|exact Hacc].
  intros acc' i Hacc'. destruct (String.index _ _ _); lia.
Qed.

Lemma calculateVigenereScore_range (text : string) :
  (Utils.alphaCount text <= 46341)%Z ->
  0 <= AutoCipherDetector.calculateVigenereScore text <= 1.
Proof.
  intros HN. unfold AutoCipherDetector.calculateVigenereScore. cbv zeta.
  pose proof (indexOfCoincidence_nonneg text HN) as Hic.
  pose proof (countRepeats_nonneg text) as Hrep.
  apply weighted_range; try discriminate; try reflexivity.
  - set (ic := FrequencyAnalyzer.calculateIndexOfCoincidence text) in *.
    destruct (Qle_bool 0.038 ic && Qle_bool ic 0.055) eqn:E1;
      [split; discriminate|].
    destruct (Qltb ic 0.038) eqn:E2.
    + apply Qltb_lt in E2. split.
      * apply Qle_shift_div_l; [reflexivity|]. rewrite Qmult_0_l. exact Hic.
      * apply Qle_shift_div_r; [reflexivity|]. rewrite Qmult_1_l.
        apply Qlt_le_weak, E2.
    + apply Qltb_ge in E2. split; [apply Q.le_max_l|].
      apply Q.max_lub; [discriminate|].
      assert (H55 : 0.055 <= ic).
      { apply andb_false_iff in E1. destruct E1 as [E1|E1].
        - exfalso. apply (proj2 (Qle_bool_iff _ _)) in E2. congruence.
        - apply Qlt_le_weak, Qnot_le_lt. intros H.
          apply (proj2 (Qle_bool_iff _ _)) in H. congruence. }
      apply Qle_trans with (1 - 0); [|discriminate].
      unfold Qminus. apply Qplus_le_r, Qopp_le_compat.
      apply Qle_shift_div_l; [reflexivity|]. rewrite Qmult_0_l.
      rewrite <- (Qplus_opp_r 0.055). apply Qplus_le_l, H55.
  - destruct (Z.ltb_spec 2 (AutoCipherDetector.countRepeats text)) as [H|H];
      [split; discriminate|].
    split.
    + apply Qle_shift_div_l; [reflexivity|]. rewrite Qmult_0_l.
      change 0 with (inject_Z 0). rewrite <- Zle_Qle. exact Hrep.
    + apply Qle_shift_div_r; [reflexivity|]. rewrite Qmult_1_l.
      change 2 with (inject_Z 2). rewrite <- Zle_Qle. exact H.
  - apply notPlaintext_range. reflexivity.
Qed.

Lemma calculatePlaintextScore_range (text : string) :
  (0 < Utils.alphaCount text)%Z ->
  exists score,
    AutoCipherDetector.calculatePlaintextScore text = Ok score /\
    0 < score /\ score <= 1.
Proof.
  intros Hpos. unfold AutoCipherDetector.calculatePlaintextScore. cbv zeta.
  destruct (proj2 (findCommonBigrams_letters text 5) Hpos) as [bigrams ->].
  cbn [bind]. eexists. split; [reflexivity|].
  pose proof (scoreEnglishness_bounds text) as [He0 He1].
  set (e := FrequencyAnalyzer.scoreEnglishness text) in *.
  set (ic := Qmax 0 _).
  set (b := Qmin 1 _).
  assert (Hic : 0 <= ic <= 1).
  { unfold ic. split; [apply Q.le_max_l|]. apply Q.max_lub; [discriminate|].
    apply Qle_trans with (1 - 0); [|discriminate].
    unfold Qminus. apply Qplus_le_r, Qopp_le_compat.
    apply Qmult_le_0_compat; [apply Qabs_nonneg | discriminate]. }
  assert (Hb : 0 <= b <= 1).
  { unfold b. split; [|apply Q.le_min_l]. apply Q.min_glb; [discriminate|].
    apply fold_left_nonneg; [|apply Qle_refl].
    intros acc x Hacc. destruct (existsb _ _); [|exact Hacc].
    apply Qle_trans with (0 + 0); [discriminate|].
    apply Qplus_le_compat; [exact Hacc | discriminate]. }
  split.
  - apply Qlt_le_trans with (e * 0.5 + 0 + 0).
    + rewrite !Qplus_0_r. apply Qmult_lt_0_compat; [exact He0 | reflexivity].
    + apply Qplus_le_compat; [apply Qplus_le_r|];
        apply Qmult_le_0_compat; try discriminate; [apply Hic | apply Hb].
  - apply weighted_range; try discriminate; try reflexivity;
      [|exact Hic | exact Hb].
    split; [apply Qlt_le_weak, He0 | exact He1].
Qed.

Lemma scores_in_name_order (plaintext caesar substitution vigenere : option Q) :
  assign String.compare "vigenere" vigenere
    (assign String.compare "substitution" substitution
       (assign String.compare "caesar" caesar
          (assign String.compare "plaintext" plaintext [])))
  = [("caesar", caesar); ("plaintext", plaintext);
     ("substitution", substitution); ("vigenere", vigenere)].
Proof. reflexivity. Qed.

(** The loop of [detectCipherType] returns a name of the map with the
    largest score, once one score is above 0. *)
Lemma bestCipher_spec (allScores : list (string * option Q)) :
  (forall name score, In (name, score) allScores -> exists q, score = Some q) ->
  (exists name q, In (name, Some q) allScores /\ 0 < q) ->
  let best := AutoCipherDetector.bestCipher allScores in
  In (fst best, Some (snd best)) allScores /\
  0 < snd best /\
  forall name q, In (name, Some q) allScores -> q <= snd best.
Proof.
  intros Hsome Hpos. cbv zeta. unfold AutoCipherDetector.bestCipher.
  set (f := fun (best : string * Q) (pair : string * option Q) => _).
  assert (G : forall l best,
    (forall name score, In (name, score) l -> exists q, score = Some q) ->
    let best' := fold_left f l best in
    (best' = best \/ In (fst best', Some (snd best')) l) /\
    snd best <= snd best' /\
    forall name q, In (name, Some q) l -> q <= snd best').
  { induction l as [|[name score] l IH]; intros best Hl; cbv zeta.
    - split; [left; reflexivity|]. split; [apply Qle_refl|].
      intros name q [].
    - cbn [fold_left].
      destruct (Hl name score (or_introl eq_refl)) as [q ->].
      assert (Hl' : forall n s, In (n, s) l -> exists q, s = Some q)
        by (intros n s H; apply (Hl n s); right; exact H).
      assert (Hf : f best (name, Some q)
                   = if Qltb (snd best) q then (name, q) else best)
        by reflexivity.
      rewrite Hf. clear Hf.
      destruct (Qltb (snd best) q) eqn:E.
      + apply Qltb_lt in E.
        destruct (IH (name, q) Hl') as [H1 [H2 H3]]. cbv zeta in H1, H2, H3.
        cbn [fst snd] in H2.
        split; [|split].
        * right. destruct H1 as [H1|H1].
          -- rewrite H1. left. reflexivity.
          -- right. exact H1.
        * apply Qle_trans with q; [apply Qlt_le_weak, E | exact H2].
        * intros n q' [H|H]; [|apply (H3 n q' H)].
          injection H as _ <-. exact H2.
      + apply Qltb_ge in E.
        destruct (IH best Hl') as [H1 [H2 H3]]. cbv zeta in H1, H2, H3.
        split; [|split].
        * destruct H1 as [H1|H1]; [left; exact H1 | right; right; exact H1].
        * exact H2.
        * intros n q' [H|H]; [|apply (H3 n q' H)].
          injection H as _ <-. apply Qle_trans with (snd best); assumption. }
  destruct (G allScores ("unknown", 0) Hsome) as [H1 [H2 H3]].
  cbv zeta in H1, H2, H3. cbn [snd] in H2.
  destruct Hpos as [name [q [Hin Hq]]].
  assert (Hbest : 0 < snd (fold_left f allScores ("unknown", 0)))
    by (apply Qlt_le_trans with q; [exact Hq | apply (H3 name q Hin)]).
  split; [|split; [exact Hbest | exact H3]].
  destruct H1 as [H1|H1]; [|exact H1].
  rewrite H1 in Hbest. cbn [snd] in Hbest. discriminate Hbest.
Qed.

(** X30.  [detectCipherType] answers "unknown" with confidence 0 and no
    score on a text shorter than [minTextLength], and for a negative
    [minTextLength] on every text.  On a longer text without any letter it
    ends with the [std::out_of_range] of [findCommonBigrams].  On a longer
    text with a letter it returns the four scores "caesar", "plaintext",
    "substitution" and "vigenere", each of them a number; the detected type
    is one of these four names, never "unknown", and the confidence is its
    score, above 0 and the largest of the four.  When the text has at most
    46341 letters, so that the Index of Coincidence is computed without
    overflow, each score lies between 0 and 1. *)
Theorem detectCipherType_result :
  forall (self : AutoCipherDetector.t) (ciphertext : string),
    let minTextLength := AutoCipherDetector.minTextLength self in
    (((minTextLength < 0)%Z \/ (size ciphertext < minTextLength)%Z) ->
     AutoCipherDetector.detectCipherType self ciphertext
     = Ok ("unknown", 0, [])) /\
    ((0 <= minTextLength <= size ciphertext)%Z ->
     Utils.alphaCount ciphertext = 0%Z ->
     AutoCipherDetector.detectCipherType self ciphertext
     = Fail out_of_range) /\
    ((0 <= minTextLength <= size ciphertext)%Z ->
     (0 < Utils.alphaCount ciphertext)%Z ->
     exists cipherType confidence scores,
       AutoCipherDetector.detectCipherType self ciphertext
       = Ok (cipherType, confidence, scores) /\
       map fst scores = ["caesar"; "plaintext"; "substitution"; "vigenere"] /\
       (forall name score, In (name, score) scores ->
          exists q, score = Some q /\
            ((Utils.alphaCount ciphertext <= 46341)%Z -> 0 <= q <= 1)) /\
       In (cipherType, Some confidence) scores /\
       0 < confidence /\
       forall name q, In (name, Some q) scores -> q <= confidence).
Proof.
  intros self ciphertext minTextLength.
  unfold AutoCipherDetector.detectCipherType. fold minTextLength.
  split; [|split].
  - intros [H|H].
    + apply Z.ltb_lt in H. rewrite H. reflexivity.
    + apply Z.ltb_lt in H. rewrite H, orb_true_r. reflexivity.
  - intros Hlen Hletters.
    destruct (Z.ltb_spec minTextLength 0) as [H|_]; [lia|].
    destruct (Z.ltb_spec (size ciphertext) minTextLength) as [H|_]; [lia|].
    cbn [orb]. unfold AutoCipherDetector.getAllCipherScores,
      AutoCipherDetector.calculatePlaintextScore. cbv zeta.
    rewrite (proj1 (findCommonBigrams_letters _ 5)); [reflexivity|].
    rewrite alphaCount_normalizeText. exact Hletters.
  - intros Hlen Hletters.
    destruct (Z.ltb_spec minTextLength 0) as [H|_]; [lia|].
    destruct (Z.ltb_spec (size ciphertext) minTextLength) as [H|_]; [lia|].
    cbn [orb]. unfold AutoCipherDetector.getAllCipherScores. cbv zeta.
    set (nt := Utils.normalizeText ciphertext).
    assert (Ent : Utils.alphaCount nt = Utils.alphaCount ciphertext)
      by (unfold nt; apply alphaCount_normalizeText).
    assert (Hnt : (0 < Utils.alphaCount nt)%Z) by (rewrite Ent; exact Hletters).
    destruct (calculatePlaintextScore_range nt Hnt) as [p [-> [Hp0 Hp1]]].
    destruct (calculateSubstitutionScore_range nt Hnt) as [s [-> Hs]].
    pose proof (calculateCaesarScore_range nt) as Hc.
    pose proof (calculateVigenereScore_range nt) as Hv.
    rewrite Ent in Hs, Hc, Hv.
    cbn [bind]. rewrite scores_in_name_order.
    set (c := AutoCipherDetector.calculateCaesarScore nt) in *.
    set (v := AutoCipherDetector.calculateVigenereScore nt) in *.
    set (scores := [("caesar", Some c); ("plaintext", Some p);
                    ("substitution", Some s); ("vigenere", Some v)]).
    assert (Hscores : forall name score, In (name, score) scores ->
              exists q, score = Some q /\
                ((Utils.alphaCount ciphertext <= 46341)%Z -> 0 <= q <= 1)).
    { intros name score [H|[H|[H|[H|[]]]]]; injection H as _ <-;
        eexists; (split; [reflexivity|]); intros HN.
      - apply Hc. lia.
      - split; [apply Qlt_le_weak, Hp0 | exact Hp1].
      - apply Hs, HN.
      - apply Hv, HN. }
    destruct (bestCipher_spec scores) as [B1 [B2 B3]].
    { intros name score H. destruct (Hscores name score H) as [q [-> _]].
      exists q. reflexivity. }
    { exists "plaintext", p. split; [right; left; reflexivity | exact Hp0]. }
    destruct (AutoCipherDetector.bestCipher scores) as [bestCipher bestScore].
    cbn [fst snd] in B1, B2, B3.
    exists bestCipher, bestScore, scores.
    split; [reflexivity|]. split; [reflexivity|].
    split; [exact Hscores|]. split; [exact B1|]. split; [exact B2 | exact B3].
Qed.

Lemma detectCipherType_result_witness :
  AutoCipherDetector.detectCipherType AutoCipherDetector.new "HELLO"
  = Ok ("unknown", 0, []) /\
  AutoCipherDetector.detectCipherType
    (AutoCipherDetector.setMinimumTextLength AutoCipherDetector.new 3) "1234"
  = Fail out_of_range /\
  exists cipherType confidence scores,
    AutoCipherDetector.detectCipherType
      (AutoCipherDetector.setMinimumTextLength AutoCipherDetector.new 3)
      "HELLO"
    = Ok (cipherType, confidence, scores) /\
    0 < confidence.
Proof.
  split; [|split].
  - destruct (detectCipherType_result AutoCipherDetector.new "HELLO")
      as [H _].
    apply H. right. vm_compute. reflexivity.
  - destruct (detectCipherType_result
                (AutoCipherDetector.setMinimumTextLength
                   AutoCipherDetector.new 3) "1234") as [_ [H _]].
    apply H; [vm_compute; split; discriminate | reflexivity].
  - destruct (detectCipherType_result
                (AutoCipherDetector.setMinimumTextLength
                   AutoCipherDetector.new 3) "HELLO") as [_ [_ H]].
    destruct H as [cipherType [confidence [scores [E [_ [_ [_ [P _]]]]]]]];
      [vm_compute; split; discriminate | reflexivity |].
    exists cipherType, confidence, scores. split; [exact E | exact P].
Defined.

Local Close Scope Q_scope.

(* ================================================================= *)
(** ** The fitness of a candidate, in the three solvers *)

Local Open Scope Q_scope.

(** *** The englishness score *)






(** *** The windows and their average *)






(** *** The words *)







Local Close Scope Q_scope.
